(** * Burgers' equation solver (hpc_coursework): shallow embedding and properties

    The development follows the C++ sources:
    - [src/parSrc/Burgers2P.cpp]  the partitioned engine (one worker per sub-block),
    - [src/serSrc/Burgers.cpp]    the single-process variant with an explicit stencil loop,
    - [src/Burgers.cpp]           the first, unpartitioned variant,
    - [src/Model.cpp]             run parameters.

    Scalars ([double] in the sources) are an abstract carrier [K] with the
    operations the code uses; the theorems that need algebra assume that the
    carrier is a commutative ring, which is the exact-arithmetic reading of
    the code.  Arrays ([double*]) are lists read with a default and written
    by index.  BLAS and MPI are given by their reference semantics; the
    helpers of [Helpers.h] and the decomposition service, whose definitions
    are not among the sources, are modelled from the specification.

    The file has four parts: the embedding of the sources, the lemmas on
    loops, sums and the term arrays, the properties C1 to C10, and further
    properties of the sources: the initial field, the output path, and the
    three variants against one another. *)

From Stdlib Require Import Ascii String.
From Stdlib Require Import List ZArith QArith Qround Qcanon Lia Bool Arith PeanoNat Ring ZArithRing.
Import ListNotations.
Close Scope Qc_scope.
Close Scope Q_scope.

Set Implicit Arguments.

(** ** Scalars *)

(** The operations on [double] that occur in the sources.  [half] is the
    literal [0.5]; [leb x y] is the comparison [x <= y]; [of_int] is the
    implicit conversion from [int]; [pow] is [std::pow]. *)
Class Arith (K : Type) : Type := {
  zero : K;
  one : K;
  half : K;
  add : K -> K -> K;
  sub : K -> K -> K;
  mul : K -> K -> K;
  div : K -> K -> K;
  opp : K -> K;
  pow : K -> K -> K;
  leb : K -> K -> bool;
  of_int : Z -> K
}.

(** Exact arithmetic: the carrier is a commutative ring, and a quotient
    changes sign with its numerator. *)
Class ArithLaws (K : Type) {A : Arith K} : Prop := {
  arith_ring : ring_theory zero one add mul sub opp (@eq K);
  arith_div_opp : forall x y : K, div (opp x) y = opp (div x y)
}.

(** The integers are the instance used to run the model on concrete data. *)
#[export] Instance ArithZ : Arith Z := {|
  zero := 0%Z;
  one := 1%Z;
  half := 0%Z;
  add := Z.add;
  sub := Z.sub;
  mul := Z.mul;
  div := Z.quot;
  opp := Z.opp;
  pow := Z.pow;
  leb := Z.leb;
  of_int := fun z => z
|}.

Lemma ArithLawsZ : @ArithLaws Z ArithZ.
Proof.
  constructor.
  - exact Zth.
  - intros x y. simpl. destruct (Z.eq_dec y 0) as [->|Hy].
    + destruct x; reflexivity.
    + apply Z.quot_opp_l. exact Hy.
Qed.

(** The rationals, in canonical form, are the instance used where the
    literal [0.5] matters.  [pow] is exact at the exponents the sources use
    on the examples: a natural number, and [0.5] on the square of a rational
    (the square root of [n/d] is taken as [sqrt(n*d)/d] on integers); other
    exponents are cut to their integer part. *)
#[export] Instance ArithQc : Arith Qc := {|
  zero := Q2Qc 0%Q;
  one := Q2Qc 1%Q;
  half := Q2Qc (1 # 2)%Q;
  add := Qcplus;
  sub := Qcminus;
  mul := Qcmult;
  div := Qcdiv;
  opp := Qcopp;
  pow := fun x y =>
           if Qeq_bool y (1 # 2)%Q
           then Q2Qc (Z.sqrt (Qnum x * Zpos (Qden x)) # Qden x)%Q
           else Qcpower x (Z.to_nat (Qfloor y));
  leb := fun x y => Qle_bool x y;
  of_int := fun z => Q2Qc (inject_Z z)
|}.

Lemma ArithLawsQc : @ArithLaws Qc ArithQc.
Proof.
  constructor.
  - exact Qcrt.
  - intros x y. simpl. unfold Qcdiv. ring.
Qed.

(** ** Loops and arrays *)

(** [for (int i = 0; i < n; i++) s = body(i, s);] *)
Fixpoint for_loop {S : Type} (n : nat) (body : nat -> S -> S) (s : S) : S :=
  match n with
  | O => s
  | Datatypes.S k => body k (for_loop k body s)
  end.

Section Arrays.
Context {K : Type} {A : Arith K}.

(** The literals [2.0] and [4.0]. *)
Definition two : K := add one one.
Definition four : K := add two two.

(** [a[i]] *)
Definition rd (a : list K) (i : nat) : K := nth i a zero.

(** [a[i] = v]; a write past the end of the list leaves the list as it is
    (the theorems that depend on a write state the extent of the array). *)
Fixpoint upd (a : list K) (i : nat) (v : K) : list K :=
  match a, i with
  | [], _ => []
  | _ :: t, O => v :: t
  | h :: t, Datatypes.S j => h :: upd t j v
  end.

(** [new double[n]]: the contents are indeterminate in C++; every use in
    the sources writes a cell before reading it. *)
Definition alloc (n : nat) : list K := repeat zero n.

(** [sum_{k < n} f k], accumulated from [k = 0]. *)
Fixpoint sum_upto (n : nat) (f : nat -> K) : K :=
  match n with
  | O => zero
  | Datatypes.S k => add (sum_upto k f) (f k)
  end.

(** A dense array given by its cells. *)
Definition tabulate (n : nat) (f : nat -> K) : list K := map f (seq 0 n).

(** Overwrite the cells of [c] selected by [sel] with [f]. *)
Definition overwrite (c : list K) (sel : nat -> bool) (f : nat -> K) : list K :=
  map (fun idx => if sel idx then f idx else rd c idx) (seq 0 (length c)).

(** *** BLAS level 1 and 3, by their reference semantics *)

(** [ddot(n, x, incx, y, incy)] *)
Definition ddot (n : nat) (x : list K) (incx : nat) (y : list K) (incy : nat) : K :=
  sum_upto n (fun i => mul (rd x (i * incx)) (rd y (i * incy))).

(** [dcopy(n, x, incx, y, incy)]: returns the new [y]. *)
Definition dcopy (n : nat) (x : list K) (incx : nat) (y : list K) (incy : nat) : list K :=
  for_loop n (fun i y' => upd y' (i * incy) (rd x (i * incx))) y.

Inductive Side := SideL | SideR.
Inductive Uplo := Upper | Lower.

(** Entry [(r, c)] of a column-major matrix with leading dimension [ld]. *)
Definition at_cm (a : list K) (ld r c : nat) : K := rd a (r + c * ld).

(** Entry [(r, c)] of the symmetric matrix of which [a] stores the [uplo]
    triangle: the other triangle of [a] is not referenced. *)
Definition sym_at (uplo : Uplo) (a : list K) (lda r c : nat) : K :=
  match uplo with
  | Upper => if r <=? c then at_cm a lda r c else at_cm a lda c r
  | Lower => if c <=? r then at_cm a lda r c else at_cm a lda c r
  end.

(** Is [idx] a cell of the [m x n] block of a matrix with leading dimension [ld]? *)
Definition in_block (m n ld idx : nat) : bool :=
  (idx mod ld <? m) && (idx / ld <? n).

(** [dsymm(side, uplo, M, N, alpha, A, lda, B, ldb, 0.0, C, ldc)]:
    [C := alpha*A*B] (side L) or [C := alpha*B*A] (side R).  Every call in
    the sources passes [beta = 0.0], for which [C] is written and not read. *)
Definition dsymm (side : Side) (uplo : Uplo) (m n : nat) (alpha : K)
    (a : list K) (lda : nat) (b : list K) (ldb : nat)
    (c : list K) (ldc : nat) : list K :=
  overwrite c (in_block m n ldc)
    (fun idx =>
       let r := idx mod ldc in
       let cl := idx / ldc in
       match side with
       | SideR => mul alpha (sum_upto n (fun k => mul (at_cm b ldb r k) (sym_at uplo a lda k cl)))
       | SideL => mul alpha (sum_upto m (fun k => mul (sym_at uplo a lda r k) (at_cm b ldb k cl)))
       end).

(** Entry [(r, c)] of the triangular matrix stored in the [uplo] triangle
    of [a]; the other triangle is not referenced and counts as zero. *)
Definition tri_at (uplo : Uplo) (a : list K) (lda r c : nat) : K :=
  match uplo with
  | Upper => if r <=? c then at_cm a lda r c else zero
  | Lower => if c <=? r then at_cm a lda r c else zero
  end.

(** [dtrmm(side, uplo, 'N', 'N', M, N, alpha, A, lda, B, ldb)]:
    [B := alpha*A*B] (side L) or [B := alpha*B*A] (side R), in place. *)
Definition dtrmm (side : Side) (uplo : Uplo) (m n : nat) (alpha : K)
    (a : list K) (lda : nat) (b : list K) (ldb : nat) : list K :=
  overwrite b (in_block m n ldb)
    (fun idx =>
       let r := idx mod ldb in
       let cl := idx / ldb in
       match side with
       | SideR => mul alpha (sum_upto n (fun k => mul (at_cm b ldb r k) (tri_at uplo a lda k cl)))
       | SideL => mul alpha (sum_upto m (fun k => mul (tri_at uplo a lda r k) (at_cm b ldb k cl)))
       end).

(** *** Helpers.h *)

(** Modelled from the spec: [GenSymm] of Helpers (its definition is not in
    the sources; the five-argument form called by the partitioned engine
    fills [out]).  A symmetric operator with [alpha] on the diagonal and
    [beta] on the two first off-diagonals, zero elsewhere, column-major
    with [Nyr] rows. *)
Definition GenSymm (alpha beta : K) (Nyr Nxr : nat) (out : list K) : list K :=
  overwrite out (fun idx => idx <? Nyr * Nxr)
    (fun idx =>
       let r := idx mod Nyr in
       let c := idx / Nyr in
       if r =? c then alpha
       else if (r =? c + 1) || (c =? r + 1) then beta
       else zero).

(** Modelled from the spec: [GenTrmm] of Helpers.  The backward
    first-difference operator: [alpha] on the diagonal, [beta] on the
    first super-diagonal ([UPPER], applied as a right-multiply) or on the
    first sub-diagonal (applied as a left-multiply), zero elsewhere. *)
Definition GenTrmm (alpha beta : K) (Nyr Nxr : nat) (UPPER : bool) (out : list K) : list K :=
  overwrite out (fun idx => idx <? Nyr * Nxr)
    (fun idx =>
       let r := idx mod Nyr in
       let c := idx / Nyr in
       if r =? c then alpha
       else if (if UPPER then c =? r + 1 else r =? c + 1) then beta
       else zero).

(** Modelled from the spec: [MatMul] of Helpers, the shifted elementwise
    product of step 5: cell [(i, j)] of the result is
    [p * Ui[i - offset_i][j - offset_j] * Vi[i][j]], and zero where the
    shifted sample is outside the local block.  Column [i] holds the cells
    [i*Ny .. i*Ny + Ny - 1]. *)
Definition MatMul (Ui Vi : list K) (Ny Nx : nat) (offset_i offset_j : bool) (p : K) : list K :=
  tabulate (Ny * Nx)
    (fun idx =>
       let i := idx / Ny in
       let j := idx mod Ny in
       if (offset_i && (i =? 0)) || (offset_j && (j =? 0)) then zero
       else mul (mul p (rd Ui ((i - Nat.b2n offset_i) * Ny + (j - Nat.b2n offset_j))))
                (rd Vi idx)).

(** Modelled from the spec: [SetZeroes] of Helpers fills the first [n]
    cells of a buffer with zeros. *)
Definition SetZeroes (buf : list K) (n : nat) : list K :=
  for_loop n (fun i b => upd b i zero) buf.

End Arrays.

(** ** The partitioned engine: [src/parSrc/Burgers2P.cpp] *)

Module Par.
Section Engine.
Variable K : Type.
Context {A : Arith K}.

(** The getters of the [Model] object of the partitioned engine (its
    header [Model2P.h] is not in the sources): local extents, spacings,
    coefficients, the displacement of the sub-block and the ranks of the
    four neighbours.  A negative rank is the no-neighbour sentinel
    ([MPI_PROC_NULL]), as the tests [up < 0] of [SetCaches] assume. *)
Record Model : Type := {
  GetLocNyr : nat;
  GetLocNxr : nat;
  GetNt : nat;
  GetX0 : K;
  GetY0 : K;
  GetDx : K;
  GetDy : K;
  GetDt : K;
  GetAx : K;
  GetAy : K;
  GetB : K;
  GetC : K;
  GetDisplX : nat;
  GetDisplY : nat;
  GetUp : Z;
  GetDown : Z;
  GetLeft : Z;
  GetRight : Z
}.

(** The instance variables of [Burgers2P]. *)
Record Burgers2P : Type := {
  U : list K;
  V : list K;
  dVel_dx_2_coeffs : list K;
  dVel_dy_2_coeffs : list K;
  dVel_dx_coeffs : list K;
  dVel_dy_coeffs : list K;
  upVel : list K;
  downVel : list K;
  leftVel : list K;
  rightVel : list K;
  E : K
}.

Definition set_UV (st : Burgers2P) (u v : list K) : Burgers2P :=
  {| U := u; V := v;
     dVel_dx_2_coeffs := dVel_dx_2_coeffs st; dVel_dy_2_coeffs := dVel_dy_2_coeffs st;
     dVel_dx_coeffs := dVel_dx_coeffs st; dVel_dy_coeffs := dVel_dy_coeffs st;
     upVel := upVel st; downVel := downVel st; leftVel := leftVel st; rightVel := rightVel st;
     E := E st |}.

Definition set_coeffs (st : Burgers2P) (x2 y2 x1 y1 : list K) : Burgers2P :=
  {| U := U st; V := V st;
     dVel_dx_2_coeffs := x2; dVel_dy_2_coeffs := y2;
     dVel_dx_coeffs := x1; dVel_dy_coeffs := y1;
     upVel := upVel st; downVel := downVel st; leftVel := leftVel st; rightVel := rightVel st;
     E := E st |}.

Definition set_caches (st : Burgers2P) (up down left right : list K) : Burgers2P :=
  {| U := U st; V := V st;
     dVel_dx_2_coeffs := dVel_dx_2_coeffs st; dVel_dy_2_coeffs := dVel_dy_2_coeffs st;
     dVel_dx_coeffs := dVel_dx_coeffs st; dVel_dy_coeffs := dVel_dy_coeffs st;
     upVel := up; downVel := down; leftVel := left; rightVel := right;
     E := E st |}.

Definition set_E (st : Burgers2P) (e : K) : Burgers2P :=
  {| U := U st; V := V st;
     dVel_dx_2_coeffs := dVel_dx_2_coeffs st; dVel_dy_2_coeffs := dVel_dy_2_coeffs st;
     dVel_dx_coeffs := dVel_dx_coeffs st; dVel_dy_coeffs := dVel_dy_coeffs st;
     upVel := upVel st; downVel := downVel st; leftVel := leftVel st; rightVel := rightVel st;
     E := e |}.

(** [Burgers2P::Burgers2P(Model &m)] *)
Definition Burgers2P_new (m : Model) : Burgers2P :=
  let Nyr := GetLocNyr m in
  let Nxr := GetLocNxr m in
  {| U := alloc (Nyr * Nxr); V := alloc (Nyr * Nxr);
     dVel_dx_2_coeffs := alloc (Nxr * Nxr); dVel_dy_2_coeffs := alloc (Nyr * Nyr);
     dVel_dx_coeffs := alloc (Nxr * Nxr); dVel_dy_coeffs := alloc (Nyr * Nyr);
     upVel := alloc Nxr; downVel := alloc Nxr;
     leftVel := alloc Nyr; rightVel := alloc Nyr;
     E := zero |}.

(** [Burgers2P::ComputeR] *)
Definition ComputeR (x y : K) : K := pow (add (mul x x) (mul y y)) half.

(** The value both assignments of the loop body of [SetInitialVelocity]
    store: [(r <= 1.0)? 2.0*pow(1.0-r,4.0) * (4.0*r+1.0) : 0.0]. *)
Definition bump (r : K) : K :=
  if leb r one
  then mul (mul two (pow (sub one r) four)) (add (mul four r) one)
  else zero.

(** [Burgers2P::SetInitialVelocity] *)
Definition SetInitialVelocity (m : Model) (st : Burgers2P) : Burgers2P :=
  let x0 := GetX0 m in
  let y0 := GetY0 m in
  let dx := GetDx m in
  let dy := GetDy m in
  let Nyr := GetLocNyr m in
  let Nxr := GetLocNxr m in
  let displ_x := GetDisplX m in
  let displ_y := GetDisplY m in
  let loc_x0 := add x0 (mul (of_int (Z.of_nat displ_x + 1)) dx) in
  let loc_y0 := sub y0 (mul (of_int (Z.of_nat displ_y + 1)) dy) in
  let uv :=
    for_loop Nxr (fun i uv =>
      for_loop Nyr (fun j uv =>
        let x := add loc_x0 (mul (of_int (Z.of_nat i)) dx) in
        let y := sub loc_y0 (mul (of_int (Z.of_nat j)) dy) in
        let r := ComputeR x y in
        let u1 := upd (fst uv) (i * Nyr + j) (bump r) in
        let v1 := upd (snd uv) (i * Nyr + j) (bump r) in
        (u1, v1)) uv) (U st, V st) in
  set_UV st (fst uv) (snd uv).

(** [Burgers2P::SetMatrixCoefficients] *)
Definition SetMatrixCoefficients (m : Model) (st : Burgers2P) : Burgers2P :=
  let Nyr := GetLocNyr m in
  let Nxr := GetLocNxr m in
  let dx := GetDx m in
  let dy := GetDy m in
  let ax := GetAx m in
  let ay := GetAy m in
  let c := GetC m in
  set_coeffs st
    (GenSymm (div (mul (opp two) c) (pow dx two)) (div c (pow dx two)) Nxr Nxr (dVel_dx_2_coeffs st))
    (GenSymm (div (mul (opp two) c) (pow dy two)) (div c (pow dy two)) Nyr Nyr (dVel_dy_2_coeffs st))
    (GenTrmm (div ax dx) (div (opp ax) dx) Nxr Nxr true (dVel_dx_coeffs st))
    (GenTrmm (div ay dy) (div (opp ay) dy) Nyr Nyr false (dVel_dy_coeffs st)).

(** Four boundary vectors: the ones a worker sends, or the ones its
    neighbours deliver, named by the direction of the neighbour. *)
Record Msgs : Type := {
  to_up : list K;
  to_down : list K;
  to_left : list K;
  to_right : list K
}.

(** The first part of [SetCaches]: the boundary rows and columns of [Vel],
    [myUpVel], [myDownVel], [myLeftVel], [myRightVel]; they are what the
    four [MPI_Sendrecv] calls send up, down, left and right. *)
Definition MyBounds (m : Model) (Vel : list K) : Msgs :=
  let Nyr := GetLocNyr m in
  let Nxr := GetLocNxr m in
  let ud :=
    for_loop Nxr (fun i ud =>
      (upd (fst ud) i (rd Vel (i * Nyr)),
       upd (snd ud) i (rd Vel (i * Nyr + (Nyr - 1)))))
      (alloc Nxr, alloc Nxr) in
  let lr :=
    for_loop Nyr (fun j lr =>
      (upd (fst lr) j (rd Vel j),
       upd (snd lr) j (rd Vel ((Nxr - 1) * Nyr + j))))
      (alloc Nyr, alloc Nyr) in
  {| to_up := fst ud; to_down := snd ud; to_left := fst lr; to_right := snd lr |}.

(** The receiving half of [MPI_Sendrecv(.., recvbuf, count, MPI_DOUBLE, source, ..)]:
    [count] cells of the message of [source] are copied into [recvbuf];
    with the no-neighbour sentinel as source nothing is received. *)
Definition MPI_Recv_into (recvbuf : list K) (count : nat) (source : Z) (msg : list K) : list K :=
  if (source <? 0)%Z then recvbuf
  else for_loop count (fun i b => upd b i (rd msg i)) recvbuf.

(** [Burgers2P::SetCaches]; [inc] holds what the neighbours send to this
    worker: [to_down inc] is the vector its up neighbour sends down,
    [to_up inc] the one its down neighbour sends up, [to_right inc] the
    one its left neighbour sends right, [to_left inc] the one its right
    neighbour sends left. *)
Definition SetCaches (m : Model) (st : Burgers2P) (Vel : list K) (inc : Msgs) : Burgers2P :=
  let Nyr := GetLocNyr m in
  let Nxr := GetLocNxr m in
  let up := GetUp m in
  let down := GetDown m in
  let left := GetLeft m in
  let right := GetRight m in
  let upVel1 := MPI_Recv_into (upVel st) Nxr up (to_down inc) in
  let downVel1 := MPI_Recv_into (downVel st) Nxr down (to_up inc) in
  let leftVel1 := MPI_Recv_into (leftVel st) Nyr left (to_right inc) in
  let rightVel1 := MPI_Recv_into (rightVel st) Nyr right (to_left inc) in
  let upVel2 := if (up <? 0)%Z then SetZeroes upVel1 Nxr else upVel1 in
  let downVel2 := if (down <? 0)%Z then SetZeroes downVel1 Nxr else downVel1 in
  let leftVel2 := if (left <? 0)%Z then SetZeroes leftVel1 Nyr else leftVel1 in
  let rightVel2 := if (right <? 0)%Z then SetZeroes rightVel1 Nyr else rightVel1 in
  set_caches st upVel2 downVel2 leftVel2 rightVel2.

(** The term arrays of [NextVelocityState]. *)
Record Terms : Type := {
  dVel_dx_2 : list K;
  dVel_dy_2 : list K;
  dVel_dx : list K;
  dVel_dy : list K;
  Vel_Vel : list K;
  Vel_Other : list K;
  Vel_Vel_Minus_1 : list K;
  Vel_Other_Minus_1 : list K
}.

(** [Burgers2P::UpdateBoundsLinear] *)
Definition UpdateBoundsLinear (m : Model) (st : Burgers2P) (t : Terms) : Terms :=
  let Nyr := GetLocNyr m in
  let Nxr := GetLocNxr m in
  let dx := GetDx m in
  let dy := GetDy m in
  let ax := GetAx m in
  let ay := GetAy m in
  let c := GetC m in
  let lr :=
    for_loop Nyr (fun j (s : list K * list K) =>
      let x2a := upd (fst s) j (add (rd (fst s) j) (mul (div c (pow dx two)) (rd (leftVel st) j))) in
      let x1a := upd (snd s) j (sub (rd (snd s) j) (mul (div ax dx) (rd (leftVel st) j))) in
      let x2b := upd x2a ((Nxr - 1) * Nyr + j)
                   (add (rd x2a ((Nxr - 1) * Nyr + j)) (mul (div c (pow dx two)) (rd (rightVel st) j))) in
      (x2b, x1a)) (dVel_dx_2 t, dVel_dx t) in
  let ud :=
    for_loop Nxr (fun i (s : list K * list K) =>
      let y2a := upd (fst s) (i * Nyr) (add (rd (fst s) (i * Nyr)) (mul (div c (pow dy two)) (rd (upVel st) i))) in
      let y1a := upd (snd s) (i * Nyr) (sub (rd (snd s) (i * Nyr)) (mul (div ay dy) (rd (upVel st) i))) in
      let y2b := upd y2a (i * Nyr + (Nyr - 1))
                   (add (rd y2a (i * Nyr + (Nyr - 1))) (mul (div c (pow dy two)) (rd (downVel st) i))) in
      (y2b, y1a)) (dVel_dy_2 t, dVel_dy t) in
  {| dVel_dx_2 := fst lr; dVel_dy_2 := fst ud; dVel_dx := snd lr; dVel_dy := snd ud;
     Vel_Vel := Vel_Vel t; Vel_Other := Vel_Other t;
     Vel_Vel_Minus_1 := Vel_Vel_Minus_1 t; Vel_Other_Minus_1 := Vel_Other_Minus_1 t |}.

(** [Burgers2P::UpdateBoundsNonLinear] *)
Definition UpdateBoundsNonLinear (m : Model) (st : Burgers2P) (Vel Other : list K)
    (t : Terms) (SELECT_U : bool) : Terms :=
  let Nyr := GetLocNyr m in
  let Nxr := GetLocNxr m in
  let dx := GetDx m in
  let dy := GetDy m in
  let b := GetB m in
  if SELECT_U then
    let vom := for_loop Nxr (fun i a =>
                 upd a (i * Nyr) (mul (mul (div b dy) (rd (upVel st) i)) (rd Other (i * Nyr))))
                 (Vel_Other_Minus_1 t) in
    let vvm := for_loop Nyr (fun j a =>
                 upd a j (mul (mul (div b dx) (rd (leftVel st) j)) (rd Vel j)))
                 (Vel_Vel_Minus_1 t) in
    {| dVel_dx_2 := dVel_dx_2 t; dVel_dy_2 := dVel_dy_2 t; dVel_dx := dVel_dx t; dVel_dy := dVel_dy t;
       Vel_Vel := Vel_Vel t; Vel_Other := Vel_Other t;
       Vel_Vel_Minus_1 := vvm; Vel_Other_Minus_1 := vom |}
  else
    let vvm := for_loop Nxr (fun i a =>
                 upd a (i * Nyr) (mul (mul (div b dy) (rd (upVel st) i)) (rd Vel (i * Nyr))))
                 (Vel_Vel_Minus_1 t) in
    let vom := for_loop Nyr (fun j a =>
                 upd a j (mul (mul (div b dx) (rd (leftVel st) j)) (rd Other j)))
                 (Vel_Other_Minus_1 t) in
    {| dVel_dx_2 := dVel_dx_2 t; dVel_dy_2 := dVel_dy_2 t; dVel_dx := dVel_dx t; dVel_dy := dVel_dy t;
       Vel_Vel := Vel_Vel t; Vel_Other := Vel_Other t;
       Vel_Vel_Minus_1 := vvm; Vel_Other_Minus_1 := vom |}.

(** [NextVelocityState], from the BLAS calls to the two boundary
    corrections: the term arrays the final loop combines.  [st] is the
    state after [SetCaches(Vel)]. *)
Definition ComputeTerms (m : Model) (st : Burgers2P) (Vel Other : list K) (SELECT_U : bool) : Terms :=
  let Nyr := GetLocNyr m in
  let Nxr := GetLocNxr m in
  let dx := GetDx m in
  let dy := GetDy m in
  let b := GetB m in
  let x2 := dsymm SideR Upper Nyr Nxr one (dVel_dx_2_coeffs st) Nxr Vel Nyr (alloc (Nyr * Nxr)) Nyr in
  let y2 := dsymm SideL Upper Nyr Nxr one (dVel_dy_2_coeffs st) Nyr Vel Nyr (alloc (Nyr * Nxr)) Nyr in
  let x1 := dcopy (Nyr * Nxr) Vel 1 (alloc (Nyr * Nxr)) 1 in
  let y1 := dcopy (Nyr * Nxr) Vel 1 (alloc (Nyr * Nxr)) 1 in
  let x1 := dtrmm SideR Upper Nyr Nxr one (dVel_dx_coeffs st) Nxr x1 Nyr in
  let y1 := dtrmm SideL Lower Nyr Nxr one (dVel_dy_coeffs st) Nyr y1 Nyr in
  let t :=
    if SELECT_U then
      {| dVel_dx_2 := x2; dVel_dy_2 := y2; dVel_dx := x1; dVel_dy := y1;
         Vel_Vel := MatMul Vel Vel Nyr Nxr false false (div b dx);
         Vel_Other := MatMul Vel Other Nyr Nxr false false (div b dy);
         Vel_Vel_Minus_1 := MatMul Vel Vel Nyr Nxr true false (div b dx);
         Vel_Other_Minus_1 := MatMul Vel Other Nyr Nxr false true (div b dy) |}
    else
      {| dVel_dx_2 := x2; dVel_dy_2 := y2; dVel_dx := x1; dVel_dy := y1;
         Vel_Vel := MatMul Vel Vel Nyr Nxr false false (div b dy);
         Vel_Other := MatMul Vel Other Nyr Nxr false false (div b dx);
         Vel_Vel_Minus_1 := MatMul Vel Vel Nyr Nxr false true (div b dy);
         Vel_Other_Minus_1 := MatMul Vel Other Nyr Nxr true false (div b dx) |} in
  let t := UpdateBoundsLinear m st t in
  UpdateBoundsNonLinear m st Vel Other t SELECT_U.

(** The right-hand side of the first assignment of the final loop. *)
Definition rhs_at (t : Terms) (i : nat) : K :=
  sub (sub (sub (add (rd (dVel_dx_2 t) i) (rd (dVel_dy_2 t) i)) (rd (dVel_dx t) i)) (rd (dVel_dy t) i))
      (sub (sub (add (rd (Vel_Vel t) i) (rd (Vel_Other t) i)) (rd (Vel_Vel_Minus_1 t) i))
           (rd (Vel_Other_Minus_1 t) i)).

(** The final loop of [NextVelocityState] ("Matrix addition through all terms"). *)
Definition Combine (m : Model) (Vel : list K) (t : Terms) : list K :=
  let Nyr := GetLocNyr m in
  let Nxr := GetLocNxr m in
  let dt := GetDt m in
  for_loop (Nyr * Nxr) (fun i NextVel =>
    let n1 := upd NextVel i (rhs_at t i) in
    let n2 := upd n1 i (mul (rd n1 i) dt) in
    upd n2 i (add (rd n2 i) (rd Vel i)))
    (alloc (Nyr * Nxr)).

(** [Burgers2P::NextVelocityState]: the returned buffer and the state
    (only the halo caches change). *)
Definition NextVelocityState (m : Model) (st : Burgers2P) (Ui Vi : list K) (SELECT_U : bool)
    (inc : Msgs) : list K * Burgers2P :=
  let Vel := if SELECT_U then Ui else Vi in
  let Other := if SELECT_U then Vi else Ui in
  let st1 := SetCaches m st Vel inc in
  (Combine m Vel (ComputeTerms m st1 Vel Other SELECT_U), st1).

(** [Burgers2P::CopyAndDelete] *)
Definition CopyAndDelete (m : Model) (st : Burgers2P) (NextU NextV : list K) : Burgers2P :=
  let Nyr := GetLocNyr m in
  let Nxr := GetLocNxr m in
  let uv := for_loop (Nyr * Nxr) (fun i uv =>
              (upd (fst uv) i (rd NextU i), upd (snd uv) i (rd NextV i)))
              (U st, V st) in
  set_UV st (fst uv) (snd uv).

(** The body of the time loop of [SetIntegratedVelocity]; [incU] and
    [incV] are what the neighbours send during the two calls of
    [NextVelocityState]. *)
Definition TimeStep (m : Model) (st : Burgers2P) (incU incV : Msgs) : Burgers2P :=
  let '(NextU, st1) := NextVelocityState m st (U st) (V st) true incU in
  let '(NextV, st2) := NextVelocityState m st1 (U st1) (V st1) false incV in
  CopyAndDelete m st2 NextU NextV.

(** [Burgers2P::CalculateEnergyState], up to the reduction: the local
    energy this worker contributes. *)
Definition LocalEnergyState (m : Model) (Ui Vi : list K) : K :=
  let Nyr := GetLocNyr m in
  let Nxr := GetLocNxr m in
  let dx := GetDx m in
  let dy := GetDy m in
  let loc_ddotU := ddot (Nyr * Nxr) Ui 1 Ui 1 in
  let loc_ddotV := ddot (Nyr * Nxr) Vi 1 Vi 1 in
  mul (mul (mul half (add loc_ddotU loc_ddotV)) dx) dy.

(** *** The output path: [AssembleMatrix], [WriteOf], [WriteVelocityFile] *)

(** The getters of [Model] that the output path reads: the rank of the
    worker, the global extents, the shape of the process mesh and the
    tables of the gather, one entry per rank. *)
Record Layout : Type := {
  GetRank : nat;
  GetNy : nat;
  GetNx : nat;
  GetPx : nat;
  GetPy : nat;
  GetDispls : list nat;
  GetRecvCount : list nat;
  GetRankNxrMap : list nat;
  GetRankNyrMap : list nat;
  GetRankDisplsXMap : list nat;
  GetRankDisplsYMap : list nat
}.

(** [tbl[k]] on a table of [int]. *)
Definition entry (tbl : list nat) (k : nat) : nat := nth k tbl 0.

(** [M[y][x]] and [M[y][x] = v] on an array of row pointers; a write
    outside the rows leaves the array as it is. *)
Definition rd2 (M : list (list K)) (y x : nat) : K := rd (nth y M []) x.

Definition upd2 (M : list (list K)) (y x : nat) (v : K) : list (list K) :=
  upd M y (upd (nth y M []) x v).

(** [MPI_Gatherv(sendbuf, sendcount, MPI_DOUBLE, recvbuf, recvcounts, displs, MPI_DOUBLE, root, comm)]
    as rank [rank] of a communicator of [P] ranks sees it: at the root the
    [recvcounts[k]] cells sent by rank [k] are stored from
    [recvbuf[displs[k]]] on, for every rank [k]; on the other ranks
    [recvbuf] is not referenced.  [sent k] is the send buffer of rank [k]. *)
Definition MPI_Gatherv (P : nat) (sent : nat -> list K) (recvbuf : list K)
    (recvcounts displs : list nat) (root rank : nat) : list K :=
  if rank =? root then
    for_loop P (fun k buf =>
      for_loop (entry recvcounts k) (fun t buf' =>
        upd buf' (entry displs k + t) (rd (sent k) t)) buf) recvbuf
  else recvbuf.

(** [Burgers2P::AssembleMatrix]: the matrix [M] after the call.  [sent k]
    is the field [Vel] that rank [k] passes to the gather. *)
Definition AssembleMatrix (lay : Layout) (P : nat) (sent : nat -> list K)
    (M : list (list K)) : list (list K) :=
  let loc_rank := GetRank lay in
  let Ny := GetNy lay in
  let Nx := GetNx lay in
  let Px := GetPx lay in
  let Py := GetPy lay in
  let displs := GetDispls lay in
  let recvcount := GetRecvCount lay in
  let rankNxrMap := GetRankNxrMap lay in
  let rankNyrMap := GetRankNyrMap lay in
  let rankDisplsXMap := GetRankDisplsXMap lay in
  let rankDisplsYMap := GetRankDisplsYMap lay in
  let globalVel :=
    MPI_Gatherv P sent (alloc ((Ny - 2) * (Nx - 2))) recvcount displs 0 loc_rank in
  if loc_rank =? 0 then
    for_loop (Px * Py) (fun k M1 =>
      for_loop (entry rankNxrMap k) (fun i M2 =>
        for_loop (entry rankNyrMap k) (fun j M3 =>
          let loc_displ_y := entry rankDisplsYMap k in
          let loc_displ_x := entry rankDisplsXMap k in
          let loc_Nyr := entry rankNyrMap k in
          let global_displ := entry displs k in
          upd2 M3 (loc_displ_y + j) (loc_displ_x + i)
               (rd globalVel (global_displ + i * loc_Nyr + j))) M2) M1) M
  else M.

(** What is written to the output stream: [of << 0] writes an [int],
    [of << M[j-1][i-1]] a [double]; each is followed by a blank. *)
Inductive Token : Type :=
| IntTok : Z -> Token
| DblTok : K -> Token.

(** A line of the file: [id << " velocity field:"], or the tokens of a row. *)
Inductive Line : Type :=
| Title : ascii -> Line
| Cells : list Token -> Line.

(** [Burgers2P::WriteOf]: the matrix [M] and the stream [of] (here [ofs]) after the call. *)
Definition WriteOf (lay : Layout) (P : nat) (sent : nat -> list K)
    (M : list (list K)) (ofs : list Line) (id : ascii) : list (list K) * list Line :=
  let loc_rank := GetRank lay in
  let Ny := GetNy lay in
  let Nx := GetNx lay in
  let M1 := AssembleMatrix lay P sent M in
  if loc_rank =? 0 then
    let of1 := ofs ++ [Title id] in
    let of2 :=
      for_loop Ny (fun j of' =>
        let row :=
          for_loop Nx (fun i row' =>
            if (j =? 0) || (i =? 0) || (j =? Ny - 1) || (i =? Nx - 1)
            then row' ++ [IntTok 0]
            else row' ++ [DblTok (rd2 M1 (j - 1) (i - 1))]) [] in
        of' ++ [Cells row]) of1 in
    (M1, of2)
  else (M1, ofs).

(** [Burgers2P::WriteVelocityFile]: the lines this rank writes to
    [data.txt].  [sentU k] and [sentV k] are the fields of rank [k]. *)
Definition WriteVelocityFile (lay : Layout) (P : nat) (sentU sentV : nat -> list K) : list Line :=
  let Ny := GetNy lay in
  let Nx := GetNx lay in
  let M := for_loop (Ny - 2) (fun j M' => upd M' j (alloc (Nx - 2))) (repeat [] (Ny - 2)) in
  let '(M1, of1) := WriteOf lay P sentU M [] "U"%char in
  let '(M2, of2) := WriteOf lay P sentV M1 of1 "V"%char in
  of2.

End Engine.
End Par.

(** ** The workers of a run and their exchanges *)

Module World.
Section Workers.
Context {K : Type} {A : Arith K}.

(** The number of workers and the model object of the worker of each rank. *)
Variable P : nat.
Variable models : nat -> Par.Model K.

(** The halo exchange as a copy: during [SetCaches] the worker of rank [r]
    receives, from each neighbour, the boundary vector that neighbour sends
    towards it, computed from the neighbour's field of the same component. *)
Definition deliver (fields : nat -> list K) (r : nat) : Par.Msgs K :=
  let m := models r in
  let sent_by (q : Z) := Par.MyBounds (models (Z.to_nat q)) (fields (Z.to_nat q)) in
  {| Par.to_down := Par.to_down (sent_by (Par.GetUp m));
     Par.to_up := Par.to_up (sent_by (Par.GetDown m));
     Par.to_right := Par.to_right (sent_by (Par.GetLeft m));
     Par.to_left := Par.to_left (sent_by (Par.GetRight m)) |}.

(** One iteration of the time loop, on every worker. *)
Definition WorldStep (w : nat -> Par.Burgers2P K) : nat -> Par.Burgers2P K :=
  fun r =>
    Par.TimeStep (models r) (w r)
      (deliver (fun q => Par.U (w q)) r)
      (deliver (fun q => Par.V (w q)) r).

(** [Burgers2P::SetIntegratedVelocity] on every worker. *)
Definition SetIntegratedVelocity (Nt : nat) (w : nat -> Par.Burgers2P K) : nat -> Par.Burgers2P K :=
  for_loop (Nt - 1) (fun _ w' => WorldStep w')
    (fun r => Par.SetMatrixCoefficients (models r) (w r)).

(** [MPI_Allreduce(&local, &global, 1, MPI_DOUBLE, MPI_SUM, comm)]: the
    value every rank receives. *)
Definition MPI_Allreduce_SUM (sendbuf : nat -> K) : nat -> K :=
  fun _ => sum_upto P sendbuf.

(** [Burgers2P::CalculateEnergyState] on every worker. *)
Definition CalculateEnergyState (w : nat -> Par.Burgers2P K) : nat -> K :=
  MPI_Allreduce_SUM (fun q => Par.LocalEnergyState (models q) (Par.U (w q)) (Par.V (w q))).

(** [Burgers2P::SetEnergy] on every worker. *)
Definition SetEnergy (w : nat -> Par.Burgers2P K) : nat -> Par.Burgers2P K :=
  fun r => Par.set_E (w r) (CalculateEnergyState w r).

(** [Burgers2P::WriteVelocityFile] on every worker: both gathers collect
    the fields the workers hold. *)
Definition WriteVelocityFile (layouts : nat -> Par.Layout) (w : nat -> Par.Burgers2P K)
    : nat -> list (Par.Line K) :=
  fun r => Par.WriteVelocityFile (layouts r) P (fun q => Par.U (w q)) (fun q => Par.V (w q)).

End Workers.

Section Topology.
Context {K : Type} {A : Arith K}.

(** Modelled from the spec: the decomposition service GridTopology (the
    [Model] class of the partitioned engine is not in the sources).  A
    [Px x Py] process mesh splits the global interior grid of
    [GetLocNxr g x GetLocNyr g] cells evenly; the worker of rank
    [px*Py + py] owns the sub-block at displacement
    [(px*Nxr_local, py*Nyr_local)]; its neighbours are the adjacent mesh
    positions, or the no-neighbour sentinel at the physical edge.  [up] is
    towards row [0]. *)
Definition CartModel (g : Par.Model K) (Px Py : nat) (r : nat) : Par.Model K :=
  let px := r / Py in
  let py := r mod Py in
  {| Par.GetLocNyr := Par.GetLocNyr g / Py;
     Par.GetLocNxr := Par.GetLocNxr g / Px;
     Par.GetNt := Par.GetNt g;
     Par.GetX0 := Par.GetX0 g;
     Par.GetY0 := Par.GetY0 g;
     Par.GetDx := Par.GetDx g;
     Par.GetDy := Par.GetDy g;
     Par.GetDt := Par.GetDt g;
     Par.GetAx := Par.GetAx g;
     Par.GetAy := Par.GetAy g;
     Par.GetB := Par.GetB g;
     Par.GetC := Par.GetC g;
     Par.GetDisplX := px * (Par.GetLocNxr g / Px);
     Par.GetDisplY := py * (Par.GetLocNyr g / Py);
     Par.GetUp := if py =? 0 then (-1)%Z else Z.of_nat (r - 1);
     Par.GetDown := if py + 1 <? Py then Z.of_nat (r + 1) else (-1)%Z;
     Par.GetLeft := if px =? 0 then (-1)%Z else Z.of_nat (r - Py);
     Par.GetRight := if px + 1 <? Px then Z.of_nat (r + Py) else (-1)%Z |}.

(** The sub-block of a global column-major field that the worker with
    model [m] owns; [NY] is the global number of rows. *)
Definition Restrict (NY : nat) (m : Par.Model K) (G : list K) : list K :=
  tabulate (Par.GetLocNyr m * Par.GetLocNxr m)
    (fun idx =>
       rd G ((Par.GetDisplX m + idx / Par.GetLocNyr m) * NY
             + (Par.GetDisplY m + idx mod Par.GetLocNyr m))).

(** A run of [Nt - 1] steps on a [Px x Py] mesh from the global initial
    fields [U0], [V0]: every worker is constructed, holds its sub-block of
    the initial fields, and integrates. *)
Definition Run (g : Par.Model K) (Px Py : nat) (U0 V0 : list K) : nat -> Par.Burgers2P K :=
  let models := CartModel g Px Py in
  SetIntegratedVelocity models (Par.GetNt g)
    (fun r => Par.set_UV (Par.Burgers2P_new (models r))
                (Restrict (Par.GetLocNyr g) (models r) U0)
                (Restrict (Par.GetLocNyr g) (models r) V0)).

(** Modelled from the spec: the tables of GridTopology for the gather,
    for the even split of [CartModel]: the extents and the displacement of
    the block of every rank, and the blocks received one after the other in
    rank order. *)
Definition CartLayout (g : Par.Model K) (Px Py : nat) (r : nat) : Par.Layout :=
  let nyr := Par.GetLocNyr g / Py in
  let nxr := Par.GetLocNxr g / Px in
  let ranks := seq 0 (Px * Py) in
  {| Par.GetRank := r;
     Par.GetNy := Par.GetLocNyr g + 2;
     Par.GetNx := Par.GetLocNxr g + 2;
     Par.GetPx := Px;
     Par.GetPy := Py;
     Par.GetDispls := map (fun k => k * (nyr * nxr)) ranks;
     Par.GetRecvCount := map (fun _ => nyr * nxr) ranks;
     Par.GetRankNxrMap := map (fun k => Par.GetLocNxr (CartModel g Px Py k)) ranks;
     Par.GetRankNyrMap := map (fun k => Par.GetLocNyr (CartModel g Px Py k)) ranks;
     Par.GetRankDisplsXMap := map (fun k => Par.GetDisplX (CartModel g Px Py k)) ranks;
     Par.GetRankDisplsYMap := map (fun k => Par.GetDisplY (CartModel g Px Py k)) ranks |}.

End Topology.
End World.

(** ** The single-process variant: [src/serSrc/Burgers.cpp] *)

Module Ser.
Section Engine.
Variable K : Type.
Context {A : Arith K}.

(** The getters of its [Model] object (the header is not in the sources). *)
Record Model : Type := {
  GetNx : nat;
  GetNy : nat;
  GetNt : nat;
  GetX0 : K;
  GetY0 : K;
  GetDx : K;
  GetDy : K;
  GetDt : K;
  GetAlphaDx_2 : K;
  GetBetaDx_2 : K;
  GetAlphaDy_2 : K;
  GetBetaDy_2 : K;
  GetAlphaDx_1 : K;
  GetBetaDx_1 : K;
  GetAlphaDy_1 : K;
  GetBetaDy_1 : K;
  GetBDx : K;
  GetBDy : K
}.

(** [local.U], [local.V], [local.NextU], [local.NextV] and [E]. *)
Record Burgers : Type := {
  U : list K;
  V : list K;
  NextU : list K;
  NextV : list K;
  E : K
}.

(** [Burgers::Burgers(Model &m)] *)
Definition Burgers_new (m : Model) : Burgers :=
  let Ny := GetNy m in
  let Nx := GetNx m in
  let Nyr := Ny - 2 in
  let Nxr := Nx - 2 in
  {| U := alloc (Nyr * Nxr); V := alloc (Nyr * Nxr);
     NextU := alloc (Nyr * Nxr); NextV := alloc (Nyr * Nxr); E := zero |}.

(** [Burgers::SetInitialVelocity] *)
Definition SetInitialVelocity (m : Model) (st : Burgers) : Burgers :=
  let Ny := GetNy m in
  let Nx := GetNx m in
  let x0 := GetX0 m in
  let y0 := GetY0 m in
  let dx := GetDx m in
  let dy := GetDy m in
  let Nyr := Ny - 2 in
  let Nxr := Nx - 2 in
  let uv :=
    for_loop Nxr (fun i uv =>
      for_loop Nyr (fun j uv =>
        let y := sub y0 (mul (of_int (Z.of_nat j + 1)) dy) in
        let x := add x0 (mul (of_int (Z.of_nat i + 1)) dx) in
        let r := pow (add (mul x x) (mul y y)) half in
        let u1 := upd (fst uv) (i * Nyr + j) (Par.bump r) in
        let v1 := upd (snd uv) (i * Nyr + j) (Par.bump r) in
        (u1, v1)) uv) (U st, V st) in
  {| U := fst uv; V := snd uv; NextU := NextU st; NextV := NextV st; E := E st |}.

(** [Burgers::SetEnergy] *)
Definition SetEnergy (m : Model) (st : Burgers) : Burgers :=
  let Ny := GetNy m in
  let Nx := GetNx m in
  let dx := GetDx m in
  let dy := GetDy m in
  let Nyr := Ny - 2 in
  let Nxr := Nx - 2 in
  let ddotU := ddot (Nyr * Nxr) (U st) 1 (U st) 1 in
  let ddotV := ddot (Nyr * Nxr) (V st) 1 (V st) 1 in
  {| U := U st; V := V st; NextU := NextU st; NextV := NextV st;
     E := mul (mul (mul half (add ddotU ddotV)) dx) dy |}.

(** The locals [Vel_Vel], [Vel_Other], [Vel_Vel_Minus_1],
    [Vel_Other_Minus_1] assigned in the [switch (SELECT_U)] of
    [SetLinearTerms], at column [i], row [k]. *)
Definition NonLinearCell (m : Model) (Vel Other : list K) (SELECT_U : bool) (i k : nat)
    : K * K * K * K :=
  let Nyr := GetNy m - 2 in
  let bdx := GetBDx m in
  let bdy := GetBDy m in
  let curr := i * Nyr + k in
  if SELECT_U then
    (mul (mul bdx (rd Vel curr)) (rd Vel curr),
     mul (mul bdy (rd Vel curr)) (rd Other curr),
     if i =? 0 then zero else mul (mul bdx (rd Vel ((i - 1) * Nyr + k))) (rd Vel curr),
     if k =? 0 then zero else mul (mul bdy (rd Vel (curr - 1))) (rd Other curr))
  else
    (mul (mul bdy (rd Vel curr)) (rd Vel curr),
     mul (mul bdx (rd Vel curr)) (rd Other curr),
     if k =? 0 then zero else mul (mul bdy (rd Vel (curr - 1))) (rd Vel curr),
     if i =? 0 then zero else mul (mul bdx (rd Vel ((i - 1) * Nyr + k))) (rd Other curr)).

(** The body of the innermost loop of [SetLinearTerms]. *)
Definition CellUpdate (m : Model) (Vel Other : list K) (SELECT_U : bool) (i k : nat)
    (NextVel : list K) : list K :=
  let Nxr := GetNx m - 2 in
  let Nyr := GetNy m - 2 in
  let dt := GetDt m in
  let curr := i * Nyr + k in
  let iMinus := rd Vel ((i - 1) * Nyr + k) in
  let iPlus := rd Vel ((i + 1) * Nyr + k) in
  let n := upd NextVel curr
             (if 0 <? i then add (mul (GetAlphaDx_1 m) (rd Vel curr)) (mul (GetBetaDx_1 m) iMinus)
              else mul (GetAlphaDx_1 m) (rd Vel curr)) in
  let n := upd n curr
             (if 0 <? i then add (add (rd n curr) (mul (GetAlphaDx_2 m) (rd Vel curr)))
                                 (mul (GetBetaDx_2 m) iMinus)
              else add (rd n curr) (mul (GetAlphaDx_2 m) (rd Vel curr))) in
  let n := upd n curr
             (if i <? Nxr - 1 then add (rd n curr) (mul (GetBetaDx_2 m) iPlus) else rd n curr) in
  let n := upd n curr
             (if 0 <? k then add (add (rd n curr) (mul (GetAlphaDy_1 m) (rd Vel curr)))
                                 (mul (GetBetaDy_1 m) (rd Vel (curr - 1)))
              else add (rd n curr) (mul (GetAlphaDy_1 m) (rd Vel curr))) in
  let n := upd n curr
             (if 0 <? k then add (add (rd n curr) (mul (GetAlphaDy_2 m) (rd Vel curr)))
                                 (mul (GetBetaDy_2 m) (rd Vel (curr - 1)))
              else add (rd n curr) (mul (GetAlphaDy_2 m) (rd Vel curr))) in
  let n := upd n curr
             (if k <? Nyr - 1 then add (rd n curr) (mul (GetBetaDy_2 m) (rd Vel (curr + 1)))
              else rd n curr) in
  let '(Vel_Vel, Vel_Other, Vel_Vel_Minus_1, Vel_Other_Minus_1) :=
    NonLinearCell m Vel Other SELECT_U i k in
  let n := upd n curr (sub (rd n curr)
                         (sub (sub (add Vel_Vel Vel_Other) Vel_Vel_Minus_1) Vel_Other_Minus_1)) in
  let n := upd n curr (mul (rd n curr) dt) in
  upd n curr (add (rd n curr) (rd Vel curr)).

(** [Burgers::SetLinearTerms]: the active path, rows visited in blocks of
    [blocksize = 8]. *)
Definition SetLinearTerms (m : Model) (Vel Other NextVel : list K) (SELECT_U : bool) : list K :=
  let Nxr := GetNx m - 2 in
  let Nyr := GetNy m - 2 in
  let blocksize := 8 in
  for_loop Nxr (fun i n =>
    for_loop ((Nyr + (blocksize - 1)) / blocksize) (fun jb n =>
      for_loop blocksize (fun kk n =>
        let k := jb * blocksize + kk in
        if k <? Nyr then CellUpdate m Vel Other SELECT_U i k n else n) n) n) NextVel.

(** [Burgers::SetNonLinearTerms] (its only call, in [NextVelocityState],
    is commented out): each branch visits the cells as [SetLinearTerms]
    does and applies the last three assignments of its [switch]. *)
Definition SetNonLinearTerms (m : Model) (Vel Other NextVel : list K) (SELECT_U : bool) : list K :=
  let Nyr := GetNy m - 2 in
  let Nxr := GetNx m - 2 in
  let dt := GetDt m in
  let blocksize := 8 in
  let cell (sel : bool) (i k : nat) (n : list K) : list K :=
    let curr := i * Nyr + k in
    let '(Vel_Vel, Vel_Other, Vel_Vel_Minus_1, Vel_Other_Minus_1) :=
      NonLinearCell m Vel Other sel i k in
    let n := upd n curr (sub (rd n curr)
                           (sub (sub (add Vel_Vel Vel_Other) Vel_Vel_Minus_1) Vel_Other_Minus_1)) in
    let n := upd n curr (mul (rd n curr) dt) in
    upd n curr (add (rd n curr) (rd Vel curr)) in
  if SELECT_U then
    for_loop Nxr (fun i n =>
      for_loop ((Nyr + (blocksize - 1)) / blocksize) (fun jb n =>
        for_loop blocksize (fun kk n =>
          let k := jb * blocksize + kk in
          if k <? Nyr then cell true i k n else n) n) n) NextVel
  else
    for_loop Nxr (fun i n =>
      for_loop ((Nyr + (blocksize - 1)) / blocksize) (fun jb n =>
        for_loop blocksize (fun kk n =>
          let k := jb * blocksize + kk in
          if k <? Nyr then cell false i k n else n) n) n) NextVel.

(** [Burgers::NextVelocityState]: returns the buffer it fills. *)
Definition NextVelocityState (m : Model) (st : Burgers) (NextVel : list K) (SELECT_U : bool) : list K :=
  let Vel := if SELECT_U then U st else V st in
  let Other := if SELECT_U then V st else U st in
  SetLinearTerms m Vel Other NextVel SELECT_U.

(** The body of the time loop of [Burgers::SetIntegratedVelocity]. *)
Definition TimeStep (m : Model) (st : Burgers) : Burgers :=
  let Nyr := GetNy m - 2 in
  let Nxr := GetNx m - 2 in
  let nu := NextVelocityState m st (NextU st) true in
  let nv := NextVelocityState m st (NextV st) false in
  {| U := dcopy (Nyr * Nxr) nu 1 (U st) 1;
     V := dcopy (Nyr * Nxr) nv 1 (V st) 1;
     NextU := nu; NextV := nv; E := E st |}.

(** [Burgers::SetIntegratedVelocity] *)
Definition SetIntegratedVelocity (m : Model) (st : Burgers) : Burgers :=
  for_loop (GetNt m - 1) (fun _ s => TimeStep m s) st.

End Engine.
End Ser.

(** ** The first variant: [src/Model.cpp] and [src/Burgers.cpp] *)

Module Root.

(** A call either returns or throws. *)
Inductive Result (T : Type) : Type :=
| Ok : T -> Result T
| Throw : string -> Result T.
Arguments Ok {T} _.
Arguments Throw {T} _.

(** Does the call end the run through an exception? *)
Definition aborts {T : Type} (r : Result T) : bool :=
  match r with
  | Ok _ => false
  | Throw _ => true
  end.

Section ModelCpp.
Variable K : Type.
Context {A : Arith K}.

(** [atof] of the C library, and the message of [IllegalArgumentException]
    (declared in [ParseException.h], which is not in the sources). *)
Variable atof : string -> K.
Variable illegalArgumentException : string.

(** The members of [Model]. *)
Record Model : Type := {
  ax : K;
  ay : K;
  b : K;
  c : K;
  Lx : K;
  Ly : K;
  T : K;
  Nx : Z;
  Ny : Z;
  Nt : Z;
  dx : K;
  dy : K;
  dt : K;
  x0 : K;
  y0 : K
}.

Definition argv_at (argv : list string) (i : nat) : string := nth i argv EmptyString.

(** [Model::ParseParameters]: the model and what is written to [cout]. *)
Definition ParseParameters (m : Model) (argc : Z) (argv : list string)
    : Result (Model * list string) :=
  if (argc =? 8)%Z then
    Ok ({| ax := atof (argv_at argv 1);
           ay := atof (argv_at argv 2);
           b := atof (argv_at argv 3);
           c := atof (argv_at argv 4);
           Lx := atof (argv_at argv 5);
           Ly := atof (argv_at argv 6);
           T := atof (argv_at argv 7);
           Nx := Nx m; Ny := Ny m; Nt := Nt m;
           dx := dx m; dy := dy m; dt := dt m; x0 := x0 m; y0 := y0 m |},
        ["Parameters saved successfully."%string])
  else Throw illegalArgumentException.

(** [Model::IsValid] *)
Definition IsValid (m : Model) : bool :=
  leb zero (ax m) && leb zero (ay m) && leb zero (b m) && leb zero (c m)
  && leb zero (Lx m) && leb zero (Ly m) && leb zero (T m).

(** [Model::SetNumerics] *)
Definition SetNumerics (m : Model) : Model :=
  let Nx' := 10%Z in
  let Ny' := 10%Z in
  let Nt' := 10%Z in
  {| ax := ax m; ay := ay m; b := b m; c := c m; Lx := Lx m; Ly := Ly m; T := T m;
     Nx := Nx'; Ny := Ny'; Nt := Nt';
     dx := div (Lx m) (of_int Nx');
     dy := div (Ly m) (of_int Ny');
     dt := div (T m) (of_int Nt');
     x0 := div (opp (Lx m)) two;
     y0 := div (Ly m) two |}.

(** [Model::ValidateParameters] *)
Definition ValidateParameters (m : Model) : Model * list string :=
  if negb (IsValid m) then (m, ["WARN: Parameter values have to be (>=0)"%string])
  else (SetNumerics m, []).

(** [Model::Model(int argc, char** argv)]; [m0] is the indeterminate
    content of the members before the constructor runs. *)
Definition Model_new (m0 : Model) (argc : Z) (argv : list string)
    : Result (Model * list string) :=
  let '(m1, out1) :=
    match ParseParameters m0 argc argv with
    | Ok (m1, out1) => (m1, out1)
    | Throw what => (m0, [what])
    end in
  let '(m2, out2) := ValidateParameters m1 in
  Ok (m2, out1 ++ out2).

(** Were the numerics of [m0] left as they were? *)
Definition numerics_unset (m0 m : Model) : Prop :=
  Nx m = Nx m0 /\ Ny m = Ny m0 /\ Nt m = Nt m0 /\
  dx m = dx m0 /\ dy m = dy m0 /\ dt m = dt m0 /\ x0 m = x0 m0 /\ y0 m = y0 m0.

(** *** [src/Burgers.cpp] *)

(** [ptr[idx] = v] on a heap block of [length a] cells: defined only for
    an index inside the block. *)
Definition store (a : list K) (idx : Z) (v : K) : option (list K) :=
  if ((0 <=? idx) && (idx <? Z.of_nat (length a)))%Z
  then Some (upd a (Z.to_nat idx) v)
  else None.

(** The index written by the loop body of [SetInitialVelocity] at [(i, j)]. *)
Definition U0_index (m : Model) (i j : Z) : Z :=
  let Nyr := (Ny m - 2)%Z in
  ((i - 1) * Nyr + (j - 1))%Z.

(** The value stored there:
    [(r <= 1.0)? pow(2.0*(1.0-r),4.0) * (4.0*r+1.0) : 0.0]. *)
Definition U0_value (m : Model) (i j : Z) : K :=
  let y := sub (y0 m) (mul (of_int j) (dy m)) in
  let x := add (x0 m) (mul (of_int i) (dx m)) in
  let r := pow (add (mul x x) (mul y y)) half in
  if leb r one
  then mul (pow (mul two (sub one r)) four) (add (mul four r) one)
  else zero.

(** [U0 = new double[Nyr*Nxr]]: the block, or [None] when the size is
    negative and [new] throws before anything is stored. *)
Definition U0_alloc (m : Model) : option (list K) :=
  let Nyr := (Ny m - 2)%Z in
  let Nxr := (Nx m - 2)%Z in
  if (Nyr * Nxr <? 0)%Z then None else Some (alloc (Z.to_nat (Nyr * Nxr))).

(** [Burgers::SetInitialVelocity]: the buffer [U0], or [None] when the
    call does not complete: the allocation throws, or a write falls
    outside the block it allocates. *)
Definition SetInitialVelocity (m : Model) : option (list K) :=
  for_loop (Z.to_nat (Nx m)) (fun i u =>
    for_loop (Z.to_nat (Ny m)) (fun j u =>
      match u with
      | Some a => store a (U0_index m (Z.of_nat i) (Z.of_nat j))
                        (U0_value m (Z.of_nat i) (Z.of_nat j))
      | None => None
      end) u)
    (U0_alloc m).

(** The coefficient matrices of [Burgers]. *)
Record Coeffs : Type := {
  dVel_dx_2_coeffs : list K;
  dVel_dy_2_coeffs : list K;
  dVel_dx_coeffs : list K;
  dVel_dy_coeffs : list K
}.

(** [Burgers::SetMatrixCoefficients] *)
Definition SetMatrixCoefficients (m : Model) : Coeffs :=
  let Nyr := Z.to_nat (Ny m - 2) in
  let Nxr := Z.to_nat (Nx m - 2) in
  {| dVel_dx_2_coeffs :=
       GenSymm (div (mul (opp two) (c m)) (pow (dx m) two)) (div (c m) (pow (dx m) two))
               Nxr Nxr (alloc (Nxr * Nxr));
     dVel_dy_2_coeffs :=
       GenSymm (div (mul (opp two) (c m)) (pow (dy m) two)) (div (c m) (pow (dy m) two))
               Nyr Nyr (alloc (Nyr * Nyr));
     dVel_dx_coeffs :=
       GenTrmm (div (ax m) (dx m)) (div (opp (ax m)) (dx m)) Nxr Nxr true (alloc (Nxr * Nxr));
     dVel_dy_coeffs :=
       GenTrmm (div (ay m) (dy m)) (div (opp (ay m)) (dy m)) Nyr Nyr false (alloc (Nyr * Nyr)) |}.

(** The term arrays of [Burgers::NextVelocityState]; the first-derivative
    arrays are computed with [alpha], which the source sets to [-1.0]. *)
Definition ComputeTerms (m : Model) (cf : Coeffs) (alpha : K) (Vel Other : list K)
    (U_OR_V : bool) : Par.Terms K :=
  let Nyr := Z.to_nat (Ny m - 2) in
  let Nxr := Z.to_nat (Nx m - 2) in
  let x2 := dsymm SideR Upper Nyr Nxr one (dVel_dx_2_coeffs cf) Nxr Vel Nxr (alloc (Nyr * Nxr)) Nxr in
  let y2 := dsymm SideL Upper Nyr Nxr one (dVel_dy_2_coeffs cf) Nyr Vel Nxr (alloc (Nyr * Nxr)) Nxr in
  let x1 := dcopy (Nyr * Nxr) Vel 1 (alloc (Nyr * Nxr)) 1 in
  let y1 := dcopy (Nyr * Nxr) Vel 1 (alloc (Nyr * Nxr)) 1 in
  let x1 := dtrmm SideR Upper Nyr Nxr alpha (dVel_dx_coeffs cf) Nxr x1 Nxr in
  let y1 := dtrmm SideL Lower Nyr Nxr alpha (dVel_dy_coeffs cf) Nyr y1 Nxr in
  if U_OR_V then
    {| Par.dVel_dx_2 := x2; Par.dVel_dy_2 := y2; Par.dVel_dx := x1; Par.dVel_dy := y1;
       Par.Vel_Vel := MatMul Vel Vel Nyr Nxr false false (div (b m) (dx m));
       Par.Vel_Other := MatMul Vel Other Nyr Nxr false false (div (b m) (dy m));
       Par.Vel_Vel_Minus_1 := MatMul Vel Vel Nyr Nxr true false (div (b m) (dx m));
       Par.Vel_Other_Minus_1 := MatMul Vel Other Nyr Nxr false true (div (b m) (dy m)) |}
  else
    {| Par.dVel_dx_2 := x2; Par.dVel_dy_2 := y2; Par.dVel_dx := x1; Par.dVel_dy := y1;
       Par.Vel_Vel := MatMul Vel Vel Nyr Nxr false false (div (b m) (dy m));
       Par.Vel_Other := MatMul Vel Other Nyr Nxr false false (div (b m) (dx m));
       Par.Vel_Vel_Minus_1 := MatMul Vel Vel Nyr Nxr false true (div (b m) (dy m));
       Par.Vel_Other_Minus_1 := MatMul Vel Other Nyr Nxr true false (div (b m) (dx m)) |}.

(** The right-hand side of the first assignment of its final loop: the
    first-derivative arrays are added. *)
Definition rhs_at (t : Par.Terms K) (i : nat) : K :=
  sub (add (add (add (rd (Par.dVel_dx_2 t) i) (rd (Par.dVel_dy_2 t) i)) (rd (Par.dVel_dx t) i))
           (rd (Par.dVel_dy t) i))
      (sub (sub (add (rd (Par.Vel_Vel t) i) (rd (Par.Vel_Other t) i)) (rd (Par.Vel_Vel_Minus_1 t) i))
           (rd (Par.Vel_Other_Minus_1 t) i)).

(** [Burgers::NextVelocityState] *)
Definition NextVelocityState (m : Model) (cf : Coeffs) (Ui Vi : list K) (U_OR_V : bool) : list K :=
  let Nyr := Z.to_nat (Ny m - 2) in
  let Nxr := Z.to_nat (Nx m - 2) in
  let Vel := if U_OR_V then Ui else Vi in
  let Other := if U_OR_V then Vi else Ui in
  let t := ComputeTerms m cf (opp one) Vel Other U_OR_V in
  for_loop (Nyr * Nxr) (fun i NextVel =>
    let n1 := upd NextVel i (rhs_at t i) in
    let n2 := upd n1 i (mul (rd n1 i) (dt m)) in
    upd n2 i (add (rd n2 i) (rd Vel i)))
    (alloc (Nyr * Nxr)).

(** The body of the loop of [Burgers::SetEnergy]: [E[k]] from [U[k]], [V[k]]. *)
Definition EnergyAt (m : Model) (Uk Vk : list K) : K :=
  let Nyr := Z.to_nat (Ny m - 2) in
  let Nxr := Z.to_nat (Nx m - 2) in
  let ddotU := ddot (Nyr * Nxr) Uk 1 Uk 1 in
  let ddotV := ddot (Nyr * Nxr) Vk 1 Vk 1 in
  mul half (add ddotU ddotV).

(** [Burgers::SetIntegratedVelocity]: the arrays [U] and [V] of [Nt]
    time levels; [U0] is the buffer of [SetInitialVelocity], which both
    [U[0]] and [V[0]] point to. *)
Definition SetIntegratedVelocity (m : Model) (U0 : list K) : list (list K) * list (list K) :=
  let nt := Z.to_nat (Nt m) in
  let U := upd (repeat [] nt) 0 U0 in
  let V := upd (repeat [] nt) 0 U0 in
  let cf := SetMatrixCoefficients m in
  for_loop (nt - 1) (fun k UV =>
    let U1 := upd (fst UV) (k + 1)
                (NextVelocityState m cf (nth k (fst UV) []) (nth k (snd UV) []) true) in
    let V1 := upd (snd UV) (k + 1)
                (NextVelocityState m cf (nth k U1 []) (nth k (snd UV) []) false) in
    (U1, V1)) (U, V).

(** [Burgers::SetEnergy]: the array [E] of [Nt] energies. *)
Definition SetEnergy (m : Model) (U V : list (list K)) : list K :=
  let nt := Z.to_nat (Nt m) in
  for_loop nt (fun k E => upd E k (EnergyAt m (nth k U []) (nth k V []))) (alloc nt).

End ModelCpp.
End Root.

(** ** The vocabulary of the statements *)

Section Vocabulary.
Context {K : Type} {A : Arith K}.

(** Entry [(r, c)] of the operator of [GenSymm]. *)
Definition symm_entry (alpha beta : K) (r c : nat) : K :=
  if r =? c then alpha else if (r =? c + 1) || (c =? r + 1) then beta else zero.

(** Entry [(r, c)] of the operator of [GenTrmm]. *)
Definition trmm_entry (alpha beta : K) (UPPER : bool) (r c : nat) : K :=
  if r =? c then alpha
  else if (if UPPER then c =? r + 1 else r =? c + 1) then beta else zero.

(** Were the halo caches allocated with the extents of the constructor? *)
Definition caches_allocated (m : Par.Model K) (st : Par.Burgers2P K) : Prop :=
  length (Par.upVel st) = Par.GetLocNxr m /\
  length (Par.downVel st) = Par.GetLocNxr m /\
  length (Par.leftVel st) = Par.GetLocNyr m /\
  length (Par.rightVel st) = Par.GetLocNyr m.

(** Were the coefficient matrices allocated with the extents of the constructor? *)
Definition coeffs_allocated (m : Par.Model K) (st : Par.Burgers2P K) : Prop :=
  length (Par.dVel_dx_2_coeffs st) = Par.GetLocNxr m * Par.GetLocNxr m /\
  length (Par.dVel_dy_2_coeffs st) = Par.GetLocNyr m * Par.GetLocNyr m /\
  length (Par.dVel_dx_coeffs st) = Par.GetLocNxr m * Par.GetLocNxr m /\
  length (Par.dVel_dy_coeffs st) = Par.GetLocNyr m * Par.GetLocNyr m.

(** The operators hold the entries [SetMatrixCoefficients] asks for. *)
Definition operators_built (m : Par.Model K) (st : Par.Burgers2P K) : Prop :=
  let Nyr := Par.GetLocNyr m in
  let Nxr := Par.GetLocNxr m in
  (forall r c, r < Nxr -> c < Nxr ->
     at_cm (Par.dVel_dx_2_coeffs st) Nxr r c =
     symm_entry (div (mul (opp two) (Par.GetC m)) (pow (Par.GetDx m) two))
                (div (Par.GetC m) (pow (Par.GetDx m) two)) r c) /\
  (forall r c, r < Nyr -> c < Nyr ->
     at_cm (Par.dVel_dy_2_coeffs st) Nyr r c =
     symm_entry (div (mul (opp two) (Par.GetC m)) (pow (Par.GetDy m) two))
                (div (Par.GetC m) (pow (Par.GetDy m) two)) r c) /\
  (forall r c, r < Nxr -> c < Nxr ->
     at_cm (Par.dVel_dx_coeffs st) Nxr r c =
     trmm_entry (div (Par.GetAx m) (Par.GetDx m)) (div (opp (Par.GetAx m)) (Par.GetDx m)) true r c) /\
  (forall r c, r < Nyr -> c < Nyr ->
     at_cm (Par.dVel_dy_coeffs st) Nyr r c =
     trmm_entry (div (Par.GetAy m) (Par.GetDy m)) (div (opp (Par.GetAy m)) (Par.GetDy m)) false r c).

(** The extents the constructor gives the buffers of a worker. *)
Definition wf_worker (m : Par.Model K) (st : Par.Burgers2P K) : Prop :=
  caches_allocated m st /\
  length (Par.U st) = Par.GetLocNyr m * Par.GetLocNxr m /\
  length (Par.V st) = Par.GetLocNyr m * Par.GetLocNxr m.

(** The four neighbours of cell [(c, r)] of [Vel]: a cell of the local
    block, or the halo cell at a local edge. *)
Definition nb_left (m : Par.Model K) (st : Par.Burgers2P K) (Vel : list K) (c r : nat) : K :=
  if c =? 0 then rd (Par.leftVel st) r else rd Vel ((c - 1) * Par.GetLocNyr m + r).

Definition nb_right (m : Par.Model K) (st : Par.Burgers2P K) (Vel : list K) (c r : nat) : K :=
  if c + 1 =? Par.GetLocNxr m then rd (Par.rightVel st) r
  else rd Vel ((c + 1) * Par.GetLocNyr m + r).

Definition nb_up (m : Par.Model K) (st : Par.Burgers2P K) (Vel : list K) (c r : nat) : K :=
  if r =? 0 then rd (Par.upVel st) c else rd Vel (c * Par.GetLocNyr m + (r - 1)).

Definition nb_down (m : Par.Model K) (st : Par.Burgers2P K) (Vel : list K) (c r : nat) : K :=
  if r + 1 =? Par.GetLocNyr m then rd (Par.downVel st) c
  else rd Vel (c * Par.GetLocNyr m + (r + 1)).

(** The update of one cell from its value [C], the companion field [O]
    and the four neighbours. *)
Definition Stencil (m : Par.Model K) (SELECT_U : bool) (C O Lf Rt Up Dn : K) : K :=
  let dx := Par.GetDx m in
  let dy := Par.GetDy m in
  let b := Par.GetB m in
  let c := Par.GetC m in
  let d2x := add (add (mul C (div (mul (opp two) c) (pow dx two))) (mul Lf (div c (pow dx two))))
                 (mul Rt (div c (pow dx two))) in
  let d2y := add (add (mul C (div (mul (opp two) c) (pow dy two))) (mul Up (div c (pow dy two))))
                 (mul Dn (div c (pow dy two))) in
  let d1x := mul (div (Par.GetAx m) dx) (sub C Lf) in
  let d1y := mul (div (Par.GetAy m) dy) (sub C Up) in
  let vv := mul (mul (if SELECT_U then div b dx else div b dy) C) C in
  let vo := mul (mul (if SELECT_U then div b dy else div b dx) C) O in
  let vvm := if SELECT_U then mul (mul (div b dx) Lf) C else mul (mul (div b dy) Up) C in
  let vom := if SELECT_U then mul (mul (div b dy) Up) O else mul (mul (div b dx) Lf) O in
  add C (mul (Par.GetDt m)
           (sub (sub (sub (add d2x d2y) d1x) d1y) (sub (sub (add vv vo) vvm) vom))).

End Vocabulary.

(** The nonlinear terms in the words of step 5: the self term and the
    backward term in the component's own direction carry [beta1], the cross
    term and the backward term in the other direction carry [beta2]. *)
Definition SpecNonLinear {K : Type} {A : Arith K}
    (beta1 beta2 C O own_prev cross_prev : K) : K * K * K * K :=
  (mul (mul beta1 C) C,
   mul (mul beta2 C) O,
   mul (mul beta1 own_prev) C,
   mul (mul beta2 O) cross_prev).

(** The energy of one worker in the words of the spec:
    [0.5*(U.U + V.V)*dx*dy] over [n] cells. *)
Definition SpecLocalEnergy {K : Type} {A : Arith K} (n : nat) (dx dy : K) (U V : list K) : K :=
  mul (mul (mul half (add (sum_upto n (fun k => mul (rd U k) (rd U k)))
                          (sum_upto n (fun k => mul (rd V k) (rd V k)))))
           dx) dy.

(** Is the run misconfigured: a wrong argument count, or a parsed parameter
    that fails the test [>= 0] of [IsValid]? *)
Definition misconfigured {K : Type} {A : Arith K} (atof : string -> K)
    (argc : Z) (argv : list string) : Prop :=
  argc <> 8%Z \/
  exists i, 1 <= i <= 7 /\ leb zero (atof (Root.argv_at argv i)) = false.

(** The tables of a layout describe a gather of [P] blocks into the
    global interior grid: the mesh has [P] positions, the block of rank [k]
    is sent whole, its cells are received in a segment of their own of the
    gather buffer, and its rectangle lies in the grid and meets the
    rectangle of no other rank. *)
Definition layout_ok (lay : Par.Layout) (P : nat) : Prop :=
  let nx := Par.entry (Par.GetRankNxrMap lay) in
  let ny := Par.entry (Par.GetRankNyrMap lay) in
  let ox := Par.entry (Par.GetRankDisplsXMap lay) in
  let oy := Par.entry (Par.GetRankDisplsYMap lay) in
  let cnt := Par.entry (Par.GetRecvCount lay) in
  let dsp := Par.entry (Par.GetDispls lay) in
  Par.GetPx lay * Par.GetPy lay = P /\
  (forall k, k < P ->
     cnt k = nx k * ny k /\
     dsp k + cnt k <= (Par.GetNy lay - 2) * (Par.GetNx lay - 2) /\
     oy k + ny k <= Par.GetNy lay - 2 /\
     ox k + nx k <= Par.GetNx lay - 2) /\
  (forall k k', k < P -> k' < P -> k <> k' ->
     (dsp k + cnt k <= dsp k' \/ dsp k' + cnt k' <= dsp k) /\
     (ox k + nx k <= ox k' \/ ox k' + nx k' <= ox k \/
      oy k + ny k <= oy k' \/ oy k' + ny k' <= oy k)).

(** The matrix [M] has [rows] rows of [cols] cells. *)
Definition matrix_of {K : Type} (rows cols : nat) (M : list (list K)) : Prop :=
  length M = rows /\ forall y, y < rows -> length (nth y M []) = cols.

(** The lines [WriteOf] writes for a matrix [M] of the interior cells: the
    title and [Ny] rows of [Nx] tokens, the [int] zero on the boundary of
    the grid and the cell of [M] inside. *)
Definition padded_grid {K : Type} {A : Arith K} (Ny Nx : nat) (M : list (list K)) (id : ascii)
    : list (Par.Line K) :=
  Par.Title K id ::
  map (fun j =>
         Par.Cells
           (map (fun i =>
                   if (j =? 0) || (i =? 0) || (j =? Ny - 1) || (i =? Nx - 1)
                   then Par.IntTok K 0
                   else Par.DblTok (Par.rd2 M (j - 1) (i - 1)))
                (seq 0 Nx)))
      (seq 0 Ny).

(** The same lines for a field [G] of the interior cells stored column by
    column, as the workers store their blocks. *)
Definition rendered_field {K : Type} {A : Arith K} (Ny Nx : nat) (G : list K) (id : ascii)
    : list (Par.Line K) :=
  Par.Title K id ::
  map (fun j =>
         Par.Cells
           (map (fun i =>
                   if (j =? 0) || (i =? 0) || (j =? Ny - 1) || (i =? Nx - 1)
                   then Par.IntTok K 0
                   else Par.DblTok (rd G ((i - 1) * (Ny - 2) + (j - 1))))
                (seq 0 Nx)))
      (seq 0 Ny).

(** The blocks [sent] of the ranks are the sub-blocks of the field [G]
    that the layout assigns to them, and the blocks cover the grid. *)
Definition blocks_of {K : Type} {A : Arith K} (lay : Par.Layout) (P : nat)
    (sent : nat -> list K) (G : list K) : Prop :=
  let nx := Par.entry (Par.GetRankNxrMap lay) in
  let ny := Par.entry (Par.GetRankNyrMap lay) in
  let ox := Par.entry (Par.GetRankDisplsXMap lay) in
  let oy := Par.entry (Par.GetRankDisplsYMap lay) in
  (forall k i j, k < P -> i < nx k -> j < ny k ->
     rd (sent k) (i * ny k + j) = rd G ((ox k + i) * (Par.GetNy lay - 2) + (oy k + j))) /\
  (forall y x, y < Par.GetNy lay - 2 -> x < Par.GetNx lay - 2 ->
     exists k, k < P /\ oy k <= y < oy k + ny k /\ ox k <= x < ox k + nx k).

(** What every worker keeps over the steps of a run that starts from the
    states [w0]: the extents of its buffers, and the coefficient arrays
    that [SetMatrixCoefficients] built. *)
Definition run_keeps {K : Type} {A : Arith K}
    (models : nat -> Par.Model K) (w0 w : nat -> Par.Burgers2P K) : Prop :=
  forall r,
    wf_worker (models r) (w r) /\
    operators_built (models r) (w r) /\
    Par.dVel_dx_2_coeffs (w r) = Par.dVel_dx_2_coeffs (Par.SetMatrixCoefficients (models r) (w0 r)) /\
    Par.dVel_dy_2_coeffs (w r) = Par.dVel_dy_2_coeffs (Par.SetMatrixCoefficients (models r) (w0 r)) /\
    Par.dVel_dx_coeffs (w r) = Par.dVel_dx_coeffs (Par.SetMatrixCoefficients (models r) (w0 r)) /\
    Par.dVel_dy_coeffs (w r) = Par.dVel_dy_coeffs (Par.SetMatrixCoefficients (models r) (w0 r)).

(** The first variant and a worker of the partitioned engine describe the
    same grid and hold the same coefficient arrays. *)
Definition root_matches {K : Type} {A : Arith K} (m : Root.Model K) (cf : Root.Coeffs K)
    (g : Par.Model K) (st : Par.Burgers2P K) : Prop :=
  Par.GetLocNxr g = Z.to_nat (Root.Nx m - 2) /\
  Par.GetLocNyr g = Z.to_nat (Root.Ny m - 2) /\
  Par.GetDt g = Root.dt m /\ Par.GetDx g = Root.dx m /\ Par.GetDy g = Root.dy m /\
  Par.GetB g = Root.b m /\
  Par.dVel_dx_2_coeffs st = Root.dVel_dx_2_coeffs cf /\
  Par.dVel_dy_2_coeffs st = Root.dVel_dy_2_coeffs cf /\
  Par.dVel_dx_coeffs st = Root.dVel_dx_coeffs cf /\
  Par.dVel_dy_coeffs st = Root.dVel_dy_coeffs cf.

(** The models of the two variants describe the same equation on the same
    grid, over the same number of time levels. *)
Definition root_model_matches {K : Type} {A : Arith K} (m : Root.Model K) (g : Par.Model K) : Prop :=
  Par.GetLocNxr g = Z.to_nat (Root.Nx m - 2) /\
  Par.GetLocNyr g = Z.to_nat (Root.Ny m - 2) /\
  Par.GetNt g = Z.to_nat (Root.Nt m) /\
  Par.GetDt g = Root.dt m /\ Par.GetDx g = Root.dx m /\ Par.GetDy g = Root.dy m /\
  Par.GetAx g = Root.ax m /\ Par.GetAy g = Root.ay m /\
  Par.GetB g = Root.b m /\ Par.GetC g = Root.c m.

(** The value that the six assignments of [SetLinearTerms] marked
    "Update x" and "Update y" leave in cell [(i, k)]: the sum of the
    linear terms. *)
Definition SerLinearCell {K : Type} {A : Arith K} (m : Ser.Model K) (Vel : list K) (i k : nat) : K :=
  let Nxr := Ser.GetNx m - 2 in
  let Nyr := Ser.GetNy m - 2 in
  let curr := i * Nyr + k in
  let iMinus := rd Vel ((i - 1) * Nyr + k) in
  let iPlus := rd Vel ((i + 1) * Nyr + k) in
  let v := if 0 <? i then add (mul (Ser.GetAlphaDx_1 m) (rd Vel curr)) (mul (Ser.GetBetaDx_1 m) iMinus)
           else mul (Ser.GetAlphaDx_1 m) (rd Vel curr) in
  let v := if 0 <? i then add (add v (mul (Ser.GetAlphaDx_2 m) (rd Vel curr)))
                              (mul (Ser.GetBetaDx_2 m) iMinus)
           else add v (mul (Ser.GetAlphaDx_2 m) (rd Vel curr)) in
  let v := if i <? Nxr - 1 then add v (mul (Ser.GetBetaDx_2 m) iPlus) else v in
  let v := if 0 <? k then add (add v (mul (Ser.GetAlphaDy_1 m) (rd Vel curr)))
                              (mul (Ser.GetBetaDy_1 m) (rd Vel (curr - 1)))
           else add v (mul (Ser.GetAlphaDy_1 m) (rd Vel curr)) in
  let v := if 0 <? k then add (add v (mul (Ser.GetAlphaDy_2 m) (rd Vel curr)))
                              (mul (Ser.GetBetaDy_2 m) (rd Vel (curr - 1)))
           else add v (mul (Ser.GetAlphaDy_2 m) (rd Vel curr)) in
  if k <? Nyr - 1 then add v (mul (Ser.GetBetaDy_2 m) (rd Vel (curr + 1))) else v.

(** The update that the [switch] of [SetLinearTerms], and each loop body of
    [SetNonLinearTerms], applies to the value [x] of cell [(i, k)]. *)
Definition SerNonLinearUpdate {K : Type} {A : Arith K} (m : Ser.Model K) (Vel Other : list K)
    (SELECT_U : bool) (i k : nat) (x : K) : K :=
  let '(Vel_Vel, Vel_Other, Vel_Vel_Minus_1, Vel_Other_Minus_1) :=
    Ser.NonLinearCell m Vel Other SELECT_U i k in
  add (mul (sub x (sub (sub (add Vel_Vel Vel_Other) Vel_Vel_Minus_1) Vel_Other_Minus_1))
           (Ser.GetDt m))
      (rd Vel (i * (Ser.GetNy m - 2) + k)).

(** The state in which the worker of rank [q] of a [P x Q] mesh enters the
    time loop of [SetIntegratedVelocity]: constructed, its initial field
    set, its operators built. *)
Definition program_start {K : Type} {A : Arith K} (g : Par.Model K) (P Q : nat) (q : nat)
    : Par.Burgers2P K :=
  Par.SetMatrixCoefficients (World.CartModel g P Q q)
    (Par.SetInitialVelocity (World.CartModel g P Q q)
       (Par.Burgers2P_new (World.CartModel g P Q q))).

(** ** Steps 1 to 7 of [NextVelocityState] in the words of the specification *)

Section SpecSteps.
Context {K : Type} {A : Arith K}.

(** The four halo buffers of section 4.2, read by the position along the edge. *)
Record SpecHalos : Type := {
  upHalo : nat -> K;
  downHalo : nat -> K;
  leftHalo : nat -> K;
  rightHalo : nat -> K
}.

(** Step 1: a halo holds what the neighbour in that direction sent, and
    zeros where the neighbour rank is the sentinel. *)
Definition SpecRefresh (m : Par.Model K) (inc : Par.Msgs K) : SpecHalos :=
  {| upHalo := fun i => if (Par.GetUp m <? 0)%Z then zero else rd (Par.to_down inc) i;
     downHalo := fun i => if (Par.GetDown m <? 0)%Z then zero else rd (Par.to_up inc) i;
     leftHalo := fun j => if (Par.GetLeft m <? 0)%Z then zero else rd (Par.to_right inc) j;
     rightHalo := fun j => if (Par.GetRight m <? 0)%Z then zero else rd (Par.to_left inc) j |}.

(** The halos of a grid without neighbours. *)
Definition SpecNoHalos : SpecHalos :=
  {| upHalo := fun _ => zero; downHalo := fun _ => zero;
     leftHalo := fun _ => zero; rightHalo := fun _ => zero |}.

(** The operators of section 4.1: [M[k][k] = -2c/h^2], [M[k][k+-1] = c/h^2]
    for the second derivative; [M[k][k] = a/h] and [-a/h] beside the
    diagonal for the backward first difference, above it for the operator
    applied from the right and below it for the one applied from the left. *)
Definition SpecSymmetric (c h : K) (r k : nat) : K :=
  symm_entry (div (mul (opp two) c) (pow h two)) (div c (pow h two)) r k.

Definition SpecTriangular (a h : K) (UPPER : bool) (r k : nat) : K :=
  trmm_entry (div a h) (div (opp a) h) UPPER r k.

(** Steps 2 and 6: [Vel], an [Nyr x Nxr] matrix, times the symmetric
    operator in x; [c/dx^2 * leftVel[r]] is added at the left edge and
    [c/dx^2 * rightVel[r]] at the right edge. *)
Definition Spec_dVel_dx_2 (m : Par.Model K) (Vel : list K) (H : SpecHalos) (c r : nat) : K :=
  let Nyr := Par.GetLocNyr m in
  let Nxr := Par.GetLocNxr m in
  let cx := div (Par.GetC m) (pow (Par.GetDx m) two) in
  add (add (sum_upto Nxr (fun k =>
              mul (rd Vel (k * Nyr + r)) (SpecSymmetric (Par.GetC m) (Par.GetDx m) k c)))
           (if c =? 0 then mul cx (leftHalo H r) else zero))
      (if c + 1 =? Nxr then mul cx (rightHalo H r) else zero).

(** Steps 3 and 6: the symmetric operator in y times [Vel]; the
    corrections of the top and bottom edges with [c/dy^2]. *)
Definition Spec_dVel_dy_2 (m : Par.Model K) (Vel : list K) (H : SpecHalos) (c r : nat) : K :=
  let Nyr := Par.GetLocNyr m in
  let cy := div (Par.GetC m) (pow (Par.GetDy m) two) in
  add (add (sum_upto Nyr (fun k =>
              mul (SpecSymmetric (Par.GetC m) (Par.GetDy m) r k) (rd Vel (c * Nyr + k))))
           (if r =? 0 then mul cy (upHalo H c) else zero))
      (if r + 1 =? Nyr then mul cy (downHalo H c) else zero).

(** Steps 4 and 6: [Vel] times the triangular operator in x;
    [a_x/dx * leftVel[r]] is subtracted at the left edge. *)
Definition Spec_dVel_dx (m : Par.Model K) (Vel : list K) (H : SpecHalos) (c r : nat) : K :=
  let Nyr := Par.GetLocNyr m in
  let Nxr := Par.GetLocNxr m in
  sub (sum_upto Nxr (fun k =>
         mul (rd Vel (k * Nyr + r)) (SpecTriangular (Par.GetAx m) (Par.GetDx m) true k c)))
      (if c =? 0 then mul (div (Par.GetAx m) (Par.GetDx m)) (leftHalo H r) else zero).

(** Steps 4 and 6: the triangular operator in y times [Vel];
    [a_y/dy * upVel[c]] is subtracted at the top edge. *)
Definition Spec_dVel_dy (m : Par.Model K) (Vel : list K) (H : SpecHalos) (c r : nat) : K :=
  let Nyr := Par.GetLocNyr m in
  sub (sum_upto Nyr (fun k =>
         mul (SpecTriangular (Par.GetAy m) (Par.GetDy m) false r k) (rd Vel (c * Nyr + k))))
      (if r =? 0 then mul (div (Par.GetAy m) (Par.GetDy m)) (upHalo H c) else zero).

End SpecSteps.

(** Steps 5 and 6: the four nonlinear terms of cell [(c, r)], with
    [(beta1, beta2) = (b/dx, b/dy)] for [u] and [(b/dy, b/dx)] for [v]; the
    previous sample in x is [leftVel[r]] at the left edge and the previous
    sample in y is [upVel[c]] at the top edge. *)
Definition SpecNonLinearAt {K : Type} {A : Arith K} (m : Par.Model K) (Vel Other : list K)
    (SELECT_U : bool) (H : SpecHalos) (c r : nat) : K * K * K * K :=
  let Nyr := Par.GetLocNyr m in
  let bdx := div (Par.GetB m) (Par.GetDx m) in
  let bdy := div (Par.GetB m) (Par.GetDy m) in
  let x_prev := if c =? 0 then leftHalo H r else rd Vel ((c - 1) * Nyr + r) in
  let y_prev := if r =? 0 then upHalo H c else rd Vel (c * Nyr + (r - 1)) in
  SpecNonLinear (if SELECT_U then bdx else bdy) (if SELECT_U then bdy else bdx)
    (rd Vel (c * Nyr + r)) (rd Other (c * Nyr + r))
    (if SELECT_U then x_prev else y_prev) (if SELECT_U then y_prev else x_prev).

(** Step 7 on the arrays of steps 2 to 6. *)
Definition SpecNextVel {K : Type} {A : Arith K} (m : Par.Model K) (Vel Other : list K)
    (SELECT_U : bool) (H : SpecHalos) (c r : nat) : K :=
  let '(Vel_Vel, Vel_Other, Vel_Vel_Minus_1, Vel_Other_Minus_1) :=
    SpecNonLinearAt m Vel Other SELECT_U H c r in
  add (rd Vel (c * Par.GetLocNyr m + r))
      (mul (Par.GetDt m)
         (sub (sub (sub (add (Spec_dVel_dx_2 m Vel H c r) (Spec_dVel_dy_2 m Vel H c r))
                        (Spec_dVel_dx m Vel H c r))
                   (Spec_dVel_dy m Vel H c r))
              (sub (sub (add Vel_Vel Vel_Other) Vel_Vel_Minus_1) Vel_Other_Minus_1))).

(** The worker that owns the whole interior grid of a model of the first
    variant: the same spacings and coefficients, no displacement and no
    neighbour. *)
Definition single_worker_of {K : Type} {A : Arith K} (m : Root.Model K) : Par.Model K :=
  {| Par.GetLocNyr := Z.to_nat (Root.Ny m - 2);
     Par.GetLocNxr := Z.to_nat (Root.Nx m - 2);
     Par.GetNt := Z.to_nat (Root.Nt m);
     Par.GetX0 := Root.x0 m; Par.GetY0 := Root.y0 m;
     Par.GetDx := Root.dx m; Par.GetDy := Root.dy m; Par.GetDt := Root.dt m;
     Par.GetAx := Root.ax m; Par.GetAy := Root.ay m; Par.GetB := Root.b m; Par.GetC := Root.c m;
     Par.GetDisplX := 0; Par.GetDisplY := 0;
     Par.GetUp := (-1)%Z; Par.GetDown := (-1)%Z; Par.GetLeft := (-1)%Z; Par.GetRight := (-1)%Z |}.

(** ** Concrete data on which the statements are instantiated *)

(** A small grid over the integers. *)
Module Examples.
Local Open Scope Z_scope.

(** A [4 x 4] interior grid over the integers, three time levels. *)
Definition g : Par.Model Z := {|
  Par.GetLocNyr := 4%nat; Par.GetLocNxr := 4%nat; Par.GetNt := 3%nat;
  Par.GetX0 := 0; Par.GetY0 := 0; Par.GetDx := 1; Par.GetDy := 1; Par.GetDt := 1;
  Par.GetAx := 2; Par.GetAy := 3; Par.GetB := 5; Par.GetC := 7;
  Par.GetDisplX := 0%nat; Par.GetDisplY := 0%nat;
  Par.GetUp := -1; Par.GetDown := -1; Par.GetLeft := -1; Par.GetRight := -1 |}.

Definition U0 : list Z := [1; 2; 3; 4; 5; 6; 7; 8; 9; 10; 11; 12; 13; 14; 15; 16].
Definition V0 : list Z := [3; 1; 4; 1; 5; 9; 2; 6; 5; 3; 5; 8; 9; 7; 9; 3].

(** The worker at mesh position [(1, 0)] of a [2 x 2] mesh (rank 2), with
    its sub-block of the fields and its operators built. *)
Definition m2 : Par.Model Z := World.CartModel g 2 2 2.

Definition st2 : Par.Burgers2P Z :=
  Par.SetMatrixCoefficients m2
    (Par.set_UV (Par.Burgers2P_new m2) (World.Restrict 4 m2 U0) (World.Restrict 4 m2 V0)).

(** What its neighbours could send. *)
Definition inc2 : Par.Msgs Z :=
  {| Par.to_up := [21; 22]; Par.to_down := [23; 24];
     Par.to_left := [25; 26]; Par.to_right := [27; 28] |}.

(** The root model after [SetNumerics], over the integers. *)
Definition root_m : Root.Model Z :=
  Root.SetNumerics
    {| Root.ax := 2; Root.ay := 3; Root.b := 5; Root.c := 7;
       Root.Lx := 20; Root.Ly := 20; Root.T := 10;
       Root.Nx := 0; Root.Ny := 0; Root.Nt := 0;
       Root.dx := 0; Root.dy := 0; Root.dt := 0; Root.x0 := 0; Root.y0 := 0 |}.

(** The single-process model of the same [4 x 4] interior grid, with the
    coefficients of [g]. *)
Definition ser_m : Ser.Model Z := {|
  Ser.GetNx := 6%nat; Ser.GetNy := 6%nat; Ser.GetNt := 3%nat;
  Ser.GetX0 := 0; Ser.GetY0 := 0; Ser.GetDx := 1; Ser.GetDy := 1; Ser.GetDt := 1;
  Ser.GetAlphaDx_2 := -14; Ser.GetBetaDx_2 := 7; Ser.GetAlphaDy_2 := -14; Ser.GetBetaDy_2 := 7;
  Ser.GetAlphaDx_1 := -2; Ser.GetBetaDx_1 := 2; Ser.GetAlphaDy_1 := -3; Ser.GetBetaDy_1 := 3;
  Ser.GetBDx := 5; Ser.GetBDy := 5 |}.

Definition ser_st : Ser.Burgers Z :=
  {| Ser.U := U0; Ser.V := V0; Ser.NextU := alloc 16; Ser.NextV := alloc 16; Ser.E := 0 |}.

Definition root_U : list Z := map Z.of_nat (seq 1 64).
Definition root_V : list Z := map (fun k => Z.of_nat (k mod 7)) (seq 0 64).

End Examples.

(** A time level of the first variant, over the rationals. *)
Module EnergyExample.

(** The first variant with [Lx = Ly = 1], hence [dx = dy = 1/10], and both
    components equal to one in every cell of the [8 x 8] interior. *)
Definition m : Root.Model Qc :=
  Root.SetNumerics
    {| Root.ax := Q2Qc 0; Root.ay := Q2Qc 0; Root.b := Q2Qc 0; Root.c := Q2Qc 0;
       Root.Lx := Q2Qc 1; Root.Ly := Q2Qc 1; Root.T := Q2Qc 1;
       Root.Nx := 0%Z; Root.Ny := 0%Z; Root.Nt := 0%Z;
       Root.dx := Q2Qc 0; Root.dy := Q2Qc 0; Root.dt := Q2Qc 0;
       Root.x0 := Q2Qc 0; Root.y0 := Q2Qc 0 |}.

Definition ones : list Qc := repeat (Q2Qc 1) 64.

End EnergyExample.

(** A worker of the partitioned engine over the rationals: a [2 x 2] block
    whose first cell is the point [(3/10, -4/10)], at distance [1/2] from
    the origin. *)
Module FieldExample.

Definition m : Par.Model Qc := {|
  Par.GetLocNyr := 2; Par.GetLocNxr := 2; Par.GetNt := 2;
  Par.GetX0 := Q2Qc 0; Par.GetY0 := Q2Qc 0;
  Par.GetDx := Q2Qc (3 # 10); Par.GetDy := Q2Qc (4 # 10); Par.GetDt := Q2Qc (1 # 100);
  Par.GetAx := Q2Qc 1; Par.GetAy := Q2Qc 1; Par.GetB := Q2Qc 1; Par.GetC := Q2Qc 1;
  Par.GetDisplX := 0; Par.GetDisplY := 0;
  Par.GetUp := (-1)%Z; Par.GetDown := (-1)%Z; Par.GetLeft := (-1)%Z; Par.GetRight := (-1)%Z |}.

Definition st : Par.Burgers2P Qc := Par.Burgers2P_new m.

End FieldExample.

(** A run of [Model::Model] with a negative coefficient. *)
Module ModelExample.

(** [atof] on the two strings of the example. *)
Definition atof (s : string) : Z :=
  if String.eqb s "-1" then (-1)%Z else 1%Z.

(** The members before the constructor runs. *)
Definition m0 : Root.Model Z :=
  {| Root.ax := 0%Z; Root.ay := 0%Z; Root.b := 0%Z; Root.c := 0%Z;
     Root.Lx := 0%Z; Root.Ly := 0%Z; Root.T := 0%Z;
     Root.Nx := 0%Z; Root.Ny := 0%Z; Root.Nt := 0%Z;
     Root.dx := 0%Z; Root.dy := 0%Z; Root.dt := 0%Z; Root.x0 := 0%Z; Root.y0 := 0%Z |}.

(** [./burgers -1 1 1 1 1 1 1]: the coefficient [ax] is negative. *)
Definition argv : list string :=
  ["./burgers"; "-1"; "1"; "1"; "1"; "1"; "1"; "1"]%string.

End ModelExample.

(** The three variants on a [4 x 4] interior grid over the rationals,
    centred on the origin, and the worker of rank 3 of a [2 x 2] mesh. *)
Module InitialExample.

Definition mg : Par.Model Qc := {|
  Par.GetLocNyr := 4; Par.GetLocNxr := 4; Par.GetNt := 2;
  Par.GetX0 := Q2Qc (-1); Par.GetY0 := Q2Qc 1;
  Par.GetDx := Q2Qc (2 # 5); Par.GetDy := Q2Qc (2 # 5); Par.GetDt := Q2Qc (1 # 100);
  Par.GetAx := Q2Qc 1; Par.GetAy := Q2Qc 1; Par.GetB := Q2Qc 1; Par.GetC := Q2Qc 1;
  Par.GetDisplX := 0; Par.GetDisplY := 0;
  Par.GetUp := (-1)%Z; Par.GetDown := (-1)%Z; Par.GetLeft := (-1)%Z; Par.GetRight := (-1)%Z |}.

Definition m3 : Par.Model Qc := World.CartModel mg 2 2 3.

Definition ms : Ser.Model Qc := {|
  Ser.GetNx := 6; Ser.GetNy := 6; Ser.GetNt := 2;
  Ser.GetX0 := Q2Qc (-1); Ser.GetY0 := Q2Qc 1;
  Ser.GetDx := Q2Qc (2 # 5); Ser.GetDy := Q2Qc (2 # 5); Ser.GetDt := Q2Qc (1 # 100);
  Ser.GetAlphaDx_2 := Q2Qc 0; Ser.GetBetaDx_2 := Q2Qc 0;
  Ser.GetAlphaDy_2 := Q2Qc 0; Ser.GetBetaDy_2 := Q2Qc 0;
  Ser.GetAlphaDx_1 := Q2Qc 0; Ser.GetBetaDx_1 := Q2Qc 0;
  Ser.GetAlphaDy_1 := Q2Qc 0; Ser.GetBetaDy_1 := Q2Qc 0;
  Ser.GetBDx := Q2Qc 0; Ser.GetBDy := Q2Qc 0 |}.

Definition mr : Root.Model Qc :=
  {| Root.ax := Q2Qc 1; Root.ay := Q2Qc 1; Root.b := Q2Qc 1; Root.c := Q2Qc 1;
     Root.Lx := Q2Qc 2; Root.Ly := Q2Qc 2; Root.T := Q2Qc 1;
     Root.Nx := 6%Z; Root.Ny := 6%Z; Root.Nt := 2%Z;
     Root.dx := Q2Qc (2 # 5); Root.dy := Q2Qc (2 # 5); Root.dt := Q2Qc (1 # 100);
     Root.x0 := Q2Qc (-1); Root.y0 := Q2Qc 1 |}.

End InitialExample.

(** The worker of the partitioned engine that owns the whole [8 x 8]
    interior grid of [Examples.root_m], with the same coefficients. *)
Module RootExample.
Local Open Scope Z_scope.

Definition g : Par.Model Z := {|
  Par.GetLocNyr := 8%nat; Par.GetLocNxr := 8%nat; Par.GetNt := 10%nat;
  Par.GetX0 := -10; Par.GetY0 := 10; Par.GetDx := 2; Par.GetDy := 2; Par.GetDt := 1;
  Par.GetAx := 2; Par.GetAy := 3; Par.GetB := 5; Par.GetC := 7;
  Par.GetDisplX := 0%nat; Par.GetDisplY := 0%nat;
  Par.GetUp := -1; Par.GetDown := -1; Par.GetLeft := -1; Par.GetRight := -1 |}.

Definition st : Par.Burgers2P Z := Par.SetMatrixCoefficients g (Par.Burgers2P_new g).

Definition inc : Par.Msgs Z :=
  {| Par.to_up := []; Par.to_down := []; Par.to_left := []; Par.to_right := [] |}.

End RootExample.

(** A run of two time levels on a [4 x 4] interior grid over the rationals. *)
Module EnergyRun.

Definition g : Par.Model Qc := {|
  Par.GetLocNyr := 4; Par.GetLocNxr := 4; Par.GetNt := 2;
  Par.GetX0 := Q2Qc (-1); Par.GetY0 := Q2Qc 1;
  Par.GetDx := Q2Qc (1 # 2); Par.GetDy := Q2Qc (1 # 2); Par.GetDt := Q2Qc (1 # 10);
  Par.GetAx := Q2Qc 1; Par.GetAy := Q2Qc (1 # 2); Par.GetB := Q2Qc 1; Par.GetC := Q2Qc (1 # 4);
  Par.GetDisplX := 0; Par.GetDisplY := 0;
  Par.GetUp := (-1)%Z; Par.GetDown := (-1)%Z; Par.GetLeft := (-1)%Z; Par.GetRight := (-1)%Z |}.

Definition U0 : list Qc := map (fun k => Q2Qc (Z.of_nat k # 4)) (seq 0 16).
Definition V0 : list Qc := map (fun k => Q2Qc (Z.of_nat (k mod 3) # 2)) (seq 0 16).

End EnergyRun.

(** The worker [Examples.m2] with a time step of zero. *)
Module StillExample.
Local Open Scope Z_scope.

Definition m : Par.Model Z := {|
  Par.GetLocNyr := 2%nat; Par.GetLocNxr := 2%nat; Par.GetNt := 3%nat;
  Par.GetX0 := 0; Par.GetY0 := 0; Par.GetDx := 1; Par.GetDy := 1; Par.GetDt := 0;
  Par.GetAx := 2; Par.GetAy := 3; Par.GetB := 5; Par.GetC := 7;
  Par.GetDisplX := 2%nat; Par.GetDisplY := 0%nat;
  Par.GetUp := -1; Par.GetDown := 3; Par.GetLeft := 0; Par.GetRight := -1 |}.

End StillExample.

(** The gather of the four [2 x 2] blocks of a [2 x 2] mesh into a
    [4 x 4] interior grid, as the root sees it, and the blocks of the
    fields of [Examples]. *)
Module LayoutExample.

Definition lay : Par.Layout := {|
  Par.GetRank := 0; Par.GetNy := 6; Par.GetNx := 6; Par.GetPx := 2; Par.GetPy := 2;
  Par.GetDispls := [0; 4; 8; 12];
  Par.GetRecvCount := [4; 4; 4; 4];
  Par.GetRankNxrMap := [2; 2; 2; 2];
  Par.GetRankNyrMap := [2; 2; 2; 2];
  Par.GetRankDisplsXMap := [0; 0; 2; 2];
  Par.GetRankDisplsYMap := [0; 2; 0; 2] |}.

Definition sentU (q : nat) : list Z :=
  nth q [[1; 2; 5; 6]; [3; 4; 7; 8]; [9; 10; 13; 14]; [11; 12; 15; 16]]%Z [].

Definition sentV (q : nat) : list Z :=
  nth q [[3; 1; 5; 9]; [4; 1; 2; 6]; [5; 3; 9; 7]; [5; 8; 9; 3]]%Z [].

Definition M0 : list (list Z) := repeat (alloc 4) 4.

End LayoutExample.

(** * Properties *)

(** ** Loops and arrays *)

Lemma for_loop_proj {S T : Type} (p : S -> T) (body : nat -> S -> S) (body' : nat -> T -> T) :
  (forall i s, p (body i s) = body' i (p s)) ->
  forall n s, p (for_loop n body s) = for_loop n body' (p s).
Proof.
  intros Hb n s. induction n as [|n IH]; simpl.
  - reflexivity.
  - rewrite Hb, IH. reflexivity.
Qed.

Lemma for_loop_ext {S : Type} (body body' : nat -> S -> S) (n : nat) (s : S) :
  (forall i x, i < n -> body i x = body' i x) ->
  for_loop n body s = for_loop n body' s.
Proof.
  induction n as [|n IH]; simpl; intros Hb.
  - reflexivity.
  - rewrite IH by (intros; apply Hb; lia). apply Hb. lia.
Qed.

Section ArrayFacts.
Context {K : Type} {A : Arith K}.

Lemma length_upd (a : list K) i v : length (upd a i v) = length a.
Proof.
  revert i; induction a as [|h t IH]; intros [|i]; simpl; auto.
Qed.

Lemma rd_upd_eq (a : list K) i v : i < length a -> rd (upd a i v) i = v.
Proof.
  unfold rd. revert i; induction a as [|h t IH]; intros [|i]; simpl; intros H; try lia; auto.
  apply IH. lia.
Qed.

Lemma rd_upd_neq (a : list K) i j v : i <> j -> rd (upd a i v) j = rd a j.
Proof.
  unfold rd. revert i j; induction a as [|h t IH]; intros [|i] [|j]; simpl; intros H;
    try reflexivity; try lia.
  apply IH. lia.
Qed.

Lemma upd_upd (a : list K) i v w : upd (upd a i v) i w = upd a i w.
Proof.
  revert i; induction a as [|h t IH]; intros [|i]; simpl; auto.
  rewrite IH. reflexivity.
Qed.

Lemma rd_ext (a b : list K) :
  length a = length b -> (forall i, i < length a -> rd a i = rd b i) -> a = b.
Proof.
  intros Hl H. apply nth_ext with (d := zero) (d' := zero); assumption.
Qed.

Lemma length_alloc n : length (alloc n : list K) = n.
Proof. apply repeat_length. Qed.

Lemma length_tabulate n (f : nat -> K) : length (tabulate n f) = n.
Proof. unfold tabulate. rewrite length_map, length_seq. reflexivity. Qed.

Lemma rd_tabulate n (f : nat -> K) i : i < n -> rd (tabulate n f) i = f i.
Proof.
  intros H. unfold rd, tabulate.
  rewrite nth_indep with (d' := f 0) by (rewrite length_map, length_seq; exact H).
  rewrite map_nth. rewrite seq_nth by exact H. reflexivity.
Qed.

Lemma length_overwrite (c : list K) sel f : length (overwrite c sel f) = length c.
Proof. unfold overwrite. rewrite length_map, length_seq. reflexivity. Qed.

Lemma rd_overwrite (c : list K) sel f i :
  i < length c -> rd (overwrite c sel f) i = if sel i then f i else rd c i.
Proof. intros H. unfold overwrite. apply (@rd_tabulate (length c) (fun idx => if sel idx then f idx else rd c idx) i H). Qed.

(** A loop that stores [h i] at cell [g i]. *)
Definition store_loop (n : nat) (g : nat -> nat) (h : nat -> K) (a : list K) : list K :=
  for_loop n (fun i a' => upd a' (g i) (h i)) a.

Lemma length_store_loop n g h a : length (store_loop n g h a) = length a.
Proof.
  unfold store_loop. induction n as [|n IH]; simpl; [reflexivity|].
  rewrite length_upd. exact IH.
Qed.

Lemma rd_store_loop_miss n g h a idx :
  (forall j, j < n -> g j <> idx) -> rd (store_loop n g h a) idx = rd a idx.
Proof.
  unfold store_loop. induction n as [|n IH]; simpl; intros H; [reflexivity|].
  rewrite rd_upd_neq by (apply H; lia). apply IH. intros; apply H; lia.
Qed.

Lemma rd_store_loop_hit n g h a j :
  j < n -> g j < length a -> (forall j', j < j' -> j' < n -> g j' <> g j) ->
  rd (store_loop n g h a) (g j) = h j.
Proof.
  unfold store_loop. induction n as [|n IH]; simpl; intros Hj Hl Hinj; [lia|].
  destruct (Nat.eq_dec j n) as [->|Hne].
  - apply rd_upd_eq. fold (store_loop n g h a). rewrite length_store_loop. exact Hl.
  - rewrite rd_upd_neq by (apply Hinj; lia).
    apply IH; [lia|exact Hl|]. intros; apply Hinj; lia.
Qed.

Lemma store_loop_id n h a :
  length a = n -> store_loop n (fun i => i) h a = tabulate n h.
Proof.
  intros Hl. apply rd_ext.
  - rewrite length_store_loop, length_tabulate. exact Hl.
  - intros i Hi. rewrite length_store_loop, Hl in Hi.
    rewrite rd_tabulate by exact Hi.
    apply (@rd_store_loop_hit n (fun i => i) h a i); lia.
Qed.

Lemma dcopy_unit n (x y : list K) :
  length y = n -> dcopy n x 1 y 1 = tabulate n (rd x).
Proof.
  intros Hl. unfold dcopy.
  rewrite for_loop_ext with (body' := fun i a' => upd a' i (rd x i)).
  - apply (@store_loop_id n (rd x) y Hl).
  - intros i a' _. rewrite !Nat.mul_1_r. reflexivity.
Qed.

Lemma SetZeroes_all n (buf : list K) :
  length buf = n -> SetZeroes buf n = tabulate n (fun _ => zero).
Proof. intros Hl. apply (@store_loop_id n (fun _ => zero) buf Hl). Qed.

Lemma length_MPI_Recv_into (buf : list K) n src msg :
  length (Par.MPI_Recv_into buf n src msg) = length buf.
Proof.
  unfold Par.MPI_Recv_into. destruct (src <? 0)%Z; [reflexivity|].
  apply (length_store_loop n (fun i => i) (rd msg)).
Qed.

Lemma MPI_Recv_into_all (buf : list K) n src msg :
  (0 <= src)%Z -> length buf = n -> Par.MPI_Recv_into buf n src msg = tabulate n (rd msg).
Proof.
  intros Hs Hl. unfold Par.MPI_Recv_into.
  destruct (Z.ltb_spec src 0); [lia|].
  apply (@store_loop_id n (rd msg) buf Hl).
Qed.

(** Column-major indices. *)
Lemma cm_mod r c ld : r < ld -> (r + c * ld) mod ld = r.
Proof. intros H. rewrite Nat.Div0.mod_add. apply Nat.mod_small. exact H. Qed.

Lemma cm_div r c ld : r < ld -> (r + c * ld) / ld = c.
Proof. intros H. rewrite Nat.div_add by lia. rewrite Nat.div_small by exact H. reflexivity. Qed.

Lemma cm_lt r c m n : r < m -> c < n -> r + c * m < m * n.
Proof. intros. nia. Qed.

End ArrayFacts.

Lemma for_loop_ext_inv {S : Type} (P : S -> Prop) (body body' : nat -> S -> S) (n : nat) (s : S) :
  P s ->
  (forall i x, i < n -> P x -> P (body' i x) /\ body i x = body' i x) ->
  for_loop n body s = for_loop n body' s.
Proof.
  intros H0 Hb.
  assert (H : for_loop n body s = for_loop n body' s /\ P (for_loop n body' s)).
  { induction n as [|n IH]; simpl.
    - split; [reflexivity|exact H0].
    - destruct IH as [IH1 IH2]; [intros; apply Hb; [lia|assumption]|].
      rewrite IH1. destruct (Hb n (for_loop n body' s)) as [HP He]; [lia|exact IH2|].
      split; assumption. }
  apply H.
Qed.

(** ** Sums and accumulating loops in exact arithmetic *)

Section RingFacts.
Context {K : Type} {A : Arith K} {L : @ArithLaws K A}.

Add Ring Kring : arith_ring.

Lemma sum_upto_ext n (f g : nat -> K) :
  (forall k, k < n -> f k = g k) -> sum_upto n f = sum_upto n g.
Proof.
  induction n as [|n IH]; simpl; intros H; [reflexivity|].
  rewrite IH by (intros; apply H; lia). rewrite H by lia. reflexivity.
Qed.

Lemma sum_upto_zero n (f : nat -> K) :
  (forall k, k < n -> f k = zero) -> sum_upto n f = zero.
Proof.
  induction n as [|n IH]; simpl; intros H; [reflexivity|].
  rewrite IH by (intros; apply H; lia). rewrite H by lia. ring.
Qed.

Lemma sum_upto_add n (f g : nat -> K) :
  sum_upto n (fun k => add (f k) (g k)) = add (sum_upto n f) (sum_upto n g).
Proof.
  induction n as [|n IH]; simpl; [ring|]. rewrite IH. ring.
Qed.

Lemma sum_upto_single n a (f : nat -> K) :
  a < n -> (forall k, k < n -> k <> a -> f k = zero) -> sum_upto n f = f a.
Proof.
  induction n as [|n IH]; simpl; intros Ha H; [lia|].
  destruct (Nat.eq_dec a n) as [->|Hne].
  - rewrite sum_upto_zero by (intros; apply H; lia). ring.
  - rewrite IH by (try lia; intros; apply H; lia).
    rewrite (H n) by lia. ring.
Qed.

(** A sum whose terms vanish away from [c - 1], [c], [c + 1]. *)
Lemma sum_upto_three n c (t : nat -> K) :
  c < n ->
  (forall k, k < n -> k <> c -> k + 1 <> c -> k <> c + 1 -> t k = zero) ->
  sum_upto n t =
  add (add (t c) (if 0 <? c then t (c - 1) else zero))
      (if c + 1 <? n then t (c + 1) else zero).
Proof.
  intros Hc Hz.
  rewrite sum_upto_ext with
    (g := fun k => add (add (if k =? c then t k else zero)
                            (if k + 1 =? c then t k else zero))
                       (if k =? c + 1 then t k else zero)).
  2:{ intros k Hk.
      destruct (Nat.eqb_spec k c); destruct (Nat.eqb_spec (k + 1) c);
        destruct (Nat.eqb_spec k (c + 1)); try lia; try ring.
      rewrite Hz by lia. ring. }
  rewrite !sum_upto_add.
  rewrite (@sum_upto_single n c) by
    (first [lia | intros k Hk Hne; destruct (Nat.eqb_spec k c); [lia|reflexivity]]).
  rewrite Nat.eqb_refl.
  f_equal; [f_equal|].
  - destruct (Nat.ltb_spec 0 c).
    + rewrite (@sum_upto_single n (c - 1)) by
        (first [lia | intros k Hk Hne; destruct (Nat.eqb_spec (k + 1) c); [lia|reflexivity]]).
      destruct (Nat.eqb_spec (c - 1 + 1) c); [reflexivity|lia].
    + apply sum_upto_zero. intros k Hk. destruct (Nat.eqb_spec (k + 1) c); [lia|reflexivity].
  - destruct (Nat.ltb_spec (c + 1) n).
    + rewrite (@sum_upto_single n (c + 1)) by
        (first [lia | intros k Hk Hne; destruct (Nat.eqb_spec k (c + 1)); [lia|reflexivity]]).
      rewrite Nat.eqb_refl. reflexivity.
    + apply sum_upto_zero. intros k Hk. destruct (Nat.eqb_spec k (c + 1)); [lia|reflexivity].
Qed.

(** The sum of the contributions [h j] that a loop adds to cell [idx]. *)
Lemma sum_hit n (g : nat -> nat) (h : nat -> K) idx j0 :
  j0 < n -> g j0 = idx -> (forall j, j < n -> g j = idx -> j = j0) ->
  sum_upto n (fun j => if g j =? idx then h j else zero) = h j0.
Proof.
  intros Hj Hg Hinj.
  rewrite (@sum_upto_single n j0); try assumption.
  - rewrite Hg, Nat.eqb_refl. reflexivity.
  - intros k Hk Hne. destruct (Nat.eqb_spec (g k) idx) as [He|]; [|reflexivity].
    exfalso. apply Hne. apply Hinj; assumption.
Qed.

Lemma sum_miss n (g : nat -> nat) (h : nat -> K) idx :
  (forall j, j < n -> g j <> idx) ->
  sum_upto n (fun j => if g j =? idx then h j else zero) = zero.
Proof.
  intros H. apply sum_upto_zero. intros k Hk.
  destruct (Nat.eqb_spec (g k) idx) as [He|]; [|reflexivity].
  exfalso. exact (H k Hk He).
Qed.

(** [for (j..) { a[g1 j] += h1 j; a[g2 j] += h2 j; }] *)
Lemma rd_acc2_loop n (g1 g2 : nat -> nat) (h1 h2 : nat -> K) (a : list K) idx :
  idx < length a ->
  rd (for_loop n (fun j a' =>
        let a1 := upd a' (g1 j) (add (rd a' (g1 j)) (h1 j)) in
        upd a1 (g2 j) (add (rd a1 (g2 j)) (h2 j))) a) idx
  = add (rd a idx)
        (add (sum_upto n (fun j => if g1 j =? idx then h1 j else zero))
             (sum_upto n (fun j => if g2 j =? idx then h2 j else zero))).
Proof.
  intros Hi.
  set (body := fun j a' =>
        let a1 := upd a' (g1 j) (add (rd a' (g1 j)) (h1 j)) in
        upd a1 (g2 j) (add (rd a1 (g2 j)) (h2 j))).
  assert (Hlen : forall n, length (for_loop n body a) = length a).
  { intros n0. induction n0 as [|n0 IH]; simpl; [reflexivity|].
    unfold body at 1. simpl. rewrite !length_upd. exact IH. }
  induction n as [|n IH]; simpl; [ring|].
  unfold body at 1. cbv zeta.
  set (a' := for_loop n body a) in *.
  assert (Hl' : idx < length a') by (unfold a'; rewrite Hlen; exact Hi).
  destruct (Nat.eqb_spec (g2 n) idx) as [E2|N2].
  - rewrite E2. rewrite rd_upd_eq by (rewrite length_upd; exact Hl').
    destruct (Nat.eqb_spec (g1 n) idx) as [E1|N1].
    + rewrite E1. rewrite rd_upd_eq by exact Hl'. rewrite IH. ring.
    + rewrite rd_upd_neq by exact N1. rewrite IH. ring.
  - rewrite rd_upd_neq by exact N2.
    destruct (Nat.eqb_spec (g1 n) idx) as [E1|N1].
    + rewrite E1. rewrite rd_upd_eq by exact Hl'. rewrite IH. ring.
    + rewrite rd_upd_neq by exact N1. rewrite IH. ring.
Qed.

(** [for (j..) a[g j] -= h j;] *)
Lemma rd_dec_loop n (g : nat -> nat) (h : nat -> K) (a : list K) idx :
  idx < length a ->
  rd (for_loop n (fun j a' => upd a' (g j) (sub (rd a' (g j)) (h j))) a) idx
  = sub (rd a idx) (sum_upto n (fun j => if g j =? idx then h j else zero)).
Proof.
  intros Hi.
  set (body := fun j a' => upd a' (g j) (sub (rd a' (g j)) (h j))).
  assert (Hlen : forall n, length (for_loop n body a) = length a).
  { intros n0. induction n0 as [|n0 IH]; simpl; [reflexivity|].
    unfold body at 1. rewrite length_upd. exact IH. }
  induction n as [|n IH]; simpl; [ring|].
  unfold body at 1.
  set (a' := for_loop n body a) in *.
  assert (Hl' : idx < length a') by (unfold a'; rewrite Hlen; exact Hi).
  destruct (Nat.eqb_spec (g n) idx) as [E1|N1].
  - rewrite E1. rewrite rd_upd_eq by exact Hl'. rewrite IH. ring.
  - rewrite rd_upd_neq by exact N1. rewrite IH. ring.
Qed.

End RingFacts.

(** ** The operators and the BLAS products, cell by cell *)

Section OperatorFacts.
Context {K : Type} {A : Arith K}.

Lemma GenSymm_at alpha beta n (out : list K) r c :
  length out = n * n -> r < n -> c < n ->
  at_cm (GenSymm alpha beta n n out) n r c = symm_entry alpha beta r c.
Proof.
  intros Hl Hr Hc. unfold at_cm, GenSymm.
  rewrite rd_overwrite by (rewrite Hl; apply cm_lt; assumption).
  pose proof (cm_lt Hr Hc) as Hlt. apply Nat.ltb_lt in Hlt. rewrite Hlt.
  rewrite cm_mod, cm_div by exact Hr. reflexivity.
Qed.

Lemma GenTrmm_at alpha beta n UPPER (out : list K) r c :
  length out = n * n -> r < n -> c < n ->
  at_cm (GenTrmm alpha beta n n UPPER out) n r c = trmm_entry alpha beta UPPER r c.
Proof.
  intros Hl Hr Hc. unfold at_cm, GenTrmm.
  rewrite rd_overwrite by (rewrite Hl; apply cm_lt; assumption).
  pose proof (cm_lt Hr Hc) as Hlt. apply Nat.ltb_lt in Hlt. rewrite Hlt.
  rewrite cm_mod, cm_div by exact Hr. reflexivity.
Qed.

Lemma length_GenSymm alpha beta n n' (out : list K) :
  length (GenSymm alpha beta n n' out) = length out.
Proof. apply length_overwrite. Qed.

Lemma symm_entry_sym alpha beta r c :
  symm_entry alpha beta r c = symm_entry alpha beta c r.
Proof.
  unfold symm_entry.
  destruct (Nat.eqb_spec r c); destruct (Nat.eqb_spec c r); try lia; try reflexivity.
  rewrite orb_comm. reflexivity.
Qed.

Lemma in_block_full m n idx : 0 < m -> idx < m * n -> in_block m n m idx = true.
Proof.
  intros Hm Hi. unfold in_block. apply andb_true_intro. split; apply Nat.ltb_lt.
  - apply Nat.mod_upper_bound. lia.
  - apply Nat.Div0.div_lt_upper_bound. exact Hi.
Qed.

(** The products, at cell [(r, c)] of an [m x n] result stored with
    leading dimension [m]. *)
Lemma rd_dsymm side uplo m n alpha (a : list K) lda b ldb c' r cl :
  length c' = m * n -> r < m -> cl < n ->
  rd (dsymm side uplo m n alpha a lda b ldb c' m) (cl * m + r) =
  match side with
  | SideR => mul alpha (sum_upto n (fun k => mul (at_cm b ldb r k) (sym_at uplo a lda k cl)))
  | SideL => mul alpha (sum_upto m (fun k => mul (sym_at uplo a lda r k) (at_cm b ldb k cl)))
  end.
Proof.
  intros Hl Hr Hc. unfold dsymm. rewrite (Nat.add_comm (cl * m) r).
  rewrite rd_overwrite by (rewrite Hl; apply cm_lt; assumption).
  rewrite in_block_full by (try lia; apply cm_lt; assumption).
  rewrite cm_mod, cm_div by exact Hr. reflexivity.
Qed.

Lemma rd_dtrmm side uplo m n alpha (a : list K) lda b r cl :
  length b = m * n -> r < m -> cl < n ->
  rd (dtrmm side uplo m n alpha a lda b m) (cl * m + r) =
  match side with
  | SideR => mul alpha (sum_upto n (fun k => mul (at_cm b m r k) (tri_at uplo a lda k cl)))
  | SideL => mul alpha (sum_upto m (fun k => mul (tri_at uplo a lda r k) (at_cm b m k cl)))
  end.
Proof.
  intros Hl Hr Hc. unfold dtrmm. rewrite (Nat.add_comm (cl * m) r).
  rewrite rd_overwrite by (rewrite Hl; apply cm_lt; assumption).
  rewrite in_block_full by (try lia; apply cm_lt; assumption).
  rewrite cm_mod, cm_div by exact Hr. reflexivity.
Qed.

Lemma length_dsymm side uplo m n alpha (a : list K) lda b ldb c' ldc :
  length (dsymm side uplo m n alpha a lda b ldb c' ldc) = length c'.
Proof. apply length_overwrite. Qed.

Lemma length_dtrmm side uplo m n alpha (a : list K) lda b ldb :
  length (dtrmm side uplo m n alpha a lda b ldb) = length b.
Proof. apply length_overwrite. Qed.

Lemma length_MatMul (Ui Vi : list K) Ny Nx oi oj p :
  length (MatMul Ui Vi Ny Nx oi oj p) = Ny * Nx.
Proof. apply length_tabulate. Qed.

Lemma rd_MatMul (Ui Vi : list K) Ny Nx oi oj p i j :
  i < Nx -> j < Ny ->
  rd (MatMul Ui Vi Ny Nx oi oj p) (i * Ny + j) =
  if (oi && (i =? 0)) || (oj && (j =? 0)) then zero
  else mul (mul p (rd Ui ((i - Nat.b2n oi) * Ny + (j - Nat.b2n oj)))) (rd Vi (i * Ny + j)).
Proof.
  intros Hi Hj. unfold MatMul.
  rewrite rd_tabulate by (rewrite Nat.add_comm; apply cm_lt; assumption).
  rewrite (Nat.add_comm (i * Ny) j), cm_mod, cm_div by exact Hj. reflexivity.
Qed.

End OperatorFacts.

(** ** The partitioned engine: halo refresh and boundary corrections *)

Section ParFacts.
Context {K : Type} {A : Arith K}.

Lemma tabulate_const n (v : K) : tabulate n (fun _ => v) = repeat v n.
Proof.
  apply nth_ext with (d := zero) (d' := zero).
  - rewrite length_tabulate, repeat_length. reflexivity.
  - intros i Hi. rewrite length_tabulate in Hi.
    change (rd (tabulate n (fun _ => v)) i = nth i (repeat v n) zero).
    rewrite rd_tabulate by exact Hi. symmetry. apply nth_repeat_lt. exact Hi.
Qed.

(** What one receive of [SetCaches] leaves in a cache of [n] cells. *)
Definition refreshed (n : nat) (source : Z) (msg : list K) : list K :=
  if (source <? 0)%Z then repeat zero n else tabulate n (rd msg).

Lemma refresh_cache (buf : list K) n source msg :
  length buf = n ->
  (let b1 := Par.MPI_Recv_into buf n source msg in
   if (source <? 0)%Z then SetZeroes b1 n else b1) = refreshed n source msg.
Proof.
  intros Hl. cbv zeta. unfold refreshed. destruct (Z.ltb_spec source 0) as [Hs|Hs].
  - rewrite SetZeroes_all by (rewrite length_MPI_Recv_into; exact Hl).
    apply tabulate_const.
  - apply MPI_Recv_into_all; assumption.
Qed.

Lemma caches_allocated_new m : caches_allocated m (Par.Burgers2P_new m).
Proof. unfold caches_allocated; simpl. rewrite !length_alloc. auto. Qed.

Lemma SetCaches_eq m st Vel inc :
  caches_allocated m st ->
  Par.SetCaches m st Vel inc =
  Par.set_caches st
    (refreshed (Par.GetLocNxr m) (Par.GetUp m) (Par.to_down inc))
    (refreshed (Par.GetLocNxr m) (Par.GetDown m) (Par.to_up inc))
    (refreshed (Par.GetLocNyr m) (Par.GetLeft m) (Par.to_right inc))
    (refreshed (Par.GetLocNyr m) (Par.GetRight m) (Par.to_left inc)).
Proof.
  intros (Hu & Hd & Hl & Hr). unfold Par.SetCaches. cbv zeta.
  pose proof (@refresh_cache _ _ (Par.GetUp m) (Par.to_down inc) Hu) as E1.
  pose proof (@refresh_cache _ _ (Par.GetDown m) (Par.to_up inc) Hd) as E2.
  pose proof (@refresh_cache _ _ (Par.GetLeft m) (Par.to_right inc) Hl) as E3.
  pose proof (@refresh_cache _ _ (Par.GetRight m) (Par.to_left inc) Hr) as E4.
  cbv zeta in E1, E2, E3, E4. rewrite E1, E2, E3, E4. reflexivity.
Qed.

Lemma length_refreshed n source (msg : list K) : length (refreshed n source msg) = n.
Proof.
  unfold refreshed. destruct (source <? 0)%Z.
  - apply repeat_length.
  - apply length_tabulate.
Qed.

Lemma rd_refreshed n source (msg : list K) i :
  i < n -> rd (refreshed n source msg) i = if (source <? 0)%Z then zero else rd msg i.
Proof.
  intros Hi. unfold refreshed. destruct (source <? 0)%Z.
  - unfold rd. apply nth_repeat_lt. exact Hi.
  - apply rd_tabulate. exact Hi.
Qed.

Lemma SetCaches_allocated m st Vel inc :
  caches_allocated m st -> caches_allocated m (Par.SetCaches m st Vel inc).
Proof.
  intros H. rewrite SetCaches_eq by exact H.
  unfold caches_allocated; simpl. rewrite !length_refreshed. auto.
Qed.

Lemma SetCaches_fields m st Vel inc :
  Par.U (Par.SetCaches m st Vel inc) = Par.U st /\
  Par.V (Par.SetCaches m st Vel inc) = Par.V st /\
  Par.dVel_dx_2_coeffs (Par.SetCaches m st Vel inc) = Par.dVel_dx_2_coeffs st /\
  Par.dVel_dy_2_coeffs (Par.SetCaches m st Vel inc) = Par.dVel_dy_2_coeffs st /\
  Par.dVel_dx_coeffs (Par.SetCaches m st Vel inc) = Par.dVel_dx_coeffs st /\
  Par.dVel_dy_coeffs (Par.SetCaches m st Vel inc) = Par.dVel_dy_coeffs st.
Proof. unfold Par.SetCaches; simpl. repeat split. Qed.

(** The boundary vectors a worker sends. *)
Lemma MyBounds_eq m (Vel : list K) :
  Par.MyBounds m Vel =
  {| Par.to_up := tabulate (Par.GetLocNxr m) (fun i => rd Vel (i * Par.GetLocNyr m));
     Par.to_down := tabulate (Par.GetLocNxr m)
                      (fun i => rd Vel (i * Par.GetLocNyr m + (Par.GetLocNyr m - 1)));
     Par.to_left := tabulate (Par.GetLocNyr m) (fun j => rd Vel j);
     Par.to_right := tabulate (Par.GetLocNyr m)
                       (fun j => rd Vel ((Par.GetLocNxr m - 1) * Par.GetLocNyr m + j)) |}.
Proof.
  unfold Par.MyBounds. cbv zeta.
  set (Nyr := Par.GetLocNyr m). set (Nxr := Par.GetLocNxr m).
  f_equal.
  - rewrite (@for_loop_proj _ _ fst _ (fun i a => upd a i (rd Vel (i * Nyr))))
      by reflexivity.
    apply (@store_loop_id _ _ Nxr). apply length_alloc.
  - rewrite (@for_loop_proj _ _ snd _ (fun i a => upd a i (rd Vel (i * Nyr + (Nyr - 1)))))
      by reflexivity.
    apply (@store_loop_id _ _ Nxr). apply length_alloc.
  - rewrite (@for_loop_proj _ _ fst _ (fun j a => upd a j (rd Vel j))) by reflexivity.
    apply (@store_loop_id _ _ Nyr). apply length_alloc.
  - rewrite (@for_loop_proj _ _ snd _ (fun j a => upd a j (rd Vel ((Nxr - 1) * Nyr + j))))
      by reflexivity.
    apply (@store_loop_id _ _ Nyr). apply length_alloc.
Qed.

(** The final loop of [NextVelocityState] writes every cell once. *)
Lemma Combine_eq m (Vel : list K) t :
  Par.Combine m Vel t =
  tabulate (Par.GetLocNyr m * Par.GetLocNxr m)
    (fun i => add (mul (Par.rhs_at t i) (Par.GetDt m)) (rd Vel i)).
Proof.
  unfold Par.Combine. cbv zeta.
  set (n := Par.GetLocNyr m * Par.GetLocNxr m).
  rewrite for_loop_ext_inv with
    (P := fun a : list K => length a = n)
    (body' := fun i a => upd a i (add (mul (Par.rhs_at t i) (Par.GetDt m)) (rd Vel i))).
  - apply (@store_loop_id _ _ n). apply length_alloc.
  - apply length_alloc.
  - intros i x Hi Hx. split; [rewrite length_upd; exact Hx|].
    rewrite !rd_upd_eq by (rewrite ?length_upd, Hx; exact Hi).
    rewrite !upd_upd. reflexivity.
Qed.

Lemma CopyAndDelete_eq m st (NextU NextV : list K) :
  length (Par.U st) = Par.GetLocNyr m * Par.GetLocNxr m ->
  length (Par.V st) = Par.GetLocNyr m * Par.GetLocNxr m ->
  Par.CopyAndDelete m st NextU NextV =
  Par.set_UV st (tabulate (Par.GetLocNyr m * Par.GetLocNxr m) (rd NextU))
                (tabulate (Par.GetLocNyr m * Par.GetLocNxr m) (rd NextV)).
Proof.
  intros HU HV. unfold Par.CopyAndDelete. cbv zeta.
  set (n := Par.GetLocNyr m * Par.GetLocNxr m) in *.
  f_equal.
  - rewrite (@for_loop_proj _ _ fst _ (fun i a => upd a i (rd NextU i))) by reflexivity.
    apply (@store_loop_id _ _ n). exact HU.
  - rewrite (@for_loop_proj _ _ snd _ (fun i a => upd a i (rd NextV i))) by reflexivity.
    apply (@store_loop_id _ _ n). exact HV.
Qed.

Lemma tabulate_rd_self n (a : list K) : length a = n -> tabulate n (rd a) = a.
Proof.
  intros Hl. apply rd_ext.
  - rewrite length_tabulate. symmetry. exact Hl.
  - intros i Hi. rewrite length_tabulate in Hi. apply rd_tabulate. exact Hi.
Qed.

End ParFacts.

Lemma cm_inj (n a b c d : nat) :
  b < n -> d < n -> a * n + b = c * n + d -> a = c /\ b = d.
Proof.
  intros Hb Hd H.
  assert (Ha : (b + a * n) / n = a) by (apply (@cm_div b a n Hb)).
  assert (Hc : (d + c * n) / n = c) by (apply (@cm_div d c n Hd)).
  assert (E : b + a * n = d + c * n) by lia.
  rewrite E in Ha. split; [congruence|]. assert (a = c) by congruence. subst. lia.
Qed.

Section StencilSums.
Context {K : Type} {A : Arith K} {L : @ArithLaws K A}.

Add Ring Kring2 : arith_ring.

(** Products with the operators of [GenSymm] and [GenTrmm] reduce to the
    stencil. *)
Lemma symm_sum_right n c (f : nat -> K) diag off :
  c < n ->
  sum_upto n (fun k => mul (f k) (symm_entry diag off k c)) =
  add (add (mul (f c) diag) (if 0 <? c then mul (f (c - 1)) off else zero))
      (if c + 1 <? n then mul (f (c + 1)) off else zero).
Proof.
  intros Hc. rewrite (@sum_upto_three _ _ _ n c) by
    (first [exact Hc | intros k Hk H1 H2 H3; unfold symm_entry;
            destruct (Nat.eqb_spec k c); [lia|];
            destruct (Nat.eqb_spec k (c + 1)); [lia|];
            destruct (Nat.eqb_spec c (k + 1)); [lia|]; simpl; ring]).
  unfold symm_entry. rewrite Nat.eqb_refl.
  f_equal; [f_equal|].
  - destruct (Nat.ltb_spec 0 c); [|reflexivity].
    destruct (Nat.eqb_spec (c - 1) c); [lia|].
    destruct (Nat.eqb_spec c (c - 1 + 1)); [|lia]. rewrite orb_true_r. reflexivity.
  - destruct (Nat.ltb_spec (c + 1) n); [|reflexivity].
    destruct (Nat.eqb_spec (c + 1) c); [lia|]. rewrite Nat.eqb_refl. reflexivity.
Qed.

Lemma symm_sum_left n r (f : nat -> K) diag off :
  r < n ->
  sum_upto n (fun k => mul (symm_entry diag off r k) (f k)) =
  add (add (mul (f r) diag) (if 0 <? r then mul (f (r - 1)) off else zero))
      (if r + 1 <? n then mul (f (r + 1)) off else zero).
Proof.
  intros Hr. rewrite <- symm_sum_right by exact Hr.
  apply sum_upto_ext. intros k Hk. rewrite (symm_entry_sym diag off r k). ring.
Qed.

Lemma trmm_sum_right n c (f : nat -> K) diag off :
  c < n ->
  sum_upto n (fun k => mul (f k) (trmm_entry diag off true k c)) =
  add (mul (f c) diag) (if 0 <? c then mul (f (c - 1)) off else zero).
Proof.
  intros Hc. rewrite (@sum_upto_three _ _ _ n c) by
    (first [exact Hc | intros k Hk H1 H2 H3; unfold trmm_entry;
            destruct (Nat.eqb_spec k c); [lia|];
            destruct (Nat.eqb_spec c (k + 1)); [lia|]; ring]).
  unfold trmm_entry. rewrite Nat.eqb_refl.
  assert (E : (if c + 1 <? n then mul (f (c + 1))
                 (if c + 1 =? c then diag else if c =? c + 1 + 1 then off else zero)
               else zero) = zero).
  { destruct (c + 1 <? n); [|reflexivity].
    destruct (Nat.eqb_spec (c + 1) c); [lia|].
    destruct (Nat.eqb_spec c (c + 1 + 1)); [lia|]. ring. }
  rewrite E.
  destruct (Nat.ltb_spec 0 c).
  - destruct (Nat.eqb_spec (c - 1) c); [lia|].
    destruct (Nat.eqb_spec c (c - 1 + 1)); [|lia]. ring.
  - ring.
Qed.

Lemma trmm_sum_left n r (f : nat -> K) diag off :
  r < n ->
  sum_upto n (fun k => mul (trmm_entry diag off false r k) (f k)) =
  add (mul (f r) diag) (if 0 <? r then mul (f (r - 1)) off else zero).
Proof.
  intros Hr. rewrite (@sum_upto_three _ _ _ n r) by
    (first [exact Hr | intros k Hk H1 H2 H3; unfold trmm_entry;
            destruct (Nat.eqb_spec r k); [lia|];
            destruct (Nat.eqb_spec r (k + 1)); [lia|]; ring]).
  unfold trmm_entry. rewrite Nat.eqb_refl.
  assert (E : (if r + 1 <? n then mul
                 (if r =? r + 1 then diag else if r =? r + 1 + 1 then off else zero)
                 (f (r + 1))
               else zero) = zero).
  { destruct (r + 1 <? n); [|reflexivity].
    destruct (Nat.eqb_spec r (r + 1)); [lia|].
    destruct (Nat.eqb_spec r (r + 1 + 1)); [lia|]. ring. }
  rewrite E.
  destruct (Nat.ltb_spec 0 r).
  - destruct (Nat.eqb_spec r (r - 1)); [lia|].
    destruct (Nat.eqb_spec r (r - 1 + 1)); [|lia]. ring.
  - ring.
Qed.

End StencilSums.

(** ** The term arrays of the partitioned engine, cell by cell *)

Section ParTerms.
Context {K : Type} {A : Arith K}.

Lemma SetMatrixCoefficients_built m st :
  coeffs_allocated m st -> operators_built m (Par.SetMatrixCoefficients m st).
Proof.
  intros (H1 & H2 & H3 & H4). unfold operators_built, Par.SetMatrixCoefficients; simpl.
  repeat split; intros r c Hr Hc.
  - apply GenSymm_at; assumption.
  - apply GenSymm_at; assumption.
  - apply GenTrmm_at; assumption.
  - apply GenTrmm_at; assumption.
Qed.

Lemma sym_at_built (a : list K) n diag off r c :
  (forall r c, r < n -> c < n -> at_cm a n r c = symm_entry diag off r c) ->
  r < n -> c < n -> sym_at Upper a n r c = symm_entry diag off r c.
Proof.
  intros H Hr Hc. unfold sym_at. destruct (r <=? c).
  - apply H; assumption.
  - rewrite H by assumption. apply symm_entry_sym.
Qed.

Lemma tri_at_built_upper (a : list K) n diag off r c :
  (forall r c, r < n -> c < n -> at_cm a n r c = trmm_entry diag off true r c) ->
  r < n -> c < n -> tri_at Upper a n r c = trmm_entry diag off true r c.
Proof.
  intros H Hr Hc. unfold tri_at. destruct (Nat.leb_spec r c).
  - apply H; assumption.
  - unfold trmm_entry.
    destruct (Nat.eqb_spec r c); [lia|]. destruct (Nat.eqb_spec c (r + 1)); [lia|reflexivity].
Qed.

Lemma tri_at_built_lower (a : list K) n diag off r c :
  (forall r c, r < n -> c < n -> at_cm a n r c = trmm_entry diag off false r c) ->
  r < n -> c < n -> tri_at Lower a n r c = trmm_entry diag off false r c.
Proof.
  intros H Hr Hc. unfold tri_at. destruct (Nat.leb_spec c r).
  - apply H; assumption.
  - unfold trmm_entry.
    destruct (Nat.eqb_spec r c); [lia|]. destruct (Nat.eqb_spec r (c + 1)); [lia|reflexivity].
Qed.

(** The boundary corrections leave the other arrays as they are. *)
Lemma UpdateBoundsLinear_nonlinear m st (t : Par.Terms K) :
  Par.Vel_Vel (Par.UpdateBoundsLinear m st t) = Par.Vel_Vel t /\
  Par.Vel_Other (Par.UpdateBoundsLinear m st t) = Par.Vel_Other t /\
  Par.Vel_Vel_Minus_1 (Par.UpdateBoundsLinear m st t) = Par.Vel_Vel_Minus_1 t /\
  Par.Vel_Other_Minus_1 (Par.UpdateBoundsLinear m st t) = Par.Vel_Other_Minus_1 t.
Proof. unfold Par.UpdateBoundsLinear; simpl. repeat split. Qed.

Lemma UpdateBoundsNonLinear_linear m st Vel Other (t : Par.Terms K) sel :
  Par.dVel_dx_2 (Par.UpdateBoundsNonLinear m st Vel Other t sel) = Par.dVel_dx_2 t /\
  Par.dVel_dy_2 (Par.UpdateBoundsNonLinear m st Vel Other t sel) = Par.dVel_dy_2 t /\
  Par.dVel_dx (Par.UpdateBoundsNonLinear m st Vel Other t sel) = Par.dVel_dx t /\
  Par.dVel_dy (Par.UpdateBoundsNonLinear m st Vel Other t sel) = Par.dVel_dy t /\
  Par.Vel_Vel (Par.UpdateBoundsNonLinear m st Vel Other t sel) = Par.Vel_Vel t /\
  Par.Vel_Other (Par.UpdateBoundsNonLinear m st Vel Other t sel) = Par.Vel_Other t.
Proof. unfold Par.UpdateBoundsNonLinear; destruct sel; simpl; repeat split. Qed.

(** A loop that stores at the first cell of every column. *)
Lemma rd_store_top Nxr Nyr (h : nat -> K) (a : list K) c r :
  length a = Nyr * Nxr -> c < Nxr -> r < Nyr ->
  rd (for_loop Nxr (fun i a' => upd a' (i * Nyr) (h i)) a) (c * Nyr + r) =
  if r =? 0 then h c else rd a (c * Nyr + r).
Proof.
  intros Hl Hc Hr. change (for_loop Nxr (fun i a' => upd a' (i * Nyr) (h i)) a)
    with (store_loop Nxr (fun i => i * Nyr) h a).
  destruct (Nat.eqb_spec r 0) as [->|Hr0].
  - rewrite Nat.add_0_r.
    apply (@rd_store_loop_hit _ _ Nxr (fun i => i * Nyr) h a c); try assumption.
    + rewrite Hl. nia.
    + intros j' H1 H2. nia.
  - apply rd_store_loop_miss. intros j Hj E.
    assert (E' : j * Nyr + 0 = c * Nyr + r) by lia.
    apply cm_inj in E'; lia.
Qed.

(** A loop that stores at every cell of the first column. *)
Lemma rd_store_first Nxr Nyr (h : nat -> K) (a : list K) c r :
  length a = Nyr * Nxr -> c < Nxr -> r < Nyr ->
  rd (for_loop Nyr (fun j a' => upd a' j (h j)) a) (c * Nyr + r) =
  if c =? 0 then h r else rd a (c * Nyr + r).
Proof.
  intros Hl Hc Hr. change (for_loop Nyr (fun j a' => upd a' j (h j)) a)
    with (store_loop Nyr (fun j => j) h a).
  destruct (Nat.eqb_spec c 0) as [->|Hc0].
  - simpl. apply (@rd_store_loop_hit _ _ Nyr (fun j => j) h a r); try assumption.
    + rewrite Hl. nia.
    + intros j' H1 H2. lia.
  - apply rd_store_loop_miss. intros j Hj E. nia.
Qed.

(** Step 5 and the nonlinear boundary correction: the two backward
    products of [NextVelocityState] at cell [(c, r)]. *)
Lemma rd_Vel_Vel_Minus_1 m st Vel Other sel c r :
  c < Par.GetLocNxr m -> r < Par.GetLocNyr m ->
  rd (Par.Vel_Vel_Minus_1 (Par.ComputeTerms m st Vel Other sel)) (c * Par.GetLocNyr m + r) =
  if sel
  then mul (mul (div (Par.GetB m) (Par.GetDx m)) (nb_left m st Vel c r))
           (rd Vel (c * Par.GetLocNyr m + r))
  else mul (mul (div (Par.GetB m) (Par.GetDy m)) (nb_up m st Vel c r))
           (rd Vel (c * Par.GetLocNyr m + r)).
Proof.
  intros Hc Hr. unfold Par.ComputeTerms. cbv zeta.
  set (Nyr := Par.GetLocNyr m) in *. set (Nxr := Par.GetLocNxr m) in *.
  destruct sel; unfold Par.UpdateBoundsNonLinear; cbv zeta; cbn [Par.Vel_Vel_Minus_1];
    fold Nyr; fold Nxr;
    match goal with
    | |- context [Par.Vel_Vel_Minus_1 (Par.UpdateBoundsLinear ?m' ?s ?t)] =>
        destruct (UpdateBoundsLinear_nonlinear m' s t) as (_ & _ & -> & _)
    end; cbn [Par.Vel_Vel_Minus_1].
  - rewrite (@rd_store_first Nxr Nyr) by (try assumption; apply length_MatMul).
    unfold nb_left. fold Nyr. destruct (Nat.eqb_spec c 0) as [->|Hc0]; [reflexivity|].
    rewrite rd_MatMul by assumption. simpl.
    destruct (Nat.eqb_spec c 0); [lia|]. simpl. rewrite Nat.sub_0_r. reflexivity.
  - rewrite (@rd_store_top Nxr Nyr) by (try assumption; apply length_MatMul).
    unfold nb_up. fold Nyr. destruct (Nat.eqb_spec r 0) as [->|Hr0].
    + rewrite Nat.add_0_r. reflexivity.
    + rewrite rd_MatMul by assumption. simpl.
      destruct (Nat.eqb_spec r 0); [lia|]. rewrite Nat.sub_0_r. reflexivity.
Qed.

Lemma rd_Vel_Other_Minus_1 m st Vel Other sel c r :
  c < Par.GetLocNxr m -> r < Par.GetLocNyr m ->
  rd (Par.Vel_Other_Minus_1 (Par.ComputeTerms m st Vel Other sel)) (c * Par.GetLocNyr m + r) =
  if sel
  then mul (mul (div (Par.GetB m) (Par.GetDy m)) (nb_up m st Vel c r))
           (rd Other (c * Par.GetLocNyr m + r))
  else mul (mul (div (Par.GetB m) (Par.GetDx m)) (nb_left m st Vel c r))
           (rd Other (c * Par.GetLocNyr m + r)).
Proof.
  intros Hc Hr. unfold Par.ComputeTerms. cbv zeta.
  set (Nyr := Par.GetLocNyr m) in *. set (Nxr := Par.GetLocNxr m) in *.
  destruct sel; unfold Par.UpdateBoundsNonLinear; cbv zeta; cbn [Par.Vel_Other_Minus_1];
    fold Nyr; fold Nxr;
    match goal with
    | |- context [Par.Vel_Other_Minus_1 (Par.UpdateBoundsLinear ?m' ?s ?t)] =>
        destruct (UpdateBoundsLinear_nonlinear m' s t) as (_ & _ & _ & ->)
    end; cbn [Par.Vel_Other_Minus_1].
  - rewrite (@rd_store_top Nxr Nyr) by (try assumption; apply length_MatMul).
    unfold nb_up. fold Nyr. destruct (Nat.eqb_spec r 0) as [->|Hr0].
    + rewrite Nat.add_0_r. reflexivity.
    + rewrite rd_MatMul by assumption. simpl.
      destruct (Nat.eqb_spec r 0); [lia|]. rewrite Nat.sub_0_r. reflexivity.
  - rewrite (@rd_store_first Nxr Nyr) by (try assumption; apply length_MatMul).
    unfold nb_left. fold Nyr. destruct (Nat.eqb_spec c 0) as [->|Hc0]; [reflexivity|].
    rewrite rd_MatMul by assumption. simpl.
    destruct (Nat.eqb_spec c 0); [lia|]. simpl. rewrite Nat.sub_0_r. reflexivity.
Qed.

Lemma rd_Vel_Vel m st Vel Other sel c r :
  c < Par.GetLocNxr m -> r < Par.GetLocNyr m ->
  rd (Par.Vel_Vel (Par.ComputeTerms m st Vel Other sel)) (c * Par.GetLocNyr m + r) =
  mul (mul (if sel then div (Par.GetB m) (Par.GetDx m) else div (Par.GetB m) (Par.GetDy m))
           (rd Vel (c * Par.GetLocNyr m + r)))
      (rd Vel (c * Par.GetLocNyr m + r)).
Proof.
  intros Hc Hr. unfold Par.ComputeTerms. cbv zeta.
  match goal with
  | |- context [Par.UpdateBoundsNonLinear ?m' ?s ?v ?o ?t ?b] =>
      destruct (UpdateBoundsNonLinear_linear m' s v o t b) as (_ & _ & _ & _ & -> & _)
  end.
  match goal with
  | |- context [Par.UpdateBoundsLinear ?m' ?s ?t] =>
      destruct (UpdateBoundsLinear_nonlinear m' s t) as (-> & _)
  end.
  destruct sel; cbn [Par.Vel_Vel]; rewrite rd_MatMul by assumption; simpl;
    rewrite !Nat.sub_0_r; reflexivity.
Qed.

Lemma rd_Vel_Other m st Vel Other sel c r :
  c < Par.GetLocNxr m -> r < Par.GetLocNyr m ->
  rd (Par.Vel_Other (Par.ComputeTerms m st Vel Other sel)) (c * Par.GetLocNyr m + r) =
  mul (mul (if sel then div (Par.GetB m) (Par.GetDy m) else div (Par.GetB m) (Par.GetDx m))
           (rd Vel (c * Par.GetLocNyr m + r)))
      (rd Other (c * Par.GetLocNyr m + r)).
Proof.
  intros Hc Hr. unfold Par.ComputeTerms. cbv zeta.
  match goal with
  | |- context [Par.UpdateBoundsNonLinear ?m' ?s ?v ?o ?t ?b] =>
      destruct (UpdateBoundsNonLinear_linear m' s v o t b) as (_ & _ & _ & _ & _ & ->)
  end.
  match goal with
  | |- context [Par.UpdateBoundsLinear ?m' ?s ?t] =>
      destruct (UpdateBoundsLinear_nonlinear m' s t) as (_ & -> & _)
  end.
  destruct sel; cbn [Par.Vel_Other]; rewrite rd_MatMul by assumption; simpl;
    rewrite !Nat.sub_0_r; reflexivity.
Qed.

End ParTerms.

Section ParLinear.
Context {K : Type} {A : Arith K} {L : @ArithLaws K A}.

Add Ring Kring3 : arith_ring.

(** The cells a boundary loop touches. *)
Lemma edge_first Nyr (h : nat -> K) c r :
  r < Nyr ->
  sum_upto Nyr (fun j => if j =? c * Nyr + r then h j else zero) =
  if c =? 0 then h r else zero.
Proof.
  intros Hr. destruct (Nat.eqb_spec c 0) as [->|Hc].
  - apply (@sum_hit _ _ _ Nyr (fun j => j) h (0 * Nyr + r) r); lia.
  - apply (@sum_miss _ _ _ Nyr (fun j => j) h). intros j Hj. nia.
Qed.

Lemma edge_last Nxr Nyr (h : nat -> K) c r :
  c < Nxr -> r < Nyr ->
  sum_upto Nyr (fun j => if (Nxr - 1) * Nyr + j =? c * Nyr + r then h j else zero) =
  if c + 1 =? Nxr then h r else zero.
Proof.
  intros Hc Hr. destruct (Nat.eqb_spec (c + 1) Nxr) as [E|E].
  - apply (@sum_hit _ _ _ Nyr (fun j => (Nxr - 1) * Nyr + j) h (c * Nyr + r) r).
    + exact Hr.
    + replace (Nxr - 1) with c by lia. reflexivity.
    + intros j Hj Ej. apply cm_inj in Ej; lia.
  - apply (@sum_miss _ _ _ Nyr (fun j => (Nxr - 1) * Nyr + j) h).
    intros j Hj Ej. apply cm_inj in Ej; lia.
Qed.

Lemma edge_top Nxr Nyr (h : nat -> K) c r :
  c < Nxr -> r < Nyr ->
  sum_upto Nxr (fun i => if i * Nyr =? c * Nyr + r then h i else zero) =
  if r =? 0 then h c else zero.
Proof.
  intros Hc Hr. destruct (Nat.eqb_spec r 0) as [->|E].
  - apply (@sum_hit _ _ _ Nxr (fun i => i * Nyr) h (c * Nyr + 0) c).
    + exact Hc.
    + lia.
    + intros j Hj Ej. nia.
  - apply (@sum_miss _ _ _ Nxr (fun i => i * Nyr) h).
    intros j Hj Ej. assert (Ej' : j * Nyr + 0 = c * Nyr + r) by lia.
    apply cm_inj in Ej'; lia.
Qed.

Lemma edge_bottom Nxr Nyr (h : nat -> K) c r :
  c < Nxr -> r < Nyr ->
  sum_upto Nxr (fun i => if i * Nyr + (Nyr - 1) =? c * Nyr + r then h i else zero) =
  if r + 1 =? Nyr then h c else zero.
Proof.
  intros Hc Hr. destruct (Nat.eqb_spec (r + 1) Nyr) as [E|E].
  - apply (@sum_hit _ _ _ Nxr (fun i => i * Nyr + (Nyr - 1)) h (c * Nyr + r) c).
    + exact Hc.
    + replace (Nyr - 1) with r by lia. reflexivity.
    + intros j Hj Ej. apply cm_inj in Ej; lia.
  - apply (@sum_miss _ _ _ Nxr (fun i => i * Nyr + (Nyr - 1)) h).
    intros j Hj Ej. apply cm_inj in Ej; lia.
Qed.

(** [UpdateBoundsLinear], cell by cell. *)
Lemma rd_UpdateBoundsLinear_dx_2 m st (t : Par.Terms K) c r :
  length (Par.dVel_dx_2 t) = Par.GetLocNyr m * Par.GetLocNxr m ->
  c < Par.GetLocNxr m -> r < Par.GetLocNyr m ->
  rd (Par.dVel_dx_2 (Par.UpdateBoundsLinear m st t)) (c * Par.GetLocNyr m + r) =
  add (rd (Par.dVel_dx_2 t) (c * Par.GetLocNyr m + r))
      (add (if c =? 0
            then mul (div (Par.GetC m) (pow (Par.GetDx m) two)) (rd (Par.leftVel st) r)
            else zero)
           (if c + 1 =? Par.GetLocNxr m
            then mul (div (Par.GetC m) (pow (Par.GetDx m) two)) (rd (Par.rightVel st) r)
            else zero)).
Proof.
  intros Hl Hc Hr. unfold Par.UpdateBoundsLinear. cbv zeta. cbn [Par.dVel_dx_2].
  set (Nyr := Par.GetLocNyr m) in *. set (Nxr := Par.GetLocNxr m) in *.
  set (cx := div (Par.GetC m) (pow (Par.GetDx m) two)).
  rewrite (@for_loop_proj _ _ fst _
    (fun j a' =>
       let a1 := upd a' ((fun j => j) j) (add (rd a' ((fun j => j) j))
                                              ((fun j => mul cx (rd (Par.leftVel st) j)) j)) in
       upd a1 ((fun j => (Nxr - 1) * Nyr + j) j)
           (add (rd a1 ((fun j => (Nxr - 1) * Nyr + j) j))
                ((fun j => mul cx (rd (Par.rightVel st) j)) j)))) by reflexivity.
  cbn [fst].
  rewrite (@rd_acc2_loop _ _ _ Nyr (fun j => j) (fun j => (Nxr - 1) * Nyr + j)
             (fun j => mul cx (rd (Par.leftVel st) j))
             (fun j => mul cx (rd (Par.rightVel st) j)))
    by (rewrite Hl; rewrite Nat.add_comm; apply cm_lt; assumption).
  rewrite (@edge_first Nyr _ c r Hr), (@edge_last Nxr Nyr _ c r Hc Hr). reflexivity.
Qed.

Lemma rd_UpdateBoundsLinear_dy_2 m st (t : Par.Terms K) c r :
  length (Par.dVel_dy_2 t) = Par.GetLocNyr m * Par.GetLocNxr m ->
  c < Par.GetLocNxr m -> r < Par.GetLocNyr m ->
  rd (Par.dVel_dy_2 (Par.UpdateBoundsLinear m st t)) (c * Par.GetLocNyr m + r) =
  add (rd (Par.dVel_dy_2 t) (c * Par.GetLocNyr m + r))
      (add (if r =? 0
            then mul (div (Par.GetC m) (pow (Par.GetDy m) two)) (rd (Par.upVel st) c)
            else zero)
           (if r + 1 =? Par.GetLocNyr m
            then mul (div (Par.GetC m) (pow (Par.GetDy m) two)) (rd (Par.downVel st) c)
            else zero)).
Proof.
  intros Hl Hc Hr. unfold Par.UpdateBoundsLinear. cbv zeta. cbn [Par.dVel_dy_2].
  set (Nyr := Par.GetLocNyr m) in *. set (Nxr := Par.GetLocNxr m) in *.
  set (cy := div (Par.GetC m) (pow (Par.GetDy m) two)).
  rewrite (@for_loop_proj _ _ fst _
    (fun i a' =>
       let a1 := upd a' ((fun i => i * Nyr) i) (add (rd a' ((fun i => i * Nyr) i))
                                              ((fun i => mul cy (rd (Par.upVel st) i)) i)) in
       upd a1 ((fun i => i * Nyr + (Nyr - 1)) i)
           (add (rd a1 ((fun i => i * Nyr + (Nyr - 1)) i))
                ((fun i => mul cy (rd (Par.downVel st) i)) i)))) by reflexivity.
  cbn [fst].
  rewrite (@rd_acc2_loop _ _ _ Nxr (fun i => i * Nyr) (fun i => i * Nyr + (Nyr - 1))
             (fun i => mul cy (rd (Par.upVel st) i))
             (fun i => mul cy (rd (Par.downVel st) i)))
    by (rewrite Hl; rewrite Nat.add_comm; apply cm_lt; assumption).
  rewrite (@edge_top Nxr Nyr _ c r Hc Hr), (@edge_bottom Nxr Nyr _ c r Hc Hr). reflexivity.
Qed.

Lemma rd_UpdateBoundsLinear_dx m st (t : Par.Terms K) c r :
  length (Par.dVel_dx t) = Par.GetLocNyr m * Par.GetLocNxr m ->
  c < Par.GetLocNxr m -> r < Par.GetLocNyr m ->
  rd (Par.dVel_dx (Par.UpdateBoundsLinear m st t)) (c * Par.GetLocNyr m + r) =
  sub (rd (Par.dVel_dx t) (c * Par.GetLocNyr m + r))
      (if c =? 0
       then mul (div (Par.GetAx m) (Par.GetDx m)) (rd (Par.leftVel st) r)
       else zero).
Proof.
  intros Hl Hc Hr. unfold Par.UpdateBoundsLinear. cbv zeta. cbn [Par.dVel_dx].
  set (Nyr := Par.GetLocNyr m) in *. set (Nxr := Par.GetLocNxr m) in *.
  set (cx := div (Par.GetAx m) (Par.GetDx m)).
  rewrite (@for_loop_proj _ _ snd _
    (fun j a' => upd a' ((fun j => j) j)
                   (sub (rd a' ((fun j => j) j))
                        ((fun j => mul cx (rd (Par.leftVel st) j)) j)))) by reflexivity.
  cbn [snd].
  rewrite (@rd_dec_loop _ _ _ Nyr (fun j => j) (fun j => mul cx (rd (Par.leftVel st) j)))
    by (rewrite Hl; rewrite Nat.add_comm; apply cm_lt; assumption).
  rewrite (@edge_first Nyr _ c r Hr). reflexivity.
Qed.

Lemma rd_UpdateBoundsLinear_dy m st (t : Par.Terms K) c r :
  length (Par.dVel_dy t) = Par.GetLocNyr m * Par.GetLocNxr m ->
  c < Par.GetLocNxr m -> r < Par.GetLocNyr m ->
  rd (Par.dVel_dy (Par.UpdateBoundsLinear m st t)) (c * Par.GetLocNyr m + r) =
  sub (rd (Par.dVel_dy t) (c * Par.GetLocNyr m + r))
      (if r =? 0
       then mul (div (Par.GetAy m) (Par.GetDy m)) (rd (Par.upVel st) c)
       else zero).
Proof.
  intros Hl Hc Hr. unfold Par.UpdateBoundsLinear. cbv zeta. cbn [Par.dVel_dy].
  set (Nyr := Par.GetLocNyr m) in *. set (Nxr := Par.GetLocNxr m) in *.
  set (cy := div (Par.GetAy m) (Par.GetDy m)).
  rewrite (@for_loop_proj _ _ snd _
    (fun i a' => upd a' ((fun i => i * Nyr) i)
                   (sub (rd a' ((fun i => i * Nyr) i))
                        ((fun i => mul cy (rd (Par.upVel st) i)) i)))) by reflexivity.
  cbn [snd].
  rewrite (@rd_dec_loop _ _ _ Nxr (fun i => i * Nyr) (fun i => mul cy (rd (Par.upVel st) i)))
    by (rewrite Hl; rewrite Nat.add_comm; apply cm_lt; assumption).
  rewrite (@edge_top Nxr Nyr _ c r Hc Hr). reflexivity.
Qed.

End ParLinear.

Section ParStencil.
Context {K : Type} {A : Arith K} {L : @ArithLaws K A}.

Add Ring Kring4 : arith_ring.

Lemma length_ComputeTerms_inputs (m : Par.Model K) (Vel : list K) :
  length (dcopy (Par.GetLocNyr m * Par.GetLocNxr m) Vel 1
            (alloc (Par.GetLocNyr m * Par.GetLocNxr m)) 1)
  = Par.GetLocNyr m * Par.GetLocNxr m.
Proof. rewrite dcopy_unit by apply length_alloc. apply length_tabulate. Qed.

(** Steps 2 and 6: the second derivative in x at cell [(c, r)]. *)
Lemma rd_dVel_dx_2 m st Vel Other sel c r :
  operators_built m st ->
  c < Par.GetLocNxr m -> r < Par.GetLocNyr m ->
  rd (Par.dVel_dx_2 (Par.ComputeTerms m st Vel Other sel)) (c * Par.GetLocNyr m + r) =
  add (add (mul (rd Vel (c * Par.GetLocNyr m + r))
                (div (mul (opp two) (Par.GetC m)) (pow (Par.GetDx m) two)))
           (mul (nb_left m st Vel c r) (div (Par.GetC m) (pow (Par.GetDx m) two))))
      (mul (nb_right m st Vel c r) (div (Par.GetC m) (pow (Par.GetDx m) two))).
Proof.
  intros (HB & _) Hc Hr. unfold Par.ComputeTerms. cbv zeta.
  match goal with
  | |- context [Par.UpdateBoundsNonLinear ?m' ?s ?v ?o ?t ?b] =>
      destruct (UpdateBoundsNonLinear_linear m' s v o t b) as (-> & _)
  end.
  rewrite rd_UpdateBoundsLinear_dx_2; try assumption.
  2:{ destruct sel; cbn [Par.dVel_dx_2]; rewrite length_dsymm; apply length_alloc. }
  assert (E : forall t1 t2 : Par.Terms K,
             Par.dVel_dx_2 t1 = Par.dVel_dx_2 t2 ->
             Par.dVel_dx_2 (if sel then t1 else t2) = Par.dVel_dx_2 t1)
    by (intros t1 t2 H; destruct sel; congruence).
  rewrite E by reflexivity. cbn [Par.dVel_dx_2]. clear E.
  set (Nyr := Par.GetLocNyr m) in *. set (Nxr := Par.GetLocNxr m) in *.
  rewrite rd_dsymm by (try assumption; apply length_alloc).
  rewrite sum_upto_ext with
    (g := fun k => mul (at_cm Vel Nyr r k)
                     (symm_entry (div (mul (opp two) (Par.GetC m)) (pow (Par.GetDx m) two))
                                 (div (Par.GetC m) (pow (Par.GetDx m) two)) k c))
    by (intros k Hk; rewrite (@sym_at_built _ _ _ _ _ _ _ _ HB) by assumption; reflexivity).
  rewrite (@symm_sum_right _ _ _ Nxr c (at_cm Vel Nyr r)) by exact Hc.
  unfold nb_left, nb_right, at_cm. fold Nyr Nxr.
  rewrite (Nat.add_comm r (c * Nyr)), (Nat.add_comm r ((c - 1) * Nyr)),
    (Nat.add_comm r ((c + 1) * Nyr)).
  destruct (Nat.eqb_spec c 0); destruct (Nat.ltb_spec 0 c); try lia;
    destruct (Nat.eqb_spec (c + 1) Nxr); destruct (Nat.ltb_spec (c + 1) Nxr); try lia; ring.
Qed.

(** Steps 3 and 6: the second derivative in y. *)
Lemma rd_dVel_dy_2 m st Vel Other sel c r :
  operators_built m st ->
  c < Par.GetLocNxr m -> r < Par.GetLocNyr m ->
  rd (Par.dVel_dy_2 (Par.ComputeTerms m st Vel Other sel)) (c * Par.GetLocNyr m + r) =
  add (add (mul (rd Vel (c * Par.GetLocNyr m + r))
                (div (mul (opp two) (Par.GetC m)) (pow (Par.GetDy m) two)))
           (mul (nb_up m st Vel c r) (div (Par.GetC m) (pow (Par.GetDy m) two))))
      (mul (nb_down m st Vel c r) (div (Par.GetC m) (pow (Par.GetDy m) two))).
Proof.
  intros (_ & HB & _) Hc Hr. unfold Par.ComputeTerms. cbv zeta.
  match goal with
  | |- context [Par.UpdateBoundsNonLinear ?m' ?s ?v ?o ?t ?b] =>
      destruct (UpdateBoundsNonLinear_linear m' s v o t b) as (_ & -> & _)
  end.
  rewrite rd_UpdateBoundsLinear_dy_2; try assumption.
  2:{ destruct sel; cbn [Par.dVel_dy_2]; rewrite length_dsymm; apply length_alloc. }
  assert (E : forall t1 t2 : Par.Terms K,
             Par.dVel_dy_2 t1 = Par.dVel_dy_2 t2 ->
             Par.dVel_dy_2 (if sel then t1 else t2) = Par.dVel_dy_2 t1)
    by (intros t1 t2 H; destruct sel; congruence).
  rewrite E by reflexivity. cbn [Par.dVel_dy_2]. clear E.
  set (Nyr := Par.GetLocNyr m) in *. set (Nxr := Par.GetLocNxr m) in *.
  rewrite rd_dsymm by (try assumption; apply length_alloc).
  rewrite sum_upto_ext with
    (g := fun k => mul (symm_entry (div (mul (opp two) (Par.GetC m)) (pow (Par.GetDy m) two))
                                   (div (Par.GetC m) (pow (Par.GetDy m) two)) r k)
                     ((fun k => at_cm Vel Nyr k c) k))
    by (intros k Hk; rewrite (@sym_at_built _ _ _ _ _ _ _ _ HB) by assumption; reflexivity).
  rewrite (@symm_sum_left _ _ _ Nyr r (fun k => at_cm Vel Nyr k c)) by exact Hr.
  unfold nb_up, nb_down, at_cm. fold Nyr Nxr.
  rewrite (Nat.add_comm r (c * Nyr)), (Nat.add_comm (r - 1) (c * Nyr)),
    (Nat.add_comm (r + 1) (c * Nyr)).
  destruct (Nat.eqb_spec r 0); destruct (Nat.ltb_spec 0 r); try lia;
    destruct (Nat.eqb_spec (r + 1) Nyr); destruct (Nat.ltb_spec (r + 1) Nyr); try lia; ring.
Qed.

Lemma at_cm_dcopy (m : Par.Model K) (Vel : list K) r k :
  r < Par.GetLocNyr m -> k < Par.GetLocNxr m ->
  at_cm (dcopy (Par.GetLocNyr m * Par.GetLocNxr m) Vel 1
           (alloc (Par.GetLocNyr m * Par.GetLocNxr m)) 1) (Par.GetLocNyr m) r k
  = at_cm Vel (Par.GetLocNyr m) r k.
Proof.
  intros Hr Hk. unfold at_cm. rewrite dcopy_unit by apply length_alloc.
  apply rd_tabulate. apply cm_lt; assumption.
Qed.

(** Steps 4 and 6: the first derivative in x. *)
Lemma rd_dVel_dx m st Vel Other sel c r :
  operators_built m st ->
  c < Par.GetLocNxr m -> r < Par.GetLocNyr m ->
  rd (Par.dVel_dx (Par.ComputeTerms m st Vel Other sel)) (c * Par.GetLocNyr m + r) =
  mul (div (Par.GetAx m) (Par.GetDx m))
      (sub (rd Vel (c * Par.GetLocNyr m + r)) (nb_left m st Vel c r)).
Proof.
  intros (_ & _ & HB & _) Hc Hr. unfold Par.ComputeTerms. cbv zeta.
  match goal with
  | |- context [Par.UpdateBoundsNonLinear ?m' ?s ?v ?o ?t ?b] =>
      destruct (UpdateBoundsNonLinear_linear m' s v o t b) as (_ & _ & -> & _)
  end.
  rewrite rd_UpdateBoundsLinear_dx; try assumption.
  2:{ destruct sel; cbn [Par.dVel_dx]; rewrite length_dtrmm;
      apply length_ComputeTerms_inputs. }
  assert (E : forall t1 t2 : Par.Terms K,
             Par.dVel_dx t1 = Par.dVel_dx t2 ->
             Par.dVel_dx (if sel then t1 else t2) = Par.dVel_dx t1)
    by (intros t1 t2 H; destruct sel; congruence).
  rewrite E by reflexivity. cbn [Par.dVel_dx]. clear E.
  rewrite rd_dtrmm by (try assumption; apply length_ComputeTerms_inputs).
  set (Nyr := Par.GetLocNyr m) in *. set (Nxr := Par.GetLocNxr m) in *.
  rewrite sum_upto_ext with
    (g := fun k => mul (at_cm Vel Nyr r k)
                     (trmm_entry (div (Par.GetAx m) (Par.GetDx m))
                                 (div (opp (Par.GetAx m)) (Par.GetDx m)) true k c))
    by (intros k Hk; rewrite (@tri_at_built_upper _ _ _ _ _ _ _ _ HB) by assumption;
        unfold Nyr, Nxr; rewrite at_cm_dcopy by assumption; reflexivity).
  rewrite (@trmm_sum_right _ _ _ Nxr c (at_cm Vel Nyr r)) by exact Hc.
  rewrite arith_div_opp.
  unfold nb_left, at_cm. fold Nyr Nxr.
  rewrite (Nat.add_comm r (c * Nyr)), (Nat.add_comm r ((c - 1) * Nyr)).
  destruct (Nat.eqb_spec c 0); destruct (Nat.ltb_spec 0 c); try lia; ring.
Qed.

(** Steps 4 and 6: the first derivative in y. *)
Lemma rd_dVel_dy m st Vel Other sel c r :
  operators_built m st ->
  c < Par.GetLocNxr m -> r < Par.GetLocNyr m ->
  rd (Par.dVel_dy (Par.ComputeTerms m st Vel Other sel)) (c * Par.GetLocNyr m + r) =
  mul (div (Par.GetAy m) (Par.GetDy m))
      (sub (rd Vel (c * Par.GetLocNyr m + r)) (nb_up m st Vel c r)).
Proof.
  intros (_ & _ & _ & HB) Hc Hr. unfold Par.ComputeTerms. cbv zeta.
  match goal with
  | |- context [Par.UpdateBoundsNonLinear ?m' ?s ?v ?o ?t ?b] =>
      destruct (UpdateBoundsNonLinear_linear m' s v o t b) as (_ & _ & _ & -> & _)
  end.
  rewrite rd_UpdateBoundsLinear_dy; try assumption.
  2:{ destruct sel; cbn [Par.dVel_dy]; rewrite length_dtrmm;
      apply length_ComputeTerms_inputs. }
  assert (E : forall t1 t2 : Par.Terms K,
             Par.dVel_dy t1 = Par.dVel_dy t2 ->
             Par.dVel_dy (if sel then t1 else t2) = Par.dVel_dy t1)
    by (intros t1 t2 H; destruct sel; congruence).
  rewrite E by reflexivity. cbn [Par.dVel_dy]. clear E.
  rewrite rd_dtrmm by (try assumption; apply length_ComputeTerms_inputs).
  set (Nyr := Par.GetLocNyr m) in *. set (Nxr := Par.GetLocNxr m) in *.
  rewrite sum_upto_ext with
    (g := fun k => mul (trmm_entry (div (Par.GetAy m) (Par.GetDy m))
                                   (div (opp (Par.GetAy m)) (Par.GetDy m)) false r k)
                     ((fun k => at_cm Vel Nyr k c) k))
    by (intros k Hk; rewrite (@tri_at_built_lower _ _ _ _ _ _ _ _ HB) by assumption;
        unfold Nyr, Nxr; rewrite at_cm_dcopy by assumption; reflexivity).
  rewrite (@trmm_sum_left _ _ _ Nyr r (fun k => at_cm Vel Nyr k c)) by exact Hr.
  rewrite arith_div_opp.
  unfold nb_up, at_cm. fold Nyr Nxr.
  rewrite (Nat.add_comm r (c * Nyr)), (Nat.add_comm (r - 1) (c * Nyr)).
  destruct (Nat.eqb_spec r 0); destruct (Nat.ltb_spec 0 r); try lia; ring.
Qed.

(** The next value of cell [(c, r)] is the stencil applied to the cell,
    its companion and its four neighbours; [st] is the state after
    [SetCaches]. *)
Lemma Combine_ComputeTerms_stencil m st Vel Other sel c r :
  operators_built m st ->
  c < Par.GetLocNxr m -> r < Par.GetLocNyr m ->
  rd (Par.Combine m Vel (Par.ComputeTerms m st Vel Other sel)) (c * Par.GetLocNyr m + r) =
  Stencil m sel (rd Vel (c * Par.GetLocNyr m + r)) (rd Other (c * Par.GetLocNyr m + r))
    (nb_left m st Vel c r) (nb_right m st Vel c r) (nb_up m st Vel c r) (nb_down m st Vel c r).
Proof.
  intros HB Hc Hr. rewrite Combine_eq.
  rewrite rd_tabulate by (rewrite Nat.add_comm; apply cm_lt; assumption).
  unfold Par.rhs_at.
  rewrite rd_dVel_dx_2, rd_dVel_dy_2, rd_dVel_dx, rd_dVel_dy by assumption.
  rewrite rd_Vel_Vel, rd_Vel_Other, rd_Vel_Vel_Minus_1, rd_Vel_Other_Minus_1 by assumption.
  unfold Stencil. cbv zeta. destruct sel; ring.
Qed.

End ParStencil.

(** ** One time step of a worker *)

Lemma nonneg_rank (q : nat) : (Z.of_nat q <? 0)%Z = false.
Proof. apply Z.ltb_ge. apply Nat2Z.is_nonneg. Qed.

Section TimeStepFacts.
Context {K : Type} {A : Arith K}.

Lemma length_Combine m (Vel : list K) t :
  length (Par.Combine m Vel t) = Par.GetLocNyr m * Par.GetLocNxr m.
Proof. rewrite Combine_eq. apply length_tabulate. Qed.

(** [ComputeTerms] reads the state through the caches and the operators only. *)
Lemma ComputeTerms_state m (st st' : Par.Burgers2P K) Vel Other sel :
  Par.upVel st = Par.upVel st' -> Par.downVel st = Par.downVel st' ->
  Par.leftVel st = Par.leftVel st' -> Par.rightVel st = Par.rightVel st' ->
  Par.dVel_dx_2_coeffs st = Par.dVel_dx_2_coeffs st' ->
  Par.dVel_dy_2_coeffs st = Par.dVel_dy_2_coeffs st' ->
  Par.dVel_dx_coeffs st = Par.dVel_dx_coeffs st' ->
  Par.dVel_dy_coeffs st = Par.dVel_dy_coeffs st' ->
  Par.ComputeTerms m st Vel Other sel = Par.ComputeTerms m st' Vel Other sel.
Proof.
  intros H1 H2 H3 H4 H5 H6 H7 H8.
  unfold Par.ComputeTerms, Par.UpdateBoundsNonLinear, Par.UpdateBoundsLinear.
  rewrite H1, H2, H3, H4, H5, H6, H7, H8. reflexivity.
Qed.

(** The two buffers a time step commits. *)
Lemma TimeStep_UV m st incU incV :
  wf_worker m st ->
  Par.U (Par.TimeStep m st incU incV) =
    fst (Par.NextVelocityState m st (Par.U st) (Par.V st) true incU) /\
  Par.V (Par.TimeStep m st incU incV) =
    fst (Par.NextVelocityState m st (Par.U st) (Par.V st) false incV).
Proof.
  intros (Hc & HU & HV). unfold Par.TimeStep, Par.NextVelocityState. cbv zeta.
  cbn [fst snd].
  set (st1 := Par.SetCaches m st (Par.U st) incU).
  assert (Hc1 : caches_allocated m st1) by (apply SetCaches_allocated; exact Hc).
  destruct (SetCaches_fields m st (Par.U st) incU) as (EU & EV & E1 & E2 & E3 & E4).
  fold st1 in EU, EV, E1, E2, E3, E4.
  rewrite EU, EV.
  set (st2 := Par.SetCaches m st1 (Par.V st) incV).
  destruct (SetCaches_fields m st1 (Par.V st) incV) as (EU2 & EV2 & F1 & F2 & F3 & F4).
  fold st2 in EU2, EV2, F1, F2, F3, F4.
  rewrite CopyAndDelete_eq by (rewrite ?EU2, ?EV2, ?EU, ?EV; assumption).
  cbn [Par.U Par.V Par.set_UV].
  rewrite !tabulate_rd_self by apply length_Combine.
  split; [reflexivity|].
  f_equal. apply ComputeTerms_state.
  - unfold st2. rewrite SetCaches_eq by exact Hc1. rewrite SetCaches_eq by exact Hc. reflexivity.
  - unfold st2. rewrite SetCaches_eq by exact Hc1. rewrite SetCaches_eq by exact Hc. reflexivity.
  - unfold st2. rewrite SetCaches_eq by exact Hc1. rewrite SetCaches_eq by exact Hc. reflexivity.
  - unfold st2. rewrite SetCaches_eq by exact Hc1. rewrite SetCaches_eq by exact Hc. reflexivity.
  - rewrite F1, E1. symmetry. apply (SetCaches_fields m st (Par.V st) incV).
  - rewrite F2, E2. symmetry. apply (SetCaches_fields m st (Par.V st) incV).
  - rewrite F3, E3. symmetry. apply (SetCaches_fields m st (Par.V st) incV).
  - rewrite F4, E4. symmetry. apply (SetCaches_fields m st (Par.V st) incV).
Qed.

Lemma TimeStep_coeffs m st incU incV :
  Par.dVel_dx_2_coeffs (Par.TimeStep m st incU incV) = Par.dVel_dx_2_coeffs st /\
  Par.dVel_dy_2_coeffs (Par.TimeStep m st incU incV) = Par.dVel_dy_2_coeffs st /\
  Par.dVel_dx_coeffs (Par.TimeStep m st incU incV) = Par.dVel_dx_coeffs st /\
  Par.dVel_dy_coeffs (Par.TimeStep m st incU incV) = Par.dVel_dy_coeffs st.
Proof. unfold Par.TimeStep, Par.NextVelocityState, Par.CopyAndDelete; simpl. repeat split. Qed.

Lemma TimeStep_wf m st incU incV :
  wf_worker m st -> wf_worker m (Par.TimeStep m st incU incV).
Proof.
  intros H. pose proof (TimeStep_UV incU incV H) as (EU & EV).
  destruct H as (Hc & HU & HV).
  split; [|split].
  - unfold Par.TimeStep, Par.NextVelocityState. cbv zeta.
    assert (Hc2 : caches_allocated m
              (Par.SetCaches m (Par.SetCaches m st (Par.U st) incU)
                 (Par.V (Par.SetCaches m st (Par.U st) incU)) incV))
      by (apply SetCaches_allocated; apply SetCaches_allocated; exact Hc).
    unfold caches_allocated in *. unfold Par.CopyAndDelete. cbv zeta.
    cbn [Par.upVel Par.downVel Par.leftVel Par.rightVel Par.set_UV]. exact Hc2.
  - rewrite EU. unfold Par.NextVelocityState. cbn [fst]. apply length_Combine.
  - rewrite EV. unfold Par.NextVelocityState. cbn [fst]. apply length_Combine.
Qed.

Lemma operators_built_ext m (st st' : Par.Burgers2P K) :
  Par.dVel_dx_2_coeffs st' = Par.dVel_dx_2_coeffs st ->
  Par.dVel_dy_2_coeffs st' = Par.dVel_dy_2_coeffs st ->
  Par.dVel_dx_coeffs st' = Par.dVel_dx_coeffs st ->
  Par.dVel_dy_coeffs st' = Par.dVel_dy_coeffs st ->
  operators_built m st -> operators_built m st'.
Proof.
  intros H1 H2 H3 H4 H. unfold operators_built in *. rewrite H1, H2, H3, H4. exact H.
Qed.

End TimeStepFacts.

(** ** A decomposed run against the single-worker run *)

Section Decomposition.
Context {K : Type} {A : Arith K} {L : @ArithLaws K A}.

Variable g : Par.Model K.
Variables Px Py nxr nyr : nat.
Hypothesis HPx : 0 < Px.
Hypothesis HPy : 0 < Py.
Hypothesis HX : Par.GetLocNxr g = Px * nxr.
Hypothesis HY : Par.GetLocNyr g = Py * nyr.

Lemma rank_div px py : py < Py -> (px * Py + py) / Py = px.
Proof.
  intros H. rewrite Nat.div_add_l by lia. rewrite Nat.div_small by exact H. lia.
Qed.

Lemma rank_mod px py : py < Py -> (px * Py + py) mod Py = py.
Proof.
  intros H. rewrite Nat.add_comm, Nat.Div0.mod_add. apply Nat.mod_small. exact H.
Qed.

(** The model object of the worker at mesh position [(px, py)]. *)
Lemma CartModel_at px py :
  px < Px -> py < Py ->
  World.CartModel g Px Py (px * Py + py) =
  {| Par.GetLocNyr := nyr;
     Par.GetLocNxr := nxr;
     Par.GetNt := Par.GetNt g;
     Par.GetX0 := Par.GetX0 g;
     Par.GetY0 := Par.GetY0 g;
     Par.GetDx := Par.GetDx g;
     Par.GetDy := Par.GetDy g;
     Par.GetDt := Par.GetDt g;
     Par.GetAx := Par.GetAx g;
     Par.GetAy := Par.GetAy g;
     Par.GetB := Par.GetB g;
     Par.GetC := Par.GetC g;
     Par.GetDisplX := px * nxr;
     Par.GetDisplY := py * nyr;
     Par.GetUp := if py =? 0 then (-1)%Z else Z.of_nat (px * Py + (py - 1));
     Par.GetDown := if py + 1 <? Py then Z.of_nat (px * Py + (py + 1)) else (-1)%Z;
     Par.GetLeft := if px =? 0 then (-1)%Z else Z.of_nat ((px - 1) * Py + py);
     Par.GetRight := if px + 1 <? Px then Z.of_nat ((px + 1) * Py + py) else (-1)%Z |}.
Proof.
  intros Hpx Hpy. unfold World.CartModel.
  rewrite rank_div, rank_mod by exact Hpy. rewrite HX, HY.
  rewrite (Nat.mul_comm Px nxr), (Nat.mul_comm Py nyr), !Nat.div_mul by lia.
  f_equal.
  - destruct (Nat.eqb_spec py 0); [reflexivity|]. f_equal. lia.
  - destruct (py + 1 <? Py); [|reflexivity]. f_equal. lia.
  - destruct (Nat.eqb_spec px 0); [reflexivity|]. f_equal. nia.
  - destruct (px + 1 <? Px); [|reflexivity]. f_equal. nia.
Qed.

(** The model object of the single worker of a [1 x 1] mesh. *)
Lemma CartModel_single :
  World.CartModel g 1 1 0 =
  {| Par.GetLocNyr := Py * nyr;
     Par.GetLocNxr := Px * nxr;
     Par.GetNt := Par.GetNt g;
     Par.GetX0 := Par.GetX0 g;
     Par.GetY0 := Par.GetY0 g;
     Par.GetDx := Par.GetDx g;
     Par.GetDy := Par.GetDy g;
     Par.GetDt := Par.GetDt g;
     Par.GetAx := Par.GetAx g;
     Par.GetAy := Par.GetAy g;
     Par.GetB := Par.GetB g;
     Par.GetC := Par.GetC g;
     Par.GetDisplX := 0;
     Par.GetDisplY := 0;
     Par.GetUp := (-1)%Z;
     Par.GetDown := (-1)%Z;
     Par.GetLeft := (-1)%Z;
     Par.GetRight := (-1)%Z |}.
Proof.
  unfold World.CartModel. rewrite HX, HY. rewrite !Nat.div_1_r. reflexivity.
Qed.

(** The global cell that cell [(c, r)] of the worker at [(px, py)] holds. *)
Definition gidx (px py c r : nat) : nat :=
  (px * nxr + c) * (Py * nyr) + (py * nyr + r).

(** The local fields [Fl] (by rank) are the sub-blocks of the global field [FG]. *)
Definition agree (Fl : nat -> list K) (FG : list K) : Prop :=
  forall px py c r, px < Px -> py < Py -> c < nxr -> r < nyr ->
    rd (Fl (px * Py + py)) (c * nyr + r) = rd FG (gidx px py c r).

Lemma nb_left_agree (Fl : nat -> list K) (FG : list K) st stG incG px py c r :
  agree Fl FG ->
  caches_allocated (World.CartModel g Px Py (px * Py + py)) st ->
  caches_allocated (World.CartModel g 1 1 0) stG ->
  px < Px -> py < Py -> c < nxr -> r < nyr ->
  nb_left (World.CartModel g Px Py (px * Py + py))
    (Par.SetCaches (World.CartModel g Px Py (px * Py + py)) st (Fl (px * Py + py))
       (World.deliver (World.CartModel g Px Py) Fl (px * Py + py)))
    (Fl (px * Py + py)) c r =
  nb_left (World.CartModel g 1 1 0)
    (Par.SetCaches (World.CartModel g 1 1 0) stG FG incG) FG (px * nxr + c) (py * nyr + r).
Proof.
  intros HA Hc HcG Hpx Hpy Hcc Hr.
  rewrite !SetCaches_eq by assumption. unfold nb_left.
  cbn [Par.leftVel Par.set_caches]. unfold World.deliver. cbn [Par.to_right].
  rewrite CartModel_single. rewrite (CartModel_at Hpx Hpy).
  cbn [Par.GetLocNyr Par.GetLocNxr Par.GetLeft].
  assert (Hgr : py * nyr + r < Py * nyr) by nia.
  destruct (Nat.eqb_spec c 0) as [->|Hc0].
  - rewrite rd_refreshed by exact Hr.
    destruct (Nat.eqb_spec px 0) as [->|Hp0].
    + simpl. rewrite rd_refreshed by exact Hgr. reflexivity.
    + rewrite nonneg_rank, Nat2Z.id. rewrite MyBounds_eq. cbn [Par.to_right].
      rewrite (@CartModel_at (px - 1) py) by lia.
      cbn [Par.GetLocNyr Par.GetLocNxr].
      rewrite rd_tabulate by exact Hr.
      rewrite (HA (px - 1) py (nxr - 1) r) by lia.
      destruct (Nat.eqb_spec (px * nxr + 0) 0) as [E|_]; [nia|].
      f_equal. unfold gidx. f_equal. f_equal. nia.
  - rewrite (HA px py (c - 1) r) by lia.
    destruct (Nat.eqb_spec (px * nxr + c) 0) as [E|_]; [lia|].
    f_equal. unfold gidx. f_equal. f_equal. lia.
Qed.

Lemma nb_right_agree (Fl : nat -> list K) (FG : list K) st stG incG px py c r :
  agree Fl FG ->
  caches_allocated (World.CartModel g Px Py (px * Py + py)) st ->
  caches_allocated (World.CartModel g 1 1 0) stG ->
  px < Px -> py < Py -> c < nxr -> r < nyr ->
  nb_right (World.CartModel g Px Py (px * Py + py))
    (Par.SetCaches (World.CartModel g Px Py (px * Py + py)) st (Fl (px * Py + py))
       (World.deliver (World.CartModel g Px Py) Fl (px * Py + py)))
    (Fl (px * Py + py)) c r =
  nb_right (World.CartModel g 1 1 0)
    (Par.SetCaches (World.CartModel g 1 1 0) stG FG incG) FG (px * nxr + c) (py * nyr + r).
Proof.
  intros HA Hc HcG Hpx Hpy Hcc Hr.
  rewrite !SetCaches_eq by assumption. unfold nb_right.
  cbn [Par.rightVel Par.set_caches]. unfold World.deliver. cbn [Par.to_left].
  rewrite CartModel_single. rewrite (CartModel_at Hpx Hpy).
  cbn [Par.GetLocNyr Par.GetLocNxr Par.GetRight].
  assert (Hgr : py * nyr + r < Py * nyr) by nia.
  assert (Hle : (px + 1) * nxr <= Px * nxr) by (apply Nat.mul_le_mono_r; lia).
  destruct (Nat.eqb_spec (c + 1) nxr) as [Ec|Ec].
  - rewrite rd_refreshed by exact Hr.
    destruct (Nat.ltb_spec (px + 1) Px) as [Hp|Hp].
    + rewrite nonneg_rank, Nat2Z.id. rewrite MyBounds_eq. cbn [Par.to_left].
      rewrite (@CartModel_at (px + 1) py) by lia.
      cbn [Par.GetLocNyr Par.GetLocNxr].
      rewrite rd_tabulate by exact Hr.
      change (rd (Fl ((px + 1) * Py + py)) r) with (rd (Fl ((px + 1) * Py + py)) (0 * nyr + r)).
      rewrite (HA (px + 1) py 0 r) by lia.
      assert (Hlt : (px + 1 + 1) * nxr <= Px * nxr) by (apply Nat.mul_le_mono_r; lia).
      destruct (Nat.eqb_spec (px * nxr + c + 1) (Px * nxr)) as [E|_]; [lia|].
      f_equal. unfold gidx. f_equal. f_equal. lia.
    + simpl.
      destruct (Nat.eqb_spec (px * nxr + c + 1) (Px * nxr)) as [_|E].
      * rewrite rd_refreshed by exact Hgr. reflexivity.
      * exfalso. apply E. replace Px with (px + 1) by lia. lia.
  - rewrite (HA px py (c + 1) r) by lia.
    destruct (Nat.eqb_spec (px * nxr + c + 1) (Px * nxr)) as [E|_]; [lia|].
    f_equal. unfold gidx. f_equal. f_equal. lia.
Qed.

Lemma nb_up_agree (Fl : nat -> list K) (FG : list K) st stG incG px py c r :
  agree Fl FG ->
  caches_allocated (World.CartModel g Px Py (px * Py + py)) st ->
  caches_allocated (World.CartModel g 1 1 0) stG ->
  px < Px -> py < Py -> c < nxr -> r < nyr ->
  nb_up (World.CartModel g Px Py (px * Py + py))
    (Par.SetCaches (World.CartModel g Px Py (px * Py + py)) st (Fl (px * Py + py))
       (World.deliver (World.CartModel g Px Py) Fl (px * Py + py)))
    (Fl (px * Py + py)) c r =
  nb_up (World.CartModel g 1 1 0)
    (Par.SetCaches (World.CartModel g 1 1 0) stG FG incG) FG (px * nxr + c) (py * nyr + r).
Proof.
  intros HA Hc HcG Hpx Hpy Hcc Hr.
  rewrite !SetCaches_eq by assumption. unfold nb_up.
  cbn [Par.upVel Par.set_caches]. unfold World.deliver. cbn [Par.to_down].
  rewrite CartModel_single. rewrite (CartModel_at Hpx Hpy).
  cbn [Par.GetLocNyr Par.GetLocNxr Par.GetUp].
  assert (Hle : (px + 1) * nxr <= Px * nxr) by (apply Nat.mul_le_mono_r; lia).
  assert (Hgc : px * nxr + c < Px * nxr) by lia.
  destruct (Nat.eqb_spec r 0) as [->|Hr0].
  - rewrite rd_refreshed by exact Hcc.
    destruct (Nat.eqb_spec py 0) as [->|Hp0].
    + simpl. rewrite rd_refreshed by exact Hgc. reflexivity.
    + rewrite nonneg_rank, Nat2Z.id. rewrite MyBounds_eq. cbn [Par.to_down].
      rewrite (@CartModel_at px (py - 1)) by lia.
      cbn [Par.GetLocNyr Par.GetLocNxr].
      rewrite rd_tabulate by exact Hcc.
      rewrite (HA px (py - 1) c (nyr - 1)) by lia.
      assert (Hnz : nyr <= py * nyr) by (destruct py; [lia|simpl; lia]).
      destruct (Nat.eqb_spec (py * nyr + 0) 0) as [E|_]; [lia|].
      f_equal. unfold gidx. f_equal.
      replace py with (py - 1 + 1) at 2 by lia. lia.
  - rewrite (HA px py c (r - 1)) by lia.
    destruct (Nat.eqb_spec (py * nyr + r) 0) as [E|_]; [lia|].
    f_equal. unfold gidx. f_equal. lia.
Qed.

Lemma nb_down_agree (Fl : nat -> list K) (FG : list K) st stG incG px py c r :
  agree Fl FG ->
  caches_allocated (World.CartModel g Px Py (px * Py + py)) st ->
  caches_allocated (World.CartModel g 1 1 0) stG ->
  px < Px -> py < Py -> c < nxr -> r < nyr ->
  nb_down (World.CartModel g Px Py (px * Py + py))
    (Par.SetCaches (World.CartModel g Px Py (px * Py + py)) st (Fl (px * Py + py))
       (World.deliver (World.CartModel g Px Py) Fl (px * Py + py)))
    (Fl (px * Py + py)) c r =
  nb_down (World.CartModel g 1 1 0)
    (Par.SetCaches (World.CartModel g 1 1 0) stG FG incG) FG (px * nxr + c) (py * nyr + r).
Proof.
  intros HA Hc HcG Hpx Hpy Hcc Hr.
  rewrite !SetCaches_eq by assumption. unfold nb_down.
  cbn [Par.downVel Par.set_caches]. unfold World.deliver. cbn [Par.to_up].
  rewrite CartModel_single. rewrite (CartModel_at Hpx Hpy).
  cbn [Par.GetLocNyr Par.GetLocNxr Par.GetDown].
  assert (Hle : (px + 1) * nxr <= Px * nxr) by (apply Nat.mul_le_mono_r; lia).
  assert (Hgc : px * nxr + c < Px * nxr) by lia.
  assert (Hley : (py + 1) * nyr <= Py * nyr) by (apply Nat.mul_le_mono_r; lia).
  destruct (Nat.eqb_spec (r + 1) nyr) as [Er|Er].
  - rewrite rd_refreshed by exact Hcc.
    destruct (Nat.ltb_spec (py + 1) Py) as [Hp|Hp].
    + rewrite nonneg_rank, Nat2Z.id. rewrite MyBounds_eq. cbn [Par.to_up].
      rewrite (@CartModel_at px (py + 1)) by lia.
      cbn [Par.GetLocNyr Par.GetLocNxr].
      rewrite rd_tabulate by exact Hcc.
      replace (c * nyr) with (c * nyr + 0) by lia.
      rewrite (HA px (py + 1) c 0) by lia.
      assert (Hlt : (py + 1 + 1) * nyr <= Py * nyr) by (apply Nat.mul_le_mono_r; lia).
      destruct (Nat.eqb_spec (py * nyr + r + 1) (Py * nyr)) as [E|_]; [lia|].
      f_equal. unfold gidx. f_equal. lia.
    + simpl.
      destruct (Nat.eqb_spec (py * nyr + r + 1) (Py * nyr)) as [_|E].
      * rewrite rd_refreshed by exact Hgc. reflexivity.
      * exfalso. apply E. replace Py with (py + 1) by lia. lia.
  - rewrite (HA px py c (r + 1)) by lia.
    destruct (Nat.eqb_spec (py * nyr + r + 1) (Py * nyr)) as [E|_]; [lia|].
    f_equal. unfold gidx. f_equal. lia.
Qed.

Lemma Stencil_CartModel P Q q sel (C O Lf Rt Up Dn : K) :
  Stencil (World.CartModel g P Q q) sel C O Lf Rt Up Dn = Stencil g sel C O Lf Rt Up Dn.
Proof. reflexivity. Qed.

(** What the two runs maintain: every buffer has the extent of its
    constructor, the operators are built, and the local fields are the
    sub-blocks of the fields of the single worker. *)
Definition world_inv (w wG : nat -> Par.Burgers2P K) : Prop :=
  (forall px py, px < Px -> py < Py ->
     wf_worker (World.CartModel g Px Py (px * Py + py)) (w (px * Py + py)) /\
     operators_built (World.CartModel g Px Py (px * Py + py)) (w (px * Py + py))) /\
  wf_worker (World.CartModel g 1 1 0) (wG 0) /\
  operators_built (World.CartModel g 1 1 0) (wG 0) /\
  agree (fun q => Par.U (w q)) (Par.U (wG 0)) /\
  agree (fun q => Par.V (w q)) (Par.V (wG 0)).

Lemma NextVelocityState_agree (w wG : nat -> Par.Burgers2P K) (sel : bool) px py c r :
  world_inv w wG ->
  px < Px -> py < Py -> c < nxr -> r < nyr ->
  rd (fst (Par.NextVelocityState (World.CartModel g Px Py (px * Py + py)) (w (px * Py + py))
             (Par.U (w (px * Py + py))) (Par.V (w (px * Py + py))) sel
             (World.deliver (World.CartModel g Px Py)
                (fun q => if sel then Par.U (w q) else Par.V (w q)) (px * Py + py))))
     (c * nyr + r) =
  rd (fst (Par.NextVelocityState (World.CartModel g 1 1 0) (wG 0)
             (Par.U (wG 0)) (Par.V (wG 0)) sel
             (World.deliver (World.CartModel g 1 1)
                (fun q => if sel then Par.U (wG q) else Par.V (wG q)) 0)))
     (gidx px py c r).
Proof.
  intros (Hw & (HcG & HUG & HVG) & HBG & HAU & HAV) Hpx Hpy Hc Hr.
  destruct (Hw px py Hpx Hpy) as ((Hcl & HUl & HVl) & HBl).
  unfold Par.NextVelocityState. cbv zeta. cbn [fst].
  set (ml := World.CartModel g Px Py (px * Py + py)) in *.
  set (mg := World.CartModel g 1 1 0) in *.
  assert (Hny : Par.GetLocNyr ml = nyr) by (unfold ml; rewrite (CartModel_at Hpx Hpy); reflexivity).
  assert (Hnx : Par.GetLocNxr ml = nxr) by (unfold ml; rewrite (CartModel_at Hpx Hpy); reflexivity).
  assert (HnyG : Par.GetLocNyr mg = Py * nyr) by (unfold mg; rewrite CartModel_single; reflexivity).
  assert (HnxG : Par.GetLocNxr mg = Px * nxr) by (unfold mg; rewrite CartModel_single; reflexivity).
  assert (Hle : (px + 1) * nxr <= Px * nxr) by (apply Nat.mul_le_mono_r; lia).
  assert (Hley : (py + 1) * nyr <= Py * nyr) by (apply Nat.mul_le_mono_r; lia).
  set (Vl := if sel then Par.U (w (px * Py + py)) else Par.V (w (px * Py + py))).
  set (Ol := if sel then Par.V (w (px * Py + py)) else Par.U (w (px * Py + py))).
  set (VG := if sel then Par.U (wG 0) else Par.V (wG 0)).
  set (OG := if sel then Par.V (wG 0) else Par.U (wG 0)).
  set (incl := World.deliver (World.CartModel g Px Py)
                 (fun q => if sel then Par.U (w q) else Par.V (w q)) (px * Py + py)).
  set (incG := World.deliver (World.CartModel g 1 1)
                 (fun q => if sel then Par.U (wG q) else Par.V (wG q)) 0).
  assert (HBl' : operators_built ml (Par.SetCaches ml (w (px * Py + py)) Vl incl)).
  { destruct (SetCaches_fields ml (w (px * Py + py)) Vl incl) as (_ & _ & E1 & E2 & E3 & E4).
    eapply operators_built_ext; [exact E1|exact E2|exact E3|exact E4|exact HBl]. }
  assert (HBG' : operators_built mg (Par.SetCaches mg (wG 0) VG incG)).
  { destruct (SetCaches_fields mg (wG 0) VG incG) as (_ & _ & E1 & E2 & E3 & E4).
    eapply operators_built_ext; [exact E1|exact E2|exact E3|exact E4|exact HBG]. }
  pose proof (@Combine_ComputeTerms_stencil _ _ _ ml _ Vl Ol sel c r HBl') as Sl.
  rewrite Hny, Hnx in Sl. rewrite (Sl Hc Hr). clear Sl.
  pose proof (@Combine_ComputeTerms_stencil _ _ _ mg _ VG OG sel
                (px * nxr + c) (py * nyr + r) HBG') as SG.
  rewrite HnyG, HnxG in SG. unfold gidx. rewrite SG by lia. clear SG.
  unfold ml, mg. rewrite !Stencil_CartModel. fold ml mg.
  assert (HAV' : agree (fun q => if sel then Par.U (w q) else Par.V (w q)) VG)
    by (unfold VG; destruct sel; assumption).
  assert (HAO' : agree (fun q => if sel then Par.V (w q) else Par.U (w q)) OG)
    by (unfold OG; destruct sel; assumption).
  f_equal.
  - apply (HAV' px py c r); assumption.
  - apply (HAO' px py c r); assumption.
  - apply (@nb_left_agree (fun q => if sel then Par.U (w q) else Par.V (w q)) VG
             (w (px * Py + py)) (wG 0) incG px py c r); assumption.
  - apply (@nb_right_agree (fun q => if sel then Par.U (w q) else Par.V (w q)) VG
             (w (px * Py + py)) (wG 0) incG px py c r); assumption.
  - apply (@nb_up_agree (fun q => if sel then Par.U (w q) else Par.V (w q)) VG
             (w (px * Py + py)) (wG 0) incG px py c r); assumption.
  - apply (@nb_down_agree (fun q => if sel then Par.U (w q) else Par.V (w q)) VG
             (w (px * Py + py)) (wG 0) incG px py c r); assumption.
Qed.

Lemma WorldStep_inv (w wG : nat -> Par.Burgers2P K) :
  world_inv w wG ->
  world_inv (World.WorldStep (World.CartModel g Px Py) w)
            (World.WorldStep (World.CartModel g 1 1) wG).
Proof.
  intros HI. pose proof HI as (Hw & HwfG & HBG & HAU & HAV).
  unfold world_inv. split; [|split; [|split; [|split]]].
  - intros px py Hpx Hpy. split.
    + unfold World.WorldStep. apply TimeStep_wf. apply (Hw px py Hpx Hpy).
    + unfold World.WorldStep.
      match goal with
      | |- operators_built ?m (Par.TimeStep ?m ?st ?iu ?iv) =>
          destruct (TimeStep_coeffs m st iu iv) as (E1 & E2 & E3 & E4);
          eapply operators_built_ext; [exact E1|exact E2|exact E3|exact E4|]
      end.
      apply (Hw px py Hpx Hpy).
  - unfold World.WorldStep. apply TimeStep_wf. exact HwfG.
  - unfold World.WorldStep.
    match goal with
    | |- operators_built ?m (Par.TimeStep ?m ?st ?iu ?iv) =>
        destruct (TimeStep_coeffs m st iu iv) as (E1 & E2 & E3 & E4);
        eapply operators_built_ext; [exact E1|exact E2|exact E3|exact E4|]
    end.
    exact HBG.
  - intros px py c r Hpx Hpy Hc Hr. cbv beta. unfold World.WorldStep.
    match goal with
    | |- rd (Par.U (Par.TimeStep ?m ?st ?iu ?iv)) _ = rd (Par.U (Par.TimeStep ?m' ?st' ?iu' ?iv')) _ =>
        rewrite (proj1 (@TimeStep_UV _ _ m st iu iv (proj1 (Hw px py Hpx Hpy))));
        rewrite (proj1 (@TimeStep_UV _ _ m' st' iu' iv' HwfG))
    end.
    exact (@NextVelocityState_agree w wG true px py c r HI Hpx Hpy Hc Hr).
  - intros px py c r Hpx Hpy Hc Hr. cbv beta. unfold World.WorldStep.
    match goal with
    | |- rd (Par.V (Par.TimeStep ?m ?st ?iu ?iv)) _ = rd (Par.V (Par.TimeStep ?m' ?st' ?iu' ?iv')) _ =>
        rewrite (proj2 (@TimeStep_UV _ _ m st iu iv (proj1 (Hw px py Hpx Hpy))));
        rewrite (proj2 (@TimeStep_UV _ _ m' st' iu' iv' HwfG))
    end.
    exact (@NextVelocityState_agree w wG false px py c r HI Hpx Hpy Hc Hr).
Qed.

(** The workers as [Run] starts them, before the time loop. *)
Definition started (P Q : nat) (U0 V0 : list K) (q : nat) : Par.Burgers2P K :=
  Par.SetMatrixCoefficients (World.CartModel g P Q q)
    (Par.set_UV (Par.Burgers2P_new (World.CartModel g P Q q))
       (World.Restrict (Par.GetLocNyr g) (World.CartModel g P Q q) U0)
       (World.Restrict (Par.GetLocNyr g) (World.CartModel g P Q q) V0)).

Lemma started_wf P Q U0 V0 q :
  wf_worker (World.CartModel g P Q q) (started P Q U0 V0 q) /\
  operators_built (World.CartModel g P Q q) (started P Q U0 V0 q).
Proof.
  split.
  - unfold wf_worker, started, caches_allocated, World.Restrict; simpl.
    rewrite !length_alloc, !length_tabulate. auto.
  - apply SetMatrixCoefficients_built.
    unfold coeffs_allocated; simpl. rewrite !length_alloc. auto.
Qed.

Lemma Restrict_agree (F0 : list K) :
  agree (fun q => World.Restrict (Par.GetLocNyr g) (World.CartModel g Px Py q) F0)
        (World.Restrict (Par.GetLocNyr g) (World.CartModel g 1 1 0) F0).
Proof.
  intros px py c r Hpx Hpy Hc Hr. cbv beta. unfold World.Restrict.
  rewrite CartModel_single, (CartModel_at Hpx Hpy).
  cbn [Par.GetLocNyr Par.GetLocNxr Par.GetDisplX Par.GetDisplY].
  assert (Hle : (px + 1) * nxr <= Px * nxr) by (apply Nat.mul_le_mono_r; lia).
  assert (Hley : (py + 1) * nyr <= Py * nyr) by (apply Nat.mul_le_mono_r; lia).
  assert (Hgr : py * nyr + r < Py * nyr) by lia.
  assert (Hgc : px * nxr + c < Px * nxr) by lia.
  rewrite rd_tabulate by (rewrite Nat.add_comm; apply cm_lt; assumption).
  rewrite rd_tabulate by (unfold gidx; rewrite Nat.add_comm; apply cm_lt; assumption).
  rewrite (Nat.add_comm (c * nyr) r), cm_mod, cm_div by exact Hr.
  unfold gidx.
  rewrite (Nat.add_comm ((px * nxr + c) * (Py * nyr)) (py * nyr + r)), cm_mod, cm_div by exact Hgr.
  rewrite HY. reflexivity.
Qed.

Lemma started_inv U0 V0 : world_inv (started Px Py U0 V0) (started 1 1 U0 V0).
Proof.
  unfold world_inv. split; [|split; [|split; [|split]]].
  - intros px py _ _. apply started_wf.
  - apply started_wf.
  - apply started_wf.
  - apply Restrict_agree.
  - apply Restrict_agree.
Qed.

Lemma Run_inv U0 V0 :
  world_inv (World.Run g Px Py U0 V0) (World.Run g 1 1 U0 V0).
Proof.
  unfold World.Run, World.SetIntegratedVelocity. cbv zeta.
  change (fun r : nat =>
            Par.SetMatrixCoefficients (World.CartModel g Px Py r)
              (Par.set_UV (Par.Burgers2P_new (World.CartModel g Px Py r))
                 (World.Restrict (Par.GetLocNyr g) (World.CartModel g Px Py r) U0)
                 (World.Restrict (Par.GetLocNyr g) (World.CartModel g Px Py r) V0)))
    with (started Px Py U0 V0).
  change (fun r : nat =>
            Par.SetMatrixCoefficients (World.CartModel g 1 1 r)
              (Par.set_UV (Par.Burgers2P_new (World.CartModel g 1 1 r))
                 (World.Restrict (Par.GetLocNyr g) (World.CartModel g 1 1 r) U0)
                 (World.Restrict (Par.GetLocNyr g) (World.CartModel g 1 1 r) V0)))
    with (started 1 1 U0 V0).
  induction (Par.GetNt g - 1) as [|n IH]; simpl.
  - apply started_inv.
  - apply WorldStep_inv. exact IH.
Qed.

End Decomposition.

(** ** The first variant, [src/Burgers.cpp], against the same formula *)

Section RootFacts.
Context {K : Type} {A : Arith K} {L : @ArithLaws K A}.

Add Ring Kring5 : arith_ring.

Lemma Root_NextVelocityState_eq (m : Root.Model K) cf Ui Vi sel :
  Root.NextVelocityState m cf Ui Vi sel =
  tabulate (Z.to_nat (Root.Ny m - 2) * Z.to_nat (Root.Nx m - 2))
    (fun i => add (mul (Root.rhs_at
                          (Root.ComputeTerms m cf (opp one) (if sel then Ui else Vi)
                             (if sel then Vi else Ui) sel) i) (Root.dt m))
                  (rd (if sel then Ui else Vi) i)).
Proof.
  unfold Root.NextVelocityState. cbv zeta.
  set (n := Z.to_nat (Root.Ny m - 2) * Z.to_nat (Root.Nx m - 2)).
  set (t := Root.ComputeTerms m cf (opp one) (if sel then Ui else Vi) (if sel then Vi else Ui) sel).
  rewrite for_loop_ext_inv with
    (P := fun a : list K => length a = n)
    (body' := fun i a => upd a i (add (mul (Root.rhs_at t i) (Root.dt m))
                                      (rd (if sel then Ui else Vi) i))).
  - apply (@store_loop_id _ _ n). apply length_alloc.
  - apply length_alloc.
  - intros i x Hi Hx. split; [rewrite length_upd; exact Hx|].
    rewrite !rd_upd_eq by (rewrite ?length_upd, Hx; exact Hi).
    rewrite !upd_upd. reflexivity.
Qed.

(** With [alpha = -1.0] the first-derivative arrays are the opposites of
    the ones computed with [alpha = 1.0]; the other arrays do not depend
    on [alpha]. *)
Lemma rd_dtrmm_opp side uplo N (a : list K) lda (b : list K) k :
  length b = N * N -> 0 < N -> k < N * N ->
  rd (dtrmm side uplo N N (opp one) a lda b N) k =
  opp (rd (dtrmm side uplo N N one a lda b N) k).
Proof.
  intros Hl HN Hk. unfold dtrmm.
  rewrite !rd_overwrite by (rewrite Hl; exact Hk).
  rewrite in_block_full by assumption.
  destruct side; ring.
Qed.

Lemma Root_rhs_at (m : Root.Model K) cf Vel Other sel k :
  Root.Nx m = Root.Ny m -> (3 <= Root.Nx m)%Z ->
  k < Z.to_nat (Root.Ny m - 2) * Z.to_nat (Root.Nx m - 2) ->
  Root.rhs_at (Root.ComputeTerms m cf (opp one) Vel Other sel) k =
  Par.rhs_at (Root.ComputeTerms m cf one Vel Other sel) k.
Proof.
  intros HN H3 Hk. unfold Root.rhs_at, Par.rhs_at, Root.ComputeTerms. cbv zeta.
  rewrite HN in *.
  set (N := Z.to_nat (Root.Ny m - 2)) in *.
  assert (HN0 : 0 < N) by (unfold N; lia).
  assert (Hlen : length (dcopy (N * N) Vel 1 (alloc (N * N)) 1) = N * N)
    by (rewrite dcopy_unit by apply length_alloc; apply length_tabulate).
  destruct sel; cbn [Par.dVel_dx_2 Par.dVel_dy_2 Par.dVel_dx Par.dVel_dy Par.Vel_Vel
                     Par.Vel_Other Par.Vel_Vel_Minus_1 Par.Vel_Other_Minus_1];
    rewrite !rd_dtrmm_opp by assumption; ring.
Qed.

End RootFacts.

(** ** Nested loops that fill a block *)

Section InitialField.
Context {K : Type} {A : Arith K}.

(** The two nested loops of [SetInitialVelocity] write every cell once. *)
Lemma rd_nested_store Nxr Nyr (f : nat -> nat -> K) (a : list K) n :
  length a = Nyr * Nxr -> n <= Nxr ->
  length (for_loop n (fun i a' => for_loop Nyr (fun j a'' => upd a'' (i * Nyr + j) (f i j)) a') a)
    = Nyr * Nxr /\
  forall c r, c < Nxr -> r < Nyr ->
    rd (for_loop n (fun i a' => for_loop Nyr (fun j a'' => upd a'' (i * Nyr + j) (f i j)) a') a)
       (c * Nyr + r)
    = if c <? n then f c r else rd a (c * Nyr + r).
Proof.
  intros Hl. induction n as [|n IH]; intros Hn.
  - simpl. split; [exact Hl|]. intros c r _ _. reflexivity.
  - destruct IH as (IHl & IHr); [lia|]. simpl.
    set (a' := for_loop n (fun i a' =>
                 for_loop Nyr (fun j a'' => upd a'' (i * Nyr + j) (f i j)) a') a) in *.
    change (for_loop Nyr (fun j a'' => upd a'' (n * Nyr + j) (f n j)) a')
      with (store_loop Nyr (fun j => n * Nyr + j) (f n) a').
    split; [rewrite length_store_loop; exact IHl|].
    intros c r Hc Hr. destruct (Nat.eq_dec c n) as [->|Hne].
    + destruct (Nat.ltb_spec n (S n)); [|lia].
      apply (@rd_store_loop_hit _ _ Nyr (fun j => n * Nyr + j) (f n) a' r).
      * exact Hr.
      * rewrite IHl. rewrite Nat.add_comm. apply cm_lt; lia.
      * intros j' H1 H2. lia.
    + rewrite rd_store_loop_miss
        by (intros j Hj E; apply cm_inj in E; [lia|assumption|assumption]).
      rewrite (IHr c r Hc Hr).
      destruct (Nat.ltb_spec c n); destruct (Nat.ltb_spec c (S n)); try lia; reflexivity.
Qed.

Lemma nested_store_eq Nxr Nyr (f : nat -> nat -> K) (a : list K) :
  length a = Nyr * Nxr ->
  for_loop Nxr (fun i a' => for_loop Nyr (fun j a'' => upd a'' (i * Nyr + j) (f i j)) a') a
  = tabulate (Nyr * Nxr) (fun idx => f (idx / Nyr) (idx mod Nyr)).
Proof.
  intros Hl. destruct (@rd_nested_store Nxr Nyr f a Nxr Hl (le_n _)) as (Hlen & Hrd).
  apply rd_ext.
  - rewrite Hlen, length_tabulate. reflexivity.
  - intros i Hi. rewrite Hlen in Hi. rewrite rd_tabulate by exact Hi.
    assert (HN : 0 < Nyr) by (destruct Nyr; [simpl in Hi; lia|lia]).
    assert (Hr : i mod Nyr < Nyr) by (apply Nat.mod_upper_bound; lia).
    assert (Hc : i / Nyr < Nxr) by (apply Nat.Div0.div_lt_upper_bound; exact Hi).
    pose proof (Hrd (i / Nyr) (i mod Nyr) Hc Hr) as E.
    replace (i / Nyr * Nyr + i mod Nyr) with i in E
      by (pose proof (Nat.div_mod_eq i Nyr); lia).
    rewrite E. destruct (Nat.ltb_spec (i / Nyr) Nxr); [reflexivity|lia].
Qed.

(** The same loops on the pair of buffers [(U, V)]. *)
Lemma nested_store_pair Nxr Nyr (f : nat -> nat -> K) (u v : list K) :
  length u = Nyr * Nxr -> length v = Nyr * Nxr ->
  for_loop Nxr (fun i uv =>
    for_loop Nyr (fun j uv' =>
      (upd (fst uv') (i * Nyr + j) (f i j), upd (snd uv') (i * Nyr + j) (f i j))) uv) (u, v)
  = (tabulate (Nyr * Nxr) (fun idx => f (idx / Nyr) (idx mod Nyr)),
     tabulate (Nyr * Nxr) (fun idx => f (idx / Nyr) (idx mod Nyr))).
Proof.
  intros Hu Hv.
  rewrite (surjective_pairing (for_loop Nxr _ (u, v))).
  f_equal.
  - rewrite (@for_loop_proj _ _ fst _
      (fun i a' => for_loop Nyr (fun j a'' => upd a'' (i * Nyr + j) (f i j)) a')).
    + apply nested_store_eq. exact Hu.
    + intros i s. apply (@for_loop_proj _ _ fst). reflexivity.
  - rewrite (@for_loop_proj _ _ snd _
      (fun i a' => for_loop Nyr (fun j a'' => upd a'' (i * Nyr + j) (f i j)) a')).
    + apply nested_store_eq. exact Hv.
    + intros i s. apply (@for_loop_proj _ _ snd). reflexivity.
Qed.

End InitialField.

(** ** The explicit stencil loop of the single-process variant *)

(** Visiting the rows in blocks visits every row once, in order. *)
Lemma for_loop_blocked {St : Type} (n bs : nat) (body : nat -> St -> St) (s : St) :
  0 < bs ->
  for_loop ((n + (bs - 1)) / bs)
    (fun jb x => for_loop bs (fun kk y => if jb * bs + kk <? n then body (jb * bs + kk) y else y) x) s
  = for_loop n body s.
Proof.
  intros Hbs.
  assert (Hin : forall jb kk,
             for_loop kk (fun kk y => if jb * bs + kk <? n then body (jb * bs + kk) y else y)
               (for_loop (Nat.min (jb * bs) n) body s)
             = for_loop (Nat.min (jb * bs + kk) n) body s).
  { intros jb kk. induction kk as [|kk IH]; simpl.
    - rewrite Nat.add_0_r. reflexivity.
    - rewrite IH. destruct (Nat.ltb_spec (jb * bs + kk) n) as [Hlt|Hge].
      + rewrite (Nat.min_l (jb * bs + kk) n) by lia.
        replace (Nat.min (jb * bs + S kk) n) with (S (jb * bs + kk)) by lia.
        reflexivity.
      + rewrite !Nat.min_r by lia. reflexivity. }
  assert (Hout : forall nb,
             for_loop nb
               (fun jb x => for_loop bs
                  (fun kk y => if jb * bs + kk <? n then body (jb * bs + kk) y else y) x) s
             = for_loop (Nat.min (nb * bs) n) body s).
  { intros nb. induction nb as [|nb IH]; simpl.
    - reflexivity.
    - rewrite IH, Hin. f_equal. f_equal. lia. }
  rewrite Hout. f_equal. apply Nat.min_r.
  pose proof (Nat.div_mod_eq (n + (bs - 1)) bs) as E.
  pose proof (Nat.mod_upper_bound (n + (bs - 1)) bs ltac:(lia)) as Hm.
  nia.
Qed.

Section SerStencil.
Context {K : Type} {A : Arith K}.

(** The value [CellUpdate] leaves in cell [(i, k)]. *)
Definition SerCell (m : Ser.Model K) (Vel Other : list K) (SELECT_U : bool) (i k : nat) : K :=
  let Nxr := Ser.GetNx m - 2 in
  let Nyr := Ser.GetNy m - 2 in
  let curr := i * Nyr + k in
  let iMinus := rd Vel ((i - 1) * Nyr + k) in
  let iPlus := rd Vel ((i + 1) * Nyr + k) in
  let v := if 0 <? i then add (mul (Ser.GetAlphaDx_1 m) (rd Vel curr)) (mul (Ser.GetBetaDx_1 m) iMinus)
           else mul (Ser.GetAlphaDx_1 m) (rd Vel curr) in
  let v := if 0 <? i then add (add v (mul (Ser.GetAlphaDx_2 m) (rd Vel curr)))
                              (mul (Ser.GetBetaDx_2 m) iMinus)
           else add v (mul (Ser.GetAlphaDx_2 m) (rd Vel curr)) in
  let v := if i <? Nxr - 1 then add v (mul (Ser.GetBetaDx_2 m) iPlus) else v in
  let v := if 0 <? k then add (add v (mul (Ser.GetAlphaDy_1 m) (rd Vel curr)))
                              (mul (Ser.GetBetaDy_1 m) (rd Vel (curr - 1)))
           else add v (mul (Ser.GetAlphaDy_1 m) (rd Vel curr)) in
  let v := if 0 <? k then add (add v (mul (Ser.GetAlphaDy_2 m) (rd Vel curr)))
                              (mul (Ser.GetBetaDy_2 m) (rd Vel (curr - 1)))
           else add v (mul (Ser.GetAlphaDy_2 m) (rd Vel curr)) in
  let v := if k <? Nyr - 1 then add v (mul (Ser.GetBetaDy_2 m) (rd Vel (curr + 1))) else v in
  let '(Vel_Vel, Vel_Other, Vel_Vel_Minus_1, Vel_Other_Minus_1) :=
    Ser.NonLinearCell m Vel Other SELECT_U i k in
  let v := sub v (sub (sub (add Vel_Vel Vel_Other) Vel_Vel_Minus_1) Vel_Other_Minus_1) in
  add (mul v (Ser.GetDt m)) (rd Vel curr).

Lemma CellUpdate_eq (m : Ser.Model K) (Vel Other : list K) (sel : bool) (i k : nat) (n : list K) :
  i * (Ser.GetNy m - 2) + k < length n ->
  Ser.CellUpdate m Vel Other sel i k n =
  upd n (i * (Ser.GetNy m - 2) + k) (SerCell m Vel Other sel i k).
Proof.
  intros Hl. unfold Ser.CellUpdate, SerCell. cbv zeta.
  destruct (Ser.NonLinearCell m Vel Other sel i k) as [[[VV VO] VVm] VOm].
  rewrite !rd_upd_eq by (rewrite ?length_upd; exact Hl).
  rewrite !upd_upd. reflexivity.
Qed.

(** [SetLinearTerms] writes every cell of the buffer once. *)
Lemma SetLinearTerms_eq (m : Ser.Model K) (Vel Other NextVel : list K) (sel : bool) :
  length NextVel = (Ser.GetNy m - 2) * (Ser.GetNx m - 2) ->
  Ser.SetLinearTerms m Vel Other NextVel sel =
  tabulate ((Ser.GetNy m - 2) * (Ser.GetNx m - 2))
    (fun idx => SerCell m Vel Other sel (idx / (Ser.GetNy m - 2)) (idx mod (Ser.GetNy m - 2))).
Proof.
  intros Hl. unfold Ser.SetLinearTerms. cbv zeta.
  set (Nyr := Ser.GetNy m - 2) in *. set (Nxr := Ser.GetNx m - 2) in *.
  rewrite <- (@nested_store_eq _ _ Nxr Nyr (fun i k => SerCell m Vel Other sel i k) NextVel Hl).
  apply for_loop_ext_inv with (P := fun a : list K => length a = Nyr * Nxr).
  - exact Hl.
  - intros i x Hi Hx.
    change (for_loop ((Nyr + (8 - 1)) / 8)
              (fun jb n => for_loop 8
                 (fun kk n0 => if jb * 8 + kk <? Nyr
                               then Ser.CellUpdate m Vel Other sel i (jb * 8 + kk) n0 else n0) n) x)
      with (for_loop ((Nyr + (8 - 1)) / 8)
              (fun jb n => for_loop 8
                 (fun kk n0 => if jb * 8 + kk <? Nyr
                               then (fun k => Ser.CellUpdate m Vel Other sel i k) (jb * 8 + kk) n0
                               else n0) n) x).
    rewrite (@for_loop_blocked _ Nyr 8 (fun k => Ser.CellUpdate m Vel Other sel i k) x) by lia.
    assert (E : for_loop Nyr (fun k => Ser.CellUpdate m Vel Other sel i k) x =
                for_loop Nyr (fun j a'' => upd a'' (i * Nyr + j) (SerCell m Vel Other sel i j)) x).
    { apply for_loop_ext_inv with (P := fun a : list K => length a = Nyr * Nxr).
      - exact Hx.
      - intros k y Hk Hy. split; [rewrite length_upd; exact Hy|].
        apply CellUpdate_eq. fold Nyr. rewrite Hy. rewrite Nat.add_comm. apply cm_lt; assumption. }
    rewrite E. split; [|reflexivity].
    change (for_loop Nyr (fun j a'' => upd a'' (i * Nyr + j) (SerCell m Vel Other sel i j)) x)
      with (store_loop Nyr (fun j => i * Nyr + j) (SerCell m Vel Other sel i) x).
    rewrite length_store_loop. exact Hx.
Qed.

End SerStencil.

(** The getters of the single-process model hold the coefficients of the
    same equation as the model [g] of the partitioned engine. *)
Definition ser_matches {K : Type} {A : Arith K} (ms : Ser.Model K) (g : Par.Model K) : Prop :=
  Ser.GetNx ms - 2 = Par.GetLocNxr g /\
  Ser.GetNy ms - 2 = Par.GetLocNyr g /\
  Ser.GetDt ms = Par.GetDt g /\
  Ser.GetAlphaDx_2 ms = div (mul (opp two) (Par.GetC g)) (pow (Par.GetDx g) two) /\
  Ser.GetBetaDx_2 ms = div (Par.GetC g) (pow (Par.GetDx g) two) /\
  Ser.GetAlphaDy_2 ms = div (mul (opp two) (Par.GetC g)) (pow (Par.GetDy g) two) /\
  Ser.GetBetaDy_2 ms = div (Par.GetC g) (pow (Par.GetDy g) two) /\
  Ser.GetAlphaDx_1 ms = opp (div (Par.GetAx g) (Par.GetDx g)) /\
  Ser.GetBetaDx_1 ms = div (Par.GetAx g) (Par.GetDx g) /\
  Ser.GetAlphaDy_1 ms = opp (div (Par.GetAy g) (Par.GetDy g)) /\
  Ser.GetBetaDy_1 ms = div (Par.GetAy g) (Par.GetDy g) /\
  Ser.GetBDx ms = div (Par.GetB g) (Par.GetDx g) /\
  Ser.GetBDy ms = div (Par.GetB g) (Par.GetDy g).

Section SerAgainstPar.
Context {K : Type} {A : Arith K} {L : @ArithLaws K A}.

Add Ring Kring7 : arith_ring.

(** On one worker without neighbours the partitioned engine, with the
    operators and the shifted products of the helpers, computes the cell
    values of the explicit stencil loop of the single-process variant. *)
Theorem Ser_agrees_with_single_worker (ms : Ser.Model K) (g : Par.Model K)
    (sts : Ser.Burgers K) (st : Par.Burgers2P K) (NextVel : list K) (sel : bool)
    (inc : Par.Msgs K) (c r : nat) :
  ser_matches ms g ->
  (Par.GetUp g < 0)%Z -> (Par.GetDown g < 0)%Z ->
  (Par.GetLeft g < 0)%Z -> (Par.GetRight g < 0)%Z ->
  caches_allocated g st -> operators_built g st ->
  length NextVel = Par.GetLocNyr g * Par.GetLocNxr g ->
  c < Par.GetLocNxr g -> r < Par.GetLocNyr g ->
  rd (Ser.NextVelocityState ms sts NextVel sel) (c * Par.GetLocNyr g + r) =
  rd (fst (Par.NextVelocityState g st (Ser.U sts) (Ser.V sts) sel inc)) (c * Par.GetLocNyr g + r).
Proof.
  intros (HNx & HNy & Hdt & Hax2 & Hbx2 & Hay2 & Hby2 & Hax1 & Hbx1 & Hay1 & Hby1 & Hbdx & Hbdy)
         Hup Hdown Hleft Hright Hc HB Hlen Hcc Hr.
  unfold Ser.NextVelocityState, Par.NextVelocityState. cbv zeta. cbn [fst].
  set (Vel := if sel then Ser.U sts else Ser.V sts).
  set (Other := if sel then Ser.V sts else Ser.U sts).
  rewrite SetLinearTerms_eq by (rewrite HNx, HNy; exact Hlen).
  rewrite HNx, HNy.
  rewrite rd_tabulate by (rewrite Nat.add_comm; apply cm_lt; assumption).
  rewrite (Nat.add_comm (c * Par.GetLocNyr g) r), cm_mod, cm_div by exact Hr.
  rewrite (Nat.add_comm r (c * Par.GetLocNyr g)).
  assert (HB' : operators_built g (Par.SetCaches g st Vel inc)).
  { destruct (SetCaches_fields g st Vel inc) as (_ & _ & E1 & E2 & E3 & E4).
    eapply operators_built_ext; [exact E1|exact E2|exact E3|exact E4|exact HB]. }
  rewrite (Combine_ComputeTerms_stencil Vel Other sel HB' Hcc Hr).
  unfold nb_left, nb_right, nb_up, nb_down. rewrite SetCaches_eq by exact Hc.
  cbn [Par.upVel Par.downVel Par.leftVel Par.rightVel Par.set_caches].
  rewrite !rd_refreshed by assumption.
  apply Z.ltb_lt in Hup, Hdown, Hleft, Hright. rewrite Hup, Hdown, Hleft, Hright.
  unfold SerCell, Ser.NonLinearCell, Stencil. cbv zeta.
  rewrite HNx, HNy, Hdt, Hax2, Hbx2, Hay2, Hby2, Hax1, Hbx1, Hay1, Hby1, Hbdx, Hbdy.
  set (Nyr := Par.GetLocNyr g) in *. set (Nxr := Par.GetLocNxr g) in *.
  replace (c * Nyr + r + 1) with (c * Nyr + (r + 1)) by lia.
  destruct (Nat.eqb_spec c 0) as [Ec|Ec]; destruct (Nat.ltb_spec 0 c) as [Ec'|Ec']; try lia;
    destruct (Nat.eqb_spec (c + 1) Nxr) as [Ex|Ex];
    destruct (Nat.ltb_spec c (Nxr - 1)) as [Ex'|Ex']; try lia;
    destruct (Nat.eqb_spec r 0) as [Er|Er]; destruct (Nat.ltb_spec 0 r) as [Er'|Er']; try lia;
    destruct (Nat.eqb_spec (r + 1) Nyr) as [Ey|Ey];
    destruct (Nat.ltb_spec r (Nyr - 1)) as [Ey'|Ey']; try lia;
    try (replace (c * Nyr + r - 1) with (c * Nyr + (r - 1)) by lia);
    destruct sel; ring.
Qed.

End SerAgainstPar.

(** The two variants on the example grid, after the whole time loop. *)
Example Ser_agrees_example :
  ser_matches Examples.ser_m Examples.g /\
  Ser.U (Ser.SetIntegratedVelocity Examples.ser_m Examples.ser_st) =
  Par.U (World.Run Examples.g 1 1 Examples.U0 Examples.V0 0) /\
  Ser.V (Ser.SetIntegratedVelocity Examples.ser_m Examples.ser_st) =
  Par.V (World.Run Examples.g 1 1 Examples.U0 Examples.V0 0).
Proof.
  split; [unfold ser_matches; repeat split; reflexivity|].
  split; vm_compute; reflexivity.
Qed.

(** ** The first variant against the partitioned engine *)

Section RootAgainstPar.
Context {K : Type} {A : Arith K} {L : @ArithLaws K A}.

Add Ring KringX4 : arith_ring.

Lemma tabulate_ext (n : nat) (f h : nat -> K) :
  (forall i, i < n -> f i = h i) -> tabulate n f = tabulate n h.
Proof.
  intros H. unfold tabulate. apply map_ext_in. intros i Hi. apply in_seq in Hi. apply H. lia.
Qed.

Lemma Par_ComputeTerms_from_Root (m : Root.Model K) (cf : Root.Coeffs K)
    (g : Par.Model K) (st st' : Par.Burgers2P K) (Vel Other : list K) (sel : bool) :
  root_matches m cf g st -> Root.Nx m = Root.Ny m ->
  Par.dVel_dx_2_coeffs st' = Par.dVel_dx_2_coeffs st ->
  Par.dVel_dy_2_coeffs st' = Par.dVel_dy_2_coeffs st ->
  Par.dVel_dx_coeffs st' = Par.dVel_dx_coeffs st ->
  Par.dVel_dy_coeffs st' = Par.dVel_dy_coeffs st ->
  Par.ComputeTerms g st' Vel Other sel =
  Par.UpdateBoundsNonLinear g st' Vel Other
    (Par.UpdateBoundsLinear g st' (Root.ComputeTerms m cf one Vel Other sel)) sel.
Proof.
  intros (HNx & HNy & Hdt & Hdx & Hdy & Hb & C1 & C2 & C3 & C4) HN E1 E2 E3 E4.
  unfold Par.ComputeTerms, Root.ComputeTerms. cbv zeta.
  rewrite E1, E2, E3, E4, C1, C2, C3, C4, HNx, HNy, Hdx, Hdy, Hb, HN.
  destruct sel; reflexivity.
Qed.

Lemma Root_step_cell (m : Root.Model K) (cf : Root.Coeffs K)
    (g : Par.Model K) (st : Par.Burgers2P K) (Vel Other : list K) (sel : bool)
    (inc : Par.Msgs K) (c r : nat) :
  root_matches m cf g st -> Root.Nx m = Root.Ny m ->
  (Par.GetUp g < 0)%Z -> (Par.GetDown g < 0)%Z ->
  (Par.GetLeft g < 0)%Z -> (Par.GetRight g < 0)%Z ->
  caches_allocated g st ->
  c < Par.GetLocNxr g -> r < Par.GetLocNyr g ->
  Par.rhs_at (Par.ComputeTerms g (Par.SetCaches g st Vel inc) Vel Other sel)
             (c * Par.GetLocNyr g + r) =
  Par.rhs_at (Root.ComputeTerms m cf one Vel Other sel) (c * Par.GetLocNyr g + r).
Proof.
  intros Hm HN Hup Hdown Hleft Hright Hc Hcc Hr.
  set (st' := Par.SetCaches g st Vel inc).
  destruct (SetCaches_fields g st Vel inc) as (_ & _ & E1 & E2 & E3 & E4).
  pose proof (@Par_ComputeTerms_from_Root m cf g st st' Vel Other sel Hm HN E1 E2 E3 E4) as ET.
  pose proof Hm as (HNx & HNy & Hdt & Hdx & Hdy & Hb & _).
  assert (Hz : (forall i, i < Par.GetLocNxr g -> rd (Par.upVel st') i = zero) /\
               (forall i, i < Par.GetLocNxr g -> rd (Par.downVel st') i = zero) /\
               (forall j, j < Par.GetLocNyr g -> rd (Par.leftVel st') j = zero) /\
               (forall j, j < Par.GetLocNyr g -> rd (Par.rightVel st') j = zero)).
  { unfold st'. rewrite SetCaches_eq by exact Hc.
    cbn [Par.upVel Par.downVel Par.leftVel Par.rightVel Par.set_caches].
    apply Z.ltb_lt in Hup, Hdown, Hleft, Hright.
    repeat split; intros i Hi; rewrite rd_refreshed by exact Hi;
      rewrite ?Hup, ?Hdown, ?Hleft, ?Hright; reflexivity. }
  destruct Hz as (Zu & Zd & Zl & Zr).
  set (tR := Root.ComputeTerms m cf one Vel Other sel) in *.
  assert (Hlen : length (Par.dVel_dx_2 tR) = Par.GetLocNyr g * Par.GetLocNxr g /\
                 length (Par.dVel_dy_2 tR) = Par.GetLocNyr g * Par.GetLocNxr g /\
                 length (Par.dVel_dx tR) = Par.GetLocNyr g * Par.GetLocNxr g /\
                 length (Par.dVel_dy tR) = Par.GetLocNyr g * Par.GetLocNxr g).
  { unfold tR, Root.ComputeTerms. cbv zeta. rewrite HNx, HNy.
    destruct sel; cbn [Par.dVel_dx_2 Par.dVel_dy_2 Par.dVel_dx Par.dVel_dy];
      rewrite !length_dsymm, !length_dtrmm, !length_alloc,
              !dcopy_unit, !length_tabulate by apply length_alloc;
      repeat split. }
  destruct Hlen as (L1 & L2 & L3 & L4).
  unfold Par.rhs_at.
  (* the nonlinear arrays, by their closed forms on both sides *)
  rewrite rd_Vel_Vel, rd_Vel_Other, rd_Vel_Vel_Minus_1, rd_Vel_Other_Minus_1 by assumption.
  (* the linear arrays: the corrections add the zero halos *)
  rewrite ET.
  destruct (UpdateBoundsNonLinear_linear g st' Vel Other (Par.UpdateBoundsLinear g st' tR) sel)
    as (N1 & N2 & N3 & N4 & _).
  rewrite N1, N2, N3, N4.
  rewrite (@rd_UpdateBoundsLinear_dx_2 K A L g st' tR c r L1 Hcc Hr).
  rewrite (@rd_UpdateBoundsLinear_dy_2 K A L g st' tR c r L2 Hcc Hr).
  rewrite (@rd_UpdateBoundsLinear_dx K A L g st' tR c r L3 Hcc Hr).
  rewrite (@rd_UpdateBoundsLinear_dy K A L g st' tR c r L4 Hcc Hr).
  unfold nb_left, nb_up. rewrite (Zu c Hcc), (Zd c Hcc), (Zl r Hr), (Zr r Hr).
  unfold tR, Root.ComputeTerms. cbv zeta. rewrite <- HNx, <- HNy, <- Hdx, <- Hdy, <- Hb.
  destruct sel; cbn [Par.dVel_dx_2 Par.dVel_dy_2 Par.dVel_dx Par.dVel_dy Par.Vel_Vel
                     Par.Vel_Other Par.Vel_Vel_Minus_1 Par.Vel_Other_Minus_1];
    rewrite !rd_MatMul by assumption;
    cbn [andb orb Nat.b2n]; rewrite ?Nat.sub_0_r;
    destruct (Nat.eqb_spec c 0); destruct (Nat.eqb_spec r 0);
    destruct (Nat.eqb_spec (c + 1) (Par.GetLocNxr g));
    destruct (Nat.eqb_spec (r + 1) (Par.GetLocNyr g)); cbn [andb orb]; ring.
Qed.

End RootAgainstPar.

(** One call of [NextVelocityState] of the first variant against one call
    on a worker without neighbours. *)
Lemma Root_step_matches (K : Type) (A : Arith K) (L : @ArithLaws K A)
    (m : Root.Model K) (cf : Root.Coeffs K) (g : Par.Model K) (st : Par.Burgers2P K)
    (Ui Vi : list K) (sel : bool) (inc : Par.Msgs K) :
  root_matches m cf g st ->
  Root.Nx m = Root.Ny m -> (3 <= Root.Nx m)%Z ->
  (Par.GetUp g < 0)%Z -> (Par.GetDown g < 0)%Z ->
  (Par.GetLeft g < 0)%Z -> (Par.GetRight g < 0)%Z ->
  caches_allocated g st ->
  Root.NextVelocityState m cf Ui Vi sel = fst (Par.NextVelocityState g st Ui Vi sel inc).
Proof.
  intros Hm HN H3 Hup Hdown Hleft Hright Hc.
  pose proof Hm as (HNx & HNy & Hdt & _).
  rewrite Root_NextVelocityState_eq.
  unfold Par.NextVelocityState. cbv zeta. cbn [fst]. rewrite Combine_eq.
  rewrite <- HNx, <- HNy.
  apply tabulate_ext. intros i Hi.
  rewrite (@Root_rhs_at K A L m cf _ _ sel i HN H3) by (rewrite <- HNx, <- HNy; exact Hi).
  rewrite Hdt. f_equal. f_equal.
  assert (HNy0 : 0 < Par.GetLocNyr g) by (destruct (Par.GetLocNyr g); [simpl in Hi; lia|lia]).
  assert (Hr : i mod Par.GetLocNyr g < Par.GetLocNyr g) by (apply Nat.mod_upper_bound; lia).
  assert (Hcc : i / Par.GetLocNyr g < Par.GetLocNxr g)
    by (apply Nat.Div0.div_lt_upper_bound; exact Hi).
  replace i with (i / Par.GetLocNyr g * Par.GetLocNyr g + i mod Par.GetLocNyr g)
    by (pose proof (Nat.div_mod_eq i (Par.GetLocNyr g)); lia).
  symmetry.
  apply (@Root_step_cell K A L m cf g st _ _ sel inc); assumption.
Qed.

Section RootRun.
Context {K : Type} {A : Arith K} {L : @ArithLaws K A}.

Lemma root_matches_built (m : Root.Model K) (g : Par.Model K) (st st' : Par.Burgers2P K) :
  root_model_matches m g ->
  Par.dVel_dx_2_coeffs st = alloc (Par.GetLocNxr g * Par.GetLocNxr g) ->
  Par.dVel_dy_2_coeffs st = alloc (Par.GetLocNyr g * Par.GetLocNyr g) ->
  Par.dVel_dx_coeffs st = alloc (Par.GetLocNxr g * Par.GetLocNxr g) ->
  Par.dVel_dy_coeffs st = alloc (Par.GetLocNyr g * Par.GetLocNyr g) ->
  Par.dVel_dx_2_coeffs st' = Par.dVel_dx_2_coeffs (Par.SetMatrixCoefficients g st) ->
  Par.dVel_dy_2_coeffs st' = Par.dVel_dy_2_coeffs (Par.SetMatrixCoefficients g st) ->
  Par.dVel_dx_coeffs st' = Par.dVel_dx_coeffs (Par.SetMatrixCoefficients g st) ->
  Par.dVel_dy_coeffs st' = Par.dVel_dy_coeffs (Par.SetMatrixCoefficients g st) ->
  root_matches m (Root.SetMatrixCoefficients m) g st'.
Proof.
  intros (HNx & HNy & HNt & Hdt & Hdx & Hdy & Hax & Hay & Hb & Hc) A1 A2 A3 A4 E1 E2 E3 E4.
  unfold root_matches. rewrite E1, E2, E3, E4.
  unfold Par.SetMatrixCoefficients, Root.SetMatrixCoefficients. cbv zeta.
  cbn [Par.dVel_dx_2_coeffs Par.dVel_dy_2_coeffs Par.dVel_dx_coeffs Par.dVel_dy_coeffs
       Par.set_coeffs Root.dVel_dx_2_coeffs Root.dVel_dy_2_coeffs Root.dVel_dx_coeffs
       Root.dVel_dy_coeffs].
  rewrite A1, A2, A3, A4, HNx, HNy, Hdx, Hdy, Hax, Hay, Hc.
  repeat split; assumption.
Qed.

End RootRun.

(** * The properties of the specification, C1 to C10 *)

Section Claim1.
Context {K : Type} {A : Arith K} {L : @ArithLaws K A}.

Add Ring Kring6 : arith_ring.

Lemma Par_next_velocity_formula (m : Par.Model K) st (Ui Vi : list K) (sel : bool) inc k :
  k < Par.GetLocNyr m * Par.GetLocNxr m ->
  let Vel := if sel then Ui else Vi in
  let Other := if sel then Vi else Ui in
  let t := Par.ComputeTerms m (Par.SetCaches m st Vel inc) Vel Other sel in
  rd (fst (Par.NextVelocityState m st Ui Vi sel inc)) k =
  add (rd Vel k) (mul (Par.GetDt m) (Par.rhs_at t k)).
Proof.
  intros Hk Vel Other t. unfold Par.NextVelocityState. cbv zeta. cbn [fst].
  fold Vel Other. fold t. rewrite Combine_eq. rewrite rd_tabulate by exact Hk. ring.
Qed.

Lemma Root_next_velocity_formula (m : Root.Model K) cf (Ui Vi : list K) (sel : bool) k :
  Root.Nx m = Root.Ny m -> (3 <= Root.Nx m)%Z ->
  k < Z.to_nat (Root.Ny m - 2) * Z.to_nat (Root.Nx m - 2) ->
  let Vel := if sel then Ui else Vi in
  let Other := if sel then Vi else Ui in
  let t := Root.ComputeTerms m cf one Vel Other sel in
  rd (Root.NextVelocityState m cf Ui Vi sel) k =
  add (rd Vel k) (mul (Root.dt m) (Par.rhs_at t k)).
Proof.
  intros HN H3 Hk Vel Other t. rewrite Root_NextVelocityState_eq.
  rewrite rd_tabulate by exact Hk. fold Vel Other.
  rewrite Root_rhs_at by assumption. fold t. ring.
Qed.

(** The halos after [SetCaches] are the halos of step 1. *)
Lemma SetCaches_halos (m : Par.Model K) st (Vel : list K) inc c r :
  caches_allocated m st ->
  c < Par.GetLocNxr m -> r < Par.GetLocNyr m ->
  let st' := Par.SetCaches m st Vel inc in
  rd (Par.upVel st') c = upHalo (SpecRefresh m inc) c /\
  rd (Par.downVel st') c = downHalo (SpecRefresh m inc) c /\
  rd (Par.leftVel st') r = leftHalo (SpecRefresh m inc) r /\
  rd (Par.rightVel st') r = rightHalo (SpecRefresh m inc) r.
Proof.
  intros Hc Hcc Hr st'. unfold st'. rewrite SetCaches_eq by exact Hc.
  cbn [Par.upVel Par.downVel Par.leftVel Par.rightVel Par.set_caches
       upHalo downHalo leftHalo rightHalo SpecRefresh].
  rewrite !rd_refreshed by assumption. repeat split.
Qed.

(** The eight arrays of [NextVelocityState], cell by cell, are the arrays
    of steps 2 to 6. *)
Lemma Par_terms_as_specified (m : Par.Model K) st (Ui Vi : list K) (sel : bool) inc c r :
  caches_allocated m st -> operators_built m st ->
  c < Par.GetLocNxr m -> r < Par.GetLocNyr m ->
  let Vel := if sel then Ui else Vi in
  let Other := if sel then Vi else Ui in
  let k := c * Par.GetLocNyr m + r in
  let t := Par.ComputeTerms m (Par.SetCaches m st Vel inc) Vel Other sel in
  let H := SpecRefresh m inc in
  rd (Par.dVel_dx_2 t) k = Spec_dVel_dx_2 m Vel H c r /\
  rd (Par.dVel_dy_2 t) k = Spec_dVel_dy_2 m Vel H c r /\
  rd (Par.dVel_dx t) k = Spec_dVel_dx m Vel H c r /\
  rd (Par.dVel_dy t) k = Spec_dVel_dy m Vel H c r /\
  (rd (Par.Vel_Vel t) k, rd (Par.Vel_Other t) k,
   rd (Par.Vel_Vel_Minus_1 t) k, rd (Par.Vel_Other_Minus_1 t) k) =
  SpecNonLinearAt m Vel Other sel H c r.
Proof.
  intros Hc Hop Hcc Hr Vel Other k t H.
  set (st' := Par.SetCaches m st Vel inc) in *.
  assert (Hop' : operators_built m st').
  { destruct (SetCaches_fields m st Vel inc) as (_ & _ & E1 & E2 & E3 & E4).
    eapply operators_built_ext; [exact E1|exact E2|exact E3|exact E4|exact Hop]. }
  destruct (@SetCaches_halos m st Vel inc c r Hc Hcc Hr) as (Hu & Hd & Hl & Hrt).
  fold st' in Hu, Hd, Hl, Hrt. fold H in Hu, Hd, Hl, Hrt.
  unfold k, t.
  rewrite (rd_dVel_dx_2 Vel Other sel Hop' Hcc Hr).
  rewrite (rd_dVel_dy_2 Vel Other sel Hop' Hcc Hr).
  rewrite (rd_dVel_dx Vel Other sel Hop' Hcc Hr).
  rewrite (rd_dVel_dy Vel Other sel Hop' Hcc Hr).
  rewrite rd_Vel_Vel, rd_Vel_Other, rd_Vel_Vel_Minus_1, rd_Vel_Other_Minus_1 by assumption.
  unfold nb_left, nb_right, nb_up, nb_down. rewrite Hu, Hd, Hl, Hrt.
  unfold Spec_dVel_dx_2, Spec_dVel_dy_2, Spec_dVel_dx, Spec_dVel_dy, SpecNonLinearAt,
         SpecNonLinear, SpecSymmetric, SpecTriangular. cbv zeta.
  set (Nyr := Par.GetLocNyr m) in *. set (Nxr := Par.GetLocNxr m) in *.
  rewrite (@symm_sum_right K A L Nxr c (fun k0 => rd Vel (k0 * Nyr + r))) by exact Hcc.
  rewrite (@symm_sum_left K A L Nyr r (fun k0 => rd Vel (c * Nyr + k0))) by exact Hr.
  rewrite (@trmm_sum_right K A L Nxr c (fun k0 => rd Vel (k0 * Nyr + r))) by exact Hcc.
  rewrite (@trmm_sum_left K A L Nyr r (fun k0 => rd Vel (c * Nyr + k0))) by exact Hr.
  rewrite !arith_div_opp.
  destruct (Nat.eqb_spec c 0) as [Ec|Ec]; destruct (Nat.ltb_spec 0 c) as [Ec'|Ec']; try lia;
    destruct (Nat.eqb_spec (c + 1) Nxr) as [Ex|Ex];
    destruct (Nat.ltb_spec (c + 1) Nxr) as [Ex'|Ex']; try lia;
    destruct (Nat.eqb_spec r 0) as [Er|Er]; destruct (Nat.ltb_spec 0 r) as [Er'|Er']; try lia;
    destruct (Nat.eqb_spec (r + 1) Nyr) as [Ey|Ey];
    destruct (Nat.ltb_spec (r + 1) Nyr) as [Ey'|Ey']; try lia;
    (split; [ring|]); (split; [ring|]); (split; [ring|]); (split; [ring|]);
    destruct sel;
    (apply (f_equal2 pair); [apply (f_equal2 pair); [apply (f_equal2 pair)|]|]); ring.
Qed.

(** Step 7 on the arrays of the code is step 7 on the arrays of the spec. *)
Lemma Par_next_velocity_as_specified (m : Par.Model K) st (Ui Vi : list K) (sel : bool) inc c r :
  caches_allocated m st -> operators_built m st ->
  c < Par.GetLocNxr m -> r < Par.GetLocNyr m ->
  rd (fst (Par.NextVelocityState m st Ui Vi sel inc)) (c * Par.GetLocNyr m + r) =
  SpecNextVel m (if sel then Ui else Vi) (if sel then Vi else Ui) sel (SpecRefresh m inc) c r.
Proof.
  intros Hc Hop Hcc Hr.
  assert (Hk : c * Par.GetLocNyr m + r < Par.GetLocNyr m * Par.GetLocNxr m)
    by (rewrite Nat.add_comm; apply cm_lt; assumption).
  rewrite (@Par_next_velocity_formula m st Ui Vi sel inc _ Hk).
  destruct (@Par_terms_as_specified m st Ui Vi sel inc c r Hc Hop Hcc Hr)
    as (E1 & E2 & E3 & E4 & E5).
  cbv zeta in E1, E2, E3, E4, E5.
  unfold SpecNextVel, Par.rhs_at. rewrite <- E5, E1, E2, E3, E4. reflexivity.
Qed.

(** The first variant computes what a worker owning the whole grid computes. *)
Lemma Root_next_velocity_as_specified (m : Root.Model K) (Ui Vi : list K) (sel : bool) c r :
  Root.Nx m = Root.Ny m -> (3 <= Root.Nx m)%Z ->
  c < Z.to_nat (Root.Nx m - 2) -> r < Z.to_nat (Root.Ny m - 2) ->
  rd (Root.NextVelocityState m (Root.SetMatrixCoefficients m) Ui Vi sel)
     (c * Z.to_nat (Root.Ny m - 2) + r) =
  SpecNextVel (single_worker_of m) (if sel then Ui else Vi) (if sel then Vi else Ui) sel
    SpecNoHalos c r.
Proof.
  intros HN H3 Hcc Hr.
  set (g := single_worker_of m).
  set (st := Par.SetMatrixCoefficients g (Par.Burgers2P_new g)).
  set (inc := {| Par.to_up := []; Par.to_down := []; Par.to_left := []; Par.to_right := [] |}
              : Par.Msgs K).
  assert (Hmm : root_model_matches m g) by (unfold root_model_matches, g; cbn; repeat split).
  assert (Hm : root_matches m (Root.SetMatrixCoefficients m) g st)
    by (apply (@root_matches_built K A m g (Par.Burgers2P_new g) st Hmm); reflexivity).
  assert (Hc : caches_allocated g st) by exact (caches_allocated_new g).
  assert (Hop : operators_built g st).
  { apply SetMatrixCoefficients_built. unfold coeffs_allocated, Par.Burgers2P_new.
    cbn [Par.dVel_dx_2_coeffs Par.dVel_dy_2_coeffs Par.dVel_dx_coeffs Par.dVel_dy_coeffs].
    rewrite !length_alloc. repeat split. }
  rewrite (@Root_step_matches K A L m (Root.SetMatrixCoefficients m) g st Ui Vi sel inc
             Hm HN H3 eq_refl eq_refl eq_refl eq_refl Hc).
  exact (@Par_next_velocity_as_specified g st Ui Vi sel inc c r Hc Hop Hcc Hr).
Qed.

End Claim1.

(** C1.  In exact arithmetic, once [SetMatrixCoefficients] has built the
    operators, [NextVelocityState] of the partitioned engine computes in
    every cell [(c, r)], [k = c*Nyr + r], the arrays of steps 2 to 6 of the
    specification (the products with the operators of section 4.1 and the
    elementwise nonlinear terms, after the boundary corrections with the
    halos of step 1) and returns
    [Vel[k] + dt*(dVel_dx_2[k] + dVel_dy_2[k] - dVel_dx[k] - dVel_dy[k]
                  - (Vel_Vel[k] + Vel_Other[k] - Vel_Vel_Minus_1[k] - Vel_Other_Minus_1[k]))]
    on them.  The first variant, where [Nx = Ny] as [SetNumerics] sets
    them, returns the same combination of the same arrays for a grid
    without neighbours: it computes the opposites of the first-derivative
    products and adds them. *)
Theorem C1_next_velocity_formula (K : Type) (A : Arith K) (L : @ArithLaws K A) :
  (forall (m : Par.Model K) (st : Par.Burgers2P K) (Ui Vi : list K) (sel : bool)
          (inc : Par.Msgs K) (c r : nat),
      caches_allocated m st -> operators_built m st ->
      c < Par.GetLocNxr m -> r < Par.GetLocNyr m ->
      let Vel := if sel then Ui else Vi in
      let Other := if sel then Vi else Ui in
      let k := c * Par.GetLocNyr m + r in
      let t := Par.ComputeTerms m (Par.SetCaches m st Vel inc) Vel Other sel in
      let H := SpecRefresh m inc in
      (rd (Par.dVel_dx_2 t) k = Spec_dVel_dx_2 m Vel H c r /\
       rd (Par.dVel_dy_2 t) k = Spec_dVel_dy_2 m Vel H c r /\
       rd (Par.dVel_dx t) k = Spec_dVel_dx m Vel H c r /\
       rd (Par.dVel_dy t) k = Spec_dVel_dy m Vel H c r /\
       (rd (Par.Vel_Vel t) k, rd (Par.Vel_Other t) k,
        rd (Par.Vel_Vel_Minus_1 t) k, rd (Par.Vel_Other_Minus_1 t) k) =
       SpecNonLinearAt m Vel Other sel H c r) /\
      rd (fst (Par.NextVelocityState m st Ui Vi sel inc)) k =
      add (rd Vel k)
          (mul (Par.GetDt m)
             (sub (sub (sub (add (rd (Par.dVel_dx_2 t) k) (rd (Par.dVel_dy_2 t) k))
                            (rd (Par.dVel_dx t) k))
                       (rd (Par.dVel_dy t) k))
                  (sub (sub (add (rd (Par.Vel_Vel t) k) (rd (Par.Vel_Other t) k))
                            (rd (Par.Vel_Vel_Minus_1 t) k))
                       (rd (Par.Vel_Other_Minus_1 t) k)))) /\
      rd (fst (Par.NextVelocityState m st Ui Vi sel inc)) k =
      SpecNextVel m Vel Other sel H c r) /\
  (forall (m : Root.Model K) (Ui Vi : list K) (sel : bool) (c r : nat),
      Root.Nx m = Root.Ny m -> (3 <= Root.Nx m)%Z ->
      c < Z.to_nat (Root.Nx m - 2) -> r < Z.to_nat (Root.Ny m - 2) ->
      rd (Root.NextVelocityState m (Root.SetMatrixCoefficients m) Ui Vi sel)
         (c * Z.to_nat (Root.Ny m - 2) + r) =
      SpecNextVel (single_worker_of m) (if sel then Ui else Vi) (if sel then Vi else Ui) sel
        SpecNoHalos c r).
Proof.
  split.
  - intros m st Ui Vi sel inc c r Hc Hop Hcc Hr Vel Other k t H.
    split; [exact (@Par_terms_as_specified K A L m st Ui Vi sel inc c r Hc Hop Hcc Hr)|].
    split.
    + apply (Par_next_velocity_formula (L := L)).
      unfold k. rewrite Nat.add_comm. apply cm_lt; assumption.
    + exact (@Par_next_velocity_as_specified K A L m st Ui Vi sel inc c r Hc Hop Hcc Hr).
  - intros m Ui Vi sel c r HN H3 Hcc Hr.
    exact (@Root_next_velocity_as_specified K A L m Ui Vi sel c r HN H3 Hcc Hr).
Qed.

Lemma C1_next_velocity_formula_witness :
  (caches_allocated Examples.m2 Examples.st2 /\ operators_built Examples.m2 Examples.st2 /\
   (let t := Par.ComputeTerms Examples.m2
               (Par.SetCaches Examples.m2 Examples.st2 (Par.U Examples.st2) Examples.inc2)
               (Par.U Examples.st2) (Par.V Examples.st2) true in
    rd (Par.dVel_dx_2 t) (0 * Par.GetLocNyr Examples.m2 + 1) = 154%Z /\
    rd (Par.dVel_dy_2 t) (0 * Par.GetLocNyr Examples.m2 + 1) = 70%Z /\
    rd (Par.dVel_dx t) (0 * Par.GetLocNyr Examples.m2 + 1) = (-36)%Z /\
    rd (Par.dVel_dy t) (0 * Par.GetLocNyr Examples.m2 + 1) = 3%Z /\
    rd (Par.Vel_Vel_Minus_1 t) (0 * Par.GetLocNyr Examples.m2 + 1) = 1400%Z) /\
   rd (fst (Par.NextVelocityState Examples.m2 Examples.st2
              (Par.U Examples.st2) (Par.V Examples.st2) true Examples.inc2))
      (0 * Par.GetLocNyr Examples.m2 + 1) = 1152%Z) /\
  (Root.Nx Examples.root_m = Root.Ny Examples.root_m /\
   (3 <= Root.Nx Examples.root_m)%Z /\
   rd (Root.NextVelocityState Examples.root_m (Root.SetMatrixCoefficients Examples.root_m)
         Examples.root_U Examples.root_V false)
      (1 * Z.to_nat (Root.Ny Examples.root_m - 2) + 1) = (-28)%Z).
Proof.
  assert (Hc : caches_allocated Examples.m2 Examples.st2)
    by (unfold caches_allocated; repeat split; reflexivity).
  assert (Hop : operators_built Examples.m2 Examples.st2).
  { unfold Examples.st2. apply SetMatrixCoefficients_built.
    unfold coeffs_allocated; repeat split; reflexivity. }
  split.
  - split; [exact Hc|]. split; [exact Hop|].
    pose proof (proj1 (C1_next_velocity_formula ArithLawsZ) Examples.m2 Examples.st2
                  (Par.U Examples.st2) (Par.V Examples.st2) true Examples.inc2 0 1
                  Hc Hop ltac:(vm_compute; lia) ltac:(vm_compute; lia)) as P.
    cbv zeta in P. destruct P as ((E1 & E2 & E3 & E4 & E5) & _ & Es).
    cbv zeta. split; [|rewrite Es; vm_compute; reflexivity].
    split; [rewrite E1; vm_compute; reflexivity|].
    split; [rewrite E2; vm_compute; reflexivity|].
    split; [rewrite E3; vm_compute; reflexivity|].
    split; [rewrite E4; vm_compute; reflexivity|].
    apply (f_equal (fun q => snd (fst q))) in E5. cbn [fst snd] in E5.
    rewrite E5. vm_compute. reflexivity.
  - split; [reflexivity|]. split; [vm_compute; discriminate|].
    rewrite (proj2 (C1_next_velocity_formula ArithLawsZ) Examples.root_m
               Examples.root_U Examples.root_V false 1 1
               eq_refl ltac:(vm_compute; discriminate)
               ltac:(vm_compute; lia) ltac:(vm_compute; lia)).
    vm_compute. reflexivity.
Defined.

(** C2.  In exact arithmetic, with the halo exchange as a copy of the
    neighbour's boundary row or column, a run on a [Px x Py] mesh that
    divides the grid evenly leaves in every cell of every worker the value
    that the single-worker run ([Px = Py = 1], zero halos on all four sides)
    leaves in the corresponding global cell, for both components and any
    number of steps, coefficients and initial fields. *)
Theorem C2_decomposition_agrees_with_single_worker
    (K : Type) (A : Arith K) (L : @ArithLaws K A)
    (g : Par.Model K) (Px Py nxr nyr : nat) (U0 V0 : list K) (px py c r : nat) :
  Par.GetLocNxr g = Px * nxr ->
  Par.GetLocNyr g = Py * nyr ->
  px < Px -> py < Py -> c < nxr -> r < nyr ->
  rd (Par.U (World.Run g Px Py U0 V0 (px * Py + py))) (c * nyr + r) =
  rd (Par.U (World.Run g 1 1 U0 V0 0)) ((px * nxr + c) * (Py * nyr) + (py * nyr + r)) /\
  rd (Par.V (World.Run g Px Py U0 V0 (px * Py + py))) (c * nyr + r) =
  rd (Par.V (World.Run g 1 1 U0 V0 0)) ((px * nxr + c) * (Py * nyr) + (py * nyr + r)).
Proof.
  intros HX HY Hpx Hpy Hc Hr.
  assert (HPx : 0 < Px) by lia. assert (HPy : 0 < Py) by lia.
  destruct (@Run_inv K A L g Px Py nxr nyr HPx HPy HX HY U0 V0) as (_ & _ & _ & HU & HV).
  split.
  - exact (HU px py c r Hpx Hpy Hc Hr).
  - exact (HV px py c r Hpx Hpy Hc Hr).
Qed.

Lemma C2_decomposition_agrees_with_single_worker_witness :
  Par.GetLocNxr Examples.g = 2 * 2 /\ Par.GetLocNyr Examples.g = 2 * 2 /\
  rd (Par.U (World.Run Examples.g 2 2 Examples.U0 Examples.V0 (1 * 2 + 0))) (1 * 2 + 1) =
  rd (Par.U (World.Run Examples.g 1 1 Examples.U0 Examples.V0 0)) ((1 * 2 + 1) * (2 * 2) + (0 * 2 + 1)) /\
  rd (Par.V (World.Run Examples.g 2 2 Examples.U0 Examples.V0 (1 * 2 + 0))) (1 * 2 + 1) =
  rd (Par.V (World.Run Examples.g 1 1 Examples.U0 Examples.V0 0)) ((1 * 2 + 1) * (2 * 2) + (0 * 2 + 1)).
Proof.
  split; [reflexivity|]. split; [reflexivity|].
  apply (@C2_decomposition_agrees_with_single_worker Z ArithZ ArithLawsZ
           Examples.g 2 2 2 2 Examples.U0 Examples.V0 1 0 1 1); try reflexivity; lia.
Defined.

(** The cell of the example, evaluated on both runs. *)
Example C2_example_values :
  rd (Par.U (World.Run Examples.g 2 2 Examples.U0 Examples.V0 2)) 3 = 329634%Z /\
  rd (Par.U (World.Run Examples.g 1 1 Examples.U0 Examples.V0 0)) 13 = 329634%Z.
Proof. split; vm_compute; reflexivity. Qed.

(** The buffers keep the extents of the constructor over a whole run, so
    that every halo refresh of the run starts from allocated caches. *)
Lemma SetIntegratedVelocity_wf (K : Type) (A : Arith K)
    (models : nat -> Par.Model K) (Nt : nat) (w : nat -> Par.Burgers2P K) :
  (forall r, wf_worker (models r) (w r)) ->
  forall r, wf_worker (models r) (World.SetIntegratedVelocity models Nt w r).
Proof.
  intros Hw. unfold World.SetIntegratedVelocity.
  induction (Nt - 1) as [|n IH]; simpl; intros r.
  - destruct (Hw r) as (Hc & HU & HV). unfold wf_worker, caches_allocated in *.
    unfold Par.SetMatrixCoefficients. cbv zeta.
    cbn [Par.upVel Par.downVel Par.leftVel Par.rightVel Par.U Par.V Par.set_coeffs].
    auto.
  - unfold World.WorldStep. apply TimeStep_wf. apply IH.
Qed.

(** C5.  After [SetCaches], for every direction whose neighbour rank is the
    no-neighbour sentinel, the halo cache of that direction is all zeros,
    whatever the worker's field, the incoming messages and the previous
    content of the caches. *)
Theorem C5_halo_zero_fill (K : Type) (A : Arith K)
    (m : Par.Model K) (st : Par.Burgers2P K) (Vel : list K) (inc : Par.Msgs K) :
  caches_allocated m st ->
  ((Par.GetUp m < 0)%Z ->
     Par.upVel (Par.SetCaches m st Vel inc) = repeat zero (Par.GetLocNxr m)) /\
  ((Par.GetDown m < 0)%Z ->
     Par.downVel (Par.SetCaches m st Vel inc) = repeat zero (Par.GetLocNxr m)) /\
  ((Par.GetLeft m < 0)%Z ->
     Par.leftVel (Par.SetCaches m st Vel inc) = repeat zero (Par.GetLocNyr m)) /\
  ((Par.GetRight m < 0)%Z ->
     Par.rightVel (Par.SetCaches m st Vel inc) = repeat zero (Par.GetLocNyr m)).
Proof.
  intros Hc. rewrite SetCaches_eq by exact Hc.
  cbn [Par.upVel Par.downVel Par.leftVel Par.rightVel Par.set_caches].
  unfold refreshed.
  repeat split; intros H; apply Z.ltb_lt in H; rewrite H; reflexivity.
Qed.

Lemma C5_halo_zero_fill_witness :
  caches_allocated Examples.m2 Examples.st2 /\
  (Par.GetUp Examples.m2 < 0)%Z /\ (Par.GetRight Examples.m2 < 0)%Z /\
  Par.upVel (Par.SetCaches Examples.m2 Examples.st2 (Par.U Examples.st2) Examples.inc2)
    = [0%Z; 0%Z] /\
  Par.rightVel (Par.SetCaches Examples.m2 Examples.st2 (Par.U Examples.st2) Examples.inc2)
    = [0%Z; 0%Z].
Proof.
  assert (Hc : caches_allocated Examples.m2 Examples.st2)
    by (unfold caches_allocated; repeat split; reflexivity).
  split; [exact Hc|]. split; [reflexivity|]. split; [reflexivity|].
  destruct (@C5_halo_zero_fill Z ArithZ Examples.m2 Examples.st2 (Par.U Examples.st2)
              Examples.inc2 Hc) as (Hu & _ & _ & Hr).
  split; [exact (Hu eq_refl)|exact (Hr eq_refl)].
Defined.

(** The caches of the same worker towards its two existing neighbours hold
    what they sent. *)
Example C5_example_other_directions :
  Par.downVel (Par.SetCaches Examples.m2 Examples.st2 (Par.U Examples.st2) Examples.inc2)
    = [21%Z; 22%Z] /\
  Par.leftVel (Par.SetCaches Examples.m2 Examples.st2 (Par.U Examples.st2) Examples.inc2)
    = [27%Z; 28%Z].
Proof. split; vm_compute; reflexivity. Qed.

(** C6.  In every time step both next buffers are computed by
    [NextVelocityState] from the fields [(U, V)] the step started with:
    computing the next [U] changes neither [U] nor [V], and the committed
    [V] is the one computed from the old [U], not from the new one. *)
Theorem C6_same_time_level (K : Type) (A : Arith K)
    (m : Par.Model K) (st : Par.Burgers2P K) (incU incV : Par.Msgs K) :
  wf_worker m st ->
  Par.U (Par.TimeStep m st incU incV) =
    fst (Par.NextVelocityState m st (Par.U st) (Par.V st) true incU) /\
  Par.V (Par.TimeStep m st incU incV) =
    fst (Par.NextVelocityState m st (Par.U st) (Par.V st) false incV) /\
  Par.U (snd (Par.NextVelocityState m st (Par.U st) (Par.V st) true incU)) = Par.U st /\
  Par.V (snd (Par.NextVelocityState m st (Par.U st) (Par.V st) true incU)) = Par.V st.
Proof.
  intros Hwf. destruct (TimeStep_UV incU incV Hwf) as (HU & HV).
  split; [exact HU|]. split; [exact HV|].
  unfold Par.NextVelocityState. cbn [snd]. split; apply SetCaches_fields.
Qed.

Lemma C6_same_time_level_witness :
  wf_worker Examples.m2 Examples.st2 /\
  Par.U (Par.TimeStep Examples.m2 Examples.st2 Examples.inc2 Examples.inc2) =
    fst (Par.NextVelocityState Examples.m2 Examples.st2
           (Par.U Examples.st2) (Par.V Examples.st2) true Examples.inc2) /\
  Par.V (Par.TimeStep Examples.m2 Examples.st2 Examples.inc2 Examples.inc2) =
    fst (Par.NextVelocityState Examples.m2 Examples.st2
           (Par.U Examples.st2) (Par.V Examples.st2) false Examples.inc2).
Proof.
  assert (Hwf : wf_worker Examples.m2 Examples.st2)
    by (unfold wf_worker, caches_allocated; repeat split; reflexivity).
  split; [exact Hwf|].
  destruct (@C6_same_time_level Z ArithZ Examples.m2 Examples.st2 Examples.inc2 Examples.inc2 Hwf)
    as (HU & HV & _).
  split; [exact HU|exact HV].
Defined.

(** On every worker of a run the step reads the halos of both components
    from the neighbours' fields of the same prior time level. *)
Lemma WorldStep_same_time_level (K : Type) (A : Arith K)
    (models : nat -> Par.Model K) (w : nat -> Par.Burgers2P K) (r : nat) :
  wf_worker (models r) (w r) ->
  Par.U (World.WorldStep models w r) =
    fst (Par.NextVelocityState (models r) (w r) (Par.U (w r)) (Par.V (w r)) true
           (World.deliver models (fun q => Par.U (w q)) r)) /\
  Par.V (World.WorldStep models w r) =
    fst (Par.NextVelocityState (models r) (w r) (Par.U (w r)) (Par.V (w r)) false
           (World.deliver models (fun q => Par.V (w q)) r)).
Proof. intros Hwf. unfold World.WorldStep. apply TimeStep_UV. exact Hwf. Qed.

(** C7.  The coefficients of the nonlinear terms are assigned per
    component: solving for u, [(beta1, beta2) = (b/dx, b/dy)] and the own
    direction is x (the left neighbour); solving for v,
    [(beta1, beta2) = (b/dy, b/dx)] and the own direction is y (the up
    neighbour).  In the partitioned engine the four arrays, after the
    boundary correction, are the terms of step 5 at every cell, a local edge
    taking the halo cell as neighbour; in [SetLinearTerms] of the
    single-process variant the four locals are the same terms, with zero
    backward terms at the edges. *)
Theorem C7_nonlinear_coefficients (K : Type) (A : Arith K) (L : @ArithLaws K A) :
  (forall (m : Par.Model K) (st : Par.Burgers2P K) (Vel Other : list K) (sel : bool) (c r : nat),
      c < Par.GetLocNxr m -> r < Par.GetLocNyr m ->
      let k := c * Par.GetLocNyr m + r in
      let t := Par.ComputeTerms m st Vel Other sel in
      let beta1 := if sel then div (Par.GetB m) (Par.GetDx m) else div (Par.GetB m) (Par.GetDy m) in
      let beta2 := if sel then div (Par.GetB m) (Par.GetDy m) else div (Par.GetB m) (Par.GetDx m) in
      let own_prev := if sel then nb_left m st Vel c r else nb_up m st Vel c r in
      let cross_prev := if sel then nb_up m st Vel c r else nb_left m st Vel c r in
      (rd (Par.Vel_Vel t) k, rd (Par.Vel_Other t) k,
       rd (Par.Vel_Vel_Minus_1 t) k, rd (Par.Vel_Other_Minus_1 t) k) =
      SpecNonLinear beta1 beta2 (rd Vel k) (rd Other k) own_prev cross_prev) /\
  (forall (m : Ser.Model K) (Vel Other : list K) (sel : bool) (i k : nat),
      0 < i -> 0 < k ->
      let Nyr := Ser.GetNy m - 2 in
      let curr := i * Nyr + k in
      let beta1 := if sel then Ser.GetBDx m else Ser.GetBDy m in
      let beta2 := if sel then Ser.GetBDy m else Ser.GetBDx m in
      let own_prev := if sel then rd Vel ((i - 1) * Nyr + k) else rd Vel (curr - 1) in
      let cross_prev := if sel then rd Vel (curr - 1) else rd Vel ((i - 1) * Nyr + k) in
      Ser.NonLinearCell m Vel Other sel i k =
      SpecNonLinear beta1 beta2 (rd Vel curr) (rd Other curr) own_prev cross_prev) /\
  (forall (m : Ser.Model K) (Vel Other : list K) (i k : nat),
      let Nyr := Ser.GetNy m - 2 in
      let curr := i * Nyr + k in
      (i = 0 -> snd (fst (Ser.NonLinearCell m Vel Other true i k)) = zero /\
                snd (Ser.NonLinearCell m Vel Other false i k) = zero) /\
      (k = 0 -> snd (Ser.NonLinearCell m Vel Other true i k) = zero /\
                snd (fst (Ser.NonLinearCell m Vel Other false i k)) = zero)).
Proof.
  pose proof (@arith_ring K A L) as R.
  assert (Hc : forall x y z : K, mul (mul x y) z = mul (mul x z) y).
  { intros x y z. rewrite <- (Rmul_assoc R), (Rmul_comm R y z), (Rmul_assoc R). reflexivity. }
  split; [|split].
  - intros m st Vel Other sel c r Hcc Hr k t beta1 beta2 own_prev cross_prev.
    unfold SpecNonLinear, t, k.
    rewrite rd_Vel_Vel, rd_Vel_Other, rd_Vel_Vel_Minus_1, rd_Vel_Other_Minus_1 by assumption.
    unfold beta1, beta2, own_prev, cross_prev. destruct sel.
    + f_equal. apply Hc.
    + f_equal. apply Hc.
  - intros m Vel Other sel i k Hi Hk Nyr curr beta1 beta2 own_prev cross_prev.
    unfold SpecNonLinear, Ser.NonLinearCell. fold Nyr. fold curr.
    destruct (Nat.eqb_spec i 0); [lia|]. destruct (Nat.eqb_spec k 0); [lia|].
    unfold beta1, beta2, own_prev, cross_prev. destruct sel.
    + f_equal. apply Hc.
    + f_equal. apply Hc.
  - intros m Vel Other i k Nyr curr. unfold Ser.NonLinearCell. split.
    + intros ->. split; reflexivity.
    + intros ->. split; reflexivity.
Qed.

Lemma C7_nonlinear_coefficients_witness :
  0 < Par.GetLocNxr Examples.m2 /\ 1 < Par.GetLocNyr Examples.m2 /\
  (let t := Par.ComputeTerms Examples.m2
              (Par.SetCaches Examples.m2 Examples.st2 (Par.V Examples.st2) Examples.inc2)
              (Par.V Examples.st2) (Par.U Examples.st2) false in
   let k := 0 * Par.GetLocNyr Examples.m2 + 1 in
   (rd (Par.Vel_Vel t) k, rd (Par.Vel_Other t) k,
    rd (Par.Vel_Vel_Minus_1 t) k, rd (Par.Vel_Other_Minus_1 t) k))
  = (45%Z, 150%Z, 75%Z, 1400%Z).
Proof.
  split; [vm_compute; lia|]. split; [vm_compute; lia|].
  cbv zeta.
  rewrite (proj1 (C7_nonlinear_coefficients ArithLawsZ) Examples.m2
             (Par.SetCaches Examples.m2 Examples.st2 (Par.V Examples.st2) Examples.inc2)
             (Par.V Examples.st2) (Par.U Examples.st2) false 0 1
             ltac:(vm_compute; lia) ltac:(vm_compute; lia)).
  vm_compute. reflexivity.
Defined.

(** C8.  (The operator is built by [GenSymm], modelled from the spec.)  The
    second-derivative operators that [SetMatrixCoefficients] builds are
    [n x n] with [(-2.0*c)/pow(h, 2.0)] on the diagonal, [c/pow(h, 2.0)] on
    the two first off-diagonals and zero elsewhere, hence symmetric; [n] and
    [h] are [Nxr], [dx] for the x operator and [Nyr], [dy] for the y
    operator. *)
Theorem C8_second_derivative_operator (K : Type) (A : Arith K)
    (m : Par.Model K) (st : Par.Burgers2P K) :
  coeffs_allocated m st ->
  let st' := Par.SetMatrixCoefficients m st in
  let entry (h : K) (r c : nat) : K :=
    if r =? c then div (mul (opp two) (Par.GetC m)) (pow h two)
    else if (r =? c + 1) || (c =? r + 1) then div (Par.GetC m) (pow h two)
    else zero in
  (length (Par.dVel_dx_2_coeffs st') = Par.GetLocNxr m * Par.GetLocNxr m /\
   forall r c, r < Par.GetLocNxr m -> c < Par.GetLocNxr m ->
     at_cm (Par.dVel_dx_2_coeffs st') (Par.GetLocNxr m) r c = entry (Par.GetDx m) r c /\
     at_cm (Par.dVel_dx_2_coeffs st') (Par.GetLocNxr m) r c =
     at_cm (Par.dVel_dx_2_coeffs st') (Par.GetLocNxr m) c r) /\
  (length (Par.dVel_dy_2_coeffs st') = Par.GetLocNyr m * Par.GetLocNyr m /\
   forall r c, r < Par.GetLocNyr m -> c < Par.GetLocNyr m ->
     at_cm (Par.dVel_dy_2_coeffs st') (Par.GetLocNyr m) r c = entry (Par.GetDy m) r c /\
     at_cm (Par.dVel_dy_2_coeffs st') (Par.GetLocNyr m) r c =
     at_cm (Par.dVel_dy_2_coeffs st') (Par.GetLocNyr m) c r).
Proof.
  intros (H1 & H2 & _ & _) st' entry. unfold st', Par.SetMatrixCoefficients. cbv zeta.
  cbn [Par.dVel_dx_2_coeffs Par.dVel_dy_2_coeffs Par.set_coeffs].
  split.
  - split; [rewrite length_GenSymm; exact H1|].
    intros r c Hr Hc. rewrite !GenSymm_at by assumption.
    split; [reflexivity|apply symm_entry_sym].
  - split; [rewrite length_GenSymm; exact H2|].
    intros r c Hr Hc. rewrite !GenSymm_at by assumption.
    split; [reflexivity|apply symm_entry_sym].
Qed.

Lemma C8_second_derivative_operator_witness :
  coeffs_allocated Examples.g (Par.Burgers2P_new Examples.g) /\
  Par.dVel_dx_2_coeffs (Par.SetMatrixCoefficients Examples.g (Par.Burgers2P_new Examples.g)) =
    [-14;   7;   0;   0;
       7; -14;   7;   0;
       0;   7; -14;   7;
       0;   0;   7; -14]%Z /\
  at_cm (Par.dVel_dx_2_coeffs (Par.SetMatrixCoefficients Examples.g (Par.Burgers2P_new Examples.g)))
        (Par.GetLocNxr Examples.g) 2 1 =
  at_cm (Par.dVel_dx_2_coeffs (Par.SetMatrixCoefficients Examples.g (Par.Burgers2P_new Examples.g)))
        (Par.GetLocNxr Examples.g) 1 2.
Proof.
  assert (Hc : coeffs_allocated Examples.g (Par.Burgers2P_new Examples.g))
    by (unfold coeffs_allocated; repeat split; reflexivity).
  split; [exact Hc|]. split; [vm_compute; reflexivity|].
  destruct (@C8_second_derivative_operator Z ArithZ Examples.g (Par.Burgers2P_new Examples.g) Hc)
    as ((_ & Hx) & _).
  exact (proj2 (Hx 2 1 ltac:(vm_compute; lia) ltac:(vm_compute; lia))).
Defined.

(** C9.  After [SetInitialVelocity] the two components are the same array:
    at every cell [(i, j)] both hold the bump
    [2.0*pow(1.0-r, 4.0)*(4.0*r+1.0)] where [r <= 1.0] and [0.0] elsewhere,
    [r] being the distance of the cell's point from the origin.  This holds
    in the partitioned engine and in the single-process variant. *)
Theorem C9_initial_fields_identical (K : Type) (A : Arith K) :
  (forall (m : Par.Model K) (st : Par.Burgers2P K),
      length (Par.U st) = Par.GetLocNyr m * Par.GetLocNxr m ->
      length (Par.V st) = Par.GetLocNyr m * Par.GetLocNxr m ->
      let st' := Par.SetInitialVelocity m st in
      Par.U st' = Par.V st' /\
      forall i j, i < Par.GetLocNxr m -> j < Par.GetLocNyr m ->
        let x := add (add (Par.GetX0 m) (mul (of_int (Z.of_nat (Par.GetDisplX m) + 1)) (Par.GetDx m)))
                     (mul (of_int (Z.of_nat i)) (Par.GetDx m)) in
        let y := sub (sub (Par.GetY0 m) (mul (of_int (Z.of_nat (Par.GetDisplY m) + 1)) (Par.GetDy m)))
                     (mul (of_int (Z.of_nat j)) (Par.GetDy m)) in
        let r := pow (add (mul x x) (mul y y)) half in
        rd (Par.U st') (i * Par.GetLocNyr m + j) =
        (if leb r one then mul (mul two (pow (sub one r) four)) (add (mul four r) one) else zero)) /\
  (forall (m : Ser.Model K) (st : Ser.Burgers K),
      length (Ser.U st) = (Ser.GetNy m - 2) * (Ser.GetNx m - 2) ->
      length (Ser.V st) = (Ser.GetNy m - 2) * (Ser.GetNx m - 2) ->
      let st' := Ser.SetInitialVelocity m st in
      Ser.U st' = Ser.V st' /\
      forall i j, i < Ser.GetNx m - 2 -> j < Ser.GetNy m - 2 ->
        let x := add (Ser.GetX0 m) (mul (of_int (Z.of_nat i + 1)) (Ser.GetDx m)) in
        let y := sub (Ser.GetY0 m) (mul (of_int (Z.of_nat j + 1)) (Ser.GetDy m)) in
        let r := pow (add (mul x x) (mul y y)) half in
        rd (Ser.U st') (i * (Ser.GetNy m - 2) + j) =
        (if leb r one then mul (mul two (pow (sub one r) four)) (add (mul four r) one) else zero)).
Proof.
  split.
  - intros m st HU HV st'. unfold st', Par.SetInitialVelocity. cbv zeta.
    rewrite (@nested_store_pair _ _ (Par.GetLocNxr m) (Par.GetLocNyr m)
               (fun i j =>
                  Par.bump (Par.ComputeR
                    (add (add (Par.GetX0 m) (mul (of_int (Z.of_nat (Par.GetDisplX m) + 1)) (Par.GetDx m)))
                         (mul (of_int (Z.of_nat i)) (Par.GetDx m)))
                    (sub (sub (Par.GetY0 m) (mul (of_int (Z.of_nat (Par.GetDisplY m) + 1)) (Par.GetDy m)))
                         (mul (of_int (Z.of_nat j)) (Par.GetDy m)))))
               (Par.U st) (Par.V st) HU HV).
    cbn [fst snd Par.U Par.V Par.set_UV]. split; [reflexivity|].
    intros i j Hi Hj. rewrite rd_tabulate by (rewrite Nat.add_comm; apply cm_lt; assumption).
    rewrite (Nat.add_comm (i * Par.GetLocNyr m) j), cm_mod, cm_div by exact Hj.
    reflexivity.
  - intros m st HU HV st'. unfold st', Ser.SetInitialVelocity. cbv zeta.
    rewrite (@nested_store_pair _ _ (Ser.GetNx m - 2) (Ser.GetNy m - 2)
               (fun i j =>
                  Par.bump (pow
                    (add (mul (add (Ser.GetX0 m) (mul (of_int (Z.of_nat i + 1)) (Ser.GetDx m)))
                              (add (Ser.GetX0 m) (mul (of_int (Z.of_nat i + 1)) (Ser.GetDx m))))
                         (mul (sub (Ser.GetY0 m) (mul (of_int (Z.of_nat j + 1)) (Ser.GetDy m)))
                              (sub (Ser.GetY0 m) (mul (of_int (Z.of_nat j + 1)) (Ser.GetDy m)))))
                    half))
               (Ser.U st) (Ser.V st) HU HV).
    cbn [fst snd Ser.U Ser.V]. split; [reflexivity|].
    intros i j Hi Hj. rewrite rd_tabulate by (rewrite Nat.add_comm; apply cm_lt; assumption).
    rewrite (Nat.add_comm (i * (Ser.GetNy m - 2)) j), cm_mod, cm_div by exact Hj.
    reflexivity.
Qed.

Lemma C9_initial_fields_identical_witness :
  length (Par.U FieldExample.st) = Par.GetLocNyr FieldExample.m * Par.GetLocNxr FieldExample.m /\
  length (Par.V FieldExample.st) = Par.GetLocNyr FieldExample.m * Par.GetLocNxr FieldExample.m /\
  Par.U (Par.SetInitialVelocity FieldExample.m FieldExample.st) =
  Par.V (Par.SetInitialVelocity FieldExample.m FieldExample.st) /\
  this (rd (Par.U (Par.SetInitialVelocity FieldExample.m FieldExample.st))
           (0 * Par.GetLocNyr FieldExample.m + 0)) = (3 # 8)%Q.
Proof.
  split; [reflexivity|]. split; [reflexivity|].
  destruct (proj1 (C9_initial_fields_identical ArithQc) FieldExample.m FieldExample.st
              eq_refl eq_refl) as (HUV & Hcell).
  split; [exact HUV|].
  rewrite (Hcell 0 0 ltac:(vm_compute; lia) ltac:(vm_compute; lia)).
  vm_compute. reflexivity.
Defined.

(** ** The first variant: bounds of the initial field, energy, parameters *)

(** C10.  With the extents [Nx = Ny = 10] that [SetNumerics] sets, the
    first iterate [(0, 0)] of [Burgers::SetInitialVelocity] of the first
    variant writes [U0[-9]] and the last iterate [(9, 9)] writes [U0[72]],
    outside the block of [8*8 = 64] cells: the loops run over [Nx] and [Ny]
    where the block has [Nx - 2] and [Ny - 2] columns and rows.  The claim
    that every write is in bounds fails on the code. *)
Theorem C10_initial_write_out_of_bounds (K : Type) (A : Arith K) (m0 : Root.Model K) :
  let m := Root.SetNumerics m0 in
  Root.U0_index m 0 0 = (-9)%Z /\
  Root.U0_index m 9 9 = 72%Z /\
  length (alloc (Z.to_nat ((Root.Ny m - 2) * (Root.Nx m - 2))) : list K) = 64 /\
  Root.SetInitialVelocity m = None.
Proof.
  cbv zeta. split; [reflexivity|]. split; [reflexivity|]. split; [reflexivity|].
  vm_compute. reflexivity.
Qed.

(** For any extents of at least three the first write is below the block. *)
Lemma U0_index_first_negative (K : Type) (A : Arith K) (m : Root.Model K) :
  (3 <= Root.Ny m)%Z -> (Root.U0_index m 0 0 < 0)%Z.
Proof. intros H. unfold Root.U0_index. lia. Qed.

(** The sibling loops of the two later variants stay inside the block. *)
Lemma later_variants_index_in_bounds (Nxr Nyr i j : nat) :
  i < Nxr -> j < Nyr -> i * Nyr + j < Nyr * Nxr.
Proof. intros. rewrite Nat.add_comm. apply cm_lt; assumption. Qed.

Lemma ddot_self (K : Type) (A : Arith K) (n : nat) (x : list K) :
  ddot n x 1 x 1 = sum_upto n (fun k => mul (rd x k) (rd x k)).
Proof.
  unfold ddot. induction n as [|n IH]; simpl; [reflexivity|].
  rewrite IH, Nat.mul_1_r. reflexivity.
Qed.

(** In the partitioned engine every worker receives the sum of the local
    energies of all workers. *)
Lemma Par_energy_is_global_sum (K : Type) (A : Arith K)
    (P : nat) (models : nat -> Par.Model K) (w : nat -> Par.Burgers2P K) (r : nat) :
  Par.E (World.SetEnergy P models w r) =
  sum_upto P (fun q =>
    SpecLocalEnergy (Par.GetLocNyr (models q) * Par.GetLocNxr (models q))
      (Par.GetDx (models q)) (Par.GetDy (models q)) (Par.U (w q)) (Par.V (w q))).
Proof.
  unfold World.SetEnergy, World.CalculateEnergyState, World.MPI_Allreduce_SUM.
  cbn [Par.E Par.set_E]. unfold Par.LocalEnergyState, SpecLocalEnergy.
  induction P as [|P IH]; simpl; [reflexivity|].
  rewrite IH, !ddot_self. reflexivity.
Qed.

(** So does the single process of the second variant, as the only worker. *)
Lemma Ser_energy_is_local_energy (K : Type) (A : Arith K) (m : Ser.Model K) (st : Ser.Burgers K) :
  Ser.E (Ser.SetEnergy m st) =
  SpecLocalEnergy ((Ser.GetNy m - 2) * (Ser.GetNx m - 2)) (Ser.GetDx m) (Ser.GetDy m)
    (Ser.U st) (Ser.V st).
Proof.
  unfold Ser.SetEnergy, SpecLocalEnergy. cbn [Ser.E]. rewrite !ddot_self. reflexivity.
Qed.

(** The first variant leaves the cell area out. *)
Lemma Root_energy_without_cell_area (K : Type) (A : Arith K) (m : Root.Model K) (Uk Vk : list K) :
  let n := Z.to_nat (Root.Ny m - 2) * Z.to_nat (Root.Nx m - 2) in
  Root.EnergyAt m Uk Vk =
  mul half (add (sum_upto n (fun k => mul (rd Uk k) (rd Uk k)))
                (sum_upto n (fun k => mul (rd Vk k) (rd Vk k)))).
Proof. cbv zeta. unfold Root.EnergyAt. rewrite !ddot_self. reflexivity. Qed.

(** C4.  On the failing input the first variant records the energy [64],
    where the claimed value [0.5*(U.U + V.V)*dx*dy] is [16/25]:
    [Burgers::SetEnergy] of [src/Burgers.cpp] omits the factor [dx*dy] that
    the two later variants apply. *)
Theorem C4_first_variant_energy_omits_cell_area :
  this (Root.EnergyAt EnergyExample.m EnergyExample.ones EnergyExample.ones) = 64%Q /\
  this (SpecLocalEnergy 64 (Root.dx EnergyExample.m) (Root.dy EnergyExample.m)
          EnergyExample.ones EnergyExample.ones) = (16 # 25)%Q /\
  Root.EnergyAt EnergyExample.m EnergyExample.ones EnergyExample.ones <>
  SpecLocalEnergy 64 (Root.dx EnergyExample.m) (Root.dy EnergyExample.m)
    EnergyExample.ones EnergyExample.ones.
Proof.
  split; [vm_compute; reflexivity|]. split; [vm_compute; reflexivity|].
  intros H. apply (f_equal this) in H. vm_compute in H. discriminate H.
Qed.

(** ** Run parameters: [src/Model.cpp] *)

(** C3, as stated, fails: with [ax = -1] the constructor prints its warning
    and returns; nothing aborts the run, and the numerics are left unset. *)
Lemma C3_counterexample :
  ~ (misconfigured ModelExample.atof 8 ModelExample.argv ->
     Root.aborts (Root.Model_new ModelExample.atof "Illegal argument"
                    ModelExample.m0 8 ModelExample.argv) = true).
Proof.
  intros H.
  assert (Hm : misconfigured ModelExample.atof 8 ModelExample.argv).
  { right. exists 1. split; [lia|]. reflexivity. }
  specialize (H Hm). vm_compute in H. discriminate H.
Qed.

Lemma IsValid_false_of_negative (K : Type) (A : Arith K) (atof : string -> K)
    (m0 : Root.Model K) (argv : list string) (m : Root.Model K) (out : list string) :
  (exists i, 1 <= i <= 7 /\ leb zero (atof (Root.argv_at argv i)) = false) ->
  Root.ParseParameters atof "" m0 8 argv = Root.Ok (m, out) ->
  Root.IsValid m = false.
Proof.
  intros (i & Hi & Hneg) HP. unfold Root.ParseParameters in HP. simpl in HP.
  injection HP as Hm _. subst m. unfold Root.IsValid. cbn [Root.ax Root.ay Root.b Root.c Root.Lx Root.Ly Root.T].
  assert (Hcases : i = 1 \/ i = 2 \/ i = 3 \/ i = 4 \/ i = 5 \/ i = 6 \/ i = 7) by lia.
  destruct Hcases as [->|[->|[->|[->|[->|[->| ->]]]]]]; rewrite Hneg;
    rewrite ?andb_false_r; reflexivity.
Qed.

(** C3, amended.  A misconfigured run is reported during construction,
    before any stepping, and the constructor returns: with the right
    argument count and a parameter below zero it prints the warning and
    leaves the numerics ([Nx], [Ny], [Nt], [dx], [dy], [dt], [x0], [y0])
    unset; with a wrong argument count it prints the message of the
    exception it catches.  In neither case does it abort the run. *)
Theorem C3_misconfiguration_reported_not_aborted (K : Type) (A : Arith K)
    (atof : string -> K) (what : string) (m0 : Root.Model K) (argc : Z) (argv : list string) :
  misconfigured atof argc argv ->
  Root.aborts (Root.Model_new atof what m0 argc argv) = false /\
  (argc = 8%Z ->
     exists m, Root.Model_new atof what m0 argc argv =
               Root.Ok (m, ["Parameters saved successfully.";
                            "WARN: Parameter values have to be (>=0)"]%string) /\
               Root.numerics_unset m0 m) /\
  (argc <> 8%Z ->
     exists m out, Root.Model_new atof what m0 argc argv = Root.Ok (m, (what :: out)%list)).
Proof.
  intros Hmis. split; [|split].
  - unfold Root.Model_new.
    destruct (Root.ParseParameters atof what m0 argc argv) as [[m1 out1]|w];
      destruct (Root.ValidateParameters _); reflexivity.
  - intros ->. destruct Hmis as [Hne|Hneg]; [congruence|].
    unfold Root.Model_new, Root.ParseParameters. simpl.
    unfold Root.ValidateParameters.
    match goal with
    | |- context [Root.IsValid ?m] =>
        assert (Hv : Root.IsValid m = false)
          by (apply (@IsValid_false_of_negative K A atof m0 argv m
                       ["Parameters saved successfully."%string] Hneg); reflexivity)
    end.
    rewrite Hv. simpl. eexists. split; [reflexivity|].
    unfold Root.numerics_unset. simpl. repeat split.
  - intros Hne. unfold Root.Model_new, Root.ParseParameters.
    destruct (Z.eqb_spec argc 8); [congruence|].
    destruct (Root.ValidateParameters m0) as [m2 out2].
    exists m2, out2. reflexivity.
Qed.

Lemma C3_misconfiguration_reported_not_aborted_witness :
  misconfigured ModelExample.atof 8 ModelExample.argv /\
  Root.aborts (Root.Model_new ModelExample.atof "Illegal argument"
                 ModelExample.m0 8 ModelExample.argv) = false.
Proof.
  assert (Hm : misconfigured ModelExample.atof 8 ModelExample.argv).
  { right. exists 1. split; [lia|]. reflexivity. }
  split; [exact Hm|].
  exact (proj1 (@C3_misconfiguration_reported_not_aborted Z ArithZ ModelExample.atof
                  "Illegal argument" ModelExample.m0 8 ModelExample.argv Hm)).
Defined.

(** What the constructor leaves on the example. *)
Example C3_example_run :
  Root.Model_new ModelExample.atof "Illegal argument" ModelExample.m0 8 ModelExample.argv =
  Root.Ok ({| Root.ax := (-1)%Z; Root.ay := 1%Z; Root.b := 1%Z; Root.c := 1%Z;
              Root.Lx := 1%Z; Root.Ly := 1%Z; Root.T := 1%Z;
              Root.Nx := 0%Z; Root.Ny := 0%Z; Root.Nt := 0%Z;
              Root.dx := 0%Z; Root.dy := 0%Z; Root.dt := 0%Z;
              Root.x0 := 0%Z; Root.y0 := 0%Z |},
           ["Parameters saved successfully.";
            "WARN: Parameter values have to be (>=0)"]%string).
Proof. vm_compute. reflexivity. Qed.

(** * Further properties of the sources *)

(** ** Run parameters: [src/Model.cpp] *)

(** With eight arguments whose seven parsed values all pass the test
    [>= 0], the constructor stores the values, prints only the message of
    [ParseParameters] and runs [SetNumerics]: the grid has [10 x 10] points
    and [10] time levels, the spacings are the extents over [10], and the
    origin of the axes is the centre of the domain. *)
Theorem Model_new_valid_arguments (K : Type) (A : Arith K)
    (atof : string -> K) (what : string) (m0 : Root.Model K) (argv : list string) :
  (forall i, 1 <= i <= 7 -> leb zero (atof (Root.argv_at argv i)) = true) ->
  exists m,
    Root.Model_new atof what m0 8 argv = Root.Ok (m, ["Parameters saved successfully."%string]) /\
    (Root.ax m = atof (Root.argv_at argv 1) /\ Root.ay m = atof (Root.argv_at argv 2) /\
     Root.b m = atof (Root.argv_at argv 3) /\ Root.c m = atof (Root.argv_at argv 4) /\
     Root.Lx m = atof (Root.argv_at argv 5) /\ Root.Ly m = atof (Root.argv_at argv 6) /\
     Root.T m = atof (Root.argv_at argv 7)) /\
    (Root.Nx m = 10%Z /\ Root.Ny m = 10%Z /\ Root.Nt m = 10%Z) /\
    (Root.dx m = div (Root.Lx m) (of_int 10) /\ Root.dy m = div (Root.Ly m) (of_int 10) /\
     Root.dt m = div (Root.T m) (of_int 10)) /\
    (Root.x0 m = div (opp (Root.Lx m)) two /\ Root.y0 m = div (Root.Ly m) two).
Proof.
  intros Hge.
  unfold Root.Model_new, Root.ParseParameters. simpl.
  unfold Root.ValidateParameters, Root.IsValid.
  cbn [Root.ax Root.ay Root.b Root.c Root.Lx Root.Ly Root.T].
  rewrite !Hge by lia. simpl.
  eexists. split; [reflexivity|]. simpl. repeat split.
Qed.

Lemma Model_new_valid_arguments_witness :
  (forall i, 1 <= i <= 7 ->
     leb zero (ModelExample.atof (Root.argv_at ["./burgers"; "1"; "1"; "1"; "1"; "1"; "1"; "1"]%string i))
     = true) /\
  exists m,
    Root.Model_new ModelExample.atof "Illegal argument" ModelExample.m0 8
      ["./burgers"; "1"; "1"; "1"; "1"; "1"; "1"; "1"]%string
    = Root.Ok (m, ["Parameters saved successfully."%string]) /\
    Root.Nx m = 10%Z.
Proof.
  assert (H : forall i, 1 <= i <= 7 ->
     leb zero (ModelExample.atof (Root.argv_at ["./burgers"; "1"; "1"; "1"; "1"; "1"; "1"; "1"]%string i))
     = true).
  { intros i Hi.
    assert (Hc : i = 1 \/ i = 2 \/ i = 3 \/ i = 4 \/ i = 5 \/ i = 6 \/ i = 7) by lia.
    destruct Hc as [->|[->|[->|[->|[->|[->| ->]]]]]]; reflexivity. }
  split; [exact H|].
  destruct (@Model_new_valid_arguments Z ArithZ ModelExample.atof "Illegal argument"
              ModelExample.m0 _ H) as (m & Hm & _ & (HNx & _) & _).
  exists m. split; [exact Hm|exact HNx].
Defined.

(** With an argument count other than eight nothing is parsed: what the
    constructor returns does not depend on the arguments, and validation
    runs on the members as they were before construction.  If these happen
    to pass the test [>= 0], [SetNumerics] runs on them and no warning is
    printed: the only output is the message of the exception. *)
Theorem Model_new_wrong_count_validates_unassigned (K : Type) (A : Arith K)
    (atof : string -> K) (what : string) (m0 : Root.Model K) (argc : Z) (argv : list string) :
  argc <> 8%Z ->
  Root.Model_new atof what m0 argc argv =
    Root.Ok (fst (Root.ValidateParameters m0), what :: snd (Root.ValidateParameters m0)) /\
  (Root.IsValid m0 = true ->
     Root.Model_new atof what m0 argc argv = Root.Ok (Root.SetNumerics m0, [what])) /\
  (Root.IsValid m0 = false ->
     Root.Model_new atof what m0 argc argv =
       Root.Ok (m0, [what; "WARN: Parameter values have to be (>=0)"%string])).
Proof.
  intros Hne. unfold Root.Model_new, Root.ParseParameters.
  destruct (Z.eqb_spec argc 8) as [E|_]; [congruence|].
  unfold Root.ValidateParameters.
  split; [|split].
  - destruct (negb (Root.IsValid m0)); reflexivity.
  - intros ->. reflexivity.
  - intros ->. reflexivity.
Qed.

Lemma Model_new_wrong_count_validates_unassigned_witness :
  3%Z <> 8%Z /\
  Root.Model_new ModelExample.atof "Illegal argument" ModelExample.m0 3
    ["./burgers"; "-1"; "1"]%string
  = Root.Ok (Root.SetNumerics ModelExample.m0, ["Illegal argument"%string]).
Proof.
  split; [discriminate|].
  exact (proj1 (proj2 (@Model_new_wrong_count_validates_unassigned Z ArithZ ModelExample.atof
                         "Illegal argument" ModelExample.m0 3
                         ["./burgers"; "-1"; "1"]%string ltac:(discriminate))) eq_refl).
Defined.

(** Over the rationals, [SetNumerics] centres the domain on the origin and
    makes the [Nx], [Ny], [Nt] steps span the extents: [x0 + Nx*dx = -x0],
    [y0 - Ny*dy = -y0], [Nx*dx = Lx], [Ny*dy = Ly] and [Nt*dt = T]. *)
Theorem SetNumerics_spans_centred_domain (m0 : Root.Model Qc) :
  let m := Root.SetNumerics m0 in
  add (Root.x0 m) (mul (of_int (Root.Nx m)) (Root.dx m)) = opp (Root.x0 m) /\
  sub (Root.y0 m) (mul (of_int (Root.Ny m)) (Root.dy m)) = opp (Root.y0 m) /\
  mul (of_int (Root.Nx m)) (Root.dx m) = Root.Lx m0 /\
  mul (of_int (Root.Ny m)) (Root.dy m) = Root.Ly m0 /\
  mul (of_int (Root.Nt m)) (Root.dt m) = Root.T m0.
Proof.
  cbv zeta. unfold Root.SetNumerics. cbv zeta.
  cbn [Root.x0 Root.y0 Root.dx Root.dy Root.dt Root.Nx Root.Ny Root.Nt Root.Lx Root.Ly Root.T].
  unfold two. simpl add. simpl mul. simpl sub. simpl opp. simpl div. simpl of_int. simpl one.
  assert (H10 : Q2Qc (inject_Z 10) <> Q2Qc 0) by (intros H; apply (f_equal this) in H; discriminate H).
  assert (H2 : Qcplus (Q2Qc 1) (Q2Qc 1) <> Q2Qc 0)
    by (intros H; apply (f_equal this) in H; discriminate H).
  repeat split; field; auto.
Qed.

(** ** The first variant: [src/Burgers.cpp] *)

(** A state that every iteration leaves as it is, is left as it is by the loop. *)
Lemma for_loop_fixed {St : Type} (body : nat -> St -> St) (s : St) (n : nat) :
  (forall i, body i s = s) -> for_loop n body s = s.
Proof.
  intros H. induction n as [|n IH]; simpl; [reflexivity|]. rewrite IH. apply H.
Qed.

(** Wherever the allocation of the first variant succeeds on a grid of
    at least two points each way, the call still does not complete: the
    block of [(Ny-2)*(Nx-2)] cells is allocated, and the first iterate
    [(0, 0)] of the loops stores at the index [1 - Ny], which is negative,
    so that the store is outside the block whatever its size.  (With
    [Nx = 1] and [Ny >= 3] the size is negative and [new] throws before
    the loops start.) *)
Theorem Root_SetInitialVelocity_never_in_bounds (K : Type) (A : Arith K) (m : Root.Model K) :
  (2 <= Root.Nx m)%Z -> (2 <= Root.Ny m)%Z ->
  Root.U0_alloc m = Some (alloc (Z.to_nat ((Root.Ny m - 2) * (Root.Nx m - 2)))) /\
  Root.U0_index m 0 0 = (1 - Root.Ny m)%Z /\
  (forall (a : list K) (v : K), Root.store a (Root.U0_index m 0 0) v = None) /\
  Root.SetInitialVelocity m = None.
Proof.
  intros HNx HNy.
  assert (Ha : Root.U0_alloc m = Some (alloc (Z.to_nat ((Root.Ny m - 2) * (Root.Nx m - 2))))).
  { unfold Root.U0_alloc. cbv zeta.
    destruct (Z.ltb_spec ((Root.Ny m - 2) * (Root.Nx m - 2)) 0); [nia|reflexivity]. }
  assert (Hs : forall (a : list K) (v : K), Root.store a (Root.U0_index m 0 0) v = None).
  { intros a v. unfold Root.store.
    replace ((0 <=? Root.U0_index m 0 0)%Z) with false; [reflexivity|].
    symmetry. apply Z.leb_gt. unfold Root.U0_index. lia. }
  split; [exact Ha|]. split; [unfold Root.U0_index; lia|]. split; [exact Hs|].
  unfold Root.SetInitialVelocity. rewrite Ha.
  destruct (Z.to_nat (Root.Nx m)) as [|nx] eqn:Ex; [lia|].
  destruct (Z.to_nat (Root.Ny m)) as [|ny] eqn:Ey; [lia|].
  set (a0 := alloc (Z.to_nat ((Root.Ny m - 2) * (Root.Nx m - 2)))).
  set (body := fun (i : nat) (j : nat) (u' : option (list K)) =>
                  match u' with
                  | Some a => Root.store a (Root.U0_index m (Z.of_nat i) (Z.of_nat j))
                                         (Root.U0_value m (Z.of_nat i) (Z.of_nat j))
                  | None => None
                  end).
  change (for_loop (S nx) (fun i u => for_loop (S ny) (body i) u) (Some a0) = None).
  assert (Hnone : forall i n, for_loop n (body i) None = None)
    by (intros i n; apply for_loop_fixed; reflexivity).
  assert (H0 : for_loop (S ny) (body 0) (Some a0) = None).
  { clear Ey. induction ny as [|k IHk].
    - cbn [for_loop]. unfold body. apply Hs.
    - change (for_loop (S (S k)) (body 0) (Some a0))
        with (body 0 (S k) (for_loop (S k) (body 0) (Some a0))).
      rewrite IHk. reflexivity. }
  clear Ex. induction nx as [|nx IH].
  - cbn [for_loop] in *. exact H0.
  - change (for_loop (S (S nx)) (fun i u => for_loop (S ny) (body i) u) (Some a0))
      with (for_loop (S ny) (body (S nx))
              (for_loop (S nx) (fun i u => for_loop (S ny) (body i) u) (Some a0))).
    rewrite IH. apply Hnone.
Qed.

Lemma Root_SetInitialVelocity_never_in_bounds_witness :
  (2 <= Root.Nx Examples.root_m)%Z /\ (2 <= Root.Ny Examples.root_m)%Z /\
  Root.U0_alloc Examples.root_m = Some (alloc 64) /\
  Root.U0_index Examples.root_m 0 0 = (-9)%Z /\
  Root.SetInitialVelocity Examples.root_m = None.
Proof.
  split; [vm_compute; discriminate|]. split; [vm_compute; discriminate|].
  destruct (@Root_SetInitialVelocity_never_in_bounds Z ArithZ Examples.root_m
              ltac:(vm_compute; discriminate) ltac:(vm_compute; discriminate))
    as (Ha & Hi & _ & Hn).
  split; [exact Ha|]. split; [exact Hi|exact Hn].
Defined.

(** Reading an array of buffers after a write. *)
Lemma nth_upd_eq {T : Type} (a : list T) (i : nat) (v d : T) :
  i < length a -> nth i (upd a i v) d = v.
Proof.
  revert i. induction a as [|h t IH]; intros i Hi; simpl in *; [lia|].
  destruct i; simpl; [reflexivity|]. apply IH. lia.
Qed.

Lemma nth_upd_neq {T : Type} (a : list T) (i j : nat) (v d : T) :
  i <> j -> nth j (upd a i v) d = nth j a d.
Proof.
  revert i j. induction a as [|h t IH]; intros i j Hne; simpl; [reflexivity|].
  destruct i; destruct j; simpl; try reflexivity; try lia. apply IH. lia.
Qed.

Lemma length_upd_any {T : Type} (a : list T) (i : nat) (v : T) : length (upd a i v) = length a.
Proof.
  revert i. induction a as [|h t IH]; intros i; simpl; [reflexivity|].
  destruct i; simpl; [reflexivity|]. rewrite IH. reflexivity.
Qed.

Section RootHistory.
Context {K : Type} {A : Arith K}.

(** The state of the time loop of the first variant after [n] iterations. *)
Lemma Root_history_inv (m : Root.Model K) (U0 : list K) (n : nat) :
  let nt := Z.to_nat (Root.Nt m) in
  let cf := Root.SetMatrixCoefficients m in
  let UV := for_loop n (fun k UV =>
              let U1 := upd (fst UV) (k + 1)
                          (Root.NextVelocityState m cf (nth k (fst UV) []) (nth k (snd UV) []) true) in
              let V1 := upd (snd UV) (k + 1)
                          (Root.NextVelocityState m cf (nth k U1 []) (nth k (snd UV) []) false) in
              (U1, V1)) (upd (repeat [] nt) 0 U0, upd (repeat [] nt) 0 U0) in
  1 <= nt -> n + 1 <= nt ->
  length (fst UV) = nt /\ length (snd UV) = nt /\
  nth 0 (fst UV) [] = U0 /\ nth 0 (snd UV) [] = U0 /\
  forall k, k < n ->
    nth (k + 1) (fst UV) [] =
      Root.NextVelocityState m cf (nth k (fst UV) []) (nth k (snd UV) []) true /\
    nth (k + 1) (snd UV) [] =
      Root.NextVelocityState m cf (nth k (fst UV) []) (nth k (snd UV) []) false.
Proof.
  cbv zeta. intros Hnt. induction n as [|n IH]; intros Hn.
  - cbn [for_loop fst snd]. rewrite !length_upd_any, repeat_length.
    rewrite !nth_upd_eq by (rewrite repeat_length; lia).
    split; [reflexivity|]. split; [reflexivity|]. split; [reflexivity|]. split; [reflexivity|].
    intros k Hk. lia.
  - destruct IH as (HlU & HlV & HU0 & HV0 & Hlev); [lia|].
    cbn [for_loop].
    set (UV := for_loop n _ _) in *.
    cbn [fst snd]. rewrite !length_upd_any.
    rewrite !(@nth_upd_neq _ _ (n + 1) 0) by lia.
    rewrite (@nth_upd_neq _ (fst UV) (n + 1) n) by lia.
    split; [exact HlU|]. split; [exact HlV|]. split; [exact HU0|]. split; [exact HV0|].
    intros k Hk. destruct (Nat.eq_dec k n) as [->|Hne].
    + rewrite !nth_upd_eq by lia.
      rewrite !(@nth_upd_neq _ _ (n + 1) n) by lia. split; reflexivity.
    + rewrite !(@nth_upd_neq _ _ (n + 1) (k + 1)) by lia.
      rewrite !(@nth_upd_neq _ _ (n + 1) k) by lia.
      apply Hlev. lia.
Qed.

End RootHistory.

(** The first variant keeps every time level: after
    [SetIntegratedVelocity] the arrays [U] and [V] hold [Nt] levels, level
    [0] of both is the initial buffer [U0], and every later level of either
    component is [NextVelocityState] of the two components at the level
    before, so that both are advanced from the same time level.  [SetEnergy]
    then stores for every level the energy of that level. *)
Theorem Root_history_records_every_level (K : Type) (A : Arith K)
    (m : Root.Model K) (U0 : list K) :
  (1 <= Root.Nt m)%Z ->
  let nt := Z.to_nat (Root.Nt m) in
  let cf := Root.SetMatrixCoefficients m in
  let U := fst (Root.SetIntegratedVelocity m U0) in
  let V := snd (Root.SetIntegratedVelocity m U0) in
  length U = nt /\ length V = nt /\
  nth 0 U [] = U0 /\ nth 0 V [] = U0 /\
  (forall k, k + 1 < nt ->
     nth (k + 1) U [] = Root.NextVelocityState m cf (nth k U []) (nth k V []) true /\
     nth (k + 1) V [] = Root.NextVelocityState m cf (nth k U []) (nth k V []) false) /\
  (forall k, k < nt ->
     rd (Root.SetEnergy m U V) k = Root.EnergyAt m (nth k U []) (nth k V [])).
Proof.
  intros HNt. cbv zeta. unfold Root.SetIntegratedVelocity. cbv zeta.
  assert (Hnt : 1 <= Z.to_nat (Root.Nt m)) by lia.
  destruct (@Root_history_inv K A m U0 (Z.to_nat (Root.Nt m) - 1) Hnt ltac:(lia))
    as (HlU & HlV & HU0 & HV0 & Hlev).
  split; [exact HlU|]. split; [exact HlV|]. split; [exact HU0|]. split; [exact HV0|].
  split.
  - intros k Hk. apply Hlev. lia.
  - intros k Hk. unfold Root.SetEnergy. cbv zeta.
    set (U := fst _). set (V := snd _).
    change (for_loop (Z.to_nat (Root.Nt m))
              (fun k0 E => upd E k0 (Root.EnergyAt m (nth k0 U []) (nth k0 V [])))
              (alloc (Z.to_nat (Root.Nt m))))
      with (store_loop (Z.to_nat (Root.Nt m)) (fun k0 => k0)
              (fun k0 => Root.EnergyAt m (nth k0 U []) (nth k0 V []))
              (alloc (Z.to_nat (Root.Nt m)))).
    rewrite store_loop_id by apply length_alloc.
    rewrite rd_tabulate by exact Hk. reflexivity.
Qed.

Lemma Root_history_records_every_level_witness :
  (1 <= Root.Nt Examples.root_m)%Z /\
  nth (0 + 1) (fst (Root.SetIntegratedVelocity Examples.root_m Examples.root_U)) [] =
    Root.NextVelocityState Examples.root_m (Root.SetMatrixCoefficients Examples.root_m)
      Examples.root_U Examples.root_U true /\
  rd (Root.SetEnergy Examples.root_m
        (fst (Root.SetIntegratedVelocity Examples.root_m Examples.root_U))
        (snd (Root.SetIntegratedVelocity Examples.root_m Examples.root_U))) 0 = 0%Z.
Proof.
  split; [vm_compute; discriminate|].
  destruct (@Root_history_records_every_level Z ArithZ Examples.root_m Examples.root_U
              ltac:(vm_compute; discriminate)) as (_ & _ & HU0 & HV0 & Hlev & HE).
  split.
  - rewrite (proj1 (Hlev 0 ltac:(vm_compute; lia))). rewrite HU0, HV0. reflexivity.
  - rewrite (HE 0 ltac:(vm_compute; lia)). rewrite HU0, HV0. vm_compute. reflexivity.
Defined.

(** ** The initial field in the three variants *)

Section InitialCells.
Context {K : Type} {A : Arith K}.

(** The cell values that the loops of [SetInitialVelocity] leave. *)
Lemma Par_SetInitialVelocity_cells (m : Par.Model K) (st : Par.Burgers2P K) :
  length (Par.U st) = Par.GetLocNyr m * Par.GetLocNxr m ->
  length (Par.V st) = Par.GetLocNyr m * Par.GetLocNxr m ->
  Par.U (Par.SetInitialVelocity m st) =
  tabulate (Par.GetLocNyr m * Par.GetLocNxr m)
    (fun idx =>
       Par.bump (Par.ComputeR
         (add (add (Par.GetX0 m) (mul (of_int (Z.of_nat (Par.GetDisplX m) + 1)) (Par.GetDx m)))
              (mul (of_int (Z.of_nat (idx / Par.GetLocNyr m))) (Par.GetDx m)))
         (sub (sub (Par.GetY0 m) (mul (of_int (Z.of_nat (Par.GetDisplY m) + 1)) (Par.GetDy m)))
              (mul (of_int (Z.of_nat (idx mod Par.GetLocNyr m))) (Par.GetDy m))))).
Proof.
  intros HU HV. unfold Par.SetInitialVelocity. cbv zeta.
  rewrite (@nested_store_pair _ _ (Par.GetLocNxr m) (Par.GetLocNyr m)
             (fun i j =>
                Par.bump (Par.ComputeR
                  (add (add (Par.GetX0 m) (mul (of_int (Z.of_nat (Par.GetDisplX m) + 1)) (Par.GetDx m)))
                       (mul (of_int (Z.of_nat i)) (Par.GetDx m)))
                  (sub (sub (Par.GetY0 m) (mul (of_int (Z.of_nat (Par.GetDisplY m) + 1)) (Par.GetDy m)))
                       (mul (of_int (Z.of_nat j)) (Par.GetDy m)))))
             (Par.U st) (Par.V st) HU HV).
  reflexivity.
Qed.

Lemma Par_SetInitialVelocity_same (m : Par.Model K) (st : Par.Burgers2P K) :
  length (Par.U st) = Par.GetLocNyr m * Par.GetLocNxr m ->
  length (Par.V st) = Par.GetLocNyr m * Par.GetLocNxr m ->
  Par.V (Par.SetInitialVelocity m st) = Par.U (Par.SetInitialVelocity m st).
Proof.
  intros HU HV. unfold Par.SetInitialVelocity. cbv zeta. cbn [Par.U Par.V Par.set_UV].
  rewrite (@nested_store_pair _ _ (Par.GetLocNxr m) (Par.GetLocNyr m)
             (fun i j =>
                Par.bump (Par.ComputeR
                  (add (add (Par.GetX0 m) (mul (of_int (Z.of_nat (Par.GetDisplX m) + 1)) (Par.GetDx m)))
                       (mul (of_int (Z.of_nat i)) (Par.GetDx m)))
                  (sub (sub (Par.GetY0 m) (mul (of_int (Z.of_nat (Par.GetDisplY m) + 1)) (Par.GetDy m)))
                       (mul (of_int (Z.of_nat j)) (Par.GetDy m)))))
             (Par.U st) (Par.V st) HU HV).
  reflexivity.
Qed.

Lemma Ser_SetInitialVelocity_cells (m : Ser.Model K) (st : Ser.Burgers K) :
  length (Ser.U st) = (Ser.GetNy m - 2) * (Ser.GetNx m - 2) ->
  length (Ser.V st) = (Ser.GetNy m - 2) * (Ser.GetNx m - 2) ->
  Ser.U (Ser.SetInitialVelocity m st) =
  tabulate ((Ser.GetNy m - 2) * (Ser.GetNx m - 2))
    (fun idx =>
       Par.bump (Par.ComputeR
         (add (Ser.GetX0 m) (mul (of_int (Z.of_nat (idx / (Ser.GetNy m - 2)) + 1)) (Ser.GetDx m)))
         (sub (Ser.GetY0 m) (mul (of_int (Z.of_nat (idx mod (Ser.GetNy m - 2)) + 1)) (Ser.GetDy m))))).
Proof.
  intros HU HV. unfold Ser.SetInitialVelocity. cbv zeta.
  rewrite (@nested_store_pair _ _ (Ser.GetNx m - 2) (Ser.GetNy m - 2)
             (fun i j =>
                Par.bump (pow
                  (add (mul (add (Ser.GetX0 m) (mul (of_int (Z.of_nat i + 1)) (Ser.GetDx m)))
                            (add (Ser.GetX0 m) (mul (of_int (Z.of_nat i + 1)) (Ser.GetDx m))))
                       (mul (sub (Ser.GetY0 m) (mul (of_int (Z.of_nat j + 1)) (Ser.GetDy m)))
                            (sub (Ser.GetY0 m) (mul (of_int (Z.of_nat j + 1)) (Ser.GetDy m)))))
                  half))
             (Ser.U st) (Ser.V st) HU HV).
  reflexivity.
Qed.

End InitialCells.

(** The conversion from [int] over the rationals is additive. *)
Lemma of_int_add_Qc (a b : Z) : of_int (a + b) = add (of_int a) (of_int b) :> Qc.
Proof.
  simpl. unfold Qcplus. apply Q2Qc_eq_iff. rewrite inject_Z_plus.
  unfold Q2Qc. cbn [this]. rewrite !Qred_correct. reflexivity.
Qed.

Section InitialTiling.
Context {K : Type} {A : Arith K} {L : @ArithLaws K A}.

Add Ring KringX1 : arith_ring.

Hypothesis of_int_add : forall a b : Z, of_int (a + b) = add (of_int a) (of_int b) :> K.

Lemma of_int_zero : of_int 0 = zero :> K.
Proof.
  pose proof (of_int_add 0 0) as H. change (0 + 0)%Z with 0%Z in H.
  transitivity (sub (add (of_int 0) (of_int 0)) (of_int 0)); [ring|].
  rewrite <- H. ring.
Qed.

Lemma tile_abscissa (x0 dx : K) (d i : nat) :
  add (add x0 (mul (of_int (Z.of_nat d + 1)) dx)) (mul (of_int (Z.of_nat i)) dx) =
  add (add x0 (mul (of_int (Z.of_nat 0 + 1)) dx)) (mul (of_int (Z.of_nat (d + i))) dx).
Proof.
  rewrite Nat2Z.inj_add, !of_int_add. change (Z.of_nat 0) with 0%Z. rewrite of_int_zero. ring.
Qed.

Lemma tile_ordinate (y0 dy : K) (d j : nat) :
  sub (sub y0 (mul (of_int (Z.of_nat d + 1)) dy)) (mul (of_int (Z.of_nat j)) dy) =
  sub (sub y0 (mul (of_int (Z.of_nat 0 + 1)) dy)) (mul (of_int (Z.of_nat (d + j))) dy).
Proof.
  rewrite Nat2Z.inj_add, !of_int_add. change (Z.of_nat 0) with 0%Z. rewrite of_int_zero. ring.
Qed.

Lemma Par_initial_tile (m mg : Par.Model K) (st stg : Par.Burgers2P K) (i j : nat) :
  length (Par.U st) = Par.GetLocNyr m * Par.GetLocNxr m ->
  length (Par.V st) = Par.GetLocNyr m * Par.GetLocNxr m ->
  length (Par.U stg) = Par.GetLocNyr mg * Par.GetLocNxr mg ->
  length (Par.V stg) = Par.GetLocNyr mg * Par.GetLocNxr mg ->
  Par.GetX0 m = Par.GetX0 mg -> Par.GetY0 m = Par.GetY0 mg ->
  Par.GetDx m = Par.GetDx mg -> Par.GetDy m = Par.GetDy mg ->
  Par.GetDisplX mg = 0 -> Par.GetDisplY mg = 0 ->
  i < Par.GetLocNxr m -> j < Par.GetLocNyr m ->
  Par.GetDisplX m + i < Par.GetLocNxr mg -> Par.GetDisplY m + j < Par.GetLocNyr mg ->
  rd (Par.U (Par.SetInitialVelocity m st)) (i * Par.GetLocNyr m + j) =
  rd (Par.U (Par.SetInitialVelocity mg stg))
     ((Par.GetDisplX m + i) * Par.GetLocNyr mg + (Par.GetDisplY m + j)).
Proof.
  intros HU HV HUg HVg Ex Ey Edx Edy Dx Dy Hi Hj Hgi Hgj.
  rewrite !Par_SetInitialVelocity_cells by assumption.
  rewrite !rd_tabulate by (rewrite Nat.add_comm; apply cm_lt; assumption).
  rewrite (Nat.add_comm (i * Par.GetLocNyr m) j), cm_mod, cm_div by exact Hj.
  rewrite (Nat.add_comm ((Par.GetDisplX m + i) * Par.GetLocNyr mg) (Par.GetDisplY m + j)),
    cm_mod, cm_div by exact Hgj.
  rewrite Dx, Dy, <- Ex, <- Ey, <- Edx, <- Edy.
  rewrite tile_abscissa, tile_ordinate. reflexivity.
Qed.

Lemma Ser_initial_same (ms : Ser.Model K) (g : Par.Model K)
    (sts : Ser.Burgers K) (st : Par.Burgers2P K) :
  length (Ser.U sts) = (Ser.GetNy ms - 2) * (Ser.GetNx ms - 2) ->
  length (Ser.V sts) = (Ser.GetNy ms - 2) * (Ser.GetNx ms - 2) ->
  length (Par.U st) = Par.GetLocNyr g * Par.GetLocNxr g ->
  length (Par.V st) = Par.GetLocNyr g * Par.GetLocNxr g ->
  Ser.GetNx ms - 2 = Par.GetLocNxr g -> Ser.GetNy ms - 2 = Par.GetLocNyr g ->
  Ser.GetX0 ms = Par.GetX0 g -> Ser.GetY0 ms = Par.GetY0 g ->
  Ser.GetDx ms = Par.GetDx g -> Ser.GetDy ms = Par.GetDy g ->
  Par.GetDisplX g = 0 -> Par.GetDisplY g = 0 ->
  Ser.U (Ser.SetInitialVelocity ms sts) = Par.U (Par.SetInitialVelocity g st).
Proof.
  intros HU HV HUg HVg ENx ENy Ex Ey Edx Edy Dx Dy.
  rewrite Ser_SetInitialVelocity_cells, Par_SetInitialVelocity_cells by assumption.
  rewrite ENx, ENy, Ex, Ey, Edx, Edy, Dx, Dy.
  unfold tabulate. apply map_ext. intros idx.
  f_equal. f_equal.
  - rewrite !of_int_add. change (Z.of_nat 0) with 0%Z. rewrite of_int_zero. ring.
  - rewrite !of_int_add. change (Z.of_nat 0) with 0%Z. rewrite of_int_zero. ring.
Qed.

End InitialTiling.

(** In exact arithmetic every worker of the partitioned engine starts from
    its own sub-block of the field that one worker owning the whole grid
    starts from: the cell [(i, j)] of a worker whose block is displaced by
    [(displ_x, displ_y)] holds the value of the global cell
    [(displ_x + i, displ_y + j)], for both components. *)
Theorem Par_initial_field_is_restriction (K : Type) (A : Arith K) (L : @ArithLaws K A)
    (m mg : Par.Model K) (st stg : Par.Burgers2P K) (i j : nat) :
  (forall a b : Z, of_int (a + b) = add (of_int a) (of_int b) :> K) ->
  length (Par.U st) = Par.GetLocNyr m * Par.GetLocNxr m ->
  length (Par.V st) = Par.GetLocNyr m * Par.GetLocNxr m ->
  length (Par.U stg) = Par.GetLocNyr mg * Par.GetLocNxr mg ->
  length (Par.V stg) = Par.GetLocNyr mg * Par.GetLocNxr mg ->
  Par.GetX0 m = Par.GetX0 mg -> Par.GetY0 m = Par.GetY0 mg ->
  Par.GetDx m = Par.GetDx mg -> Par.GetDy m = Par.GetDy mg ->
  Par.GetDisplX mg = 0 -> Par.GetDisplY mg = 0 ->
  i < Par.GetLocNxr m -> j < Par.GetLocNyr m ->
  Par.GetDisplX m + i < Par.GetLocNxr mg -> Par.GetDisplY m + j < Par.GetLocNyr mg ->
  rd (Par.U (Par.SetInitialVelocity m st)) (i * Par.GetLocNyr m + j) =
  rd (Par.U (Par.SetInitialVelocity mg stg))
     ((Par.GetDisplX m + i) * Par.GetLocNyr mg + (Par.GetDisplY m + j)) /\
  rd (Par.V (Par.SetInitialVelocity m st)) (i * Par.GetLocNyr m + j) =
  rd (Par.V (Par.SetInitialVelocity mg stg))
     ((Par.GetDisplX m + i) * Par.GetLocNyr mg + (Par.GetDisplY m + j)).
Proof.
  intros Hof HU HV HUg HVg Ex Ey Edx Edy Dx Dy Hi Hj Hgi Hgj.
  rewrite !Par_SetInitialVelocity_same by assumption.
  split; apply (Par_initial_tile (L := L)); assumption.
Qed.

Lemma Par_initial_field_is_restriction_witness :
  rd (Par.U (Par.SetInitialVelocity InitialExample.m3 (Par.Burgers2P_new InitialExample.m3)))
     (1 * Par.GetLocNyr InitialExample.m3 + 0) =
  rd (Par.U (Par.SetInitialVelocity InitialExample.mg (Par.Burgers2P_new InitialExample.mg)))
     ((Par.GetDisplX InitialExample.m3 + 1) * Par.GetLocNyr InitialExample.mg
      + (Par.GetDisplY InitialExample.m3 + 0)) /\
  this (rd (Par.U (Par.SetInitialVelocity InitialExample.m3 (Par.Burgers2P_new InitialExample.m3)))
           (1 * Par.GetLocNyr InitialExample.m3 + 0)) = (544 # 3125)%Q.
Proof.
  split; [|vm_compute; reflexivity].
  apply (@Par_initial_field_is_restriction Qc ArithQc ArithLawsQc
           InitialExample.m3 InitialExample.mg
           (Par.Burgers2P_new InitialExample.m3) (Par.Burgers2P_new InitialExample.mg) 1 0
           of_int_add_Qc);
    try reflexivity; vm_compute; lia.
Defined.

(** In exact arithmetic the single-process variant and the partitioned
    engine on one worker that owns the whole grid start from the same
    field: [x0 + (i+1)*dx] of the one is [x0 + (0+1)*dx + i*dx] of the
    other. *)
Theorem Ser_and_Par_start_from_the_same_field (K : Type) (A : Arith K) (L : @ArithLaws K A)
    (ms : Ser.Model K) (g : Par.Model K) (sts : Ser.Burgers K) (st : Par.Burgers2P K) :
  (forall a b : Z, of_int (a + b) = add (of_int a) (of_int b) :> K) ->
  length (Ser.U sts) = (Ser.GetNy ms - 2) * (Ser.GetNx ms - 2) ->
  length (Ser.V sts) = (Ser.GetNy ms - 2) * (Ser.GetNx ms - 2) ->
  length (Par.U st) = Par.GetLocNyr g * Par.GetLocNxr g ->
  length (Par.V st) = Par.GetLocNyr g * Par.GetLocNxr g ->
  Ser.GetNx ms - 2 = Par.GetLocNxr g -> Ser.GetNy ms - 2 = Par.GetLocNyr g ->
  Ser.GetX0 ms = Par.GetX0 g -> Ser.GetY0 ms = Par.GetY0 g ->
  Ser.GetDx ms = Par.GetDx g -> Ser.GetDy ms = Par.GetDy g ->
  Par.GetDisplX g = 0 -> Par.GetDisplY g = 0 ->
  Ser.U (Ser.SetInitialVelocity ms sts) = Par.U (Par.SetInitialVelocity g st) /\
  Ser.V (Ser.SetInitialVelocity ms sts) = Par.V (Par.SetInitialVelocity g st).
Proof.
  intros Hof HU HV HUg HVg ENx ENy Ex Ey Edx Edy Dx Dy.
  assert (E : Ser.V (Ser.SetInitialVelocity ms sts) = Ser.U (Ser.SetInitialVelocity ms sts)).
  { unfold Ser.SetInitialVelocity. cbv zeta. cbn [Ser.U Ser.V].
    rewrite (@nested_store_pair _ _ (Ser.GetNx ms - 2) (Ser.GetNy ms - 2)
               (fun i j =>
                  Par.bump (pow
                    (add (mul (add (Ser.GetX0 ms) (mul (of_int (Z.of_nat i + 1)) (Ser.GetDx ms)))
                              (add (Ser.GetX0 ms) (mul (of_int (Z.of_nat i + 1)) (Ser.GetDx ms))))
                         (mul (sub (Ser.GetY0 ms) (mul (of_int (Z.of_nat j + 1)) (Ser.GetDy ms)))
                              (sub (Ser.GetY0 ms) (mul (of_int (Z.of_nat j + 1)) (Ser.GetDy ms)))))
                    half))
               (Ser.U sts) (Ser.V sts) HU HV).
    reflexivity. }
  rewrite E, (Par_SetInitialVelocity_same g st HUg HVg).
  split; apply (Ser_initial_same (L := L)); assumption.
Qed.

Lemma Ser_and_Par_start_from_the_same_field_witness :
  Ser.U (Ser.SetInitialVelocity InitialExample.ms (Ser.Burgers_new InitialExample.ms)) =
  Par.U (Par.SetInitialVelocity InitialExample.mg (Par.Burgers2P_new InitialExample.mg)) /\
  map this (firstn 2 (Par.U (Par.SetInitialVelocity InitialExample.mg
                               (Par.Burgers2P_new InitialExample.mg)))) =
  [(55808 # 9765625)%Q; (544 # 3125)%Q].
Proof.
  split; [|vm_compute; reflexivity].
  apply (@Ser_and_Par_start_from_the_same_field Qc ArithQc ArithLawsQc
           InitialExample.ms InitialExample.mg
           (Ser.Burgers_new InitialExample.ms) (Par.Burgers2P_new InitialExample.mg)
           of_int_add_Qc); reflexivity.
Defined.

(** Over the rationals, at every point the first variant stores eight
    times the value of the two later variants: it raises [2.0*(1.0-r)] to
    the fourth power where they multiply the fourth power of [1.0-r] by
    [2.0].  The point of its iterate [(i+1, j+1)], stored in cell
    [i*Nyr + j], is the point of cell [(i, j)] of the single-process
    variant. *)
Theorem Root_initial_value_is_eight_times_later_one
    (m : Root.Model Qc) (ms : Ser.Model Qc) (sts : Ser.Burgers Qc) (i j : nat) :
  length (Ser.U sts) = (Ser.GetNy ms - 2) * (Ser.GetNx ms - 2) ->
  length (Ser.V sts) = (Ser.GetNy ms - 2) * (Ser.GetNx ms - 2) ->
  Root.Ny m = Z.of_nat (Ser.GetNy ms) -> 2 <= Ser.GetNy ms ->
  Root.x0 m = Ser.GetX0 ms -> Root.y0 m = Ser.GetY0 ms ->
  Root.dx m = Ser.GetDx ms -> Root.dy m = Ser.GetDy ms ->
  i < Ser.GetNx ms - 2 -> j < Ser.GetNy ms - 2 ->
  Root.U0_index m (Z.of_nat i + 1) (Z.of_nat j + 1) = Z.of_nat (i * (Ser.GetNy ms - 2) + j) /\
  Root.U0_value m (Z.of_nat i + 1) (Z.of_nat j + 1) =
  mul (of_int 8) (rd (Ser.U (Ser.SetInitialVelocity ms sts)) (i * (Ser.GetNy ms - 2) + j)).
Proof.
  intros HU HV HNy H2 Ex Ey Edx Edy Hi Hj. split.
  - unfold Root.U0_index. rewrite HNy. nia.
  - rewrite Ser_SetInitialVelocity_cells by assumption.
    rewrite rd_tabulate by (rewrite Nat.add_comm; apply cm_lt; assumption).
    rewrite (Nat.add_comm (i * (Ser.GetNy ms - 2)) j), cm_mod, cm_div by exact Hj.
    unfold Root.U0_value, Par.bump, Par.ComputeR. cbv zeta.
    rewrite Ex, Ey, Edx, Edy.
    set (r := pow _ half).
    destruct (leb r one).
    + assert (P4 : forall x : Qc, pow x four = Qcmult x (Qcmult x (Qcmult x x))).
      { intros x. change (pow x four) with (Qcpower x 4). simpl. ring. }
      rewrite !P4. unfold four, two. simpl add. simpl mul. simpl sub. simpl one.
      change (of_int 8 : Qc) with (Q2Qc (inject_Z 8)).
      assert (E8 : Q2Qc (inject_Z 8) =
                   Qcplus (Qcplus (Qcplus (Q2Qc 1) (Q2Qc 1)) (Qcplus (Q2Qc 1) (Q2Qc 1)))
                          (Qcplus (Qcplus (Q2Qc 1) (Q2Qc 1)) (Qcplus (Q2Qc 1) (Q2Qc 1))))
        by (apply Qc_is_canon; vm_compute; reflexivity).
      rewrite E8. ring.
    + change (of_int 8 : Qc) with (Q2Qc (inject_Z 8)). simpl zero. simpl mul. ring.
Qed.

Lemma Root_initial_value_is_eight_times_later_one_witness :
  this (Root.U0_value InitialExample.mr (Z.of_nat 1 + 1) (Z.of_nat 1 + 1)) = (89019648 # 9765625)%Q /\
  this (rd (Ser.U (Ser.SetInitialVelocity InitialExample.ms (Ser.Burgers_new InitialExample.ms)))
           (1 * (Ser.GetNy InitialExample.ms - 2) + 1)) = (11127456 # 9765625)%Q /\
  Root.U0_value InitialExample.mr (Z.of_nat 1 + 1) (Z.of_nat 1 + 1) =
  mul (of_int 8)
      (rd (Ser.U (Ser.SetInitialVelocity InitialExample.ms (Ser.Burgers_new InitialExample.ms)))
          (1 * (Ser.GetNy InitialExample.ms - 2) + 1)).
Proof.
  split; [vm_compute; reflexivity|]. split; [vm_compute; reflexivity|].
  apply (@Root_initial_value_is_eight_times_later_one InitialExample.mr InitialExample.ms
           (Ser.Burgers_new InitialExample.ms) 1 1); try reflexivity; vm_compute; lia.
Defined.

(** ** The partitioned engine: halos, steps and runs *)

(** After [SetCaches] the halo of every direction that has a neighbour
    holds the adjacent edge of the neighbour's block, as the neighbour holds
    it during the same exchange: the up halo is the last row of the up
    neighbour, the down halo the first row of the down neighbour, the left
    halo the last column of the left neighbour and the right halo the first
    column of the right neighbour. *)
Theorem SetCaches_halo_is_neighbour_edge (K : Type) (A : Arith K)
    (models : nat -> Par.Model K) (fields : nat -> list K)
    (st : Par.Burgers2P K) (r q : nat) :
  caches_allocated (models r) st ->
  let m := models r in
  let mq := models q in
  let st' := Par.SetCaches m st (fields r) (World.deliver models fields r) in
  (Par.GetUp m = Z.of_nat q -> Par.GetLocNxr mq = Par.GetLocNxr m ->
     forall i, i < Par.GetLocNxr m ->
       rd (Par.upVel st') i = rd (fields q) (i * Par.GetLocNyr mq + (Par.GetLocNyr mq - 1))) /\
  (Par.GetDown m = Z.of_nat q -> Par.GetLocNxr mq = Par.GetLocNxr m ->
     forall i, i < Par.GetLocNxr m ->
       rd (Par.downVel st') i = rd (fields q) (i * Par.GetLocNyr mq)) /\
  (Par.GetLeft m = Z.of_nat q -> Par.GetLocNyr mq = Par.GetLocNyr m ->
     forall j, j < Par.GetLocNyr m ->
       rd (Par.leftVel st') j = rd (fields q) ((Par.GetLocNxr mq - 1) * Par.GetLocNyr mq + j)) /\
  (Par.GetRight m = Z.of_nat q -> Par.GetLocNyr mq = Par.GetLocNyr m ->
     forall j, j < Par.GetLocNyr m ->
       rd (Par.rightVel st') j = rd (fields q) j).
Proof.
  intros Hc m mq st'. unfold st'. rewrite SetCaches_eq by exact Hc.
  cbn [Par.upVel Par.downVel Par.leftVel Par.rightVel Par.set_caches].
  unfold World.deliver. fold m.
  cbn [Par.to_up Par.to_down Par.to_left Par.to_right].
  repeat split; intros Hq Hn i Hi; rewrite rd_refreshed by exact Hi;
    rewrite Hq, nonneg_rank, Nat2Z.id, MyBounds_eq;
    cbn [Par.to_up Par.to_down Par.to_left Par.to_right]; fold mq;
    rewrite rd_tabulate by (rewrite Hn; exact Hi); reflexivity.
Qed.

Lemma SetCaches_halo_is_neighbour_edge_witness :
  caches_allocated (World.CartModel Examples.g 2 2 3) (Par.Burgers2P_new (World.CartModel Examples.g 2 2 3)) /\
  Par.GetUp (World.CartModel Examples.g 2 2 3) = Z.of_nat 2 /\
  rd (Par.upVel (Par.SetCaches (World.CartModel Examples.g 2 2 3)
                   (Par.Burgers2P_new (World.CartModel Examples.g 2 2 3))
                   (World.Restrict 4 (World.CartModel Examples.g 2 2 3) Examples.U0)
                   (World.deliver (World.CartModel Examples.g 2 2)
                      (fun q => World.Restrict 4 (World.CartModel Examples.g 2 2 q) Examples.U0) 3))) 1
  = rd (World.Restrict 4 (World.CartModel Examples.g 2 2 2) Examples.U0)
       (1 * Par.GetLocNyr (World.CartModel Examples.g 2 2 2)
        + (Par.GetLocNyr (World.CartModel Examples.g 2 2 2) - 1)) /\
  rd (World.Restrict 4 (World.CartModel Examples.g 2 2 2) Examples.U0)
     (1 * Par.GetLocNyr (World.CartModel Examples.g 2 2 2)
      + (Par.GetLocNyr (World.CartModel Examples.g 2 2 2) - 1)) = 14%Z.
Proof.
  assert (Hc : caches_allocated (World.CartModel Examples.g 2 2 3)
                 (Par.Burgers2P_new (World.CartModel Examples.g 2 2 3)))
    by (unfold caches_allocated; repeat split; reflexivity).
  split; [exact Hc|]. split; [reflexivity|]. split; [|vm_compute; reflexivity].
  exact (proj1 (@SetCaches_halo_is_neighbour_edge Z ArithZ (World.CartModel Examples.g 2 2)
                  (fun q => World.Restrict 4 (World.CartModel Examples.g 2 2 q) Examples.U0)
                  (Par.Burgers2P_new (World.CartModel Examples.g 2 2 3)) 3 2 Hc)
               eq_refl eq_refl 1 ltac:(vm_compute; lia)).
Defined.

Section StepFacts.
Context {K : Type} {A : Arith K} {L : @ArithLaws K A}.

Add Ring KringX2 : arith_ring.

Lemma NextVelocityState_dt_zero (m : Par.Model K) st (Ui Vi : list K) (sel : bool) inc :
  Par.GetDt m = zero ->
  length (if sel then Ui else Vi) = Par.GetLocNyr m * Par.GetLocNxr m ->
  fst (Par.NextVelocityState m st Ui Vi sel inc) = (if sel then Ui else Vi).
Proof.
  intros Hdt Hl. unfold Par.NextVelocityState. cbv zeta. cbn [fst].
  rewrite Combine_eq, Hdt.
  transitivity (tabulate (Par.GetLocNyr m * Par.GetLocNxr m) (rd (if sel then Ui else Vi)));
    [|apply tabulate_rd_self; exact Hl].
  unfold tabulate. apply map_ext. intros i. ring.
Qed.

End StepFacts.

(** In exact arithmetic a time step with [dt = 0] (which [T = 0] gives, a
    value that [IsValid] accepts) leaves both components as they are,
    whatever the neighbours send. *)
Theorem TimeStep_is_identity_when_dt_is_zero (K : Type) (A : Arith K) (L : @ArithLaws K A)
    (m : Par.Model K) (st : Par.Burgers2P K) (incU incV : Par.Msgs K) :
  wf_worker m st -> Par.GetDt m = zero ->
  Par.U (Par.TimeStep m st incU incV) = Par.U st /\
  Par.V (Par.TimeStep m st incU incV) = Par.V st.
Proof.
  intros Hwf Hdt. destruct (TimeStep_UV incU incV Hwf) as (HU & HV).
  destruct Hwf as (_ & HlU & HlV).
  rewrite HU, HV. split.
  - apply (NextVelocityState_dt_zero (L := L) m st (Par.U st) (Par.V st) true incU Hdt HlU).
  - apply (NextVelocityState_dt_zero (L := L) m st (Par.U st) (Par.V st) false incV Hdt HlV).
Qed.

Section RunInvariants.
Context {K : Type} {A : Arith K}.

Lemma run_keeps_start (models : nat -> Par.Model K) (w0 : nat -> Par.Burgers2P K) :
  (forall r, wf_worker (models r) (w0 r)) ->
  (forall r, coeffs_allocated (models r) (w0 r)) ->
  run_keeps models w0 (fun r => Par.SetMatrixCoefficients (models r) (w0 r)).
Proof.
  intros Hwf Hco r. split; [|split].
  - destruct (Hwf r) as (Hc & HU & HV). unfold wf_worker, caches_allocated in *.
    unfold Par.SetMatrixCoefficients. cbv zeta.
    cbn [Par.upVel Par.downVel Par.leftVel Par.rightVel Par.U Par.V Par.set_coeffs]. auto.
  - apply SetMatrixCoefficients_built. apply Hco.
  - repeat split.
Qed.

Lemma run_keeps_step (models : nat -> Par.Model K) (w0 w : nat -> Par.Burgers2P K) :
  run_keeps models w0 w -> run_keeps models w0 (World.WorldStep models w).
Proof.
  intros H r. destruct (H r) as (Hwf & Hop & E1 & E2 & E3 & E4).
  unfold World.WorldStep.
  destruct (TimeStep_coeffs (models r) (w r)
              (World.deliver models (fun q => Par.U (w q)) r)
              (World.deliver models (fun q => Par.V (w q)) r)) as (F1 & F2 & F3 & F4).
  split; [apply TimeStep_wf; exact Hwf|]. split.
  - eapply operators_built_ext; [exact F1|exact F2|exact F3|exact F4|exact Hop].
  - rewrite F1, F2, F3, F4. auto.
Qed.

Lemma run_keeps_run (models : nat -> Par.Model K) (Nt : nat) (w0 : nat -> Par.Burgers2P K) :
  (forall r, wf_worker (models r) (w0 r)) ->
  (forall r, coeffs_allocated (models r) (w0 r)) ->
  run_keeps models w0 (World.SetIntegratedVelocity models Nt w0).
Proof.
  intros Hwf Hco. unfold World.SetIntegratedVelocity.
  induction (Nt - 1) as [|n IH]; simpl.
  - apply run_keeps_start; assumption.
  - apply run_keeps_step. exact IH.
Qed.

End RunInvariants.

(** Over a whole run, on every worker and whatever the topology, the
    buffers keep the extents the constructor gave them, and the four
    coefficient arrays are the ones [SetMatrixCoefficients] built before the
    first step: no step writes them. *)
Theorem Par_run_keeps_extents_and_coefficients (K : Type) (A : Arith K)
    (models : nat -> Par.Model K) (Nt : nat) (w0 : nat -> Par.Burgers2P K) (r : nat) :
  (forall q, wf_worker (models q) (w0 q)) ->
  (forall q, coeffs_allocated (models q) (w0 q)) ->
  let st := World.SetIntegratedVelocity models Nt w0 r in
  let built := Par.SetMatrixCoefficients (models r) (w0 r) in
  (length (Par.U st) = Par.GetLocNyr (models r) * Par.GetLocNxr (models r) /\
   length (Par.V st) = Par.GetLocNyr (models r) * Par.GetLocNxr (models r) /\
   length (Par.upVel st) = Par.GetLocNxr (models r) /\
   length (Par.downVel st) = Par.GetLocNxr (models r) /\
   length (Par.leftVel st) = Par.GetLocNyr (models r) /\
   length (Par.rightVel st) = Par.GetLocNyr (models r)) /\
  (Par.dVel_dx_2_coeffs st = Par.dVel_dx_2_coeffs built /\
   Par.dVel_dy_2_coeffs st = Par.dVel_dy_2_coeffs built /\
   Par.dVel_dx_coeffs st = Par.dVel_dx_coeffs built /\
   Par.dVel_dy_coeffs st = Par.dVel_dy_coeffs built).
Proof.
  intros Hwf Hco st built.
  destruct (@run_keeps_run K A models Nt w0 Hwf Hco r) as (((H1 & H2 & H3 & H4) & HU & HV) & _ & E).
  split; [|exact E]. repeat split; assumption.
Qed.

Lemma Par_run_keeps_extents_and_coefficients_witness :
  (forall q, wf_worker (World.CartModel Examples.g 2 2 q)
               (Par.Burgers2P_new (World.CartModel Examples.g 2 2 q))) /\
  (forall q, coeffs_allocated (World.CartModel Examples.g 2 2 q)
               (Par.Burgers2P_new (World.CartModel Examples.g 2 2 q))) /\
  length (Par.U (World.SetIntegratedVelocity (World.CartModel Examples.g 2 2) 3
                   (fun q => Par.Burgers2P_new (World.CartModel Examples.g 2 2 q)) 1)) =
  Par.GetLocNyr (World.CartModel Examples.g 2 2 1) * Par.GetLocNxr (World.CartModel Examples.g 2 2 1).
Proof.
  assert (Hwf : forall q, wf_worker (World.CartModel Examples.g 2 2 q)
                            (Par.Burgers2P_new (World.CartModel Examples.g 2 2 q))).
  { intros q. unfold wf_worker, caches_allocated, Par.Burgers2P_new. cbv zeta.
    cbn [Par.upVel Par.downVel Par.leftVel Par.rightVel Par.U Par.V].
    rewrite !length_alloc. repeat split. }
  assert (Hco : forall q, coeffs_allocated (World.CartModel Examples.g 2 2 q)
                            (Par.Burgers2P_new (World.CartModel Examples.g 2 2 q))).
  { intros q. unfold coeffs_allocated, Par.Burgers2P_new. cbv zeta.
    cbn [Par.dVel_dx_2_coeffs Par.dVel_dy_2_coeffs Par.dVel_dx_coeffs Par.dVel_dy_coeffs].
    rewrite !length_alloc. repeat split. }
  split; [exact Hwf|]. split; [exact Hco|].
  exact (proj1 (proj1 (@Par_run_keeps_extents_and_coefficients Z ArithZ
                         (World.CartModel Examples.g 2 2) 3
                         (fun q => Par.Burgers2P_new (World.CartModel Examples.g 2 2 q)) 1 Hwf Hco))).
Defined.

Section Stencils.
Context {K : Type} {A : Arith K} {L : @ArithLaws K A}.

Add Ring KringX3 : arith_ring.

Lemma Stencil_zero (m : Par.Model K) (sel : bool) :
  Stencil m sel zero zero zero zero zero zero = zero.
Proof. unfold Stencil. cbv zeta. destruct sel; ring. Qed.

Lemma rd_alloc (n i : nat) : rd (alloc n : list K) i = zero.
Proof.
  unfold rd, alloc. revert i. induction n as [|n IH]; intros i; simpl.
  - destruct i; reflexivity.
  - destruct i; [reflexivity|apply IH].
Qed.

Lemma rd_tabulate_zero (n : nat) (f : nat -> K) (i : nat) :
  (forall k, f k = zero) -> rd (tabulate n f) i = zero.
Proof.
  intros Hf. destruct (Nat.lt_ge_cases i n) as [Hi|Hi].
  - rewrite rd_tabulate by exact Hi. apply Hf.
  - unfold rd. apply nth_overflow. rewrite length_tabulate. exact Hi.
Qed.

Lemma rd_refreshed_zero (n : nat) (src : Z) (msg : list K) (i : nat) :
  (forall k, rd msg k = zero) -> rd (refreshed n src msg) i = zero.
Proof.
  intros Hm. destruct (Nat.lt_ge_cases i n) as [Hi|Hi].
  - rewrite rd_refreshed by exact Hi. destruct (src <? 0)%Z; [reflexivity|apply Hm].
  - unfold rd. apply nth_overflow. rewrite length_refreshed. exact Hi.
Qed.

(** A step on a field of zeros between neighbours whose fields are zeros. *)
Lemma NextVelocityState_zero (models : nat -> Par.Model K) (fields : nat -> list K)
    (m : Par.Model K) (st : Par.Burgers2P K) (Other : list K) (sel : bool) (r : nat) :
  m = models r ->
  caches_allocated m st -> operators_built m st ->
  (forall q k, rd (fields q) k = zero) ->
  (forall k, rd Other k = zero) ->
  Par.Combine m (fields r)
    (Par.ComputeTerms m (Par.SetCaches m st (fields r) (World.deliver models fields r))
       (fields r) Other sel)
  = alloc (Par.GetLocNyr m * Par.GetLocNxr m).
Proof.
  intros Em Hc Hop Hz HO.
  apply rd_ext.
  - rewrite length_Combine, length_alloc. reflexivity.
  - intros i Hi. rewrite length_Combine in Hi. rewrite rd_alloc.
    assert (HN : 0 < Par.GetLocNyr m) by (destruct (Par.GetLocNyr m); [simpl in Hi; lia|lia]).
    assert (Hr : i mod Par.GetLocNyr m < Par.GetLocNyr m) by (apply Nat.mod_upper_bound; lia).
    assert (Hcc : i / Par.GetLocNyr m < Par.GetLocNxr m)
      by (apply Nat.Div0.div_lt_upper_bound; exact Hi).
    replace i with (i / Par.GetLocNyr m * Par.GetLocNyr m + i mod Par.GetLocNyr m) at 1
      by (pose proof (Nat.div_mod_eq i (Par.GetLocNyr m)); lia).
    assert (Hop' : operators_built m
                     (Par.SetCaches m st (fields r) (World.deliver models fields r))).
    { destruct (SetCaches_fields m st (fields r) (World.deliver models fields r))
        as (_ & _ & E1 & E2 & E3 & E4).
      eapply operators_built_ext; [exact E1|exact E2|exact E3|exact E4|exact Hop]. }
    rewrite (Combine_ComputeTerms_stencil (fields r) Other sel Hop' Hcc Hr).
    unfold nb_left, nb_right, nb_up, nb_down. rewrite SetCaches_eq by exact Hc.
    cbn [Par.upVel Par.downVel Par.leftVel Par.rightVel Par.set_caches].
    unfold World.deliver. rewrite !MyBounds_eq.
    cbn [Par.to_up Par.to_down Par.to_left Par.to_right].
    rewrite !rd_refreshed_zero by (intros k; apply rd_tabulate_zero; intros k'; apply Hz).
    rewrite !Hz, !HO.
    repeat match goal with |- context [if ?b then zero else zero] => destruct b end;
      apply Stencil_zero.
Qed.

Lemma NextVelocityState_stencil (m : Par.Model K) (st : Par.Burgers2P K) (Ui Vi : list K)
    (sel : bool) (inc : Par.Msgs K) (c r : nat) :
  caches_allocated m st -> operators_built m st ->
  c < Par.GetLocNxr m -> r < Par.GetLocNyr m ->
  let Vel := if sel then Ui else Vi in
  let Other := if sel then Vi else Ui in
  let Nyr := Par.GetLocNyr m in
  let Lf := if c =? 0 then (if (Par.GetLeft m <? 0)%Z then zero else rd (Par.to_right inc) r)
            else rd Vel ((c - 1) * Nyr + r) in
  let Rt := if c + 1 =? Par.GetLocNxr m
            then (if (Par.GetRight m <? 0)%Z then zero else rd (Par.to_left inc) r)
            else rd Vel ((c + 1) * Nyr + r) in
  let Up := if r =? 0 then (if (Par.GetUp m <? 0)%Z then zero else rd (Par.to_down inc) c)
            else rd Vel (c * Nyr + (r - 1)) in
  let Dn := if r + 1 =? Nyr
            then (if (Par.GetDown m <? 0)%Z then zero else rd (Par.to_up inc) c)
            else rd Vel (c * Nyr + (r + 1)) in
  rd (fst (Par.NextVelocityState m st Ui Vi sel inc)) (c * Nyr + r) =
  Stencil m sel (rd Vel (c * Nyr + r)) (rd Other (c * Nyr + r)) Lf Rt Up Dn.
Proof.
  intros Hc Hop Hcc Hr Vel Other Nyr Lf Rt Up Dn.
  unfold Par.NextVelocityState. cbv zeta. cbn [fst]. fold Vel Other.
  assert (Hop' : operators_built m (Par.SetCaches m st Vel inc)).
  { destruct (SetCaches_fields m st Vel inc) as (_ & _ & E1 & E2 & E3 & E4).
    eapply operators_built_ext; [exact E1|exact E2|exact E3|exact E4|exact Hop]. }
  unfold Nyr. rewrite (Combine_ComputeTerms_stencil Vel Other sel Hop' Hcc Hr).
  unfold nb_left, nb_right, nb_up, nb_down. rewrite SetCaches_eq by exact Hc.
  cbn [Par.upVel Par.downVel Par.leftVel Par.rightVel Par.set_caches].
  rewrite !rd_refreshed by assumption. reflexivity.
Qed.

End Stencils.

(** In exact arithmetic, once the operators are built, the value that
    [NextVelocityState] returns in cell [(c, r)] is the explicit five-point
    update of that cell: the second differences and the backward first
    differences in x and y and the four products of the nonlinear term,
    taken on the cell, its companion component and its four neighbours.  A
    neighbour across a local edge is the cell the neighbouring worker sent
    in this exchange, or zero where there is no neighbour. *)
Theorem Par_NextVelocityState_is_five_point_update (K : Type) (A : Arith K) (L : @ArithLaws K A)
    (m : Par.Model K) (st : Par.Burgers2P K) (Ui Vi : list K)
    (sel : bool) (inc : Par.Msgs K) (c r : nat) :
  caches_allocated m st -> operators_built m st ->
  c < Par.GetLocNxr m -> r < Par.GetLocNyr m ->
  let Vel := if sel then Ui else Vi in
  let Other := if sel then Vi else Ui in
  let Nyr := Par.GetLocNyr m in
  let Lf := if c =? 0 then (if (Par.GetLeft m <? 0)%Z then zero else rd (Par.to_right inc) r)
            else rd Vel ((c - 1) * Nyr + r) in
  let Rt := if c + 1 =? Par.GetLocNxr m
            then (if (Par.GetRight m <? 0)%Z then zero else rd (Par.to_left inc) r)
            else rd Vel ((c + 1) * Nyr + r) in
  let Up := if r =? 0 then (if (Par.GetUp m <? 0)%Z then zero else rd (Par.to_down inc) c)
            else rd Vel (c * Nyr + (r - 1)) in
  let Dn := if r + 1 =? Nyr
            then (if (Par.GetDown m <? 0)%Z then zero else rd (Par.to_up inc) c)
            else rd Vel (c * Nyr + (r + 1)) in
  let C := rd Vel (c * Nyr + r) in
  let O := rd Other (c * Nyr + r) in
  let dx := Par.GetDx m in
  let dy := Par.GetDy m in
  let b := Par.GetB m in
  let d2x := add (add (mul C (div (mul (opp two) (Par.GetC m)) (pow dx two)))
                      (mul Lf (div (Par.GetC m) (pow dx two))))
                 (mul Rt (div (Par.GetC m) (pow dx two))) in
  let d2y := add (add (mul C (div (mul (opp two) (Par.GetC m)) (pow dy two)))
                      (mul Up (div (Par.GetC m) (pow dy two))))
                 (mul Dn (div (Par.GetC m) (pow dy two))) in
  let d1x := mul (div (Par.GetAx m) dx) (sub C Lf) in
  let d1y := mul (div (Par.GetAy m) dy) (sub C Up) in
  let vv := mul (mul (if sel then div b dx else div b dy) C) C in
  let vo := mul (mul (if sel then div b dy else div b dx) C) O in
  let vvm := if sel then mul (mul (div b dx) Lf) C else mul (mul (div b dy) Up) C in
  let vom := if sel then mul (mul (div b dy) Up) O else mul (mul (div b dx) Lf) O in
  rd (fst (Par.NextVelocityState m st Ui Vi sel inc)) (c * Nyr + r) =
  add C (mul (Par.GetDt m)
           (sub (sub (sub (add d2x d2y) d1x) d1y) (sub (sub (add vv vo) vvm) vom))).
Proof.
  intros Hc Hop Hcc Hr. cbv zeta.
  exact (@NextVelocityState_stencil K A L m st Ui Vi sel inc c r Hc Hop Hcc Hr).
Qed.

Lemma Par_NextVelocityState_is_five_point_update_witness :
  caches_allocated Examples.m2 Examples.st2 /\ operators_built Examples.m2 Examples.st2 /\
  rd (fst (Par.NextVelocityState Examples.m2 Examples.st2
             (Par.U Examples.st2) (Par.V Examples.st2) true Examples.inc2))
     (1 * Par.GetLocNyr Examples.m2 + 1) = (-389)%Z.
Proof.
  assert (Hc : caches_allocated Examples.m2 Examples.st2)
    by (unfold caches_allocated; repeat split; reflexivity).
  assert (Hop : operators_built Examples.m2 Examples.st2).
  { unfold Examples.st2. apply SetMatrixCoefficients_built.
    unfold coeffs_allocated; repeat split; reflexivity. }
  split; [exact Hc|]. split; [exact Hop|].
  rewrite (@Par_NextVelocityState_is_five_point_update Z ArithZ ArithLawsZ
             Examples.m2 Examples.st2 (Par.U Examples.st2) (Par.V Examples.st2) true
             Examples.inc2 1 1 Hc Hop ltac:(vm_compute; lia) ltac:(vm_compute; lia)).
  vm_compute. reflexivity.
Defined.

(** In exact arithmetic the field of zeros is a fixed point of a run on
    any topology: if both components are zero on every worker when the
    integration starts, they are zero on every worker when it ends. *)
Theorem Zero_field_is_kept_by_a_run (K : Type) (A : Arith K) (L : @ArithLaws K A)
    (models : nat -> Par.Model K) (Nt : nat) (w0 : nat -> Par.Burgers2P K) (r : nat) :
  (forall q, caches_allocated (models q) (w0 q)) ->
  (forall q, coeffs_allocated (models q) (w0 q)) ->
  (forall q, Par.U (w0 q) = alloc (Par.GetLocNyr (models q) * Par.GetLocNxr (models q)) /\
             Par.V (w0 q) = alloc (Par.GetLocNyr (models q) * Par.GetLocNxr (models q))) ->
  Par.U (World.SetIntegratedVelocity models Nt w0 r) =
    alloc (Par.GetLocNyr (models r) * Par.GetLocNxr (models r)) /\
  Par.V (World.SetIntegratedVelocity models Nt w0 r) =
    alloc (Par.GetLocNyr (models r) * Par.GetLocNxr (models r)).
Proof.
  intros Hca Hco Hz.
  assert (Hwf : forall q, wf_worker (models q) (w0 q)).
  { intros q. destruct (Hz q) as (HU & HV). split; [apply Hca|].
    rewrite HU, HV, !length_alloc. split; reflexivity. }
  revert r. unfold World.SetIntegratedVelocity.
  pose proof (@run_keeps_run K A models Nt w0 Hwf Hco) as Hk.
  unfold World.SetIntegratedVelocity in Hk.
  induction (Nt - 1) as [|n IH]; cbn [for_loop] in *; intros r.
  - unfold Par.SetMatrixCoefficients. cbv zeta. cbn [Par.U Par.V Par.set_coeffs]. apply Hz.
  - assert (Hk' : run_keeps models w0
                    (for_loop n (fun _ w' => World.WorldStep models w')
                       (fun r0 => Par.SetMatrixCoefficients (models r0) (w0 r0)))).
    { clear IH Hk. induction n as [|n IHn]; cbn [for_loop].
      - apply run_keeps_start; assumption.
      - apply run_keeps_step. exact IHn. }
    specialize (IH Hk').
    set (w := for_loop n (fun _ w' => World.WorldStep models w')
                (fun r0 => Par.SetMatrixCoefficients (models r0) (w0 r0))) in *.
    destruct (Hk' r) as (Hwfr & Hopr & _).
    unfold World.WorldStep.
    destruct (@TimeStep_UV K A (models r) (w r)
                (World.deliver models (fun q => Par.U (w q)) r)
                (World.deliver models (fun q => Par.V (w q)) r) Hwfr) as (EU & EV).
    rewrite EU, EV. unfold Par.NextVelocityState. cbv zeta. cbn [fst].
    destruct Hwfr as (Hcr & _).
    split.
    + apply (@NextVelocityState_zero K A L models (fun q => Par.U (w q)) (models r) (w r)
               (Par.V (w r)) true r eq_refl Hcr Hopr).
      * intros q k. rewrite (proj1 (IH q)). apply rd_alloc.
      * intros k. rewrite (proj2 (IH r)). apply rd_alloc.
    + apply (@NextVelocityState_zero K A L models (fun q => Par.V (w q)) (models r) (w r)
               (Par.U (w r)) false r eq_refl Hcr Hopr).
      * intros q k. rewrite (proj2 (IH q)). apply rd_alloc.
      * intros k. rewrite (proj1 (IH r)). apply rd_alloc.
Qed.

Lemma Zero_field_is_kept_by_a_run_witness :
  (forall q, caches_allocated (World.CartModel Examples.g 2 2 q)
               (Par.Burgers2P_new (World.CartModel Examples.g 2 2 q))) /\
  (forall q, coeffs_allocated (World.CartModel Examples.g 2 2 q)
               (Par.Burgers2P_new (World.CartModel Examples.g 2 2 q))) /\
  Par.U (World.SetIntegratedVelocity (World.CartModel Examples.g 2 2) 3
           (fun q => Par.Burgers2P_new (World.CartModel Examples.g 2 2 q)) 1) =
  alloc (Par.GetLocNyr (World.CartModel Examples.g 2 2 1)
         * Par.GetLocNxr (World.CartModel Examples.g 2 2 1)).
Proof.
  assert (H1 : forall q, caches_allocated (World.CartModel Examples.g 2 2 q)
                           (Par.Burgers2P_new (World.CartModel Examples.g 2 2 q))).
  { intros q. unfold caches_allocated, Par.Burgers2P_new. cbv zeta.
    cbn [Par.upVel Par.downVel Par.leftVel Par.rightVel].
    rewrite !length_alloc. repeat split. }
  assert (H2 : forall q, coeffs_allocated (World.CartModel Examples.g 2 2 q)
                           (Par.Burgers2P_new (World.CartModel Examples.g 2 2 q))).
  { intros q. unfold coeffs_allocated, Par.Burgers2P_new. cbv zeta.
    cbn [Par.dVel_dx_2_coeffs Par.dVel_dy_2_coeffs Par.dVel_dx_coeffs Par.dVel_dy_coeffs].
    rewrite !length_alloc. repeat split. }
  split; [exact H1|]. split; [exact H2|].
  exact (proj1 (@Zero_field_is_kept_by_a_run Z ArithZ ArithLawsZ (World.CartModel Examples.g 2 2) 3
                  (fun q => Par.Burgers2P_new (World.CartModel Examples.g 2 2 q)) 1 H1 H2
                  (fun q => conj eq_refl eq_refl))).
Defined.

(** ** The single-process variant against the partitioned engine, over a run *)

Section SerRun.
Context {K : Type} {A : Arith K} {L : @ArithLaws K A}.

Lemma Restrict_single (g : Par.Model K) (G : list K) :
  length G = Par.GetLocNyr g * Par.GetLocNxr g ->
  World.Restrict (Par.GetLocNyr g) (World.CartModel g 1 1 0) G = G.
Proof.
  intros HG. unfold World.Restrict, World.CartModel.
  cbn [Par.GetLocNyr Par.GetLocNxr Par.GetDisplX Par.GetDisplY].
  rewrite !Nat.div_1_r. change (0 / 1) with 0. change (0 mod 1) with 0. rewrite !Nat.mul_0_l.
  transitivity (tabulate (Par.GetLocNyr g * Par.GetLocNxr g) (rd G));
    [|apply tabulate_rd_self; exact HG].
  unfold tabulate. apply map_ext_in. intros idx Hin. apply in_seq in Hin.
  f_equal. cbn [Nat.add].
  destruct (Par.GetLocNyr g) as [|ny] eqn:E; [simpl in Hin; lia|].
  pose proof (Nat.div_mod_eq idx (S ny)). lia.
Qed.

Lemma ser_matches_single (ms : Ser.Model K) (g : Par.Model K) :
  ser_matches ms g -> ser_matches ms (World.CartModel g 1 1 0).
Proof.
  unfold ser_matches, World.CartModel.
  cbn [Par.GetLocNyr Par.GetLocNxr Par.GetDt Par.GetC Par.GetDx Par.GetDy Par.GetAx Par.GetAy Par.GetB].
  rewrite !Nat.div_1_r. auto.
Qed.

(** One step of both variants from the same fields. *)
Lemma Ser_TimeStep_agrees (ms : Ser.Model K) (g : Par.Model K)
    (s : Ser.Burgers K) (st : Par.Burgers2P K) (incU incV : Par.Msgs K) :
  ser_matches ms g ->
  (Par.GetUp g < 0)%Z -> (Par.GetDown g < 0)%Z ->
  (Par.GetLeft g < 0)%Z -> (Par.GetRight g < 0)%Z ->
  wf_worker g st -> operators_built g st ->
  Ser.U s = Par.U st -> Ser.V s = Par.V st ->
  length (Ser.NextU s) = Par.GetLocNyr g * Par.GetLocNxr g ->
  length (Ser.NextV s) = Par.GetLocNyr g * Par.GetLocNxr g ->
  Ser.U (Ser.TimeStep ms s) = Par.U (Par.TimeStep g st incU incV) /\
  Ser.V (Ser.TimeStep ms s) = Par.V (Par.TimeStep g st incU incV) /\
  length (Ser.NextU (Ser.TimeStep ms s)) = Par.GetLocNyr g * Par.GetLocNxr g /\
  length (Ser.NextV (Ser.TimeStep ms s)) = Par.GetLocNyr g * Par.GetLocNxr g.
Proof.
  intros Hm Hup Hdown Hleft Hright Hwf Hop EU EV HNU HNV.
  pose proof Hm as (HNx & HNy & _).
  destruct (@TimeStep_UV K A g st incU incV Hwf) as (PU & PV).
  destruct Hwf as (Hc & HlU & HlV).
  set (n := Par.GetLocNyr g * Par.GetLocNxr g) in *.
  assert (Hcell : forall (NextVel : list K) (sel : bool) (inc : Par.Msgs K),
             length NextVel = n ->
             Ser.NextVelocityState ms s NextVel sel =
             fst (Par.NextVelocityState g st (Par.U st) (Par.V st) sel inc)).
  { intros NextVel sel inc Hl.
    assert (Hls : length (Ser.NextVelocityState ms s NextVel sel) = n).
    { unfold Ser.NextVelocityState. rewrite SetLinearTerms_eq by (rewrite HNx, HNy; exact Hl).
      rewrite length_tabulate, HNx, HNy. reflexivity. }
    apply rd_ext.
    - rewrite Hls. unfold Par.NextVelocityState. cbn [fst]. rewrite length_Combine. reflexivity.
    - intros i Hi. rewrite Hls in Hi. unfold n in Hi.
      assert (HN : 0 < Par.GetLocNyr g) by (destruct (Par.GetLocNyr g); [simpl in Hi; lia|lia]).
      assert (Hr : i mod Par.GetLocNyr g < Par.GetLocNyr g) by (apply Nat.mod_upper_bound; lia).
      assert (Hcc : i / Par.GetLocNyr g < Par.GetLocNxr g)
        by (apply Nat.Div0.div_lt_upper_bound; exact Hi).
      replace i with (i / Par.GetLocNyr g * Par.GetLocNyr g + i mod Par.GetLocNyr g)
        by (pose proof (Nat.div_mod_eq i (Par.GetLocNyr g)); lia).
      rewrite <- EU, <- EV.
      apply (@Ser_agrees_with_single_worker K A L ms g s st NextVel sel inc); assumption. }
  unfold Ser.TimeStep. cbv zeta. cbn [Ser.U Ser.V Ser.NextU Ser.NextV].
  assert (HlnU : length (Ser.NextVelocityState ms s (Ser.NextU s) true) = n).
  { rewrite (Hcell _ true incU HNU). unfold Par.NextVelocityState. cbn [fst].
    apply length_Combine. }
  assert (HlnV : length (Ser.NextVelocityState ms s (Ser.NextV s) false) = n).
  { rewrite (Hcell _ false incV HNV). unfold Par.NextVelocityState. cbn [fst].
    apply length_Combine. }
  rewrite HNx, HNy. fold n.
  rewrite !dcopy_unit by (rewrite ?EU, ?EV; assumption).
  rewrite !tabulate_rd_self by assumption.
  rewrite PU, PV.
  split; [apply Hcell; exact HNU|]. split; [apply Hcell; exact HNV|].
  split; assumption.
Qed.

End SerRun.

(** In exact arithmetic a whole run of the single-process variant, with
    its explicit stencil loop, ends in the fields in which the partitioned
    engine ends on a single worker, from the same initial fields and for
    the same coefficients and number of steps. *)
Theorem Ser_run_agrees_with_single_worker_run (K : Type) (A : Arith K) (L : @ArithLaws K A)
    (ms : Ser.Model K) (g : Par.Model K) (sts : Ser.Burgers K) :
  ser_matches ms g ->
  Ser.GetNt ms = Par.GetNt g ->
  length (Ser.U sts) = Par.GetLocNyr g * Par.GetLocNxr g ->
  length (Ser.V sts) = Par.GetLocNyr g * Par.GetLocNxr g ->
  length (Ser.NextU sts) = Par.GetLocNyr g * Par.GetLocNxr g ->
  length (Ser.NextV sts) = Par.GetLocNyr g * Par.GetLocNxr g ->
  Ser.U (Ser.SetIntegratedVelocity ms sts) = Par.U (World.Run g 1 1 (Ser.U sts) (Ser.V sts) 0) /\
  Ser.V (Ser.SetIntegratedVelocity ms sts) = Par.V (World.Run g 1 1 (Ser.U sts) (Ser.V sts) 0).
Proof.
  intros Hm HNt HU HV HNU HNV.
  unfold Ser.SetIntegratedVelocity, World.Run, World.SetIntegratedVelocity. cbv zeta.
  rewrite HNt.
  set (m0 := World.CartModel g 1 1 0).
  assert (Hm0 : ser_matches ms m0) by (apply ser_matches_single; exact Hm).
  assert (Hext : Par.GetLocNyr m0 = Par.GetLocNyr g /\ Par.GetLocNxr m0 = Par.GetLocNxr g)
    by (unfold m0, World.CartModel; cbn [Par.GetLocNyr Par.GetLocNxr];
        rewrite !Nat.div_1_r; split; reflexivity).
  destruct Hext as (EY & EX).
  assert (Hnb : (Par.GetUp m0 < 0)%Z /\ (Par.GetDown m0 < 0)%Z /\
                (Par.GetLeft m0 < 0)%Z /\ (Par.GetRight m0 < 0)%Z)
    by (unfold m0, World.CartModel; cbn; lia).
  destruct Hnb as (Hup & Hdown & Hleft & Hright).
  set (w0 := fun r : nat =>
               Par.SetMatrixCoefficients (World.CartModel g 1 1 r)
                 (Par.set_UV (Par.Burgers2P_new (World.CartModel g 1 1 r))
                    (World.Restrict (Par.GetLocNyr g) (World.CartModel g 1 1 r) (Ser.U sts))
                    (World.Restrict (Par.GetLocNyr g) (World.CartModel g 1 1 r) (Ser.V sts)))).
  assert (Inv : forall k,
             let s := for_loop k (fun _ s => Ser.TimeStep ms s) sts in
             let w := for_loop k (fun _ w' => World.WorldStep (World.CartModel g 1 1) w') w0 in
             Ser.U s = Par.U (w 0) /\ Ser.V s = Par.V (w 0) /\
             length (Ser.NextU s) = Par.GetLocNyr m0 * Par.GetLocNxr m0 /\
             length (Ser.NextV s) = Par.GetLocNyr m0 * Par.GetLocNxr m0 /\
             wf_worker m0 (w 0) /\ operators_built m0 (w 0)).
  { induction k as [|k IH]; cbn [for_loop].
    - assert (E0 : w0 0 = Par.SetMatrixCoefficients m0
                              (Par.set_UV (Par.Burgers2P_new m0) (Ser.U sts) (Ser.V sts))).
      { unfold w0. rewrite !Restrict_single by assumption. reflexivity. }
      rewrite E0.
      unfold Par.SetMatrixCoefficients at 1 2. cbv zeta. cbn [Par.U Par.V Par.set_coeffs Par.set_UV].
      split; [reflexivity|]. split; [reflexivity|].
      rewrite EY, EX. split; [exact HNU|]. split; [exact HNV|].
      split.
      + unfold wf_worker, caches_allocated, Par.SetMatrixCoefficients. cbv zeta.
        cbn [Par.upVel Par.downVel Par.leftVel Par.rightVel Par.U Par.V Par.set_coeffs
             Par.set_UV Par.Burgers2P_new].
        rewrite !length_alloc, EY, EX, HU, HV. repeat split.
      + apply SetMatrixCoefficients_built.
        unfold coeffs_allocated, Par.set_UV, Par.Burgers2P_new. cbv zeta.
        cbn [Par.dVel_dx_2_coeffs Par.dVel_dy_2_coeffs Par.dVel_dx_coeffs Par.dVel_dy_coeffs].
        rewrite !length_alloc. repeat split.
    - cbv zeta in IH. destruct IH as (EU & EV & HlNU & HlNV & Hwf & Hop).
      set (s := for_loop k (fun _ s => Ser.TimeStep ms s) sts) in *.
      set (w := for_loop k (fun _ w' => World.WorldStep (World.CartModel g 1 1) w') w0) in *.
      unfold World.WorldStep at 1 2 3 4. fold m0.
      destruct (@Ser_TimeStep_agrees K A L ms m0 s (w 0)
                  (World.deliver (World.CartModel g 1 1) (fun q => Par.U (w q)) 0)
                  (World.deliver (World.CartModel g 1 1) (fun q => Par.V (w q)) 0)
                  Hm0 Hup Hdown Hleft Hright Hwf Hop EU EV HlNU HlNV) as (SU & SV & SNU & SNV).
      split; [exact SU|]. split; [exact SV|]. split; [exact SNU|]. split; [exact SNV|].
      split.
      + apply TimeStep_wf. exact Hwf.
      + destruct (@TimeStep_coeffs K A m0 (w 0)
                    (World.deliver (World.CartModel g 1 1) (fun q => Par.U (w q)) 0)
                    (World.deliver (World.CartModel g 1 1) (fun q => Par.V (w q)) 0))
          as (F1 & F2 & F3 & F4).
        eapply operators_built_ext; [exact F1|exact F2|exact F3|exact F4|exact Hop]. }
  destruct (Inv (Par.GetNt g - 1)) as (EU & EV & _).
  split; [exact EU|exact EV].
Qed.

Lemma Ser_run_agrees_with_single_worker_run_witness :
  ser_matches Examples.ser_m Examples.g /\
  Ser.U (Ser.SetIntegratedVelocity Examples.ser_m Examples.ser_st) =
  Par.U (World.Run Examples.g 1 1 (Ser.U Examples.ser_st) (Ser.V Examples.ser_st) 0) /\
  nth 13 (Ser.U (Ser.SetIntegratedVelocity Examples.ser_m Examples.ser_st)) 0%Z = 329634%Z.
Proof.
  assert (Hm : ser_matches Examples.ser_m Examples.g)
    by (unfold ser_matches; repeat split; reflexivity).
  split; [exact Hm|]. split; [|vm_compute; reflexivity].
  exact (proj1 (@Ser_run_agrees_with_single_worker_run Z ArithZ ArithLawsZ
                  Examples.ser_m Examples.g Examples.ser_st Hm
                  eq_refl eq_refl eq_refl eq_refl eq_refl)).
Defined.

(** ** The first variant against the partitioned engine: a step and a run *)

(** In exact arithmetic, on the square grids the first variant supports
    ([Nx = Ny], as [SetNumerics] sets them), [NextVelocityState] of the
    first variant returns the buffer that [NextVelocityState] of the
    partitioned engine returns on one worker without neighbours, for the
    same fields and coefficient arrays: scaling the first-derivative
    products by [-1.0] and adding them, and filling the halos with zeros
    and correcting the edges, are the same update. *)
Theorem Root_step_agrees_with_single_worker_step (K : Type) (A : Arith K) (L : @ArithLaws K A)
    (m : Root.Model K) (cf : Root.Coeffs K) (g : Par.Model K) (st : Par.Burgers2P K)
    (Ui Vi : list K) (sel : bool) (inc : Par.Msgs K) :
  root_matches m cf g st ->
  Root.Nx m = Root.Ny m -> (3 <= Root.Nx m)%Z ->
  (Par.GetUp g < 0)%Z -> (Par.GetDown g < 0)%Z ->
  (Par.GetLeft g < 0)%Z -> (Par.GetRight g < 0)%Z ->
  caches_allocated g st ->
  Root.NextVelocityState m cf Ui Vi sel = fst (Par.NextVelocityState g st Ui Vi sel inc).
Proof.
  intros Hm HN H3 Hup Hdown Hleft Hright Hc.
  exact (@Root_step_matches K A L m cf g st Ui Vi sel inc Hm HN H3 Hup Hdown Hleft Hright Hc).
Qed.

Lemma Root_step_agrees_with_single_worker_step_witness :
  root_matches Examples.root_m (Root.SetMatrixCoefficients Examples.root_m)
    RootExample.g RootExample.st /\
  caches_allocated RootExample.g RootExample.st /\
  Root.NextVelocityState Examples.root_m (Root.SetMatrixCoefficients Examples.root_m)
    Examples.root_U Examples.root_V false =
  fst (Par.NextVelocityState RootExample.g RootExample.st
         Examples.root_U Examples.root_V false RootExample.inc) /\
  rd (Root.NextVelocityState Examples.root_m (Root.SetMatrixCoefficients Examples.root_m)
        Examples.root_U Examples.root_V false) 9 = (-28)%Z.
Proof.
  assert (Hm : root_matches Examples.root_m (Root.SetMatrixCoefficients Examples.root_m)
                 RootExample.g RootExample.st)
    by (unfold root_matches; repeat split; vm_compute; reflexivity).
  assert (Hc : caches_allocated RootExample.g RootExample.st)
    by (unfold caches_allocated; repeat split; reflexivity).
  split; [exact Hm|]. split; [exact Hc|]. split; [|vm_compute; reflexivity].
  exact (@Root_step_agrees_with_single_worker_step Z ArithZ ArithLawsZ
           Examples.root_m (Root.SetMatrixCoefficients Examples.root_m)
           RootExample.g RootExample.st Examples.root_U Examples.root_V false RootExample.inc
           Hm eq_refl ltac:(vm_compute; discriminate)
           eq_refl eq_refl eq_refl eq_refl Hc).
Defined.


(** In exact arithmetic, on a square grid, the last time level that the
    first variant records is the pair of fields in which a run of the
    partitioned engine on a single worker ends, when both start from the
    buffer [U0] in both components. *)
Theorem Root_run_agrees_with_single_worker_run (K : Type) (A : Arith K) (L : @ArithLaws K A)
    (m : Root.Model K) (g : Par.Model K) (U0 : list K) :
  root_model_matches m g ->
  Root.Nx m = Root.Ny m -> (3 <= Root.Nx m)%Z -> (1 <= Root.Nt m)%Z ->
  length U0 = Par.GetLocNyr g * Par.GetLocNxr g ->
  let nt := Z.to_nat (Root.Nt m) in
  nth (nt - 1) (fst (Root.SetIntegratedVelocity m U0)) [] = Par.U (World.Run g 1 1 U0 U0 0) /\
  nth (nt - 1) (snd (Root.SetIntegratedVelocity m U0)) [] = Par.V (World.Run g 1 1 U0 U0 0).
Proof.
  intros Hm HN H3 HNt HU0. cbv zeta.
  pose proof Hm as (HNx & HNy & HNtg & _).
  assert (Hnt : 1 <= Z.to_nat (Root.Nt m)) by lia.
  destruct (@Root_history_inv K A m U0 (Z.to_nat (Root.Nt m) - 1) Hnt ltac:(lia))
    as (_ & _ & HL0U & HL0V & Hlev).
  unfold Root.SetIntegratedVelocity. cbv zeta.
  set (UV := for_loop (Z.to_nat (Root.Nt m) - 1) _ _) in *.
  unfold World.Run, World.SetIntegratedVelocity. cbv zeta. rewrite HNtg.
  set (m0 := World.CartModel g 1 1 0).
  assert (Hext : Par.GetLocNyr m0 = Par.GetLocNyr g /\ Par.GetLocNxr m0 = Par.GetLocNxr g)
    by (unfold m0, World.CartModel; cbn [Par.GetLocNyr Par.GetLocNxr];
        rewrite !Nat.div_1_r; split; reflexivity).
  destruct Hext as (EY & EX).
  assert (Hm0 : root_model_matches m m0).
  { unfold root_model_matches in *. rewrite EY, EX. unfold m0, World.CartModel.
    cbn [Par.GetNt Par.GetDt Par.GetDx Par.GetDy Par.GetAx Par.GetAy Par.GetB Par.GetC].
    exact Hm. }
  assert (Hnb : (Par.GetUp m0 < 0)%Z /\ (Par.GetDown m0 < 0)%Z /\
                (Par.GetLeft m0 < 0)%Z /\ (Par.GetRight m0 < 0)%Z)
    by (unfold m0, World.CartModel; cbn; lia).
  destruct Hnb as (Hup & Hdown & Hleft & Hright).
  set (w0 := fun r : nat =>
               Par.SetMatrixCoefficients (World.CartModel g 1 1 r)
                 (Par.set_UV (Par.Burgers2P_new (World.CartModel g 1 1 r))
                    (World.Restrict (Par.GetLocNyr g) (World.CartModel g 1 1 r) U0)
                    (World.Restrict (Par.GetLocNyr g) (World.CartModel g 1 1 r) U0))).
  set (init := Par.set_UV (Par.Burgers2P_new m0) U0 U0).
  assert (E0 : w0 0 = Par.SetMatrixCoefficients m0 init).
  { unfold w0, init. rewrite !Restrict_single by assumption. reflexivity. }
  assert (Inv : forall k, k + 1 <= Z.to_nat (Root.Nt m) ->
             let w := for_loop k (fun _ w' => World.WorldStep (World.CartModel g 1 1) w') w0 in
             nth k (fst UV) [] = Par.U (w 0) /\ nth k (snd UV) [] = Par.V (w 0) /\
             wf_worker m0 (w 0) /\
             Par.dVel_dx_2_coeffs (w 0) = Par.dVel_dx_2_coeffs (Par.SetMatrixCoefficients m0 init) /\
             Par.dVel_dy_2_coeffs (w 0) = Par.dVel_dy_2_coeffs (Par.SetMatrixCoefficients m0 init) /\
             Par.dVel_dx_coeffs (w 0) = Par.dVel_dx_coeffs (Par.SetMatrixCoefficients m0 init) /\
             Par.dVel_dy_coeffs (w 0) = Par.dVel_dy_coeffs (Par.SetMatrixCoefficients m0 init)).
  { induction k as [|k IH]; intros Hk; cbn [for_loop].
    - rewrite E0, HL0U, HL0V.
      split; [reflexivity|]. split; [reflexivity|].
      split; [|repeat split].
      unfold wf_worker, caches_allocated, Par.SetMatrixCoefficients, init. cbv zeta.
      cbn [Par.upVel Par.downVel Par.leftVel Par.rightVel Par.U Par.V Par.set_coeffs
           Par.set_UV Par.Burgers2P_new].
      rewrite !length_alloc, EY, EX, HU0. repeat split.
    - cbv zeta in IH. destruct IH as (EU & EV & Hwf & C1 & C2 & C3 & C4); [lia|].
      set (w := for_loop k (fun _ w' => World.WorldStep (World.CartModel g 1 1) w') w0) in *.
      unfold World.WorldStep at 1 2 3 4 5 6 7. fold m0.
      set (incU := World.deliver (World.CartModel g 1 1) (fun q => Par.U (w q)) 0).
      set (incV := World.deliver (World.CartModel g 1 1) (fun q => Par.V (w q)) 0).
      destruct (@TimeStep_UV K A m0 (w 0) incU incV Hwf) as (PU & PV).
      destruct (@TimeStep_coeffs K A m0 (w 0) incU incV) as (F1 & F2 & F3 & F4).
      assert (Hrm : root_matches m (Root.SetMatrixCoefficients m) m0 (w 0)).
      { apply (@root_matches_built K A m m0 init (w 0) Hm0); try assumption; reflexivity. }
      destruct (Hlev k ltac:(lia)) as (RU & RV).
      replace (S k) with (k + 1) by lia.
      rewrite RU, RV, EU, EV, PU, PV.
      split.
      { apply (@Root_step_matches K A L m (Root.SetMatrixCoefficients m)
                 m0 (w 0) (Par.U (w 0)) (Par.V (w 0)) true incU Hrm HN H3
                 Hup Hdown Hleft Hright (proj1 Hwf)). }
      split.
      { apply (@Root_step_matches K A L m (Root.SetMatrixCoefficients m)
                 m0 (w 0) (Par.U (w 0)) (Par.V (w 0)) false incV Hrm HN H3
                 Hup Hdown Hleft Hright (proj1 Hwf)). }
      split; [apply TimeStep_wf; exact Hwf|].
      rewrite F1, F2, F3, F4. auto. }
  destruct (Inv (Z.to_nat (Root.Nt m) - 1) ltac:(lia)) as (EU & EV & _).
  split; [exact EU|exact EV].
Qed.

(** ** The energy of a run *)

Section SumFacts.
Context {K : Type} {A : Arith K} {L : @ArithLaws K A}.

Add Ring KringX5 : arith_ring.

(** A sum over [a*b] indices, taken block by block. *)
Lemma sum_upto_split (a b : nat) (h : nat -> K) :
  sum_upto (a * b) h = sum_upto a (fun i => sum_upto b (fun j => h (i * b + j))).
Proof.
  induction a as [|a IH]; [reflexivity|].
  cbn [sum_upto]. rewrite <- IH. clear IH.
  replace (S a * b) with (a * b + b) by lia.
  induction b as [|b IHb].
  - rewrite Nat.add_0_r. cbn [sum_upto]. ring.
  - replace (a * S b + S b) with (S (a * S b + b)) by lia. cbn [sum_upto].
    assert (E : forall n, sum_upto (a * S b + n) h =
                          add (sum_upto (a * S b) h) (sum_upto n (fun j => h (a * S b + j)))).
    { induction n as [|n IHn].
      - rewrite Nat.add_0_r. cbn [sum_upto]. ring.
      - replace (a * S b + S n) with (S (a * S b + n)) by lia. cbn [sum_upto].
        rewrite IHn. ring. }
    rewrite E. ring.
Qed.

(** Two nested sums, in either order. *)
Lemma sum_upto_swap (a b : nat) (h : nat -> nat -> K) :
  sum_upto a (fun i => sum_upto b (fun j => h i j)) =
  sum_upto b (fun j => sum_upto a (fun i => h i j)).
Proof.
  induction a as [|a IH]; cbn [sum_upto].
  - symmetry. apply sum_upto_zero. intros. reflexivity.
  - rewrite IH. rewrite <- sum_upto_add. reflexivity.
Qed.

Lemma sum_upto_scale (n : nat) (k1 k2 k3 : K) (f h : nat -> K) :
  sum_upto n (fun q => mul (mul (mul k1 (add (f q) (h q))) k2) k3) =
  mul (mul (mul k1 (add (sum_upto n f) (sum_upto n h))) k2) k3.
Proof.
  induction n as [|n IH]; cbn [sum_upto]; [ring|]. rewrite IH. ring.
Qed.

(** The cells of the sub-blocks of a [Px x Py] mesh are the cells of the grid. *)
Lemma sum_over_blocks (Px Py nxr nyr : nat) (F : nat -> nat -> K) (f : nat -> K) :
  (forall px py c r, px < Px -> py < Py -> c < nxr -> r < nyr ->
     F (px * Py + py) (c * nyr + r) = f (gidx Py nxr nyr px py c r)) ->
  sum_upto (Px * Py) (fun q => sum_upto (nyr * nxr) (fun idx => F q idx)) =
  sum_upto ((Py * nyr) * (Px * nxr)) f.
Proof.
  intros HF.
  rewrite (Nat.mul_comm (Py * nyr) (Px * nxr)).
  rewrite (sum_upto_split (Px * nxr) (Py * nyr) f).
  rewrite (sum_upto_split Px nxr).
  rewrite (sum_upto_split Px Py).
  apply sum_upto_ext. intros px Hpx.
  transitivity (sum_upto Py (fun py => sum_upto nxr (fun c => sum_upto nyr (fun r =>
                  f (gidx Py nxr nyr px py c r))))).
  - apply sum_upto_ext. intros py Hpy.
    rewrite (Nat.mul_comm nyr nxr), (sum_upto_split nxr nyr).
    apply sum_upto_ext. intros c Hc. apply sum_upto_ext. intros r Hr.
    apply HF; assumption.
  - rewrite sum_upto_swap.
    apply sum_upto_ext. intros c Hc.
    rewrite (sum_upto_split Py nyr). reflexivity.
Qed.

End SumFacts.

(** In exact arithmetic the energy that [SetEnergy] records at the end of
    a run does not depend on the decomposition: on every worker of a
    [Px x Py] mesh that divides the grid evenly it is the energy a single
    worker owning the whole grid records. *)
Theorem Energy_is_independent_of_the_decomposition
    (K : Type) (A : Arith K) (L : @ArithLaws K A)
    (g : Par.Model K) (Px Py nxr nyr : nat) (U0 V0 : list K) (r : nat) :
  0 < Px -> 0 < Py ->
  Par.GetLocNxr g = Px * nxr ->
  Par.GetLocNyr g = Py * nyr ->
  Par.E (World.SetEnergy (Px * Py) (World.CartModel g Px Py) (World.Run g Px Py U0 V0) r) =
  Par.E (World.SetEnergy 1 (World.CartModel g 1 1) (World.Run g 1 1 U0 V0) 0).
Proof.
  intros HPx HPy HX HY.
  destruct (@Run_inv K A L g Px Py nxr nyr HPx HPy HX HY U0 V0) as (_ & _ & _ & HU & HV).
  unfold World.SetEnergy, World.CalculateEnergyState, World.MPI_Allreduce_SUM.
  cbn [Par.E Par.set_E]. unfold Par.LocalEnergyState. cbv zeta.
  set (w := World.Run g Px Py U0 V0) in *. set (wG := World.Run g 1 1 U0 V0) in *.
  assert (EG : Par.GetLocNyr (World.CartModel g 1 1 0) = Py * nyr /\
               Par.GetLocNxr (World.CartModel g 1 1 0) = Px * nxr).
  { unfold World.CartModel. cbn [Par.GetLocNyr Par.GetLocNxr].
    rewrite !Nat.div_1_r. split; assumption. }
  destruct EG as (EGy & EGx).
  assert (EL : forall q, Par.GetLocNyr (World.CartModel g Px Py q) = nyr /\
                         Par.GetLocNxr (World.CartModel g Px Py q) = nxr /\
                         Par.GetDx (World.CartModel g Px Py q) = Par.GetDx g /\
                         Par.GetDy (World.CartModel g Px Py q) = Par.GetDy g).
  { intros q. unfold World.CartModel. cbn [Par.GetLocNyr Par.GetLocNxr Par.GetDx Par.GetDy].
    rewrite HX, HY, !(Nat.mul_comm _ nxr), !(Nat.mul_comm _ nyr).
    rewrite !Nat.div_mul by lia. repeat split. }
  rewrite (@sum_upto_ext K A (Px * Py) _
             (fun q => mul (mul (mul half
                (add (sum_upto (nyr * nxr) (fun k => mul (rd (Par.U (w q)) k) (rd (Par.U (w q)) k)))
                     (sum_upto (nyr * nxr) (fun k => mul (rd (Par.V (w q)) k) (rd (Par.V (w q)) k)))))
                (Par.GetDx g)) (Par.GetDy g))).
  2:{ intros q Hq. destruct (EL q) as (E1 & E2 & E3 & E4).
      rewrite E1, E2, E3, E4, !ddot_self. reflexivity. }
  rewrite (@sum_upto_scale K A L).
  rewrite (@sum_over_blocks K A L Px Py nxr nyr
             (fun q k => mul (rd (Par.U (w q)) k) (rd (Par.U (w q)) k))
             (fun k => mul (rd (Par.U (wG 0)) k) (rd (Par.U (wG 0)) k)))
    by (intros px py c r0 H1 H2 H3 H4; rewrite (HU px py c r0 H1 H2 H3 H4); reflexivity).
  rewrite (@sum_over_blocks K A L Px Py nxr nyr
             (fun q k => mul (rd (Par.V (w q)) k) (rd (Par.V (w q)) k))
             (fun k => mul (rd (Par.V (wG 0)) k) (rd (Par.V (wG 0)) k)))
    by (intros px py c r0 H1 H2 H3 H4; rewrite (HV px py c r0 H1 H2 H3 H4); reflexivity).
  cbn [sum_upto]. rewrite EGy, EGx, !ddot_self.
  unfold World.CartModel. cbn [Par.GetDx Par.GetDy].
  pose proof (@arith_ring K A L) as R.
  rewrite (Radd_0_l R). reflexivity.
Qed.

Lemma Energy_is_independent_of_the_decomposition_witness :
  Par.GetLocNxr EnergyRun.g = 2 * 2 /\ Par.GetLocNyr EnergyRun.g = 2 * 2 /\
  Par.E (World.SetEnergy (2 * 2) (World.CartModel EnergyRun.g 2 2)
           (World.Run EnergyRun.g 2 2 EnergyRun.U0 EnergyRun.V0) 3) =
  Par.E (World.SetEnergy 1 (World.CartModel EnergyRun.g 1 1)
           (World.Run EnergyRun.g 1 1 EnergyRun.U0 EnergyRun.V0) 0) /\
  this (Par.E (World.SetEnergy (2 * 2) (World.CartModel EnergyRun.g 2 2)
                 (World.Run EnergyRun.g 2 2 EnergyRun.U0 EnergyRun.V0) 3)) = (18733 # 5120)%Q.
Proof.
  split; [reflexivity|]. split; [reflexivity|]. split; [|vm_compute; reflexivity].
  exact (@Energy_is_independent_of_the_decomposition Qc ArithQc ArithLawsQc
           EnergyRun.g 2 2 2 2 EnergyRun.U0 EnergyRun.V0 3
           ltac:(lia) ltac:(lia) eq_refl eq_refl).
Defined.

(** ** The output path of the partitioned engine *)

Section BlockWrites.
Context {St Addr V : Type}.
Variable get : St -> Addr -> V.
Variable inv : St -> Prop.

(** [body] keeps the invariant, stores [v] at every address [a] with
    [R a v], and leaves the addresses outside [W] as they are. *)
Definition Writes (body : St -> St) (R : Addr -> V -> Prop) (W : Addr -> Prop) : Prop :=
  forall s, inv s ->
    inv (body s) /\
    (forall a v, R a v -> get (body s) a = v) /\
    (forall a, ~ W a -> get (body s) a = get s a).

(** A loop whose iterations write disjoint sets of addresses writes their union. *)
Lemma Writes_for_loop (n : nat) (body : nat -> St -> St)
    (R : nat -> Addr -> V -> Prop) (W : nat -> Addr -> Prop) :
  (forall i, i < n -> Writes (body i) (R i) (W i)) ->
  (forall i a v, i < n -> R i a v -> W i a) ->
  (forall i j a, i < n -> j < n -> i <> j -> W i a -> ~ W j a) ->
  Writes (for_loop n body)
    (fun a v => exists i, i < n /\ R i a v) (fun a => exists i, i < n /\ W i a).
Proof.
  induction n as [|n IH]; intros HB HRW HD s Hs.
  - simpl. split; [exact Hs|]. split.
    + intros a v (i & Hi & _). lia.
    + reflexivity.
  - cbn [for_loop].
    destruct (IH (fun i Hi => HB i (Nat.lt_lt_succ_r _ _ Hi))
                 (fun i a v Hi => HRW i a v (Nat.lt_lt_succ_r _ _ Hi))
                 (fun i j a Hi Hj => HD i j a (Nat.lt_lt_succ_r _ _ Hi) (Nat.lt_lt_succ_r _ _ Hj))
                 s Hs) as (Hinv & Hr & Hw).
    destruct (HB n (Nat.lt_succ_diag_r n) (for_loop n body s) Hinv) as (Hinv' & Hr' & Hw').
    split; [exact Hinv'|]. split.
    + intros a v (i & Hi & HR). destruct (Nat.eq_dec i n) as [->|Hne].
      * apply Hr'. exact HR.
      * rewrite Hw'.
        -- apply Hr. exists i. split; [lia|exact HR].
        -- apply (HD i n a); try lia. apply (HRW i a v); [lia|exact HR].
    + intros a Hna. rewrite Hw'.
      * apply Hw. intros (i & Hi & HW). apply Hna. exists i. split; [lia|exact HW].
      * intros HW. apply Hna. exists n. split; [lia|exact HW].
Qed.

End BlockWrites.

Section OutputPath.
Context {K : Type} {A : Arith K}.

(** A store into an array of [N] cells. *)
Lemma Writes_upd (N i : nat) (v : K) :
  i < N ->
  Writes (@rd K A) (fun a => length a = N) (fun a => upd a i v)
    (fun a' v' => a' = i /\ v' = v) (fun a' => a' = i).
Proof.
  intros Hi a Ha. split; [rewrite length_upd; exact Ha|]. split.
  - intros a' v' (-> & ->). apply rd_upd_eq. rewrite Ha. exact Hi.
  - intros a' Hne. apply rd_upd_neq. intros E. apply Hne. symmetry. exact E.
Qed.

(** A store into a matrix of [rows x cols] cells. *)
Lemma Writes_upd2 (rows cols y x : nat) (v : K) :
  y < rows -> x < cols ->
  Writes (fun M (a : nat * nat) => Par.rd2 M (fst a) (snd a)) (matrix_of rows cols)
    (fun M => Par.upd2 M y x v)
    (fun a v' => a = (y, x) /\ v' = v) (fun a => a = (y, x)).
Proof.
  intros Hy Hx M (HM & Hrows). unfold Par.upd2, Par.rd2. split; [|split].
  - split; [rewrite length_upd_any; exact HM|].
    intros y' Hy'. destruct (Nat.eq_dec y' y) as [->|Hne].
    + rewrite nth_upd_eq by (rewrite HM; exact Hy). rewrite length_upd. apply Hrows. exact Hy.
    + rewrite nth_upd_neq by (intros E; apply Hne; symmetry; exact E). apply Hrows. exact Hy'.
  - intros a v' (-> & ->). cbn [fst snd].
    rewrite nth_upd_eq by (rewrite HM; exact Hy).
    apply rd_upd_eq. rewrite (Hrows y Hy). exact Hx.
  - intros [y' x'] Hne. cbn [fst snd].
    destruct (Nat.eq_dec y' y) as [->|Hney].
    + rewrite nth_upd_eq by (rewrite HM; exact Hy).
      apply rd_upd_neq. intros E. apply Hne. rewrite E. reflexivity.
    + rewrite nth_upd_neq by (intros E; apply Hney; symmetry; exact E). reflexivity.
Qed.

(** At the root the gather stores the block of every rank in its segment. *)
Lemma MPI_Gatherv_root (P : nat) (sent : nat -> list K) (recvbuf : list K)
    (recvcounts displs : list nat) (root : nat) :
  (forall k, k < P -> Par.entry displs k + Par.entry recvcounts k <= length recvbuf) ->
  (forall k k', k < P -> k' < P -> k <> k' ->
     Par.entry displs k + Par.entry recvcounts k <= Par.entry displs k' \/
     Par.entry displs k' + Par.entry recvcounts k' <= Par.entry displs k) ->
  forall k t, k < P -> t < Par.entry recvcounts k ->
    rd (Par.MPI_Gatherv P sent recvbuf recvcounts displs root root) (Par.entry displs k + t)
    = rd (sent k) t.
Proof.
  intros Hin Hdis k t Hk Ht. unfold Par.MPI_Gatherv. rewrite Nat.eqb_refl.
  set (N := length recvbuf).
  assert (HW : Writes (@rd K A) (fun a => length a = N)
                 (for_loop P (fun k buf =>
                    for_loop (Par.entry recvcounts k) (fun t buf' =>
                      upd buf' (Par.entry displs k + t) (rd (sent k) t)) buf))
                 (fun a v => exists k, k < P /\
                    exists t, t < Par.entry recvcounts k /\
                      (a = Par.entry displs k + t /\ v = rd (sent k) t))
                 (fun a => exists k, k < P /\
                    exists t, t < Par.entry recvcounts k /\ a = Par.entry displs k + t)).
  { apply Writes_for_loop.
    - intros k0 Hk0. apply Writes_for_loop.
      + intros t0 Ht0. apply Writes_upd. specialize (Hin k0 Hk0). fold N in Hin. lia.
      + intros t0 a v _ (-> & _). reflexivity.
      + intros t0 t1 a _ _ Hne -> E. lia.
    - intros k0 a v _ (t0 & Ht0 & -> & _). exists t0. split; [exact Ht0|reflexivity].
    - intros k0 k1 a Hk0 Hk1 Hne (t0 & Ht0 & ->) (t1 & Ht1 & E).
      destruct (Hdis k0 k1 Hk0 Hk1 Hne); lia. }
  destruct (HW recvbuf eq_refl) as (_ & Hr & _).
  apply Hr. exists k. split; [exact Hk|]. exists t. split; [exact Ht|]. split; reflexivity.
Qed.

Lemma MPI_Gatherv_elsewhere (P : nat) (sent : nat -> list K) (recvbuf : list K)
    (recvcounts displs : list nat) (root rank : nat) :
  rank <> root -> Par.MPI_Gatherv P sent recvbuf recvcounts displs root rank = recvbuf.
Proof.
  intros Hne. unfold Par.MPI_Gatherv.
  destruct (Nat.eqb_spec rank root) as [E|_]; [contradiction|reflexivity].
Qed.

(** What [AssembleMatrix] leaves in [M] at the root. *)
Lemma AssembleMatrix_root (lay : Par.Layout) (P : nat) (sent : nat -> list K)
    (M : list (list K)) :
  Par.GetRank lay = 0 -> layout_ok lay P ->
  matrix_of (Par.GetNy lay - 2) (Par.GetNx lay - 2) M ->
  let M' := Par.AssembleMatrix lay P sent M in
  let nx := Par.entry (Par.GetRankNxrMap lay) in
  let ny := Par.entry (Par.GetRankNyrMap lay) in
  let ox := Par.entry (Par.GetRankDisplsXMap lay) in
  let oy := Par.entry (Par.GetRankDisplsYMap lay) in
  matrix_of (Par.GetNy lay - 2) (Par.GetNx lay - 2) M' /\
  (forall k i j, k < P -> i < nx k -> j < ny k ->
     Par.rd2 M' (oy k + j) (ox k + i) = rd (sent k) (i * ny k + j)) /\
  (forall y x, (forall k, k < P -> ~ (oy k <= y < oy k + ny k /\ ox k <= x < ox k + nx k)) ->
     Par.rd2 M' y x = Par.rd2 M y x).
Proof.
  intros Hrank Hok HM. cbv zeta.
  unfold layout_ok in Hok. cbv zeta in Hok. destruct Hok as (HP & Hk & Hd).
  unfold Par.AssembleMatrix. cbv zeta. rewrite Hrank, HP. cbn [Nat.eqb].
  set (nx := Par.entry (Par.GetRankNxrMap lay)) in *.
  set (ny := Par.entry (Par.GetRankNyrMap lay)) in *.
  set (ox := Par.entry (Par.GetRankDisplsXMap lay)) in *.
  set (oy := Par.entry (Par.GetRankDisplsYMap lay)) in *.
  set (cnt := Par.entry (Par.GetRecvCount lay)) in *.
  set (dsp := Par.entry (Par.GetDispls lay)) in *.
  set (globalVel := Par.MPI_Gatherv P sent _ _ _ 0 0).
  assert (HG : forall k i j, k < P -> i < nx k -> j < ny k ->
                 rd globalVel (dsp k + i * ny k + j) = rd (sent k) (i * ny k + j)).
  { intros k i j Hk0 Hi Hj. unfold globalVel.
    rewrite <- Nat.add_assoc.
    apply MPI_Gatherv_root.
    - intros k0 Hk1. rewrite length_alloc. apply (Hk k0 Hk1).
    - intros k0 k1 H0 H1 Hne. apply (Hd k0 k1 H0 H1 Hne).
    - exact Hk0.
    - fold cnt. rewrite (proj1 (Hk k Hk0)). nia. }
  assert (HW : Writes (fun M0 (a : nat * nat) => Par.rd2 M0 (fst a) (snd a))
                 (matrix_of (Par.GetNy lay - 2) (Par.GetNx lay - 2))
                 (for_loop P (fun k M1 =>
                    for_loop (nx k) (fun i M2 =>
                      for_loop (ny k) (fun j M3 =>
                        Par.upd2 M3 (oy k + j) (ox k + i)
                          (rd globalVel (dsp k + i * ny k + j))) M2) M1))
                 (fun a v => exists k, k < P /\
                    exists i, i < nx k /\ exists j, j < ny k /\
                      (a = (oy k + j, ox k + i) /\ v = rd globalVel (dsp k + i * ny k + j)))
                 (fun a => exists k, k < P /\
                    exists i, i < nx k /\ exists j, j < ny k /\ a = (oy k + j, ox k + i))).
  { apply Writes_for_loop.
    - intros k Hk0. apply Writes_for_loop.
      + intros i Hi. apply Writes_for_loop.
        * intros j Hj. apply Writes_upd2; destruct (Hk k Hk0) as (_ & _ & Hy & Hx); lia.
        * intros j a v _ (-> & _). reflexivity.
        * intros j j' a _ _ Hne -> E. injection E. lia.
      + intros i a v _ (j & Hj & -> & _). exists j. split; [exact Hj|reflexivity].
      + intros i i' a _ _ Hne (j & Hj & ->) (j' & Hj' & E). injection E. lia.
    - intros k a v _ (i & Hi & j & Hj & -> & _).
      exists i. split; [exact Hi|]. exists j. split; [exact Hj|reflexivity].
    - intros k k' a Hk0 Hk1 Hne (i & Hi & j & Hj & ->) (i' & Hi' & j' & Hj' & E).
      injection E as Ey Ex. destruct (proj2 (Hd k k' Hk0 Hk1 Hne)) as [H|[H|[H|H]]]; lia. }
  destruct (HW M HM) as (Hinv & Hr & Hw).
  split; [exact Hinv|]. split.
  - intros k i j Hk0 Hi Hj.
    rewrite <- (HG k i j Hk0 Hi Hj).
    apply (Hr (oy k + j, ox k + i)).
    exists k. split; [exact Hk0|]. exists i. split; [exact Hi|]. exists j. split; [exact Hj|].
    split; reflexivity.
  - intros y x Hout. apply (Hw (y, x)).
    intros (k & Hk0 & i & Hi & j & Hj & E). injection E as -> ->.
    apply (Hout k Hk0). lia.
Qed.

End OutputPath.

Section OutputLines.
Context {K : Type} {A : Arith K}.

(** A loop that appends one item per iteration. *)
Lemma for_loop_append {T : Type} (n : nat) (f : nat -> T) (init : list T) :
  for_loop n (fun i acc => acc ++ [f i]) init = init ++ map f (seq 0 n).
Proof.
  induction n as [|n IH]; cbn [for_loop].
  - simpl. rewrite app_nil_r. reflexivity.
  - rewrite IH, seq_S, map_app, <- app_assoc. reflexivity.
Qed.

Lemma WriteOf_root (lay : Par.Layout) (P : nat) (sent : nat -> list K)
    (M : list (list K)) (ofs : list (Par.Line K)) (id : ascii) :
  Par.GetRank lay = 0 ->
  Par.WriteOf lay P sent M ofs id =
  (Par.AssembleMatrix lay P sent M,
   ofs ++ padded_grid (Par.GetNy lay) (Par.GetNx lay) (Par.AssembleMatrix lay P sent M) id).
Proof.
  intros Hrank. unfold Par.WriteOf. cbv zeta. rewrite Hrank. cbn [Nat.eqb].
  f_equal. unfold padded_grid.
  set (M1 := Par.AssembleMatrix lay P sent M).
  set (tok := fun j i =>
                if (j =? 0) || (i =? 0) || (j =? Par.GetNy lay - 1) || (i =? Par.GetNx lay - 1)
                then Par.IntTok K 0 else Par.DblTok (Par.rd2 M1 (j - 1) (i - 1))).
  rewrite (@for_loop_ext _ _
             (fun j of' => of' ++ [Par.Cells (map (tok j) (seq 0 (Par.GetNx lay)))])).
  - rewrite for_loop_append, <- app_assoc. reflexivity.
  - intros j x Hj. f_equal. f_equal. f_equal.
    rewrite (@for_loop_ext _ _ (fun i row' => row' ++ [tok j i])).
    + rewrite for_loop_append. reflexivity.
    + intros i row Hi. unfold tok.
      destruct ((j =? 0) || (i =? 0) || (j =? Par.GetNy lay - 1) || (i =? Par.GetNx lay - 1));
        reflexivity.
Qed.

Lemma WriteOf_elsewhere (lay : Par.Layout) (P : nat) (sent : nat -> list K)
    (M : list (list K)) (ofs : list (Par.Line K)) (id : ascii) :
  Par.GetRank lay <> 0 -> Par.WriteOf lay P sent M ofs id = (M, ofs).
Proof.
  intros Hrank. unfold Par.WriteOf, Par.AssembleMatrix. cbv zeta.
  destruct (Nat.eqb_spec (Par.GetRank lay) 0) as [E|_]; [contradiction|reflexivity].
Qed.

(** The matrix that [WriteVelocityFile] allocates. *)
Lemma allocated_matrix (rows cols : nat) :
  matrix_of rows cols
    (for_loop rows (fun j M' => upd M' j (alloc cols : list K)) (repeat [] rows)).
Proof.
  assert (H : forall n, n <= rows ->
            length (for_loop n (fun j M' => upd M' j (alloc cols : list K)) (repeat [] rows)) = rows /\
            forall y, y < n ->
              nth y (for_loop n (fun j M' => upd M' j (alloc cols : list K)) (repeat [] rows)) []
              = alloc cols).
  { induction n as [|n IH]; intros Hn; cbn [for_loop].
    - split; [apply repeat_length|]. intros y Hy. lia.
    - destruct IH as (Hl & Hr); [lia|]. split; [rewrite length_upd_any; exact Hl|].
      intros y Hy. destruct (Nat.eq_dec y n) as [->|Hne].
      + apply nth_upd_eq. rewrite Hl. lia.
      + rewrite nth_upd_neq by (intros E; apply Hne; symmetry; exact E). apply Hr. lia. }
  destruct (H rows (le_n _)) as (Hl & Hr). split; [exact Hl|].
  intros y Hy. rewrite (Hr y Hy). apply length_alloc.
Qed.

(** A matrix that holds the cells of [G] is written as [G] is rendered. *)
Lemma padded_grid_rendered (Ny Nx : nat) (M : list (list K)) (G : list K) (id : ascii) :
  (forall y x, y < Ny - 2 -> x < Nx - 2 -> Par.rd2 M y x = rd G (x * (Ny - 2) + y)) ->
  padded_grid Ny Nx M id = rendered_field Ny Nx G id.
Proof.
  intros H. unfold padded_grid, rendered_field. f_equal.
  apply map_ext_in. intros j Hj. apply in_seq in Hj. f_equal.
  apply map_ext_in. intros i Hi. apply in_seq in Hi.
  destruct (Nat.eqb_spec j 0); [reflexivity|].
  destruct (Nat.eqb_spec i 0); [reflexivity|].
  destruct (Nat.eqb_spec j (Ny - 1)); [reflexivity|].
  destruct (Nat.eqb_spec i (Nx - 1)); [reflexivity|].
  cbn [orb]. f_equal. apply H; lia.
Qed.

Lemma AssembleMatrix_of_blocks (lay : Par.Layout) (P : nat) (sent : nat -> list K)
    (M : list (list K)) (G : list K) :
  Par.GetRank lay = 0 -> layout_ok lay P -> blocks_of lay P sent G ->
  matrix_of (Par.GetNy lay - 2) (Par.GetNx lay - 2) M ->
  matrix_of (Par.GetNy lay - 2) (Par.GetNx lay - 2) (Par.AssembleMatrix lay P sent M) /\
  forall y x, y < Par.GetNy lay - 2 -> x < Par.GetNx lay - 2 ->
    Par.rd2 (Par.AssembleMatrix lay P sent M) y x = rd G (x * (Par.GetNy lay - 2) + y).
Proof.
  intros Hrank Hok (Hsub & Hcov) HM.
  destruct (@AssembleMatrix_root K A lay P sent M Hrank Hok HM) as (Hinv & Hr & _).
  split; [exact Hinv|].
  intros y x Hy Hx. destruct (Hcov y x Hy Hx) as (k & Hk & Hyk & Hxk).
  cbv zeta in Hr.
  set (ox := Par.entry (Par.GetRankDisplsXMap lay)) in *.
  set (oy := Par.entry (Par.GetRankDisplsYMap lay)) in *.
  replace y with (oy k + (y - oy k)) by lia.
  replace x with (ox k + (x - ox k)) by lia.
  rewrite Hr by (try exact Hk; lia).
  apply Hsub; [exact Hk|lia|lia].
Qed.

End OutputLines.

(** At the root, when the tables of the model describe a gather of
    disjoint blocks, [AssembleMatrix] stores the cell [(i, j)] of the block
    of every rank [k] in row [displ_y + j], column [displ_x + i] of [M]
    (column-major blocks into a row-major matrix), leaves the cells of [M]
    outside the blocks as they were, and keeps the extents of [M]; on the
    other ranks it leaves [M] as it is. *)
Theorem AssembleMatrix_places_every_block (K : Type) (A : Arith K)
    (lay : Par.Layout) (P : nat) (sent : nat -> list K) (M : list (list K)) :
  layout_ok lay P ->
  matrix_of (Par.GetNy lay - 2) (Par.GetNx lay - 2) M ->
  let M' := Par.AssembleMatrix lay P sent M in
  let nx := Par.entry (Par.GetRankNxrMap lay) in
  let ny := Par.entry (Par.GetRankNyrMap lay) in
  let ox := Par.entry (Par.GetRankDisplsXMap lay) in
  let oy := Par.entry (Par.GetRankDisplsYMap lay) in
  (Par.GetRank lay = 0 ->
     matrix_of (Par.GetNy lay - 2) (Par.GetNx lay - 2) M' /\
     (forall k i j, k < P -> i < nx k -> j < ny k ->
        Par.rd2 M' (oy k + j) (ox k + i) = rd (sent k) (i * ny k + j)) /\
     (forall y x, (forall k, k < P -> ~ (oy k <= y < oy k + ny k /\ ox k <= x < ox k + nx k)) ->
        Par.rd2 M' y x = Par.rd2 M y x)) /\
  (Par.GetRank lay <> 0 -> M' = M).
Proof.
  intros Hok HM. cbv zeta. split.
  - intros Hrank. exact (@AssembleMatrix_root K A lay P sent M Hrank Hok HM).
  - intros Hrank. unfold Par.AssembleMatrix. cbv zeta.
    destruct (Nat.eqb_spec (Par.GetRank lay) 0) as [E|_]; [contradiction|reflexivity].
Qed.

(** The lines of the file, on the root and elsewhere. *)
Lemma WriteVelocityFile_writes_the_padded_fields_lemma (K : Type) (A : Arith K)
    (lay : Par.Layout) (P : nat) (sentU sentV : nat -> list K) (GU GV : list K) :
  layout_ok lay P ->
  blocks_of lay P sentU GU -> blocks_of lay P sentV GV ->
  (Par.GetRank lay = 0 ->
     Par.WriteVelocityFile lay P sentU sentV =
     rendered_field (Par.GetNy lay) (Par.GetNx lay) GU "U"%char ++
     rendered_field (Par.GetNy lay) (Par.GetNx lay) GV "V"%char) /\
  (Par.GetRank lay <> 0 -> Par.WriteVelocityFile lay P sentU sentV = []).
Proof.
  intros Hok HBU HBV. split.
  - intros Hrank. unfold Par.WriteVelocityFile. cbv zeta.
    rewrite !WriteOf_root by exact Hrank.
    pose proof (@allocated_matrix K A (Par.GetNy lay - 2) (Par.GetNx lay - 2)) as HM0.
    set (M0 := for_loop (Par.GetNy lay - 2) _ _) in *.
    destruct (@AssembleMatrix_of_blocks K A lay P sentU M0 GU Hrank Hok HBU HM0) as (HM1 & HU).
    set (M1 := Par.AssembleMatrix lay P sentU M0) in *.
    destruct (@AssembleMatrix_of_blocks K A lay P sentV M1 GV Hrank Hok HBV HM1) as (_ & HV).
    rewrite (@padded_grid_rendered K A _ _ M1 GU "U"%char HU).
    rewrite (@padded_grid_rendered K A _ _ _ GV "V"%char HV).
    reflexivity.
  - intros Hrank. unfold Par.WriteVelocityFile. cbv zeta.
    rewrite !WriteOf_elsewhere by exact Hrank. reflexivity.
Qed.

(** Only the root writes: there, when the blocks of the workers tile the
    grid as the tables say, the file holds for [U] and then for [V] a title
    and [Ny] lines of [Nx] tokens, the [int] zero on the boundary of the
    grid and, at line [j], position [i], the value of the interior cell in
    column [i-1], row [j-1].  The matrix is shared by the two calls of
    [WriteOf], and no cell of [U] is left in the lines of [V].  The other
    ranks write nothing. *)
Theorem WriteVelocityFile_writes_the_padded_fields (K : Type) (A : Arith K)
    (lay : Par.Layout) (P : nat) (sentU sentV : nat -> list K) (GU GV : list K) :
  layout_ok lay P ->
  blocks_of lay P sentU GU -> blocks_of lay P sentV GV ->
  (Par.GetRank lay = 0 ->
     Par.WriteVelocityFile lay P sentU sentV =
     rendered_field (Par.GetNy lay) (Par.GetNx lay) GU "U"%char ++
     rendered_field (Par.GetNy lay) (Par.GetNx lay) GV "V"%char) /\
  (Par.GetRank lay <> 0 -> Par.WriteVelocityFile lay P sentU sentV = []).
Proof.
  intros Hok HBU HBV.
  exact (@WriteVelocityFile_writes_the_padded_fields_lemma K A lay P sentU sentV GU GV Hok HBU HBV).
Qed.

Lemma TimeStep_is_identity_when_dt_is_zero_witness :
  wf_worker StillExample.m Examples.st2 /\ Par.GetDt StillExample.m = zero /\
  Par.U (Par.TimeStep StillExample.m Examples.st2 Examples.inc2 Examples.inc2) = Par.U Examples.st2 /\
  Par.U Examples.st2 = [9; 10; 13; 14]%Z.
Proof.
  assert (Hwf : wf_worker StillExample.m Examples.st2)
    by (unfold wf_worker, caches_allocated; repeat split; reflexivity).
  split; [exact Hwf|]. split; [reflexivity|]. split; [|reflexivity].
  exact (proj1 (@TimeStep_is_identity_when_dt_is_zero Z ArithZ ArithLawsZ StillExample.m
                  Examples.st2 Examples.inc2 Examples.inc2 Hwf eq_refl)).
Defined.

Lemma Root_run_agrees_with_single_worker_run_witness :
  root_model_matches Examples.root_m RootExample.g /\
  nth (Z.to_nat (Root.Nt Examples.root_m) - 1)
      (fst (Root.SetIntegratedVelocity Examples.root_m Examples.root_U)) [] =
  Par.U (World.Run RootExample.g 1 1 Examples.root_U Examples.root_U 0).
Proof.
  assert (Hm : root_model_matches Examples.root_m RootExample.g)
    by (unfold root_model_matches; repeat split; vm_compute; reflexivity).
  split; [exact Hm|].
  exact (proj1 (@Root_run_agrees_with_single_worker_run Z ArithZ ArithLawsZ
                  Examples.root_m RootExample.g Examples.root_U Hm eq_refl
                  ltac:(vm_compute; discriminate) ltac:(vm_compute; discriminate) eq_refl)).
Defined.

Section CartesianLayout.
Context {K : Type} {A : Arith K}.

Variable g : Par.Model K.
Variables Px Py nxr nyr : nat.
Hypothesis HPx : 0 < Px.
Hypothesis HPy : 0 < Py.
Hypothesis HX : Par.GetLocNxr g = Px * nxr.
Hypothesis HY : Par.GetLocNyr g = Py * nyr.

Lemma entry_map_seq (f : nat -> nat) (n k : nat) :
  k < n -> Par.entry (map f (seq 0 n)) k = f k.
Proof.
  intros Hk. unfold Par.entry.
  rewrite (nth_indep _ 0 (f 0)) by (rewrite length_map, length_seq; exact Hk).
  rewrite map_nth, seq_nth by exact Hk. reflexivity.
Qed.

Lemma CartLayout_tables (r k : nat) :
  k < Px * Py ->
  let lay := World.CartLayout g Px Py r in
  Par.entry (Par.GetRankNxrMap lay) k = nxr /\
  Par.entry (Par.GetRankNyrMap lay) k = nyr /\
  Par.entry (Par.GetRankDisplsXMap lay) k = k / Py * nxr /\
  Par.entry (Par.GetRankDisplsYMap lay) k = k mod Py * nyr /\
  Par.entry (Par.GetRecvCount lay) k = nyr * nxr /\
  Par.entry (Par.GetDispls lay) k = k * (nyr * nxr).
Proof.
  intros Hk. cbv zeta. unfold World.CartLayout. cbv zeta.
  cbn [Par.GetRankNxrMap Par.GetRankNyrMap Par.GetRankDisplsXMap Par.GetRankDisplsYMap
       Par.GetRecvCount Par.GetDispls].
  rewrite !entry_map_seq by exact Hk.
  unfold World.CartModel. cbn [Par.GetLocNxr Par.GetLocNyr Par.GetDisplX Par.GetDisplY].
  rewrite HX, HY, !(Nat.mul_comm Px nxr), !(Nat.mul_comm Py nyr), !Nat.div_mul by lia.
  repeat split.
Qed.

Lemma CartLayout_ok (r : nat) : layout_ok (World.CartLayout g Px Py r) (Px * Py).
Proof.
  unfold layout_ok. cbv zeta. split; [reflexivity|].
  assert (Hext : Par.GetNy (World.CartLayout g Px Py r) - 2 = Py * nyr /\
                 Par.GetNx (World.CartLayout g Px Py r) - 2 = Px * nxr)
    by (unfold World.CartLayout; cbn [Par.GetNy Par.GetNx]; lia).
  destruct Hext as (EY & EX). rewrite EY, EX.
  assert (Hq : forall k, k < Px * Py -> k / Py < Px /\ k mod Py < Py).
  { intros k Hk. split.
    - apply Nat.Div0.div_lt_upper_bound. lia.
    - apply Nat.mod_upper_bound. lia. }
  split.
  - intros k Hk. destruct (CartLayout_tables r Hk) as (E1 & E2 & E3 & E4 & E5 & E6).
    rewrite E1, E2, E3, E4, E5, E6. destruct (Hq k Hk) as (Hpx & Hpy).
    split; [lia|]. split; [|split]; nia.
  - intros k k' Hk Hk' Hne.
    destruct (CartLayout_tables r Hk) as (E1 & E2 & E3 & E4 & E5 & E6).
    destruct (CartLayout_tables r Hk') as (F1 & F2 & F3 & F4 & F5 & F6).
    rewrite E1, E2, E3, E4, E5, E6, F1, F2, F3, F4, F5, F6.
    destruct (Hq k Hk) as (Hpx & Hpy). destruct (Hq k' Hk') as (Hpx' & Hpy').
    split; [nia|].
    pose proof (Nat.div_mod_eq k Py) as Dk. pose proof (Nat.div_mod_eq k' Py) as Dk'.
    destruct (Nat.eq_dec (k / Py) (k' / Py)) as [Ex|Nx].
    + assert (Ny : k mod Py <> k' mod Py) by (intros E; apply Hne; rewrite Dk, Dk', Ex, E; reflexivity).
      right. right. nia.
    + nia.
Qed.

Lemma CartLayout_blocks (r : nat) (Fl : nat -> list K) (FG : list K) :
  agree Px Py nxr nyr Fl FG -> blocks_of (World.CartLayout g Px Py r) (Px * Py) Fl FG.
Proof.
  intros Hag. unfold blocks_of. cbv zeta.
  assert (Hext : Par.GetNy (World.CartLayout g Px Py r) - 2 = Py * nyr /\
                 Par.GetNx (World.CartLayout g Px Py r) - 2 = Px * nxr)
    by (unfold World.CartLayout; cbn [Par.GetNy Par.GetNx]; lia).
  destruct Hext as (EY & EX). rewrite EY, EX.
  split.
  - intros k i j Hk.
    destruct (CartLayout_tables r Hk) as (E1 & E2 & E3 & E4 & _).
    rewrite E1, E2, E3, E4. intros Hi Hj.
    assert (Hpx : k / Py < Px) by (apply Nat.Div0.div_lt_upper_bound; lia).
    assert (Hpy : k mod Py < Py) by (apply Nat.mod_upper_bound; lia).
    pose proof (Hag (k / Py) (k mod Py) i j Hpx Hpy Hi Hj) as E. unfold gidx in E.
    replace (k / Py * Py + k mod Py) with k in E
      by (pose proof (Nat.div_mod_eq k Py); lia).
    exact E.
  - intros y x Hy Hx.
    assert (Hnx : 0 < nxr) by (destruct nxr; [lia|lia]).
    assert (Hny : 0 < nyr) by (destruct nyr; [lia|lia]).
    assert (Hpx : x / nxr < Px) by (apply Nat.Div0.div_lt_upper_bound; lia).
    assert (Hpy : y / nyr < Py) by (apply Nat.Div0.div_lt_upper_bound; lia).
    assert (Hk : x / nxr * Py + y / nyr < Px * Py) by nia.
    exists (x / nxr * Py + y / nyr). split; [exact Hk|].
    destruct (CartLayout_tables r Hk) as (E1 & E2 & E3 & E4 & _).
    rewrite E1, E2, E3, E4.
    replace ((x / nxr * Py + y / nyr) / Py) with (x / nxr)
      by (symmetry; rewrite Nat.add_comm; apply cm_div; exact Hpy).
    replace ((x / nxr * Py + y / nyr) mod Py) with (y / nyr)
      by (symmetry; rewrite Nat.add_comm; apply cm_mod; exact Hpy).
    pose proof (Nat.div_mod_eq x nxr). pose proof (Nat.div_mod_eq y nyr).
    pose proof (Nat.mod_upper_bound x nxr ltac:(lia)).
    pose proof (Nat.mod_upper_bound y nyr ltac:(lia)).
    nia.
Qed.

End CartesianLayout.

Lemma agree_single (K : Type) (A : Arith K) (NX NY : nat) (Fl : nat -> list K) :
  agree 1 1 NX NY Fl (Fl 0).
Proof.
  intros px py c r Hpx Hpy Hc Hr. unfold gidx.
  replace px with 0 by lia. replace py with 0 by lia.
  f_equal. lia.
Qed.

(** In exact arithmetic the file that the root writes at the end of a run
    does not depend on the decomposition: for every [Px x Py] mesh that
    divides the grid evenly, with the gather tables of the even split, it
    is the file a single worker owning the whole grid writes; and no other
    rank writes a line. *)
Theorem Output_is_independent_of_the_decomposition
    (K : Type) (A : Arith K) (L : @ArithLaws K A)
    (g : Par.Model K) (Px Py nxr nyr : nat) (U0 V0 : list K) :
  0 < Px -> 0 < Py ->
  Par.GetLocNxr g = Px * nxr ->
  Par.GetLocNyr g = Py * nyr ->
  World.WriteVelocityFile (Px * Py) (World.CartLayout g Px Py) (World.Run g Px Py U0 V0) 0 =
  World.WriteVelocityFile 1 (World.CartLayout g 1 1) (World.Run g 1 1 U0 V0) 0 /\
  forall r, r <> 0 ->
    World.WriteVelocityFile (Px * Py) (World.CartLayout g Px Py) (World.Run g Px Py U0 V0) r = [].
Proof.
  intros HPx HPy HX HY.
  destruct (@Run_inv K A L g Px Py nxr nyr HPx HPy HX HY U0 V0) as (_ & _ & _ & HU & HV).
  set (w := World.Run g Px Py U0 V0) in *. set (wG := World.Run g 1 1 U0 V0) in *.
  unfold World.WriteVelocityFile.
  assert (Hlay : forall r,
             layout_ok (World.CartLayout g Px Py r) (Px * Py) /\
             blocks_of (World.CartLayout g Px Py r) (Px * Py) (fun q => Par.U (w q)) (Par.U (wG 0)) /\
             blocks_of (World.CartLayout g Px Py r) (Px * Py) (fun q => Par.V (w q)) (Par.V (wG 0))).
  { intros r. split; [apply (@CartLayout_ok K g Px Py nxr nyr); assumption|].
    split; apply (@CartLayout_blocks K A g Px Py nxr nyr); assumption. }
  split.
  - destruct (Hlay 0) as (Hok & HBU & HBV).
    rewrite (proj1 (@WriteVelocityFile_writes_the_padded_fields_lemma K A
                      (World.CartLayout g Px Py 0) (Px * Py)
                      (fun q => Par.U (w q)) (fun q => Par.V (w q))
                      (Par.U (wG 0)) (Par.V (wG 0)) Hok HBU HBV) eq_refl).
    assert (H1 : 0 < 1) by lia.
    assert (HX1 : Par.GetLocNxr g = 1 * (Px * nxr)) by lia.
    assert (HY1 : Par.GetLocNyr g = 1 * (Py * nyr)) by lia.
    assert (Hok1 : layout_ok (World.CartLayout g 1 1 0) 1)
      by exact (@CartLayout_ok K g 1 1 (Px * nxr) (Py * nyr) H1 H1 HX1 HY1 0).
    assert (HBU1 : blocks_of (World.CartLayout g 1 1 0) 1 (fun q => Par.U (wG q)) (Par.U (wG 0)))
      by exact (@CartLayout_blocks K A g 1 1 (Px * nxr) (Py * nyr) H1 H1 HX1 HY1 0 _ _
                  (@agree_single K A (Px * nxr) (Py * nyr) (fun q => Par.U (wG q)))).
    assert (HBV1 : blocks_of (World.CartLayout g 1 1 0) 1 (fun q => Par.V (wG q)) (Par.V (wG 0)))
      by exact (@CartLayout_blocks K A g 1 1 (Px * nxr) (Py * nyr) H1 H1 HX1 HY1 0 _ _
                  (@agree_single K A (Px * nxr) (Py * nyr) (fun q => Par.V (wG q)))).
    rewrite (proj1 (@WriteVelocityFile_writes_the_padded_fields_lemma K A
                      (World.CartLayout g 1 1 0) 1
                      (fun q => Par.U (wG q)) (fun q => Par.V (wG q))
                      (Par.U (wG 0)) (Par.V (wG 0)) Hok1 HBU1 HBV1) eq_refl).
    reflexivity.
  - intros r Hr. destruct (Hlay r) as (Hok & HBU & HBV).
    apply (proj2 (@WriteVelocityFile_writes_the_padded_fields_lemma K A
                    (World.CartLayout g Px Py r) (Px * Py)
                    (fun q => Par.U (w q)) (fun q => Par.V (w q))
                    (Par.U (wG 0)) (Par.V (wG 0)) Hok HBU HBV)).
    exact Hr.
Qed.

Lemma LayoutExample_ok : layout_ok LayoutExample.lay 4.
Proof.
  unfold layout_ok. cbv zeta. split; [reflexivity|]. split.
  - intros k Hk. do 4 (destruct k as [|k]; [cbn; lia|]). lia.
  - intros k k' Hk Hk' Hne.
    do 4 (destruct k as [|k]; [do 4 (destruct k' as [|k']; [cbn; lia|]); lia|]). lia.
Qed.

Lemma LayoutExample_blocks :
  blocks_of LayoutExample.lay 4 LayoutExample.sentU Examples.U0 /\
  blocks_of LayoutExample.lay 4 LayoutExample.sentV Examples.V0.
Proof.
  split; unfold blocks_of; cbv zeta; (split; [
    intros k i j Hk; do 4 (destruct k as [|k]; [
      cbn [Par.entry Par.GetRankNxrMap Par.GetRankNyrMap LayoutExample.lay nth];
      intros Hi Hj; do 2 (destruct i as [|i]; [do 2 (destruct j as [|j]; [reflexivity|]); lia|]); lia|]); lia
  | intros y x Hy Hx; cbn in Hy, Hx;
    do 4 (destruct y as [|y]; [
      do 4 (destruct x as [|x]; [
        first [ exists 0; cbn; lia | exists 1; cbn; lia | exists 2; cbn; lia | exists 3; cbn; lia ] |]); lia |]); lia ]).
Qed.

Lemma AssembleMatrix_places_every_block_witness :
  layout_ok LayoutExample.lay 4 /\ matrix_of 4 4 LayoutExample.M0 /\
  Par.rd2 (Par.AssembleMatrix LayoutExample.lay 4 LayoutExample.sentU LayoutExample.M0)
          (Par.entry (Par.GetRankDisplsYMap LayoutExample.lay) 3 + 1)
          (Par.entry (Par.GetRankDisplsXMap LayoutExample.lay) 3 + 0) =
  rd (LayoutExample.sentU 3) (0 * Par.entry (Par.GetRankNyrMap LayoutExample.lay) 3 + 1) /\
  Par.AssembleMatrix LayoutExample.lay 4 LayoutExample.sentU LayoutExample.M0 =
  [[1; 5; 9; 13]; [2; 6; 10; 14]; [3; 7; 11; 15]; [4; 8; 12; 16]]%Z.
Proof.
  assert (HM : matrix_of 4 4 LayoutExample.M0).
  { split; [reflexivity|]. intros y Hy. do 4 (destruct y as [|y]; [reflexivity|]). lia. }
  split; [exact LayoutExample_ok|]. split; [exact HM|]. split; [|vm_compute; reflexivity].
  destruct (proj1 (@AssembleMatrix_places_every_block Z ArithZ LayoutExample.lay 4
                     LayoutExample.sentU LayoutExample.M0 LayoutExample_ok HM) eq_refl)
    as (_ & Hcell & _).
  exact (Hcell 3 0 1 ltac:(lia) ltac:(cbn; lia) ltac:(cbn; lia)).
Defined.

Lemma WriteVelocityFile_writes_the_padded_fields_witness :
  layout_ok LayoutExample.lay 4 /\
  blocks_of LayoutExample.lay 4 LayoutExample.sentU Examples.U0 /\
  blocks_of LayoutExample.lay 4 LayoutExample.sentV Examples.V0 /\
  Par.WriteVelocityFile LayoutExample.lay 4 LayoutExample.sentU LayoutExample.sentV =
  rendered_field 6 6 Examples.U0 "U"%char ++ rendered_field 6 6 Examples.V0 "V"%char /\
  nth 2 (rendered_field 6 6 Examples.U0 "U"%char) (Par.Title Z "U"%char) =
  Par.Cells [Par.IntTok Z 0; Par.DblTok 1%Z; Par.DblTok 5%Z; Par.DblTok 9%Z; Par.DblTok 13%Z;
             Par.IntTok Z 0].
Proof.
  split; [exact LayoutExample_ok|].
  split; [exact (proj1 LayoutExample_blocks)|]. split; [exact (proj2 LayoutExample_blocks)|].
  split; [|vm_compute; reflexivity].
  exact (proj1 (@WriteVelocityFile_writes_the_padded_fields Z ArithZ LayoutExample.lay 4
                  LayoutExample.sentU LayoutExample.sentV Examples.U0 Examples.V0
                  LayoutExample_ok (proj1 LayoutExample_blocks) (proj2 LayoutExample_blocks))
               eq_refl).
Defined.

Lemma Output_is_independent_of_the_decomposition_witness :
  Par.GetLocNxr Examples.g = 2 * 2 /\ Par.GetLocNyr Examples.g = 2 * 2 /\
  World.WriteVelocityFile (2 * 2) (World.CartLayout Examples.g 2 2)
    (World.Run Examples.g 2 2 Examples.U0 Examples.V0) 0 =
  World.WriteVelocityFile 1 (World.CartLayout Examples.g 1 1)
    (World.Run Examples.g 1 1 Examples.U0 Examples.V0) 0 /\
  nth 2 (World.WriteVelocityFile 1 (World.CartLayout Examples.g 1 1)
           (World.Run Examples.g 1 1 Examples.U0 Examples.V0) 0) (Par.Title Z "U"%char) =
  Par.Cells [Par.IntTok Z 0; Par.DblTok (-3668)%Z; Par.DblTok (-643644)%Z;
             Par.DblTok (-901761)%Z; Par.DblTok (-7838965)%Z; Par.IntTok Z 0].
Proof.
  split; [reflexivity|]. split; [reflexivity|]. split; [|vm_compute; reflexivity].
  exact (proj1 (@Output_is_independent_of_the_decomposition Z ArithZ ArithLawsZ
                  Examples.g 2 2 2 2 Examples.U0 Examples.V0
                  ltac:(lia) ltac:(lia) eq_refl eq_refl)).
Defined.

(** ** The whole program, from the initial field to the last step *)

Section Program.
Context {K : Type} {A : Arith K} {L : @ArithLaws K A}.

Hypothesis of_int_add : forall a b : Z, of_int (a + b) = add (of_int a) (of_int b) :> K.

Variable g : Par.Model K.
Variables Px Py nxr nyr : nat.
Hypothesis HPx : 0 < Px.
Hypothesis HPy : 0 < Py.
Hypothesis HX : Par.GetLocNxr g = Px * nxr.
Hypothesis HY : Par.GetLocNyr g = Py * nyr.

Lemma program_start_wf (P Q q : nat) :
  wf_worker (World.CartModel g P Q q) (program_start g P Q q) /\
  operators_built (World.CartModel g P Q q) (program_start g P Q q).
Proof.
  set (m := World.CartModel g P Q q). unfold program_start. fold m.
  assert (HU : length (Par.U (Par.Burgers2P_new m)) = Par.GetLocNyr m * Par.GetLocNxr m)
    by apply length_alloc.
  assert (HV : length (Par.V (Par.Burgers2P_new m)) = Par.GetLocNyr m * Par.GetLocNxr m)
    by apply length_alloc.
  split.
  - unfold wf_worker, caches_allocated, Par.SetMatrixCoefficients. cbv zeta.
    cbn [Par.upVel Par.downVel Par.leftVel Par.rightVel Par.U Par.V Par.set_coeffs].
    rewrite (Par_SetInitialVelocity_same m _ HU HV).
    rewrite (Par_SetInitialVelocity_cells m _ HU HV).
    unfold Par.SetInitialVelocity. cbv zeta.
    cbn [Par.upVel Par.downVel Par.leftVel Par.rightVel Par.set_UV Par.Burgers2P_new].
    rewrite !length_alloc, !length_tabulate. repeat split.
  - apply SetMatrixCoefficients_built.
    unfold coeffs_allocated, Par.SetInitialVelocity, Par.set_UV, Par.Burgers2P_new. cbv zeta.
    cbn [Par.dVel_dx_2_coeffs Par.dVel_dy_2_coeffs Par.dVel_dx_coeffs Par.dVel_dy_coeffs].
    rewrite !length_alloc. repeat split.
Qed.

Lemma program_start_fields (P Q q : nat) :
  let m := World.CartModel g P Q q in
  Par.U (program_start g P Q q) = Par.U (Par.SetInitialVelocity m (Par.Burgers2P_new m)) /\
  Par.V (program_start g P Q q) = Par.V (Par.SetInitialVelocity m (Par.Burgers2P_new m)).
Proof. split; reflexivity. Qed.

Lemma program_start_inv :
  world_inv g Px Py nxr nyr (program_start g Px Py) (program_start g 1 1).
Proof.
  unfold world_inv. split; [|split; [|split; [|split]]].
  - intros px py Hpx Hpy. apply program_start_wf.
  - apply program_start_wf.
  - apply program_start_wf.
  - intros px py c r Hpx Hpy Hc Hr.
    destruct (program_start_fields Px Py (px * Py + py)) as (-> & _).
    destruct (program_start_fields 1 1 0) as (-> & _).
    set (m := World.CartModel g Px Py (px * Py + py)). set (mg := World.CartModel g 1 1 0).
    assert (Em : Par.GetLocNyr m = nyr /\ Par.GetLocNxr m = nxr /\
                 Par.GetDisplX m = px * nxr /\ Par.GetDisplY m = py * nyr).
    { unfold m. rewrite (@CartModel_at K g Px Py nxr nyr HPx HPy HX HY px py Hpx Hpy).
      repeat split. }
    assert (Eg : Par.GetLocNyr mg = Py * nyr /\ Par.GetLocNxr mg = Px * nxr /\
                 Par.GetDisplX mg = 0 /\ Par.GetDisplY mg = 0).
    { unfold mg. rewrite (@CartModel_single K g Px Py nxr nyr HX HY). repeat split. }
    destruct Em as (E1 & E2 & E3 & E4). destruct Eg as (G1 & G2 & G3 & G4).
    pose proof (@Par_initial_tile K A L of_int_add m mg (Par.Burgers2P_new m) (Par.Burgers2P_new mg)
                  c r) as T.
    rewrite E1, E2, E3, E4, G1, G2 in T. unfold gidx.
    apply T; try apply length_alloc; try reflexivity; try assumption; try nia.
    + unfold Par.Burgers2P_new. cbn [Par.U]. rewrite length_alloc, E1, E2. reflexivity.
    + unfold Par.Burgers2P_new. cbn [Par.V]. rewrite length_alloc, E1, E2. reflexivity.
    + unfold Par.Burgers2P_new. cbn [Par.U]. rewrite length_alloc, G1, G2. reflexivity.
    + unfold Par.Burgers2P_new. cbn [Par.V]. rewrite length_alloc, G1, G2. reflexivity.
  - intros px py c r Hpx Hpy Hc Hr.
    destruct (program_start_fields Px Py (px * Py + py)) as (_ & ->).
    destruct (program_start_fields 1 1 0) as (_ & ->).
    set (m := World.CartModel g Px Py (px * Py + py)). set (mg := World.CartModel g 1 1 0).
    assert (Em : Par.GetLocNyr m = nyr /\ Par.GetLocNxr m = nxr /\
                 Par.GetDisplX m = px * nxr /\ Par.GetDisplY m = py * nyr).
    { unfold m. rewrite (@CartModel_at K g Px Py nxr nyr HPx HPy HX HY px py Hpx Hpy).
      repeat split. }
    assert (Eg : Par.GetLocNyr mg = Py * nyr /\ Par.GetLocNxr mg = Px * nxr /\
                 Par.GetDisplX mg = 0 /\ Par.GetDisplY mg = 0).
    { unfold mg. rewrite (@CartModel_single K g Px Py nxr nyr HX HY). repeat split. }
    destruct Em as (E1 & E2 & E3 & E4). destruct Eg as (G1 & G2 & G3 & G4).
    rewrite !Par_SetInitialVelocity_same by apply length_alloc.
    pose proof (@Par_initial_tile K A L of_int_add m mg (Par.Burgers2P_new m) (Par.Burgers2P_new mg)
                  c r) as T.
    rewrite E1, E2, E3, E4, G1, G2 in T. unfold gidx.
    apply T; try reflexivity; try assumption; try nia.
    + unfold Par.Burgers2P_new. cbn [Par.U]. rewrite length_alloc, E1, E2. reflexivity.
    + unfold Par.Burgers2P_new. cbn [Par.V]. rewrite length_alloc, E1, E2. reflexivity.
    + unfold Par.Burgers2P_new. cbn [Par.U]. rewrite length_alloc, G1, G2. reflexivity.
    + unfold Par.Burgers2P_new. cbn [Par.V]. rewrite length_alloc, G1, G2. reflexivity.
Qed.

Lemma program_inv (n : nat) :
  world_inv g Px Py nxr nyr
    (for_loop n (fun _ w' => World.WorldStep (World.CartModel g Px Py) w') (program_start g Px Py))
    (for_loop n (fun _ w' => World.WorldStep (World.CartModel g 1 1) w') (program_start g 1 1)).
Proof.
  induction n as [|n IH]; cbn [for_loop].
  - apply program_start_inv.
  - apply (@WorldStep_inv K A L g Px Py nxr nyr HPx HPy HX HY). exact IH.
Qed.

End Program.

(** Constructing the workers, setting the initial field and integrating
    gives the same velocities however the grid is split: after
    [SetInitialVelocity] and [SetIntegratedVelocity] on a [Px x Py] mesh
    that divides the grid evenly, every cell a worker holds equals the
    cell of the same global position computed by one worker owning the
    whole grid. *)
Theorem Integrated_field_is_independent_of_the_decomposition
    (K : Type) (A : Arith K) (L : @ArithLaws K A)
    (g : Par.Model K) (Px Py nxr nyr px py c r : nat) :
  (forall a b : Z, of_int (a + b) = add (of_int a) (of_int b) :> K) ->
  Par.GetLocNxr g = Px * nxr -> Par.GetLocNyr g = Py * nyr ->
  px < Px -> py < Py -> c < nxr -> r < nyr ->
  let run := fun P Q =>
    World.SetIntegratedVelocity (World.CartModel g P Q) (Par.GetNt g)
      (fun q => Par.SetInitialVelocity (World.CartModel g P Q q)
                  (Par.Burgers2P_new (World.CartModel g P Q q))) in
  rd (Par.U (run Px Py (px * Py + py))) (c * nyr + r) =
  rd (Par.U (run 1 1 0)) ((px * nxr + c) * (Py * nyr) + (py * nyr + r)) /\
  rd (Par.V (run Px Py (px * Py + py))) (c * nyr + r) =
  rd (Par.V (run 1 1 0)) ((px * nxr + c) * (Py * nyr) + (py * nyr + r)).
Proof.
  intros Hadd HX HY Hpx Hpy Hc Hr run.
  assert (HPx : 0 < Px) by lia. assert (HPy : 0 < Py) by lia.
  pose proof (@program_inv K A L Hadd g Px Py nxr nyr HPx HPy HX HY (Par.GetNt g - 1))
    as (_ & _ & _ & HU & HV).
  split; [apply (HU px py c r Hpx Hpy Hc Hr) | apply (HV px py c r Hpx Hpy Hc Hr)].
Qed.

Lemma Integrated_field_is_independent_of_the_decomposition_witness :
  (forall a b : Z, of_int (a + b) = add (of_int a) (of_int b) :> Qc) /\
  Par.GetLocNxr InitialExample.mg = 2 * 2 /\ Par.GetLocNyr InitialExample.mg = 2 * 2 /\
  (let run := fun P Q =>
     World.SetIntegratedVelocity (World.CartModel InitialExample.mg P Q)
       (Par.GetNt InitialExample.mg)
       (fun q => Par.SetInitialVelocity (World.CartModel InitialExample.mg P Q q)
                   (Par.Burgers2P_new (World.CartModel InitialExample.mg P Q q))) in
   rd (Par.U (run 2 2 (1 * 2 + 1))) (0 * 2 + 1) =
   rd (Par.U (run 1 1 0)) ((1 * 2 + 0) * (2 * 2) + (1 * 2 + 1)) /\
   rd (Par.V (run 2 2 (1 * 2 + 1))) (0 * 2 + 1) =
   rd (Par.V (run 1 1 0)) ((1 * 2 + 0) * (2 * 2) + (1 * 2 + 1))).
Proof.
  split; [exact of_int_add_Qc|]. split; [reflexivity|]. split; [reflexivity|].
  exact (@Integrated_field_is_independent_of_the_decomposition Qc ArithQc ArithLawsQc
           InitialExample.mg 2 2 2 2 1 1 0 1 of_int_add_Qc eq_refl eq_refl
           ltac:(lia) ltac:(lia) ltac:(lia) ltac:(lia)).
Defined.

(** ** [SetNonLinearTerms] of the single-process variant *)

Section SerNonLinear.
Context {K : Type} {A : Arith K}.

Lemma SerCell_split (m : Ser.Model K) (Vel Other : list K) (sel : bool) (i k : nat) :
  SerCell m Vel Other sel i k =
  SerNonLinearUpdate m Vel Other sel i k (SerLinearCell m Vel i k).
Proof.
  unfold SerCell, SerNonLinearUpdate, SerLinearCell. cbv zeta.
  destruct (Ser.NonLinearCell m Vel Other sel i k) as [[[VV VO] VVm] VOm].
  reflexivity.
Qed.

(** [SetNonLinearTerms] updates every cell of the buffer once. *)
Lemma SetNonLinearTerms_eq (m : Ser.Model K) (Vel Other NextVel : list K) (sel : bool) :
  length NextVel = (Ser.GetNy m - 2) * (Ser.GetNx m - 2) ->
  Ser.SetNonLinearTerms m Vel Other NextVel sel =
  tabulate ((Ser.GetNy m - 2) * (Ser.GetNx m - 2))
    (fun idx => SerNonLinearUpdate m Vel Other sel
                  (idx / (Ser.GetNy m - 2)) (idx mod (Ser.GetNy m - 2)) (rd NextVel idx)).
Proof.
  intros Hl. unfold Ser.SetNonLinearTerms. cbv zeta.
  set (Nyr := Ser.GetNy m - 2) in *. set (Nxr := Ser.GetNx m - 2) in *.
  set (cell := fun (sel0 : bool) (i k : nat) (n : list K) =>
         let '(Vel_Vel, Vel_Other, Vel_Vel_Minus_1, Vel_Other_Minus_1) :=
           Ser.NonLinearCell m Vel Other sel0 i k in
         let n0 := upd n (i * Nyr + k)
                     (sub (rd n (i * Nyr + k))
                        (sub (sub (add Vel_Vel Vel_Other) Vel_Vel_Minus_1) Vel_Other_Minus_1)) in
         let n1 := upd n0 (i * Nyr + k) (mul (rd n0 (i * Nyr + k)) (Ser.GetDt m)) in
         upd n1 (i * Nyr + k) (add (rd n1 (i * Nyr + k)) (rd Vel (i * Nyr + k)))).
  assert (Hcell : forall sel0 i k n, i * Nyr + k < length n ->
             cell sel0 i k n =
             upd n (i * Nyr + k) (SerNonLinearUpdate m Vel Other sel0 i k (rd n (i * Nyr + k)))).
  { intros sel0 i k n Hn. unfold cell, SerNonLinearUpdate. fold Nyr.
    destruct (Ser.NonLinearCell m Vel Other sel0 i k) as [[[VV VO] VVm] VOm].
    rewrite !rd_upd_eq by (rewrite ?length_upd; exact Hn).
    rewrite !upd_upd. reflexivity. }
  assert (Hloops : forall sel0,
             for_loop Nxr (fun i n =>
               for_loop ((Nyr + (8 - 1)) / 8) (fun jb n0 =>
                 for_loop 8 (fun kk n1 =>
                   if jb * 8 + kk <? Nyr then cell sel0 i (jb * 8 + kk) n1 else n1) n0) n) NextVel
             = tabulate (Nyr * Nxr)
                 (fun idx => SerNonLinearUpdate m Vel Other sel0 (idx / Nyr) (idx mod Nyr)
                               (rd NextVel idx))).
  { intros sel0.
    (* after the columns before [n], the cells of those columns are updated *)
    assert (Hcols : forall n, n <= Nxr ->
               let a := for_loop n (fun i n0 =>
                          for_loop Nyr (fun k n1 => cell sel0 i k n1) n0) NextVel in
               length a = Nyr * Nxr /\
               forall c r, c < Nxr -> r < Nyr ->
                 rd a (c * Nyr + r) =
                 if c <? n then SerNonLinearUpdate m Vel Other sel0 c r (rd NextVel (c * Nyr + r))
                 else rd NextVel (c * Nyr + r)).
    { induction n as [|n IH]; intros Hn; cbn [for_loop]; cbv zeta.
      - split; [exact Hl|]. intros c r _ _. reflexivity.
      - destruct IH as (IHl & IHr); [lia|].
        set (a := for_loop n (fun i n0 => for_loop Nyr (fun k n1 => cell sel0 i k n1) n0) NextVel) in *.
        (* within column [n], after the rows before [j] *)
        assert (Hrows : forall j, j <= Nyr ->
                   let b := for_loop j (fun k n1 => cell sel0 n k n1) a in
                   length b = Nyr * Nxr /\
                   forall c r, c < Nxr -> r < Nyr ->
                     rd b (c * Nyr + r) =
                     if (c =? n) && (r <? j)
                     then SerNonLinearUpdate m Vel Other sel0 c r (rd NextVel (c * Nyr + r))
                     else rd a (c * Nyr + r)).
        { induction j as [|j IHj]; intros Hj; cbn [for_loop]; cbv zeta.
          - split; [exact IHl|]. intros c r _ _. rewrite andb_false_r. reflexivity.
          - destruct IHj as (Jl & Jr); [lia|].
            set (b := for_loop j (fun k n1 => cell sel0 n k n1) a) in *.
            assert (Hin : n * Nyr + j < length b) by (rewrite Jl; nia).
            rewrite (Hcell sel0 n j b Hin).
            split; [rewrite length_upd; exact Jl|].
            intros c r Hc Hr.
            destruct (Nat.eq_dec (c * Nyr + r) (n * Nyr + j)) as [E|NE].
            + apply cm_inj in E; [|exact Hr|lia]. destruct E as (-> & ->).
              rewrite rd_upd_eq by exact Hin.
              rewrite Nat.eqb_refl. destruct (Nat.ltb_spec j (S j)); [|lia]. cbn [andb].
              rewrite (Jr n j Hc Hr).
              destruct (Nat.ltb_spec j j); [lia|]. rewrite andb_false_r.
              rewrite (IHr n j Hc Hr). destruct (Nat.ltb_spec n n); [lia|]. reflexivity.
            + rewrite rd_upd_neq by (intros E; apply NE; symmetry; exact E).
              rewrite (Jr c r Hc Hr).
              destruct (Nat.eqb_spec c n) as [->|Hcn]; cbn [andb]; [|reflexivity].
              destruct (Nat.ltb_spec r j); destruct (Nat.ltb_spec r (S j)); try lia; reflexivity. }
        destruct (Hrows Nyr (le_n _)) as (Rl & Rr). cbv zeta in Rl, Rr.
        split; [exact Rl|].
        intros c r Hc Hr. rewrite (Rr c r Hc Hr).
        destruct (Nat.eqb_spec c n) as [->|Hcn]; cbn [andb].
        * destruct (Nat.ltb_spec r Nyr); [|lia]. destruct (Nat.ltb_spec n (S n)); [|lia].
          reflexivity.
        * rewrite (IHr c r Hc Hr).
          destruct (Nat.ltb_spec c n); destruct (Nat.ltb_spec c (S n)); try lia; reflexivity. }
    rewrite (@for_loop_ext _ _ (fun i n0 => for_loop Nyr (fun k n1 => cell sel0 i k n1) n0)).
    2:{ intros i x Hi.
        change (for_loop ((Nyr + (8 - 1)) / 8)
                  (fun jb n0 => for_loop 8
                     (fun kk n1 => if jb * 8 + kk <? Nyr then cell sel0 i (jb * 8 + kk) n1 else n1) n0) x)
          with (for_loop ((Nyr + (8 - 1)) / 8)
                  (fun jb n0 => for_loop 8
                     (fun kk n1 => if jb * 8 + kk <? Nyr
                                   then (fun k => cell sel0 i k) (jb * 8 + kk) n1 else n1) n0) x).
        apply (@for_loop_blocked _ Nyr 8 (fun k => cell sel0 i k) x). lia. }
    destruct (Hcols Nxr (le_n _)) as (Cl & Cr). cbv zeta in Cl, Cr.
    apply rd_ext.
    - rewrite Cl, length_tabulate. reflexivity.
    - intros idx Hidx. rewrite Cl in Hidx. rewrite rd_tabulate by exact Hidx.
      assert (HN : 0 < Nyr) by (destruct Nyr; [simpl in Hidx; lia|lia]).
      assert (Hr : idx mod Nyr < Nyr) by (apply Nat.mod_upper_bound; lia).
      assert (Hc : idx / Nyr < Nxr) by (apply Nat.Div0.div_lt_upper_bound; exact Hidx).
      assert (E : idx = idx / Nyr * Nyr + idx mod Nyr)
        by (pose proof (Nat.div_mod_eq idx Nyr); lia).
      rewrite E at 1. rewrite (Cr _ _ Hc Hr).
      destruct (Nat.ltb_spec (idx / Nyr) Nxr); [|lia]. rewrite <- E. reflexivity. }
  destruct sel; apply Hloops.
Qed.

End SerNonLinear.

(** [SetNonLinearTerms], whose only call is commented out, is no missing
    step: the update it would apply to a buffer of linear terms (subtract
    the four nonlinear products, scale by [dt], add [Vel]) is the one the
    [switch] of the active [SetLinearTerms] already applies.  For a buffer
    of the right extent, [SetLinearTerms] returns what [SetNonLinearTerms]
    returns on the buffer of the sums of the linear terms. *)
Theorem SetLinearTerms_includes_SetNonLinearTerms (K : Type) (A : Arith K)
    (m : Ser.Model K) (Vel Other NextVel : list K) (sel : bool) :
  length NextVel = (Ser.GetNy m - 2) * (Ser.GetNx m - 2) ->
  Ser.SetLinearTerms m Vel Other NextVel sel =
  Ser.SetNonLinearTerms m Vel Other
    (tabulate ((Ser.GetNy m - 2) * (Ser.GetNx m - 2))
       (fun idx => SerLinearCell m Vel (idx / (Ser.GetNy m - 2)) (idx mod (Ser.GetNy m - 2))))
    sel.
Proof.
  intros Hl. rewrite SetLinearTerms_eq by exact Hl.
  rewrite SetNonLinearTerms_eq by apply length_tabulate.
  apply rd_ext.
  - rewrite !length_tabulate. reflexivity.
  - intros idx Hidx. rewrite length_tabulate in Hidx.
    rewrite !rd_tabulate by exact Hidx. apply SerCell_split.
Qed.

Lemma SetLinearTerms_includes_SetNonLinearTerms_witness :
  length (Ser.NextU Examples.ser_st) = (Ser.GetNy Examples.ser_m - 2) * (Ser.GetNx Examples.ser_m - 2) /\
  Ser.SetLinearTerms Examples.ser_m Examples.U0 Examples.V0 (Ser.NextU Examples.ser_st) true =
  Ser.SetNonLinearTerms Examples.ser_m Examples.U0 Examples.V0
    (tabulate ((Ser.GetNy Examples.ser_m - 2) * (Ser.GetNx Examples.ser_m - 2))
       (fun idx => SerLinearCell Examples.ser_m Examples.U0
                     (idx / (Ser.GetNy Examples.ser_m - 2)) (idx mod (Ser.GetNy Examples.ser_m - 2))))
    true /\
  firstn 4 (Ser.SetLinearTerms Examples.ser_m Examples.U0 Examples.V0 (Ser.NextU Examples.ser_st) true)
  = [-3; -16; -64; -127]%Z.
Proof.
  split; [reflexivity|]. split; [|vm_compute; reflexivity].
  exact (@SetLinearTerms_includes_SetNonLinearTerms Z ArithZ Examples.ser_m Examples.U0 Examples.V0
           (Ser.NextU Examples.ser_st) true eq_refl).
Defined.
